(** * Sudoku-AI: the board and the hill-climbing solvers

    A shallow embedding of [sudoku/board.py], [parse.py] and
    [sudoku/solve.py].  Tiles are integers ([Z], without the overflow of
    the array's integer type), a numpy 2-D array is the list of its rows,
    a Python exception is the [Raise] branch of [result], a file is the
    list of its lines, a line the sequence of its characters (code points
    below 256), and the module-level [random] generator is an explicit
    random source threaded through every stochastic operation.  Objects
    are values: where the source mutates a board in place, the model
    returns the new board.  The array of the board holds 64-bit integers:
    the theorems on what a load stores are stated for files whose integers
    are 64-bit ones ([fits_int64]), where the array stores them as they
    are. *)

From Stdlib Require Import ZArith QArith Ascii.
From stdpp Require Import base decidable option list list_numbers gmap strings pretty.
From Equations Require Import Equations.

Close Scope Q_scope.
Local Open Scope Z_scope.

(** ** Exceptions and the result monad *)

Inductive exn : Type :=
  | AssertionError
  | IndexError
  | ValueError
  | ZeroDivisionError
  | TypeError
  | AttributeError.

Inductive result (A : Type) : Type :=
  | Ok (a : A)
  | Raise (e : exn).
Arguments Ok {A} a.
Arguments Raise {A} e.

#[global] Instance result_ret : MRet result := λ A a, Ok a.
#[global] Instance result_bind : MBind result := λ A B f m,
  match m with
  | Ok a => f a
  | Raise e => Raise e
  end.

(** ** numpy arrays *)

(** A 2-D array is the list of its rows. *)
Abbreviation matrix := (list (list Z)).

(** [values.shape == (rows, cols)] *)
Definition shape_is (rows cols : nat) (m : matrix) : bool :=
  bool_decide (length m = rows) && forallb (λ r, bool_decide (length r = cols)) m.

(** An integer index into an axis of length [n]: numpy wraps a negative
    index once and raises IndexError outside [-n, n). *)
Definition np_index (n : nat) (i : Z) : result nat :=
  if bool_decide (0 ≤ i < Z.of_nat n) then Ok (Z.to_nat i)
  else if bool_decide (- Z.of_nat n ≤ i < 0) then Ok (Z.to_nat (i + Z.of_nat n))
  else Raise IndexError.

(** [m[y]] *)
Definition np_row (m : matrix) (y : Z) : result (list Z) :=
  j ← np_index (length m) y;
  match m !! j with
  | Some r => Ok r
  | None => Raise IndexError
  end.

(** [m[y, x]] *)
Definition np_get (m : matrix) (y x : Z) : result Z :=
  r ← np_row m y;
  i ← np_index (length r) x;
  match r !! i with
  | Some v => Ok v
  | None => Raise IndexError
  end.

(** [m[y, x] = v] *)
Definition np_set (m : matrix) (y x : Z) (v : Z) : result matrix :=
  j ← np_index (length m) y;
  match m !! j with
  | Some r =>
      i ← np_index (length r) x;
      Ok (<[j := <[i := v]> r]> m)
  | None => Raise IndexError
  end.

(** [m[y] = row], the row having the width of the array *)
Definition np_set_row (m : matrix) (y : Z) (row : list Z) : result matrix :=
  j ← np_index (length m) y;
  Ok (<[j := row]> m).

(** [m[:, i]] for a column index [i] taken from [range] *)
Definition np_col (m : matrix) (i : nat) : result (list Z) :=
  match mapM (λ r : list Z, r !! i) m with
  | Some c => Ok c
  | None => Raise IndexError
  end.

(** [m[v0:v1, h0:h1].flatten()]: slices truncate, they never raise *)
Definition np_slice_flat (m : matrix) (v0 v1 h0 h1 : nat) : list Z :=
  concat ((λ r : list Z, take (h1 - h0) (drop h0 r)) <$> take (v1 - v0) (drop v0 m)).

(** ** parse.py *)

(** The white space on which [str.split()] splits, [str.isspace]: of the
    characters below 256, the ASCII ones (9-13, 28-32), the next-line
    character (133) and the no-break space (160). *)
Definition is_space (c : ascii) : bool :=
  let n := nat_of_ascii c in
  ((9 <=? n) && (n <=? 13) || (28 <=? n) && (n <=? 32)
   || (n =? 133) || (n =? 160))%nat.

(** [text.split()]: the maximal runs of non-space characters. *)
Fixpoint split_ws (cur : string) (text : string) : list string :=
  match text with
  | EmptyString => if bool_decide (cur = EmptyString) then [] else [cur]
  | String c rest =>
      if is_space c
      then (if bool_decide (cur = EmptyString) then [] else [cur]) ++ split_ws EmptyString rest
      else split_ws (cur +:+ String c EmptyString) rest
  end.

Definition digit_of (c : ascii) : option Z :=
  let n := nat_of_ascii c in
  if ((48 <=? n) && (n <=? 57))%nat then Some (Z.of_nat (n - 48)) else None.

(** The digits of a decimal literal as [int] reads them: single
    underscores are allowed between two digits. *)
Fixpoint int_digits (acc : Z) (after_digit : bool) (s : string) : option Z :=
  match s with
  | EmptyString => if after_digit then Some acc else None
  | String c rest =>
      match digit_of c with
      | Some d => int_digits (10 * acc + d) true rest
      | None =>
          if bool_decide (c = "_"%char) && after_digit
          then int_digits acc false rest
          else None
      end
  end.

(** The number of decimal digits in a literal; the sign and the
    underscores do not count. *)
Fixpoint digit_count (s : string) : Z :=
  match s with
  | EmptyString => 0
  | String c rest =>
      match digit_of c with Some _ => 1 | None => 0 end + digit_count rest
  end.

(** [sys.get_int_max_str_digits()], at its default: [int] raises
    ValueError on a literal with more digits. *)
Definition int_max_str_digits : Z := 4300.

(** [convert_safe(value)] with the default [t = int]: [int(value)], and
    [None] where [int] raises ValueError. *)
Definition convert_safe (value : string) : option Z :=
  if bool_decide (digit_count value ≤ int_max_str_digits)
  then
    match value with
    | String "+"%char rest => int_digits 0 false rest
    | String "-"%char rest => Z.opp <$> int_digits 0 false rest
    | _ => int_digits 0 false value
    end
  else None.

(** [_try_convert_seq(text)] with the default delimiter. *)
Definition _try_convert_seq (text : string) : list (option Z) :=
  let split := filter (λ x, x ≠ EmptyString) (split_ws EmptyString text) in
  convert_safe <$> split.

(** ** board.py *)

(** [Pos = namedtuple('Pos', 'x y')]; the fields are [pos.x], [pos.y]. *)
Record Pos : Type := mkPos { pos_x : Z; pos_y : Z }.

#[global] Instance Pos_eq_dec : EqDecision Pos.
Proof. solve_decision. Defined.

(** The [_unfilled] dictionary: an insertion-ordered association list. *)
Abbreviation dict := (list (nat * list nat)).

(** [d[k] = v] *)
Fixpoint dict_set (k : nat) (v : list nat) (d : dict) : dict :=
  match d with
  | [] => [(k, v)]
  | (k', v') :: d' =>
      if bool_decide (k = k') then (k, v) :: d' else (k', v') :: dict_set k v d'
  end.

(** [d[k]] *)
Fixpoint dict_get (k : nat) (d : dict) : option (list nat) :=
  match d with
  | [] => None
  | (k', v') :: d' => if bool_decide (k = k') then Some v' else dict_get k d'
  end.

Record Board : Type := mkBoard {
  _size : nat;
  _size_sq : nat;
  _board : matrix;
  _board_init : option matrix;
  _unfilled : dict
}.

Definition with_board (b : Board) (m : matrix) : Board :=
  mkBoard (_size b) (_size_sq b) m (_board_init b) (_unfilled b).

(** [Board.__init__]: on a negative size [math.sqrt] raises ValueError
    before the assertion compares; the fields hold the size and its root
    as natural numbers. *)
Definition Board_new (size : Z) : result Board :=
  if bool_decide (size < 0) then Raise ValueError
  else
    let size := Z.to_nat size in
    if bool_decide ((Nat.sqrt size) ^ 2 = size)%nat
    then Ok (mkBoard size (Nat.sqrt size) (replicate size (replicate size 0)) None [])
    else Raise AssertionError.

(** [Board._count_unfilled]: the loop, with its counters as arguments *)
Fixpoint _count_unfilled_loop (i num : nat) (unfilled : list nat) (area : list Z)
  : nat * list nat :=
  match area with
  | [] => (num, unfilled)
  | tile :: rest =>
      if bool_decide (tile = 0)
      then _count_unfilled_loop (S i) (S num) (unfilled ++ [i]) rest
      else _count_unfilled_loop (S i) num unfilled rest
  end.

Definition _count_unfilled (area : list Z) : nat * list nat :=
  _count_unfilled_loop 0 0 [] area.

(** [Board._init_from_file]: the loop over the lines of the file.  The
    working board is written line by line, before a later line fails.
    The row is stored as parsed, which is what the assignment into the
    array does with 64-bit integers ([fits_int64]). *)
Fixpoint _init_from_file_loop (size : nat) (line_num : nat) (board : matrix)
    (lines : list string) : result (bool * matrix) :=
  match lines with
  | [] => Ok (bool_decide (line_num = size), board)
  | line :: rest =>
      let data := _try_convert_seq line in
      if bool_decide (None ∈ data) || negb (bool_decide (length data = size))
      then Ok (false, board)
      else
        board' ← np_set_row board (Z.of_nat line_num) (default 0 <$> data);
        _init_from_file_loop size (S line_num) board' rest
  end.

Definition _init_from_file (b : Board) (lines : list string) : result (bool * Board) :=
  '(ok, m) ← _init_from_file_loop (_size b) 0 (_board b) lines;
  Ok (ok, with_board b m).

(** The loop of [set_init_state] that fills [_unfilled]. *)
Fixpoint init_unfilled (i : nat) (lines : matrix) (unfilled : dict) : dict :=
  match lines with
  | [] => unfilled
  | line :: rest =>
      let '(num, indexes) := _count_unfilled line in
      init_unfilled (S i) rest
        (if bool_decide (2 ≤ num)%nat then dict_set i indexes unfilled else unfilled)
  end.

(** [Board.set_init_state]; [file] is the content of the sample file at
    the assembled path, [None] when the path does not exist. *)
Definition set_init_state (b : Board) (file : option (list string))
  : result (bool * Board) :=
  match file with
  | None => Ok (false, b)
  | Some lines =>
      '(ok, b1) ← _init_from_file b lines;
      if ok : bool
      then Ok (true, mkBoard (_size b1) (_size_sq b1) (_board b1) (Some (_board b1))
                       (init_unfilled 0 (_board b1) (_unfilled b1)))
      else Ok (false, b1)
  end.

(** [Board.unfilled_by_row] *)
Definition unfilled_by_row (b : Board) : dict := _unfilled b.

(** [Board.unfilled_positions] *)
Definition unfilled_positions (b : Board) : list Pos :=
  flat_map (λ '(row, _),
              (λ index, mkPos (Z.of_nat index) (Z.of_nat row))
                <$> default [] (dict_get row (_unfilled b)))
           (_unfilled b).

(** [Board.values] *)
Definition values (b : Board) : matrix := _board b.

(** [Board.is_valid] *)
Definition is_valid (b : Board) (pos : Pos) : bool :=
  bool_decide (0 ≤ pos_x pos < Z.of_nat (_size b))
  && bool_decide (0 ≤ pos_y pos < Z.of_nat (_size b)).

(** [Board.at] *)
Definition at_ (b : Board) (pos : Pos) : result (option Z) :=
  if negb (is_valid b pos) then Ok None
  else v ← np_get (_board b) (pos_y pos) (pos_x pos); Ok (Some v).

(** [Board.is_initial] *)
Definition is_initial (b : Board) (pos : Pos) : result bool :=
  if negb (is_valid b pos) then Ok false
  else
    match _board_init b with
    | None => Raise TypeError
    | Some init => v ← np_get init (pos_y pos) (pos_x pos); Ok (negb (bool_decide (v = 0)))
    end.

(** The scan of [fill_board] and [fill_line]: some initial tile differs. *)
Definition line_changed (line_init line_new : list Z) : bool :=
  existsb (λ '(tile_init, tile_new),
             negb (bool_decide (tile_init = 0)) && negb (bool_decide (tile_init = tile_new)))
          (zip line_init line_new).

(** [Board.fill_board] *)
Definition fill_board (b : Board) (vals : matrix) : result (bool * Board) :=
  if negb (shape_is (_size b) (_size b) vals) then Ok (false, b)
  else
    match _board_init b with
    | None => Raise TypeError
    | Some init =>
        if existsb (λ '(line_init, line_new), line_changed line_init line_new)
                   (zip init vals)
        then Ok (false, b)
        else Ok (true, with_board b vals)
    end.

(** [Board.fill_line]; the function ends without a [return] on success,
    so the returned value is [None] there. *)
Definition fill_line (b : Board) (line_num : Z) (vals : list Z)
  : result (option bool * Board) :=
  if negb (bool_decide (length vals = _size b))
     || negb (bool_decide (0 ≤ line_num < Z.of_nat (_size b)))
  then Ok (Some false, b)
  else
    match _board_init b with
    | None => Raise TypeError
    | Some init =>
        line_init ← np_row init line_num;
        if line_changed line_init vals then Ok (Some false, b)
        else
          m ← np_set_row (_board b) line_num vals;
          Ok (None, with_board b m)
    end.

(** [Board.set] *)
Definition set (b : Board) (pos : Pos) (val : Z) : result (bool * Board) :=
  if negb (is_valid b pos) then Ok (false, b)
  else
    initial ← is_initial b pos;
    if initial : bool then Ok (false, b)
    else
      m ← np_set (_board b) (pos_y pos) (pos_x pos) val;
      Ok (true, with_board b m).

(** [Board.reset] *)
Definition reset (b : Board) : result Board :=
  match _board_init b with
  | None => Raise AttributeError
  | Some init => Ok (with_board b init)
  end.

(** [Board.bounds] *)
Definition bounds (b : Board) : nat * nat := (_size b, _size_sq b).

(** [Board.copy]: the model has values only, a copy is the board. *)
Definition copy (b : Board) : Board := b.

(** [Board.squares()] with [flatten=True] *)
Definition squares (b : Board) : list (list Z) :=
  let sq := _size_sq b in
  flat_map (λ hr,
    (λ vert, np_slice_flat (_board b) (vert * sq) ((vert + 1) * sq)
                                      (hr * sq) ((hr + 1) * sq))
      <$> seq 0 sq)
    (seq 0 sq).

(** [Board._check_unique]; [free] is a Python set of integers. *)
Fixpoint _check_unique_loop (free : gset Z) (area : list Z) : bool :=
  match area with
  | [] => true
  | x :: rest =>
      if bool_decide (x = 0) || negb (bool_decide (x ∈ free)) then false
      else _check_unique_loop (free ∖ {[x]}) rest
  end.

Definition _check_unique (area : list Z) : bool :=
  _check_unique_loop (list_to_set (seqZ 1 (Z.of_nat (length area)))) area.

(** The number of areas of a list that fail [_check_unique]. *)
Definition count_mistakes_in (areas : list (list Z)) : nat :=
  length (filter (λ a, _check_unique a = false) areas).

(** The columns [self._board[:, i]] for [i in range(self._size)]. *)
Definition columns_of (size : nat) (m : matrix) : result (list (list Z)) :=
  match mapM (λ i, match np_col m i with Ok c => Some c | Raise _ => None end)
             (seq 0 size) with
  | Some cs => Ok cs
  | None => Raise IndexError
  end.

(** [Board.check]: the pair (mistakes, ratio), the ratio a true division *)
Definition check (b : Board) : result (nat * Q) :=
  let rows := count_mistakes_in (_board b) in
  cols ← columns_of (_size b) (_board b);
  let mistakes := (rows + count_mistakes_in cols + count_mistakes_in (squares b))%nat in
  if bool_decide (3 * _size b = 0)%nat then Raise ZeroDivisionError
  else Ok (mistakes, Qmake (Z.of_nat mistakes) (Pos.of_nat (3 * _size b))).

(** [Board._count_digits]: the loop [while num > 0: num //= 10; rv += 1],
    which ends since [num // 10] is below a positive [num]. *)
Equations _count_digits_loop (num rv : Z) : Z by wf (Z.to_nat num) lt :=
  _count_digits_loop num rv with decide (0 < num) := {
    | left _ => _count_digits_loop (num / 10) (rv + 1)
    | right _ => rv }.
Next Obligation.
  assert (num / 10 < num) by (apply Z.div_lt; lia).
  assert (0 ≤ num / 10) by (apply Z.div_pos; lia). lia.
Qed.

(** [Board._count_digits] *)
Definition _count_digits (num : Z) : Z :=
  if bool_decide (num = 0) then 1 else _count_digits_loop num 0.

(** ** The random source *)

(** The functions of Python's [random] module that the solvers call, over
    an explicit generator state, with the ranges the library documents:
    [random()] lies in [0, 1), [randint(a, b)] in [a, b], and
    [sample(population, 2)] takes two different places of the population.
    [randint] on an empty range and [sample] on a population that is too
    short raise ValueError. *)
Class RandomSource (G : Type) : Type := {
  random : G → Q * G;
  randint : Z → Z → G → result (Z * G);
  sample : list nat → nat → G → result (list nat * G);
  random_range : ∀ g, (0 <= (random g).1)%Q ∧ ((random g).1 < 1)%Q;
  randint_range : ∀ a b g, a ≤ b →
    ∃ v g', randint a b g = Ok (v, g') ∧ a ≤ v ≤ b;
  randint_empty : ∀ a b g, b < a → randint a b g = Raise ValueError;
  sample_short : ∀ population k g,
    (length population < k)%nat → sample population k g = Raise ValueError;
  sample_two : ∀ population g, (2 ≤ length population)%nat →
    ∃ i j a b g', i ≠ j ∧ population !! i = Some a ∧ population !! j = Some b
                  ∧ sample population 2 g = Ok ([a; b], g')
}.

(** A generator that reads its raw draws from a tape; an exhausted tape
    keeps drawing 0. *)
Definition tape_pop (g : list N) : N * list N :=
  match g with
  | [] => (0%N, [])
  | d :: g' => (d, g')
  end.

(** [random()]: a multiple of 2^-53 below 1 *)
Definition tape_random (g : list N) : Q * list N :=
  let '(d, g') := tape_pop g in
  (Qmake (Z.of_N d mod 2 ^ 53) (2 ^ 53), g').

Definition tape_randint (a b : Z) (g : list N) : result (Z * list N) :=
  if bool_decide (b < a) then Raise ValueError
  else let '(d, g') := tape_pop g in Ok (a + Z.of_N d mod (b - a + 1), g').

(** [sample]: the selection loop over a pool, as the library does it for
    a small population *)
Fixpoint tape_sample_loop (k n : nat) (pool : list nat) (g : list N)
  : list nat * list N :=
  match k with
  | O => ([], g)
  | S k' =>
      let '(d, g') := tape_pop g in
      let j := (N.to_nat d mod n)%nat in
      let picked := default 0%nat (pool !! j) in
      let pool' := <[j := default 0%nat (pool !! (n - 1)%nat)]> pool in
      let '(rest, g'') := tape_sample_loop k' (n - 1) pool' g' in
      (picked :: rest, g'')
  end.

Definition tape_sample (population : list nat) (k : nat) (g : list N)
  : result (list nat * list N) :=
  if bool_decide (length population < k)%nat then Raise ValueError
  else Ok (tape_sample_loop k (length population) population g).

(** ** solve.py *)

(** A score or an iteration count: an integer, or [INFINITY]. *)
Inductive num : Type :=
  | Fin (n : Z)
  | INFINITY.

#[global] Instance num_eq_dec : EqDecision num.
Proof. solve_decision. Defined.

Definition num_ltb (a b : num) : bool :=
  match a, b with
  | Fin x, Fin y => bool_decide (x < y)
  | Fin _, INFINITY => true
  | INFINITY, _ => false
  end.

Definition num_eqb (a b : num) : bool := bool_decide (a = b).

Definition num_leb (a b : num) : bool := num_ltb a b || num_eqb a b.

(** [Result = namedtuple('Result', 'score iterations')] *)
Record Result : Type := mkResult { score : num; iterations : num }.

(** [Solution = namedtuple('Solution', 'board result')]; the board is
    [None] when no restart ran. *)
Record Solution : Type := mkSolution { sol_board : option Board; sol_result : Result }.

(** The fields of a [_Solver] object. *)
Record Solver : Type := mkSolver {
  solver_board : option Board;
  _max_iter : nat;
  _max_restarts : nat;
  _stop_if_found : bool;
  _board_size : nat;
  _results : list Result
}.

(** [_Solver.__init__] *)
Definition Solver_new (board : Board) (max_restarts max_iter : nat) (stop_if_found : bool)
  : Solver :=
  mkSolver (Some board) max_iter max_restarts stop_if_found (fst (bounds board)) [].

(** A [_BetaHC] object: a solver with the two probabilities. *)
Record BetaHC : Type := mkBetaHC {
  beta_base : Solver;
  _n_prob : Q;
  _beta_prob : Q
}.

(** [_BetaHC.__init__]: the probabilities are stored as given. *)
Definition BetaHC_new (board : Board) (max_restarts max_iter : nat) (n beta : Q)
    (stop_if_found : bool) : result BetaHC :=
  Ok (mkBetaHC (Solver_new board max_restarts max_iter stop_if_found) n beta).

(** A loop [for a in l] over a state that may raise. *)
Fixpoint for_each {A S : Type} (body : S → A → result S) (l : list A) (s : S) : result S :=
  match l with
  | [] => Ok s
  | a :: l' => s' ← body s a; for_each body l' s'
  end.

(** 1-D indexing [line[i]] and [line[i] = v] *)
Definition np_get1 (line : list Z) (i : Z) : result Z :=
  j ← np_index (length line) i;
  match line !! j with
  | Some v => Ok v
  | None => Raise IndexError
  end.

Definition np_set1 (line : list Z) (i : Z) (v : Z) : result (list Z) :=
  j ← np_index (length line) i;
  Ok (<[j := v]> line).

Section Solvers.
Context {G : Type} `{RandomSource G}.

(** The methods a concrete solver class supplies to [_Solver]. *)
Record Methods : Type := mkMethods {
  _fill : Board → G → result (Board * G);
  _step : Board → G → result (Board * G);
  _eval : Board → result Z
}.

(** [_Solver._climb]: the loop, [i] the loop variable and [todo] the
    iterations that remain *)
Fixpoint _climb_loop (M : Methods) (max_iter todo i : nat) (score_min : Z)
    (board : Board) (g : G) : result ((Z * Z) * Board * G) :=
  match todo with
  | O => Ok ((score_min, Z.of_nat max_iter), board, g)
  | S todo' =>
      let board_copy := copy board in
      '(board_copy, g) ← _step M board_copy g;
      score ← _eval M board_copy;
      if bool_decide (score ≤ score_min) then
        if bool_decide (score = 0) then Ok ((0, Z.of_nat i + 1), board_copy, g)
        else _climb_loop M max_iter todo' (S i) score board_copy g
      else _climb_loop M max_iter todo' (S i) score_min board g
  end.

Definition _climb (M : Methods) (max_iter : nat) (board : Board) (g : G)
  : result ((Z * Z) * Board * G) :=
  score_min ← _eval M board;
  _climb_loop M max_iter max_iter 0 score_min board g.

(** The two updates of the best run in [_solve]. *)
Definition update_best (score itr : Z) (board : Board)
    (acc : num * num * option Board) : num * num * option Board :=
  let '(score_min, itr_min, best) := acc in
  let '(score_min, itr_min, best) :=
    if num_ltb (Fin score) score_min
    then (Fin score, Fin itr, Some (copy board))
    else (score_min, itr_min, best) in
  if num_eqb (Fin score) score_min && num_ltb (Fin itr) itr_min
  then (Fin score, Fin itr, Some (copy board))
  else (score_min, itr_min, best).

(** The restart loop of [_Solver._solve]; [todo] restarts remain.  The
    result carries the returned [Result], the final [self._board], the
    list [self._results] and the generator. *)
Fixpoint _solve_loop (M : Methods) (max_iter : nat) (stop_if_found : bool)
    (todo : nat) (board : Board) (results : list Result)
    (acc : num * num * option Board) (g : G)
  : result (Result * option Board * list Result * G) :=
  match todo with
  | O =>
      let '(score_min, itr_min, best) := acc in
      Ok (mkResult score_min itr_min, best, results, g)
  | S todo' =>
      '(board, g) ← _fill M board g;
      '((score, itr), board, g) ← _climb M max_iter board g;
      let res := mkResult (Fin score) (Fin itr) in
      let results := results ++ [res] in
      if stop_if_found && bool_decide (score = 0)
      then Ok (res, Some board, results, g)
      else
        let acc := update_best score itr board acc in
        board ← reset board;
        _solve_loop M max_iter stop_if_found todo' board results acc g
  end.

(** [_Solver._solve_trivial] *)
Definition _solve_trivial (s : Solver) : Result * Solver :=
  (mkResult (Fin 0) (Fin 0),
   mkSolver (solver_board s) (_max_iter s) (_max_restarts s) (_stop_if_found s)
            (_board_size s) (replicate (_max_restarts s) (mkResult (Fin 0) (Fin 0)))).

(** [_Solver._solve] *)
Definition _solve (M : Methods) (s : Solver) (g : G) : result (Result * Solver * G) :=
  match solver_board s with
  | None => Raise AttributeError
  | Some board =>
      if bool_decide (length (unfilled_by_row board) = 0%nat)
      then let '(r, s') := _solve_trivial s in Ok (r, s', g)
      else
        '(res, board', results, g') ←
          _solve_loop M (_max_iter s) (_stop_if_found s) (_max_restarts s)
                      board [] (INFINITY, INFINITY, None) g;
        Ok (res,
            mkSolver board' (_max_iter s) (_max_restarts s) (_stop_if_found s)
                     (_board_size s) results,
            g')
  end.

(** [_Solver.try_solve] *)
Definition try_solve (M : Methods) (s : Solver) (g : G)
  : result (Solution * Solver * G) :=
  match solver_board s with
  | None => Raise AttributeError
  | Some board =>
      board ← reset board;
      let s := mkSolver (Some board) (_max_iter s) (_max_restarts s)
                        (_stop_if_found s) (_board_size s) (_results s) in
      '(res, s', g') ← _solve M s g;
      Ok (mkSolution (solver_board s') res, s', g')
  end.

(** [_Solver.all_results] *)
Definition all_results (s : Solver) : list Result := _results s.

(** [_Solver._count_mistakes] *)
Definition _count_mistakes (board : Board) : result Z :=
  '(mistakes_num, _) ← check board; Ok (Z.of_nat mistakes_num).

(** [_BetaHC._generate_fill_number] *)
Definition _generate_fill_number (board_size : nat) (g : G) : result (Z * G) :=
  randint 1 (Z.of_nat board_size) g.

(** [_BetaHC._with_probability]; the assertion comes before the draw. *)
Definition _with_probability (prob : Q) (g : G) : result (bool * G) :=
  if Qle_bool 0 prob && Qle_bool prob 1
  then let '(r, g') := random g in Ok (Qle_bool r prob, g')
  else Raise AssertionError.

(** [PaperBetaHC._fill_board_random] *)
Definition _fill_board_random (board_size : nat) (board : Board) (g : G)
  : result (Board * G) :=
  for_each (λ '(board, g) p,
              initial ← is_initial board p;
              if initial : bool then Ok (board, g)
              else
                '(new_val, g) ← _generate_fill_number board_size g;
                '(_, board) ← set board p new_val;
                Ok (board, g))
           (y ← seq 0 board_size;
            x ← seq 0 board_size;
            [mkPos (Z.of_nat x) (Z.of_nat y)])
           (board, g).

(** [PaperBetaHC._eval_tiles]; the constant is the one of the source. *)
Definition _eval_tiles (tiles : list Z) : Z := Z.abs (45 - foldr Z.add 0 tiles).

(** [PaperBetaHC._objective] *)
Definition _objective (board_size : nat) (board : Board) : result Z :=
  let vals := values board in
  cols ← columns_of board_size vals;
  Ok (foldr Z.add 0 (_eval_tiles <$> vals)
      + foldr Z.add 0 (_eval_tiles <$> cols)
      + foldr Z.add 0 (_eval_tiles <$> squares board)).

(** [PaperBetaHC._neighbouring_val] *)
Definition _neighbouring_val (board_size : nat) (val : Z) (g : G) : result (Z * G) :=
  '(up, g) ← _with_probability (1 # 2) g;
  if up : bool
  then Ok (if bool_decide (val ≠ Z.of_nat board_size) then val + 1 else val, g)
  else Ok (if bool_decide (val ≠ 1) then val - 1 else 1, g).

(** [PaperBetaHC._neighbouring_operator] *)
Definition _neighbouring_operator (board_size : nat) (n_prob : Q) (board : Board) (g : G)
  : result (Board * G) :=
  let vals := values board in
  '(vals, g) ←
    for_each (λ '(vals, g) pos,
                '(hit, g) ← _with_probability n_prob g;
                if hit : bool then
                  old ← np_get vals (pos_y pos) (pos_x pos);
                  '(new, g) ← _neighbouring_val board_size old g;
                  vals ← np_set vals (pos_y pos) (pos_x pos) new;
                  Ok (vals, g)
                else Ok (vals, g))
             (unfilled_positions board) (vals, g);
  '(_, board) ← fill_board board vals;
  Ok (board, g).

(** [PaperBetaHC._beta_operator] *)
Definition _beta_operator (board_size : nat) (beta_prob : Q) (board : Board) (g : G)
  : result (Board * G) :=
  let vals := values board in
  '(vals, g) ←
    for_each (λ '(vals, g) pos,
                '(hit, g) ← _with_probability beta_prob g;
                if hit : bool then
                  '(new, g) ← _generate_fill_number board_size g;
                  vals ← np_set vals (pos_y pos) (pos_x pos) new;
                  Ok (vals, g)
                else Ok (vals, g))
             (unfilled_positions board) (vals, g);
  '(_, board) ← fill_board board vals;
  Ok (board, g).

(** [_BetaHC._step] with the operators of [PaperBetaHC] *)
Definition PaperBetaHC_step (board_size : nat) (n_prob beta_prob : Q)
    (board : Board) (g : G) : result (Board * G) :=
  '(board, g) ← _neighbouring_operator board_size n_prob board g;
  _beta_operator board_size beta_prob board g.

(** The class [PaperBetaHC]: its [_fill], [_step] and [_eval]. *)
Definition PaperBetaHC (self : BetaHC) : Methods :=
  let size := _board_size (beta_base self) in
  mkMethods (_fill_board_random size)
            (PaperBetaHC_step size (_n_prob self) (_beta_prob self))
            (_objective size).

(** [_Solver._swap_in_line]; the line is returned with the two tiles
    exchanged. *)
Definition _swap_in_line (line : list Z) (viable : list nat) (g : G)
  : result (list Z * G) :=
  '(smp, g) ← sample viable 2 g;
  match smp with
  | s0 :: s1 :: _ =>
      val_1 ← np_get1 line (Z.of_nat s0);
      val_2 ← np_get1 line (Z.of_nat s1);
      line ← np_set1 line (Z.of_nat s0) val_2;
      line ← np_set1 line (Z.of_nat s1) val_1;
      Ok (line, g)
  | _ => Raise IndexError
  end.

(** [CustomBetaHC._neighbouring_operator]: the row-level n-operator;
    [values[row]] is a view, the swap writes into [values]. *)
Definition Custom_neighbouring_operator (n_prob : Q) (board : Board) (g : G)
  : result (Board * G) :=
  let vals := values board in
  let unfilled := unfilled_by_row board in
  '(vals, g) ←
    for_each (λ '(vals, g) '(row, _),
                '(hit, g) ← _with_probability n_prob g;
                if hit : bool then
                  line ← np_row vals (Z.of_nat row);
                  '(line, g) ← _swap_in_line line (default [] (dict_get row unfilled)) g;
                  vals ← np_set_row vals (Z.of_nat row) line;
                  Ok (vals, g)
                else Ok (vals, g))
             unfilled (vals, g);
  '(_, board) ← fill_board board vals;
  Ok (board, g).

End Solvers.

(** The tape generator is a random source. *)
#[global, refine] Instance tape_source : RandomSource (list N) := {|
  random := tape_random;
  randint := tape_randint;
  sample := tape_sample
|}.
Proof.
  - intros g. unfold tape_random. destruct (tape_pop g) as [d g']. simpl.
    pose proof (Z.mod_pos_bound (Z.of_N d) (2 ^ 53) eq_refl) as Hb.
    unfold Qle, Qlt. simpl. lia.
  - intros a b g Hab. unfold tape_randint.
    rewrite bool_decide_eq_false_2 by lia.
    destruct (tape_pop g) as [d g']. eexists _, _. split; [reflexivity|].
    pose proof (Z.mod_pos_bound (Z.of_N d) (b - a + 1)). lia.
  - intros a b g Hab. unfold tape_randint. by rewrite bool_decide_eq_true_2.
  - intros population k g Hlen. unfold tape_sample. by rewrite bool_decide_eq_true_2.
  - intros population g Hlen. unfold tape_sample.
    rewrite bool_decide_eq_false_2 by lia. simpl.
    destruct (tape_pop g) as [d1 g1]. destruct (tape_pop g1) as [d2 g2].
    set (n := length population) in *.
    set (j1 := (N.to_nat d1 mod n)%nat).
    set (j2 := (N.to_nat d2 mod (n - 1))%nat).
    assert (j1 < n)%nat as Hj1 by (apply Nat.mod_upper_bound; lia).
    assert (j2 < n - 1)%nat as Hj2 by (apply Nat.mod_upper_bound; lia).
    destruct (lookup_lt_is_Some_2 population j1 Hj1) as [a Ha].
    destruct (lookup_lt_is_Some_2 population (n - 1)%nat ltac:(lia)) as [c Hc].
    destruct (lookup_lt_is_Some_2 population j2 ltac:(lia)) as [b Hb].
    rewrite Ha, Hc. simpl.
    destruct (decide (j1 = j2)) as [Heq|Hne].
    + exists j1, (n - 1)%nat, a, c, g2. split; [lia|]. split; [done|]. split; [done|].
      rewrite <- Heq. rewrite list_lookup_insert_eq by lia. done.
    + exists j1, j2, a, b, g2. split; [done|]. split; [done|]. split; [done|].
      rewrite list_lookup_insert_ne by done. rewrite Hb. done.
Defined.

(** ** solve.py: the unique fill, [HillClimbing] and [CustomBetaHC] *)

(** [random.shuffle]: the list comes back rearranged. *)
Class ShuffleSource (G : Type) : Type := {
  shuffle : list Z → G → list Z * G;
  shuffle_permutation : ∀ x g, (shuffle x g).1 ≡ₚ x
}.

(** [x[i], x[j] = x[j], x[i]] on a list, both indexes in range *)
Definition list_swap (i j : nat) (x : list Z) : list Z :=
  match x !! i, x !! j with
  | Some xi, Some xj => <[j := xi]> (<[i := xj]> x)
  | _, _ => x
  end.

(** The loop of [shuffle] on the tape generator, [i] running from
    [len(x) - 1] down to 1 with [j] drawn below [i + 1]. *)
Fixpoint tape_shuffle_loop (i : nat) (x : list Z) (g : list N) : list Z * list N :=
  match i with
  | O => (x, g)
  | S i' =>
      let '(d, g') := tape_pop g in
      let j := (N.to_nat d mod (i + 1))%nat in
      tape_shuffle_loop i' (list_swap i j x) g'
  end.

Definition tape_shuffle (x : list Z) (g : list N) : list Z * list N :=
  tape_shuffle_loop (length x - 1) x g.

#[global, refine] Instance tape_shuffle_source : ShuffleSource (list N) := {|
  shuffle := tape_shuffle
|}.
Proof.
  assert (∀ i j (x : list Z), list_swap i j x ≡ₚ x) as Hswap.
  { intros i j x. unfold list_swap.
    destruct (x !! i) as [xi|] eqn:Hi; [|done].
    destruct (x !! j) as [xj|] eqn:Hj; [|done].
    destruct (decide (i = j)) as [->|Hne].
    { rewrite list_insert_insert_eq. rewrite Hi in Hj. injection Hj as ->.
      by rewrite list_insert_id. }
    apply Permutation_inj. split; [by rewrite !length_insert|].
    exists (λ k, if decide (k = i) then j else if decide (k = j) then i else k).
    split.
    - intros a c Hac. repeat case_decide; congruence.
    - intros k. pose proof (lookup_lt_Some _ _ _ Hi). pose proof (lookup_lt_Some _ _ _ Hj).
      repeat case_decide; subst.
      + rewrite list_lookup_insert_ne by done.
        by rewrite list_lookup_insert_eq.
      + by rewrite list_lookup_insert_eq by (by rewrite length_insert).
      + by rewrite !list_lookup_insert_ne. }
  intros x g. unfold tape_shuffle. generalize (length x - 1)%nat as i.
  intros i. revert x g. induction i as [|i IH]; intros x g; [done|].
  simpl tape_shuffle_loop. destruct (tape_pop g) as [d g'].
  rewrite IH. apply Hswap.
Defined.

(** [pool.remove(tile)]: the first occurrence goes, ValueError without one *)
Fixpoint list_remove (tile : Z) (pool : list Z) : result (list Z) :=
  match pool with
  | [] => Raise ValueError
  | v :: pool' =>
      if bool_decide (v = tile) then Ok pool'
      else pool'' ← list_remove tile pool'; Ok (v :: pool'')
  end.

(** [pool.pop()]: the last element, IndexError on the empty list *)
Definition list_pop (pool : list Z) : result (Z * list Z) :=
  match last pool with
  | Some v => Ok (v, take (length pool - 1) pool)
  | None => Raise IndexError
  end.

(** The comprehension [[x if x != 0 else pool.pop() for x in line]] *)
Fixpoint fill_from_pool (line pool : list Z) : result (list Z) :=
  match line with
  | [] => Ok []
  | x :: rest =>
      if bool_decide (x ≠ 0) then filled ← fill_from_pool rest pool; Ok (x :: filled)
      else
        '(v, pool') ← list_pop pool;
        filled ← fill_from_pool rest pool';
        Ok (v :: filled)
  end.

Section RowSolvers.
Context {G : Type} `{RandomSource G} `{ShuffleSource G}.

(** [_Solver._fill_line_unique] *)
Definition _fill_line_unique (board_size : nat) (line : list Z) (g : G)
  : result (list Z * G) :=
  let pool := seqZ 1 (Z.of_nat board_size) in
  pool ← for_each (λ pool tile,
                     if bool_decide (tile ≠ 0) then list_remove tile pool else Ok pool)
                  line pool;
  let '(pool, g) := shuffle pool g in
  filled ← fill_from_pool line pool;
  Ok (filled, g).

(** [_Solver._fill_board_unique] *)
Definition _fill_board_unique (board_size : nat) (board : Board) (g : G)
  : result (Board * G) :=
  '(new_board, g) ←
    for_each (λ '(new_board, g) line,
                '(filled, g) ← _fill_line_unique board_size line g;
                Ok (new_board ++ [filled], g))
             (values board) ([], g);
  '(_, board) ← fill_board board new_board;
  Ok (board, g).

(** [HillClimbing._step] *)
Definition HillClimbing_step (board : Board) (g : G) : result (Board * G) :=
  let unfilled := unfilled_by_row board in
  '(k, g) ← randint 0 (Z.of_nat (length unfilled) - 1) g;
  i ← np_index (length unfilled) k;
  match unfilled.*1 !! i with
  | None => Raise IndexError
  | Some row =>
      line ← np_row (values board) (Z.of_nat row);
      '(line, g) ← _swap_in_line line (default [] (dict_get row unfilled)) g;
      '(_, board) ← fill_line board (Z.of_nat row) line;
      Ok (board, g)
  end.

(** The class [HillClimbing]: its [_fill], [_step] and [_eval]. *)
Definition HillClimbing (self : Solver) : @Methods G :=
  mkMethods (_fill_board_unique (_board_size self)) HillClimbing_step _count_mistakes.

(** [CustomBetaHC._beta_operator]: the row is cleared at its listed
    blanks and filled again. *)
Definition Custom_beta_operator (board_size : nat) (beta_prob : Q) (board : Board) (g : G)
  : result (Board * G) :=
  let unfilled := unfilled_by_row board in
  for_each (λ '(board, g) '(row, _),
              '(hit, g) ← _with_probability beta_prob g;
              if hit : bool then
                line ← np_row (values board) (Z.of_nat row);
                line ← for_each (λ line index, np_set1 line (Z.of_nat index) 0)
                                (default [] (dict_get row unfilled)) line;
                '(filled, g) ← _fill_line_unique board_size line g;
                '(_, board) ← fill_line board (Z.of_nat row) filled;
                Ok (board, g)
              else Ok (board, g))
           unfilled (board, g).

(** [_BetaHC._step] with the operators of [CustomBetaHC] *)
Definition CustomBetaHC_step (board_size : nat) (n_prob beta_prob : Q)
    (board : Board) (g : G) : result (Board * G) :=
  '(board, g) ← Custom_neighbouring_operator n_prob board g;
  Custom_beta_operator board_size beta_prob board g.

(** The class [CustomBetaHC]: its [_fill], [_step] and [_eval]. *)
Definition CustomBetaHC (self : BetaHC) : @Methods G :=
  let size := _board_size (beta_base self) in
  mkMethods (_fill_board_unique size)
            (CustomBetaHC_step size (_n_prob self) (_beta_prob self))
            _count_mistakes.

End RowSolvers.

(** ** board.py: printing

    [display_blank] and [max_digits] are the fields [_display_blank] and
    [_max_digits] of the board, which only printing reads; a text is
    returned where the source prints it. *)

(** The line feed. *)
Definition line_feed : string := String "010"%char EmptyString.

(** [s * k]: the empty string for a negative [k] *)
Definition str_mul (s : string) (k : Z) : string :=
  String.concat EmptyString (replicate (Z.to_nat k) s).

(** [Board._offset_number]; [str(num)] is the decimal numeral *)
Definition _offset_number (max_digits : Z) (num : Z) : string :=
  let rest := max_digits - _count_digits num in
  str_mul " " ((rest + 1) / 2) +:+ pretty num +:+ str_mul " " (rest / 2).

(** [Board._print_line]: the text it prints *)
Definition _print_line (size_sq : nat) (display_blank : bool) (max_digits : Z)
    (line : list Z) : result string :=
  let boarder := "| " in
  for_each (λ to_print '(i, x),
              if bool_decide (size_sq = 0%nat) then Raise ZeroDivisionError
              else
                let dlm := if bool_decide (i mod size_sq = size_sq - 1)%nat
                           then boarder else EmptyString in
                let val := if bool_decide (x ≠ 0) || display_blank
                           then _offset_number max_digits x else " " in
                Ok (to_print +:+ val +:+ " " +:+ dlm))
           (zip (seq 0 (length line)) line) boarder.

(** [Board._print_dlm_horizontal] with the default [dlm]: the text it
    prints *)
Definition _print_dlm_horizontal (size size_sq : nat) (max_digits : Z) : string :=
  str_mul "-" (Z.of_nat size * (1 + max_digits) + Z.of_nat size_sq * 2 + 1).

(** [Board.print]: the texts it prints, one for each call of [print];
    [i % self._size_sq] is evaluated for the rows after the first only. *)
Definition print (b : Board) (display_blank : bool) (offset : Z) : result (list string) :=
  let max_digits := _count_digits (Z.of_nat (_size b)) in
  let dlm := _print_dlm_horizontal (_size b) (_size_sq b) max_digits in
  out ← for_each (λ out '(i, line),
                    text ← _print_line (_size_sq b) display_blank max_digits line;
                    let out := out ++ [text] in
                    if bool_decide (i = 0%nat) then Ok out
                    else if bool_decide (_size_sq b = 0%nat) then Raise ZeroDivisionError
                    else if bool_decide (i mod _size_sq b = _size_sq b - 1)%nat
                         then Ok (out ++ [dlm]) else Ok out)
                 (zip (seq 0 (length (_board b))) (_board b))
                 [str_mul line_feed offset; dlm];
  Ok (if bool_decide (_size b = 1%nat) then out ++ [dlm] else out).

(** ** Specification vocabulary *)

(** The tile of a matrix at row [y], column [x]. *)
Definition cell (m : matrix) (y x : nat) : option Z := m !! y ≫= λ r, r !! x.

(** A [size] by [size] matrix. *)
Definition shaped (size : nat) (m : matrix) : Prop :=
  length m = size ∧ Forall (λ r, length r = size) m.

(** The matrix that the lines of a file denote. *)
Definition parse_rows (lines : list string) : matrix :=
  (λ line, default 0 <$> _try_convert_seq line) <$> lines.

(** A line of the file parses into exactly [size] integers. *)
Definition good_line (size : nat) (line : string) : Prop :=
  (None ∉ _try_convert_seq line) ∧ length (_try_convert_seq line) = size.

#[global] Instance good_line_dec size line : Decision (good_line size line).
Proof. unfold good_line. apply _. Defined.

(** The board holds the frozen snapshot [init] of a loaded puzzle. *)
Definition loaded (b : Board) (init : matrix) : Prop :=
  _board_init b = Some init ∧ shaped (_size b) init.

(** [pos] addresses a tile that the loaded puzzle gives (non-zero). *)
Definition initially_set (init : matrix) (pos : Pos) : Prop :=
  0 ≤ pos_x pos ∧ 0 ≤ pos_y pos
  ∧ cell init (Z.to_nat (pos_y pos)) (Z.to_nat (pos_x pos)) ≠ None
  ∧ cell init (Z.to_nat (pos_y pos)) (Z.to_nat (pos_x pos)) ≠ Some 0.

#[global] Instance initially_set_dec init pos : Decision (initially_set init pos).
Proof. unfold initially_set. apply _. Defined.

(** Every given tile of [init] has its initial value in [m]. *)
Definition keeps_initial (init m : matrix) : Prop :=
  ∀ y x v, cell init y x = Some v → v ≠ 0 → cell m y x = Some v.

(** An area is right when it is a permutation of 1..size. *)
Definition valid_area (size : nat) (area : list Z) : Prop :=
  area ≡ₚ seqZ 1 (Z.of_nat size).

#[global] Instance valid_area_dec size area : Decision (valid_area size area).
Proof. unfold valid_area. apply _. Defined.

(** The working board is a square array whose side is a square number. *)
Definition well_formed (b : Board) : Prop :=
  shaped (_size b) (_board b) ∧ _size b = (_size_sq b * _size_sq b)%nat.

(** A row with at least two blanks. *)
Definition two_blanks (row : list Z) : Prop :=
  ∃ x1 x2, x1 ≠ x2 ∧ row !! x1 = Some 0 ∧ row !! x2 = Some 0.

(** [pos] is a blank of the puzzle [init] in a row with two blanks. *)
Definition modifiable (init : matrix) (pos : Pos) : Prop :=
  0 ≤ pos_x pos ∧ 0 ≤ pos_y pos
  ∧ ∃ row, init !! Z.to_nat (pos_y pos) = Some row
           ∧ row !! Z.to_nat (pos_x pos) = Some 0
           ∧ two_blanks row.

(** Column [x] is the only blank of the row. *)
Definition only_blank (row : list Z) (x : nat) : Prop :=
  row !! x = Some 0 ∧ ∀ x', row !! x' = Some 0 → x' = x.

(** [vals'] has the shape of [vals] and differs from it at most at [pos]. *)
Definition touches (pos : Pos) (vals vals' : matrix) : Prop :=
  (∀ size, shaped size vals → shaped size vals')
  ∧ ∀ y x, mkPos (Z.of_nat x) (Z.of_nat y) ≠ pos → cell vals' y x = cell vals y x.

(** [b'] has the snapshot and the dictionary of [b], and the tiles of
    [b] everywhere but at the positions [unfilled_positions] lists. *)
Definition same_outside (b b' : Board) : Prop :=
  _board_init b' = _board_init b ∧ _size b' = _size b ∧ _unfilled b' = _unfilled b
  ∧ ∀ y x, mkPos (Z.of_nat x) (Z.of_nat y) ∉ unfilled_positions b →
           cell (_board b') y x = cell (_board b) y x.

(** One restart as the driver sees it: its score, its iteration count
    and the board the climb ended on. *)
Abbreviation run := (Z * Z * Board)%type.

Definition result_of (r : run) : Result := mkResult (Fin r.1.1) (Fin r.1.2).

(** The two-key order on runs: lower score, then fewer iterations. *)
Definition run_lt (a c : Z * Z) : Prop := a.1 < c.1 ∨ (a.1 = c.1 ∧ a.2 < c.2).
Definition run_le (a c : Z * Z) : Prop := a.1 < c.1 ∨ (a.1 = c.1 ∧ a.2 ≤ c.2).

(** The restarts of [_solve] one after the other, each from the reset
    board, without the bookkeeping of the best run. *)
Fixpoint restart_trace {G : Type} (M : @Methods G) (max_iter todo : nat)
    (board : Board) (g : G) : result (list run) :=
  match todo with
  | O => Ok []
  | S todo' =>
      '(board, g) ← _fill M board g;
      '((score, itr), board, g) ← _climb M max_iter board g;
      board0 ← reset board;
      rest ← restart_trace M max_iter todo' board0 g;
      Ok ((score, itr, board) :: rest)
  end.

(** [acc] holds the best of the runs [seen]: nothing when there is none,
    else the first run that no other beats in the two-key order. *)
Definition best_of (seen : list run) (acc : num * num * option Board) : Prop :=
  (seen = [] ∧ acc = (INFINITY, INFINITY, None))
  ∨ ∃ k sc it bd,
      acc = (Fin sc, Fin it, Some bd)
      ∧ seen !! k = Some (sc, it, bd)
      ∧ (∀ j e, seen !! j = Some e → run_le (sc, it) e.1)
      ∧ (∀ j e, (j < k)%nat → seen !! j = Some e → run_lt (sc, it) e.1).

(** The board is in a state that a load followed by accepted mutations
    produces: snapshot and working board are square arrays of the size,
    every given tile has its initial value, and the dictionary maps
    distinct rows to at least two distinct blanks of the snapshot. *)
Definition consistent (b : Board) (init : matrix) : Prop :=
  loaded b init ∧ shaped (_size b) (_board b) ∧ keeps_initial init (_board b)
  ∧ NoDup (_unfilled b).*1
  ∧ ∀ row blanks, (row, blanks) ∈ _unfilled b →
      NoDup blanks ∧ (2 ≤ length blanks)%nat
      ∧ ∀ index, index ∈ blanks → cell init row index = Some 0.

(** The generator after one call of [random()]. *)
Definition next_state {G : Type} `{RandomSource G} (g : G) : G := (random g).2.

(** None of the next [count] calls of [random()] returns 0.0. *)
Definition never_zero {G : Type} `{RandomSource G} (count : nat) (g : G) : Prop :=
  ∀ k, (k < count)%nat → (0 < (random (Nat.iter k next_state g)).1)%Q.

(** [new] is [old] moved by one up or down, held at [size] and at 1. *)
Definition moved (size : nat) (old new : Z) : Prop :=
  new = (if bool_decide (old ≠ Z.of_nat size) then old + 1 else old)
  ∨ new = (if bool_decide (old ≠ 1) then old - 1 else 1).

(** [new] is the line [old] with the tiles at [i] and [j] exchanged. *)
Definition exchanged (i j : nat) (old new : list Z) : Prop :=
  ∃ a c, old !! i = Some a ∧ old !! j = Some c ∧ new = <[j := a]> (<[i := c]> old).

(** ** A 4 by 4 puzzle

    A puzzle with a unique completion, used to run the model. *)
Definition puzzle4 : list string :=
  ["0 0 3 4"; "3 4 0 2"; "0 1 0 0"; "4 3 2 1"]%string.

Definition init4 : matrix := [[0; 0; 3; 4]; [3; 4; 0; 2]; [0; 1; 0; 0]; [4; 3; 2; 1]].

Definition unfilled4 : dict := [(0, [0; 1]); (2, [0; 2; 3])]%nat.

(** The board after [Board(4)] and [set_init_state()] on [puzzle4]. *)
Definition board4 : Board := mkBoard 4 2 init4 (Some init4) unfilled4.

(** [board4] with its blanks filled by the completion. *)
Definition solved4 : matrix := [[1; 2; 3; 4]; [3; 4; 1; 2]; [2; 1; 4; 3]; [4; 3; 2; 1]].

Definition solved_board4 : Board := with_board board4 solved4.

(** [Board(4)] before any load. *)
Definition empty_board4 : Board :=
  mkBoard 4 2 (replicate 4 (replicate 4 0)) None [].

(** The completed puzzle with one tile blanked: no row has two blanks. *)
Definition one_blank4 : list string :=
  ["0 2 3 4"; "3 4 1 2"; "2 1 4 3"; "4 3 2 1"]%string.

Definition one_blank_init4 : matrix :=
  [[0; 2; 3; 4]; [3; 4; 1; 2]; [2; 1; 4; 3]; [4; 3; 2; 1]].

(** The board after [Board(4)] and [set_init_state()] on [one_blank4]. *)
Definition one_blank_board4 : Board :=
  mkBoard 4 2 one_blank_init4 (Some one_blank_init4) [].

(** The given tiles of a line, in order. *)
Definition given_tiles (line : list Z) : list Z := filter (λ v, v ≠ 0) line.

(** A line that the unique fill can complete: it has the width of the
    board and its given tiles are distinct values of 1..size. *)
Definition fillable (size : nat) (line : list Z) : Prop :=
  length line = size ∧ NoDup (given_tiles line)
  ∧ ∀ v, v ∈ given_tiles line → 1 ≤ v ≤ Z.of_nat size.

(** [filled] has the given tiles of [line] where [line] has them. *)
Definition keeps_given (line filled : list Z) : Prop :=
  length filled = length line
  ∧ ∀ i v, line !! i = Some v → v ≠ 0 → filled !! i = Some v.

(** Every row of the working board is a permutation of 1..size. *)
Definition rows_valid (b : Board) : Prop := Forall (valid_area (_size b)) (_board b).

(** An integer that a tile of the board's array holds: a 64-bit one. *)
Definition int64 (v : Z) : Prop := - 2 ^ 63 ≤ v < 2 ^ 63.

#[global] Instance int64_dec v : Decision (int64 v).
Proof. unfold int64. apply _. Defined.

(** Every integer of the matrix is a 64-bit one. *)
Definition fits_int64 (m : matrix) : Prop := Forall (Forall int64) m.

(** An integer whose decimal numeral [int] reads: at most
    [int_max_str_digits] digits. *)
Definition readable (v : Z) : Prop := Z.abs v < 10 ^ int_max_str_digits.

(** A line of a sample file that holds the integers of [row]: decimal
    numerals separated by single blanks. *)
Definition render_line (row : list Z) : string := String.concat " " (pretty <$> row).

(** The tiles of a line that are printed as one blank. *)
Definition hidden_blanks (display_blank : bool) (line : list Z) : nat :=
  if display_blank then 0%nat else length (filter (λ x, x = 0) line).

(** A string of decimal digits. *)
Fixpoint all_digits (s : string) : Prop :=
  match s with
  | EmptyString => True
  | String c rest => digit_of c ≠ None ∧ is_space c = false ∧ all_digits rest
  end.

(** A string without white space. *)
Fixpoint no_space (s : string) : Prop :=
  match s with
  | EmptyString => True
  | String c rest => is_space c = false ∧ no_space rest
  end.

(** The boards that the public operations build: a new board, then loads,
    mutations and resets in any order. *)
Inductive reachable : Board → Prop :=
  | reach_new size b :
      Board_new size = Ok b → reachable b
  | reach_load b file r b' :
      reachable b → set_init_state b file = Ok (r, b') → reachable b'
  | reach_set b pos val r b' :
      reachable b → set b pos val = Ok (r, b') → reachable b'
  | reach_fill_board b vals r b' :
      reachable b → fill_board b vals = Ok (r, b') → reachable b'
  | reach_fill_line b line_num vals r b' :
      reachable b → fill_line b line_num vals = Ok (r, b') → reachable b'
  | reach_reset b b' :
      reachable b → reset b = Ok b' → reachable b'.

(** The board is a solution: every row, column and square of it is a
    permutation of 1..size. *)
Definition all_areas_valid (b : Board) : Prop :=
  ∃ cols, columns_of (_size b) (_board b) = Ok cols
          ∧ Forall (valid_area (_size b)) (_board b ++ cols ++ squares b).

(** Every tile of the matrix is a value of 1..size. *)
Definition tiles_in_range (size : nat) (m : matrix) : Prop :=
  ∀ y x v, cell m y x = Some v → 1 ≤ v ≤ Z.of_nat size.

(** [new] is [old] with the tiles of the rows listed in [d] rearranged:
    a listed row is a permutation of what it was and differs from it at
    its listed blanks only, every other row is as it was. *)
Definition rearranged (d : dict) (old new : matrix) : Prop :=
  length new = length old
  ∧ (∀ y, y ∉ d.*1 → new !! y = old !! y)
  ∧ ∀ y blanks, (y, blanks) ∈ d →
      ∃ o n, old !! y = Some o ∧ new !! y = Some n ∧ n ≡ₚ o
             ∧ ∀ x, x ∉ blanks → n !! x = o !! x.

(** ** Facts about arrays *)

(** Closed decidable facts are settled by running their decision. *)
Ltac by_decision :=
  first [ refine (bool_decide_eq_true_1 _ _); vm_compute; reflexivity
        | refine (bool_decide_eq_false_1 _ _); vm_compute; reflexivity ].

Lemma bind_Ok {A B} (m : result A) (f : A → result B) (r : B) :
  m ≫= f = Ok r ↔ ∃ a, m = Ok a ∧ f a = Ok r.
Proof.
  destruct m as [a|e]; simpl.
  - split; [eauto|]. by intros (a' & [= ->] & ?).
  - split; [done|]. by intros (a' & ? & ?).
Qed.

Lemma np_index_nat (n i : nat) : (i < n)%nat → np_index n (Z.of_nat i) = Ok i.
Proof.
  intros Hi. unfold np_index. rewrite bool_decide_eq_true_2 by lia.
  by rewrite Nat2Z.id.
Qed.

Lemma np_index_nonneg (n : nat) (i : Z) (j : nat) :
  0 ≤ i → np_index n i = Ok j → j = Z.to_nat i ∧ (j < n)%nat.
Proof.
  intros Hi. unfold np_index. case_bool_decide as H1.
  - intros [= <-]. lia.
  - case_bool_decide; [lia|done].
Qed.

Lemma np_index_valid (n : nat) (i : Z) :
  0 ≤ i < Z.of_nat n → np_index n i = Ok (Z.to_nat i).
Proof. intros Hi. unfold np_index. by rewrite bool_decide_eq_true_2. Qed.

Lemma np_index_bound (n : nat) (i : Z) (j : nat) : np_index n i = Ok j → (j < n)%nat.
Proof.
  unfold np_index. repeat case_bool_decide; intros [= <-]; lia.
Qed.

Lemma cell_insert_eq (m : matrix) (y x : nat) (r : list Z) (v : Z) :
  m !! y = Some r → (x < length r)%nat → cell (<[y := <[x := v]> r]> m) y x = Some v.
Proof.
  intros Hr Hx. unfold cell.
  rewrite list_lookup_insert_eq by (by eapply lookup_lt_Some). simpl.
  by rewrite list_lookup_insert_eq.
Qed.

Lemma cell_insert_ne (m : matrix) (y x y' x' : nat) (r : list Z) (v : Z) :
  m !! y = Some r → (y', x') ≠ (y, x) →
  cell (<[y := <[x := v]> r]> m) y' x' = cell m y' x'.
Proof.
  intros Hr Hne. unfold cell. destruct (decide (y' = y)) as [->|Hy].
  - rewrite list_lookup_insert_eq by (by eapply lookup_lt_Some). rewrite Hr. simpl.
    rewrite list_lookup_insert_ne; [done|]. congruence.
  - by rewrite list_lookup_insert_ne.
Qed.

Lemma shaped_cell (size : nat) (m : matrix) (y x : nat) :
  shaped size m → (y < size)%nat → (x < size)%nat → is_Some (cell m y x).
Proof.
  intros [Hlen Hrows] Hy Hx. unfold cell.
  destruct (lookup_lt_is_Some_2 m y ltac:(lia)) as [r Hr]. rewrite Hr. simpl.
  apply lookup_lt_is_Some_2. rewrite Forall_lookup in Hrows.
  rewrite (Hrows _ _ Hr). done.
Qed.

Lemma shaped_row (size : nat) (m : matrix) (y : nat) (r : list Z) :
  shaped size m → m !! y = Some r → length r = size.
Proof. intros [_ Hrows] Hr. rewrite Forall_lookup in Hrows. eauto. Qed.

Lemma shape_is_shaped (size : nat) (m : matrix) :
  shape_is size size m = true ↔ shaped size m.
Proof.
  unfold shape_is, shaped. rewrite andb_true_iff, bool_decide_eq_true.
  rewrite forallb_forall, Forall_forall.
  split; intros [? Hr]; (split; [done|]); intros r Hin.
  - apply list_elem_of_In in Hin. specialize (Hr r Hin). by apply bool_decide_eq_true in Hr.
  - apply list_elem_of_In in Hin. apply bool_decide_eq_true. auto.
Qed.

Lemma np_get_cell (m : matrix) (y x : Z) :
  0 ≤ y → 0 ≤ x →
  np_get m y x = match cell m (Z.to_nat y) (Z.to_nat x) with
                 | Some v => Ok v
                 | None => Raise IndexError
                 end.
Proof.
  intros Hy Hx. unfold np_get, np_row, cell, np_index.
  case_bool_decide as H1.
  - simpl. destruct (m !! Z.to_nat y) as [r|] eqn:Hr; simpl; [|done].
    case_bool_decide as H2.
    + simpl. by destruct (r !! Z.to_nat x).
    + rewrite bool_decide_eq_false_2 by lia. simpl.
      rewrite lookup_ge_None_2 by lia. done.
  - rewrite bool_decide_eq_false_2 by lia. simpl.
    rewrite lookup_ge_None_2 by lia. done.
Qed.

Lemma line_changed_true (line_init line_new : list Z) :
  line_changed line_init line_new = true ↔
  ∃ i a c, line_init !! i = Some a ∧ line_new !! i = Some c ∧ a ≠ 0 ∧ a ≠ c.
Proof.
  unfold line_changed. rewrite existsb_exists. split.
  - intros ([a c] & Hin & Hf). apply list_elem_of_In, list_elem_of_lookup in Hin as [i Hi].
    apply lookup_zip_with_Some in Hi as (a' & c' & [= -> ->] & Ha & Hc).
    apply andb_true_iff in Hf as [H1 H2].
    apply negb_true_iff, bool_decide_eq_false in H1, H2. eauto 10.
  - intros (i & a & c & Ha & Hc & H1 & H2). exists (a, c). split.
    + apply list_elem_of_In, list_elem_of_lookup. exists i.
      apply lookup_zip_with_Some. eauto.
    + by rewrite !bool_decide_eq_false_2.
Qed.

Lemma board_changed_true (init vals : matrix) :
  existsb (λ '(line_init, line_new), line_changed line_init line_new) (zip init vals) = true ↔
  ∃ y x a c, cell init y x = Some a ∧ cell vals y x = Some c ∧ a ≠ 0 ∧ a ≠ c.
Proof.
  rewrite existsb_exists. unfold cell. split.
  - intros ([li ln] & Hin & Hf). apply list_elem_of_In, list_elem_of_lookup in Hin as [y Hy].
    apply lookup_zip_with_Some in Hy as (li' & ln' & [= -> ->] & Hli & Hln).
    apply line_changed_true in Hf as (x & a & c & ? & ? & ? & ?).
    exists y, x, a, c. rewrite Hli, Hln. done.
  - intros (y & x & a & c & Ha & Hc & H1 & H2).
    destruct (init !! y) as [li|] eqn:Hli; [|done].
    destruct (vals !! y) as [ln|] eqn:Hln; [|done]. simpl in *.
    exists (li, ln). split.
    + apply list_elem_of_In, list_elem_of_lookup. exists y.
      apply lookup_zip_with_Some. eauto.
    + apply line_changed_true. eauto 10.
Qed.

(** ** Facts about the board operations *)

Lemma cell_bounds (size : nat) (m : matrix) (y x : nat) (v : Z) :
  shaped size m → cell m y x = Some v → (y < size)%nat ∧ (x < size)%nat.
Proof.
  intros Hs Hc. unfold cell in Hc.
  destruct (m !! y) as [r|] eqn:Hr; [|done]. simpl in Hc.
  pose proof (shaped_row _ _ _ _ Hs Hr) as Hlen.
  apply lookup_lt_Some in Hr, Hc. destruct Hs as [Hs _]. lia.
Qed.

Lemma is_valid_true (b : Board) (pos : Pos) :
  is_valid b pos = true ↔
  0 ≤ pos_x pos < Z.of_nat (_size b) ∧ 0 ≤ pos_y pos < Z.of_nat (_size b).
Proof. unfold is_valid. by rewrite andb_true_iff, !bool_decide_eq_true. Qed.

Lemma initially_set_valid (b : Board) (init : matrix) (pos : Pos) :
  loaded b init → initially_set init pos → is_valid b pos = true.
Proof.
  intros [_ Hs] (Hx & Hy & Hc & _). apply is_valid_true.
  destruct (cell init _ _) as [v|] eqn:Hcv; [|done].
  apply (cell_bounds _ _ _ _ _ Hs) in Hcv. lia.
Qed.

Lemma is_initial_loaded (b : Board) (init : matrix) (pos : Pos) :
  loaded b init →
  is_initial b pos = Ok (bool_decide (initially_set init pos)).
Proof.
  intros Hl. unfold is_initial. destruct (is_valid b pos) eqn:Hv; simpl.
  - destruct Hl as [Hi Hs]. rewrite Hi. apply is_valid_true in Hv as [Hx Hy].
    rewrite np_get_cell by lia.
    destruct (shaped_cell _ _ (Z.to_nat (pos_y pos)) (Z.to_nat (pos_x pos)) Hs) as [v Hc];
      [lia..|].
    rewrite Hc. simpl. f_equal. unfold initially_set.
    destruct (decide (v = 0)) as [->|Hne].
    + rewrite bool_decide_eq_true_2 by done. simpl. symmetry. apply bool_decide_eq_false.
      intros (_ & _ & _ & Hv'). congruence.
    + rewrite bool_decide_eq_false_2 by done. simpl. symmetry. apply bool_decide_eq_true.
      split; [lia|]. split; [lia|]. rewrite Hc. split; congruence.
  - f_equal. symmetry. apply bool_decide_eq_false. intros Hset.
    rewrite (initially_set_valid _ _ _ Hl Hset) in Hv. done.
Qed.

Lemma set_initial_refused (b : Board) (pos : Pos) (val : Z) :
  is_initial b pos = Ok true → set b pos val = Ok (false, b).
Proof.
  intros Hi. unfold set. destruct (is_valid b pos); simpl; [|done].
  by rewrite Hi.
Qed.

Lemma fill_board_refused (b : Board) (init vals : matrix) (y x : nat) (a c : Z) :
  loaded b init →
  cell init y x = Some a → a ≠ 0 → cell vals y x = Some c → c ≠ a →
  fill_board b vals = Ok (false, b).
Proof.
  intros [Hi Hs] Ha Ha0 Hc Hca. unfold fill_board.
  destruct (shape_is _ _ vals); simpl; [|done]. rewrite Hi.
  assert (existsb (λ '(line_init, line_new), line_changed line_init line_new)
                  (zip init vals) = true) as ->; [|done].
  apply board_changed_true. exists y, x, a, c. eauto.
Qed.

Lemma fill_line_refused (b : Board) (init : matrix) (line_num : Z) (vals : list Z)
    (x : nat) (a c : Z) :
  loaded b init → 0 ≤ line_num →
  cell init (Z.to_nat line_num) x = Some a → a ≠ 0 → vals !! x = Some c → c ≠ a →
  fill_line b line_num vals = Ok (Some false, b).
Proof.
  intros [Hi Hs] Hn Ha Ha0 Hc Hca. unfold fill_line.
  destruct (negb _ || negb _) eqn:Hb; [done|].
  apply orb_false_iff in Hb as [_ Hb]. apply negb_false_iff, bool_decide_eq_true in Hb.
  rewrite Hi. unfold np_row. destruct Hs as [Hlen Hrows].
  rewrite np_index_valid by lia. simpl.
  unfold cell in Ha. destruct (init !! Z.to_nat line_num) as [r|]; [|done]. simpl in *.
  assert (line_changed r vals = true) as ->; [|done].
  apply line_changed_true. exists x, a, c. eauto.
Qed.

(** What the mutations do to a tile when they go through. *)
Lemma set_result (b b' : Board) (pos : Pos) (val : Z) (r : bool) :
  set b pos val = Ok (r, b') →
  _board_init b' = _board_init b ∧ _size b' = _size b ∧ _unfilled b' = _unfilled b
  ∧ (r = false → b' = b)
  ∧ (r = true → is_initial b pos = Ok false ∧ is_valid b pos = true
       ∧ ∀ y x, (y, x) ≠ (Z.to_nat (pos_y pos), Z.to_nat (pos_x pos)) →
                cell (_board b') y x = cell (_board b) y x).
Proof.
  unfold set. destruct (is_valid b pos) eqn:Hv; simpl; [|by intros [= <- <-]].
  destruct (is_initial b pos) as [[|]|e] eqn:Hi; simpl; [by intros [= <- <-]| |done].
  intros Hset. apply bind_Ok in Hset as (m & Hm & [= <- <-]).
  do 3 (split; [done|]). split; [done|]. intros _. do 2 (split; [done|]).
  intros y x Hne. simpl. apply is_valid_true in Hv as [Hx Hy].
  unfold np_set in Hm. apply bind_Ok in Hm as (j & Hj & Hm).
  apply np_index_nonneg in Hj as [-> _]; [|lia].
  destruct (_board b !! Z.to_nat (pos_y pos)) as [row|] eqn:Hrow; [|done].
  apply bind_Ok in Hm as (i & Hidx & [= <-]).
  apply np_index_nonneg in Hidx as [-> _]; [|lia].
  by apply cell_insert_ne.
Qed.

Lemma set_keeps_initial (b b' : Board) (init : matrix) (pos : Pos) (val : Z) (r : bool) :
  loaded b init → set b pos val = Ok (r, b') →
  keeps_initial init (_board b) → keeps_initial init (_board b').
Proof.
  intros Hl Hset Hk. destruct (set_result _ _ _ _ _ Hset) as (_ & _ & _ & Hf & Ht).
  destruct r; [|by rewrite Hf].
  destruct Ht as (Hi & Hv & Hother); [done|].
  rewrite (is_initial_loaded _ _ _ Hl) in Hi. injection Hi as Hi.
  apply bool_decide_eq_false in Hi.
  intros y x v Hc Hv0. rewrite Hother; [by apply Hk|].
  intros [= -> ->]. apply Hi. apply is_valid_true in Hv.
  split; [lia|]. split; [lia|]. rewrite Hc. split; congruence.
Qed.

Lemma fill_board_result (b b' : Board) (vals : matrix) (r : bool) :
  fill_board b vals = Ok (r, b') →
  _board_init b' = _board_init b ∧ _size b' = _size b ∧ _unfilled b' = _unfilled b
  ∧ (r = false → b' = b)
  ∧ (r = true → _board b' = vals ∧ shaped (_size b) vals
       ∧ ∀ init, _board_init b = Some init → shaped (_size b) init →
                 keeps_initial init vals).
Proof.
  unfold fill_board. destruct (shape_is _ _ vals) eqn:Hshape; simpl;
    [|by intros [= <- <-]].
  destruct (_board_init b) as [init|] eqn:Hi; [|done].
  destruct (existsb _ _) eqn:Hscan; intros [= <- <-]; [done|].
  do 3 (split; [done|]). split; [done|]. intros _.
  apply shape_is_shaped in Hshape. do 2 (split; [done|]).
  intros init' [= <-] Hs y x v Hc Hv0.
  destruct (cell_bounds _ _ _ _ _ Hs Hc) as [Hy Hx].
  destruct (shaped_cell _ _ y x Hshape Hy Hx) as [c Hcv].
  destruct (decide (v = c)) as [->|Hne]; [done|].
  assert (existsb (λ '(line_init, line_new), line_changed line_init line_new)
                  (zip init vals) = true) as Habs; [|congruence].
  apply board_changed_true. exists y, x, v, c. eauto.
Qed.

Lemma fill_line_result (b b' : Board) (line_num : Z) (vals : list Z) (r : option bool) :
  fill_line b line_num vals = Ok (r, b') →
  _board_init b' = _board_init b ∧ _size b' = _size b ∧ _unfilled b' = _unfilled b
  ∧ (r = Some false → b' = b)
  ∧ (r ≠ Some false →
       r = None ∧ 0 ≤ line_num < Z.of_nat (_size b) ∧ length vals = _size b
       ∧ _board b' = <[Z.to_nat line_num := vals]> (_board b)
       ∧ ∀ init, _board_init b = Some init → shaped (_size b) init →
           ∀ x v, cell init (Z.to_nat line_num) x = Some v → v ≠ 0 → vals !! x = Some v).
Proof.
  unfold fill_line. destruct (negb _ || negb _) eqn:Hb; [by intros [= <- <-]|].
  apply orb_false_iff in Hb as [Hlen Hrange].
  apply negb_false_iff, bool_decide_eq_true in Hlen, Hrange.
  destruct (_board_init b) as [init|] eqn:Hi; [|done].
  intros Hf. apply bind_Ok in Hf as (line_init & Hrow & Hf).
  destruct (line_changed line_init vals) eqn:Hscan; [by injection Hf as <- <-|].
  apply bind_Ok in Hf as (m & Hm & [= <- <-]).
  do 3 (split; [done|]). split; [done|]. intros _. do 3 (split; [done|]).
  unfold np_set_row in Hm. apply bind_Ok in Hm as (j & Hj & [= <-]).
  apply np_index_nonneg in Hj as [-> _]; [|lia]. split; [done|].
  intros init' [= <-] Hs x v Hc Hv0.
  unfold np_row in Hrow. apply bind_Ok in Hrow as (j & Hj & Hrow).
  apply np_index_nonneg in Hj as [-> _]; [|lia].
  unfold cell in Hc. destruct (init !! Z.to_nat line_num) as [r|] eqn:Hr; [|done].
  injection Hrow as <-. simpl in Hc.
  destruct (vals !! x) as [c|] eqn:Hcx.
  - destruct (decide (v = c)) as [->|Hne]; [done|].
    assert (line_changed r vals = true) as Habs; [|congruence].
    apply line_changed_true. eauto 10.
  - apply lookup_ge_None in Hcx. apply lookup_lt_Some in Hc.
    pose proof (shaped_row _ _ _ _ Hs Hr). lia.
Qed.

(** ** Facts about loading *)

Lemma parse_rows_length (lines : list string) : length (parse_rows lines) = length lines.
Proof. unfold parse_rows. by rewrite length_fmap. Qed.

Lemma parse_rows_shaped (size : nat) (lines : list string) :
  length lines = size → Forall (good_line size) lines → shaped size (parse_rows lines).
Proof.
  intros Hlen Hgood. split; [by rewrite parse_rows_length|].
  unfold parse_rows. rewrite Forall_fmap. eapply Forall_impl; [exact Hgood|].
  intros line [_ Hl]. simpl. by rewrite length_fmap.
Qed.

Lemma good_line_check (size : nat) (line : string) :
  (bool_decide (None ∈ _try_convert_seq line)
   || negb (bool_decide (length (_try_convert_seq line) = size)))
  = negb (bool_decide (good_line size line)).
Proof.
  destruct (decide (good_line size line)) as [[H1 H2]|Hb].
  - rewrite (bool_decide_eq_true_2 (good_line _ _)) by done.
    rewrite (bool_decide_eq_false_2 (None ∈ _)) by done.
    by rewrite (bool_decide_eq_true_2 (length _ = _)).
  - rewrite (bool_decide_eq_false_2 (good_line _ _)) by done. simpl.
    apply orb_true_iff. unfold good_line in Hb.
    destruct (decide (None ∈ _try_convert_seq line)) as [Hn|Hn];
      [left; by apply bool_decide_eq_true_2|].
    right. apply negb_true_iff, bool_decide_eq_false_2. intros Hlen. by apply Hb.
Qed.

(** The loop of [_init_from_file] run forward: the lines before the first
    bad one overwrite the rows of the board from [k] on. *)
Lemma init_from_file_loop_run (size : nat) (lines : list string) :
  ∀ (k : nat) (board : matrix) (j : nat),
    (k + j ≤ length board)%nat → (j ≤ length lines)%nat →
    Forall (good_line size) (take j lines) →
    (j = length lines ∨ ∃ line, lines !! j = Some line ∧ ¬ good_line size line) →
    _init_from_file_loop size k board lines
    = Ok (bool_decide (j = length lines ∧ k + j = size)%nat,
          take k board ++ parse_rows (take j lines) ++ drop (k + j) board).
Proof.
  induction lines as [|line rest IH]; intros k board j Hk Hj Hgood Hstop.
  - simpl in *. assert (j = 0)%nat as -> by lia. simpl.
    rewrite Nat.add_0_r, take_drop. do 2 f_equal.
    apply bool_decide_ext. lia.
  - simpl. rewrite good_line_check. destruct j as [|j].
    + destruct Hstop as [?|(line' & [= <-] & Hbad)]; [done|].
      rewrite (bool_decide_eq_false_2 (good_line size line)) by done. simpl.
      by rewrite Nat.add_0_r, take_drop.
    + simpl in Hgood. apply Forall_cons in Hgood as [Hline Hgood].
      rewrite (bool_decide_eq_true_2 (good_line size line)) by done. simpl.
      unfold np_set_row. rewrite np_index_nat by lia. simpl.
      rewrite (IH (S k) _ j); [|rewrite length_insert; lia|simpl in Hj; lia|done|].
      * f_equal. f_equal; [apply bool_decide_ext; simpl; lia|].
        destruct (lookup_lt_is_Some_2 board k ltac:(lia)) as [old Hold].
        rewrite (take_S_r _ _ (default 0 <$> _try_convert_seq line)).
        2:{ rewrite list_lookup_insert_eq by lia. done. }
        rewrite take_insert_ge by lia. rewrite drop_insert_lt by lia.
        rewrite <- (app_assoc (take k board)). simpl.
        replace (S (k + j)) with (k + S j)%nat by lia. done.
      * destruct Hstop as [Hlen|(line' & Hl & Hbad)]; [left; simpl in Hlen; lia|].
        right. exists line'. done.
Qed.

(** Conversely, whenever the loop returns, it stopped in that way. *)
Lemma init_from_file_loop_inv (size : nat) (lines : list string) :
  ∀ (k : nat) (board : matrix) (ok : bool) (m : matrix),
    (k ≤ length board)%nat →
    _init_from_file_loop size k board lines = Ok (ok, m) →
    ∃ j, (k + j ≤ length board)%nat ∧ (j ≤ length lines)%nat
         ∧ Forall (good_line size) (take j lines)
         ∧ (j = length lines ∨ ∃ line, lines !! j = Some line ∧ ¬ good_line size line).
Proof.
  induction lines as [|line rest IH]; intros k board ok m Hk Hrun.
  - exists 0%nat. simpl. repeat split; [lia|lia|constructor|by left].
  - simpl in Hrun. rewrite good_line_check in Hrun.
    destruct (decide (good_line size line)) as [Hg|Hb].
    + rewrite bool_decide_eq_true_2 in Hrun by done. simpl in Hrun.
      apply bind_Ok in Hrun as (board' & Hset & Hrun).
      unfold np_set_row in Hset. apply bind_Ok in Hset as (i & Hi & [= <-]).
      apply np_index_nonneg in Hi as [-> Hlt]; [|lia]. rewrite Nat2Z.id in Hlt.
      apply IH in Hrun as (j & Hkj & Hj & Hgood & Hstop); [|rewrite length_insert; lia].
      rewrite length_insert in Hkj.
      exists (S j). simpl. repeat split; [lia|lia|by constructor|].
      destruct Hstop as [->|?]; [by left|by right].
    + exists 0%nat. simpl. repeat split; [lia|lia|constructor|]. right. eauto.
Qed.

(** The blanks of a line, counted from index [i]. *)
Lemma count_unfilled_loop_spec (area : list Z) :
  ∀ (i num : nat) (unfilled : list nat),
    ∃ blanks,
      _count_unfilled_loop i num unfilled area = ((num + length blanks)%nat, unfilled ++ blanks)
      ∧ NoDup blanks
      ∧ ∀ x, x ∈ blanks ↔ ∃ k, x = (i + k)%nat ∧ area !! k = Some 0.
Proof.
  induction area as [|tile rest IH]; intros i num unfilled.
  - exists []. simpl. rewrite Nat.add_0_r, app_nil_r. split; [done|].
    split; [constructor|]. intros x. split; [by intros ?%elem_of_nil|].
    by intros (k & _ & ?).
  - simpl. case_bool_decide as Ht.
    + destruct (IH (S i) (S num) (unfilled ++ [i])) as (blanks & -> & Hnd & Hin).
      exists (i :: blanks). simpl. rewrite <- app_assoc. simpl.
      split; [f_equal; lia|]. split.
      * constructor; [|done]. rewrite Hin. intros (k & ? & _). lia.
      * intros x. rewrite elem_of_cons, Hin. split.
        -- intros [->|(k & -> & Hk)]; [exists 0%nat|exists (S k)]; simpl.
           ++ split; [lia|]. by rewrite Ht.
           ++ split; [lia|done].
        -- intros ([|k] & -> & Hk); [left; lia|]. right. exists k. split; [lia|done].
    + destruct (IH (S i) num unfilled) as (blanks & -> & Hnd & Hin).
      exists blanks. split; [done|]. split; [done|].
      intros x. rewrite Hin. split.
      * intros (k & -> & Hk). exists (S k). split; [lia|done].
      * intros ([|k] & -> & Hk); simpl in Hk; [congruence|].
        exists k. split; [lia|done].
Qed.

Lemma count_unfilled_spec (area : list Z) :
  ∃ blanks, _count_unfilled area = (length blanks, blanks) ∧ NoDup blanks
            ∧ ∀ x, x ∈ blanks ↔ area !! x = Some 0.
Proof.
  destruct (count_unfilled_loop_spec area 0 0 []) as (blanks & Heq & Hnd & Hin).
  exists blanks. split; [done|]. split; [done|].
  intros x. rewrite Hin. split; [by intros (k & -> & ?)|]. intros ?. by exists x.
Qed.

Lemma dict_set_fresh (k : nat) (v : list nat) (d : dict) :
  k ∉ d.*1 → dict_set k v d = d ++ [(k, v)].
Proof.
  induction d as [|[k' v'] d IH]; intros Hk; [done|]. simpl in *.
  apply not_elem_of_cons in Hk as [Hne Hk].
  rewrite bool_decide_eq_false_2 by done. by rewrite IH.
Qed.

Lemma dict_get_elem (k : nat) (v : list nat) (d : dict) :
  NoDup d.*1 → (k, v) ∈ d → dict_get k d = Some v.
Proof.
  induction d as [|[k' v'] d IH]; intros Hnd Hin; [by apply elem_of_nil in Hin|].
  simpl in *. apply NoDup_cons in Hnd as [Hk' Hnd].
  apply elem_of_cons in Hin as [[= <- <-]|Hin].
  - by rewrite bool_decide_eq_true_2.
  - rewrite bool_decide_eq_false_2; [by apply IH|].
    intros ->. apply Hk'. apply list_elem_of_fmap. by exists (k', v).
Qed.

(** The dictionary built by [set_init_state] from an empty one: the rows
    with at least two blanks, in increasing order, each with its blanks. *)
Lemma init_unfilled_spec (lines : matrix) :
  ∀ (i : nat) (d : dict),
    (∀ k, k ∈ d.*1 → (k < i)%nat) →
    ∃ d', init_unfilled i lines d = d ++ d'
          ∧ NoDup d'.*1
          ∧ (∀ k, k ∈ d'.*1 → (i ≤ k)%nat)
          ∧ ∀ row blanks, (row, blanks) ∈ d' ↔
              ∃ line, (i ≤ row)%nat ∧ lines !! (row - i)%nat = Some line
                      ∧ _count_unfilled line = (length blanks, blanks)
                      ∧ (2 ≤ length blanks)%nat.
Proof.
  induction lines as [|line rest IH]; intros i d Hd.
  - exists []. simpl. rewrite app_nil_r. split; [done|]. split; [constructor|].
    split; [by intros k ?%elem_of_nil|]. intros row blanks.
    split; [by intros ?%elem_of_nil|]. by intros (l & _ & ? & _).
  - simpl. destruct (count_unfilled_spec line) as (bl & Hbl & _ & _).
    rewrite Hbl. case_bool_decide as Hnum.
    + rewrite dict_set_fresh by (intros Hin; apply Hd in Hin; lia).
      destruct (IH (S i) (d ++ [(i, bl)])) as (d' & -> & Hnd & Hge & Hin).
      { intros k. rewrite fmap_app, elem_of_app. simpl.
        intros [Hk|Hk%list_elem_of_singleton]; [apply Hd in Hk|]; lia. }
      exists ((i, bl) :: d'). rewrite <- app_assoc. split; [done|]. split.
      { simpl. constructor; [|done]. intros Hk. apply Hge in Hk. lia. }
      split.
      { intros k. simpl. rewrite elem_of_cons. intros [->|Hk]; [lia|].
        apply Hge in Hk. lia. }
      intros row blanks. rewrite elem_of_cons, Hin. split.
      * intros [[= -> ->]|(l & Hrow & Hl & Hc & Hlen)].
        -- exists line. rewrite Nat.sub_diag. done.
        -- exists l. replace (row - i)%nat with (S (row - S i)) by lia. simpl.
           split; [lia|done].
      * intros (l & Hrow & Hl & Hc & Hlen).
        destruct (decide (row = i)) as [->|Hne].
        -- left. rewrite Nat.sub_diag in Hl. injection Hl as <-.
           rewrite Hbl in Hc. by injection Hc as _ <-.
        -- right. exists l. replace (row - i)%nat with (S (row - S i)) in Hl by lia.
           simpl in Hl. split; [lia|done].
    + destruct (IH (S i) d) as (d' & -> & Hnd & Hge & Hin).
      { intros k Hk. apply Hd in Hk. lia. }
      exists d'. split; [done|]. split; [done|]. split.
      { intros k Hk. apply Hge in Hk. lia. }
      intros row blanks. rewrite Hin. split.
      * intros (l & Hrow & Hl & Hc & Hlen). exists l.
        replace (row - i)%nat with (S (row - S i)) by lia. simpl. split; [lia|done].
      * intros (l & Hrow & Hl & Hc & Hlen).
        destruct (decide (row = i)) as [->|Hne].
        -- rewrite Nat.sub_diag in Hl. injection Hl as <-.
           rewrite Hbl in Hc. injection Hc as Hc _. lia.
        -- exists l. replace (row - i)%nat with (S (row - S i)) in Hl by lia.
           simpl in Hl. split; [lia|done].
Qed.

Lemma set_init_state_success (b b' : Board) (lines : list string) :
  length (_board b) = _size b →
  set_init_state b (Some lines) = Ok (true, b') →
  _size b' = _size b ∧ _size_sq b' = _size_sq b
  ∧ _board b' = parse_rows lines
  ∧ loaded b' (parse_rows lines)
  ∧ _unfilled b' = init_unfilled 0 (parse_rows lines) (_unfilled b).
Proof.
  intros Hlen Hload. unfold set_init_state, _init_from_file in Hload.
  apply bind_Ok in Hload as ([ok b1] & Hfile & Hload).
  apply bind_Ok in Hfile as ([ok' m] & Hloop & [= <- <-]).
  destruct ok'; [|done]. injection Hload as <-. simpl.
  destruct (init_from_file_loop_inv _ _ _ _ _ _ (Nat.le_0_l _) Hloop)
    as (j & Hkj & Hj & Hgood & Hstop).
  rewrite (init_from_file_loop_run _ _ _ _ j Hkj Hj Hgood Hstop) in Hloop.
  injection Hloop as Hok <-.
  apply bool_decide_eq_true in Hok as [-> Hsize].
  simpl in *. rewrite firstn_all in *. rewrite drop_ge, app_nil_r by lia.
  do 3 (split; [done|]). split; [|done]. split; [done|].
  by apply parse_rows_shaped.
Qed.

Example load_puzzle4 :
  (b ← Board_new 4; set_init_state b (Some puzzle4)) = Ok (true, board4).
Proof. reflexivity. Qed.

Lemma loaded_board4 : loaded board4 init4.
Proof. split; [done|]. split; [done|]. by repeat constructor. Qed.

(** C1: on a loaded grid, [is_initial] holds exactly at the tiles the
    loaded puzzle gives; [set] refuses such a tile, [fill_board] and
    [fill_line] refuse values that differ on one, each returning [False]
    with the board as it was; a load makes the parsed file the snapshot;
    and whatever the three mutations return, the snapshot stays and every
    given tile still has its initial value. *)
Theorem initial_cells_are_kept (b : Board) (init : matrix) :
  loaded b init →
  (∀ pos, is_initial b pos = Ok (bool_decide (initially_set init pos)))
  ∧ (∀ pos val, initially_set init pos → set b pos val = Ok (false, b))
  ∧ (∀ vals y x a c,
       cell init y x = Some a → a ≠ 0 → cell vals y x = Some c → c ≠ a →
       fill_board b vals = Ok (false, b))
  ∧ (∀ line_num vals x a c,
       0 ≤ line_num → cell init (Z.to_nat line_num) x = Some a → a ≠ 0 →
       vals !! x = Some c → c ≠ a →
       fill_line b line_num vals = Ok (Some false, b))
  ∧ (∀ b0 lines,
       length (_board b0) = _size b0 → set_init_state b0 (Some lines) = Ok (true, b) →
       init = parse_rows lines ∧ _board b = init)
  ∧ (∀ pos val r b',
       set b pos val = Ok (r, b') →
       loaded b' init
       ∧ (keeps_initial init (_board b) → keeps_initial init (_board b')))
  ∧ (∀ vals r b',
       fill_board b vals = Ok (r, b') →
       loaded b' init
       ∧ (keeps_initial init (_board b) → keeps_initial init (_board b')))
  ∧ (∀ line_num vals r b',
       fill_line b line_num vals = Ok (r, b') →
       loaded b' init
       ∧ (keeps_initial init (_board b) → keeps_initial init (_board b'))).
Proof.
  intros Hl. split; [by intros; apply is_initial_loaded|].
  split.
  { intros pos val Hset. apply set_initial_refused.
    rewrite (is_initial_loaded _ _ _ Hl). by rewrite bool_decide_eq_true_2. }
  split; [by intros; eapply fill_board_refused|].
  split; [by intros; eapply fill_line_refused|].
  split.
  { intros b0 lines Hlen Hload.
    destruct (set_init_state_success _ _ _ Hlen Hload) as (_ & _ & Hb & [Hi _] & _).
    destruct Hl as [Hi' _]. rewrite Hi in Hi'. injection Hi' as <-. done. }
  destruct Hl as [Hi Hs]. split.
  { intros pos val r b' Hset.
    pose proof (set_keeps_initial _ _ _ _ _ _ (conj Hi Hs) Hset) as Hk.
    destruct (set_result _ _ _ _ _ Hset) as (Hi' & Hsz & _).
    split; [|done]. split; [congruence|]. by rewrite Hsz. }
  split.
  { intros vals r b' Hfill.
    destruct (fill_board_result _ _ _ _ Hfill) as (Hi' & Hsz & _ & Hf & Ht).
    split; [split; [congruence|by rewrite Hsz]|].
    intros Hk. destruct r; [|by rewrite Hf].
    destruct Ht as (-> & _ & Hkeep); [done|]. by apply Hkeep. }
  intros line_num vals r b' Hfill.
  destruct (fill_line_result _ _ _ _ _ Hfill) as (Hi' & Hsz & _ & Hf & Ht).
  split; [split; [congruence|by rewrite Hsz]|].
  intros Hk. destruct (decide (r = Some false)) as [Hr|Hr]; [by rewrite Hf|].
  destruct (Ht Hr) as (_ & Hrange & Hlen & -> & Hkeep).
  intros y x v Hc Hv0. unfold cell.
  destruct (decide (y = Z.to_nat line_num)) as [->|Hy].
  - destruct (cell_bounds _ _ _ _ _ Hs Hc) as [Hy _].
    specialize (Hk _ _ _ Hc Hv0). unfold cell in Hk.
    destruct (_board b !! Z.to_nat line_num) as [row|] eqn:Hrow; [|done].
    rewrite list_lookup_insert_eq by (by eapply lookup_lt_Some). simpl.
    by eapply Hkeep.
  - rewrite list_lookup_insert_ne by done. by apply Hk.
Qed.

Lemma initial_cells_are_kept_witness :
  loaded board4 init4
  ∧ is_initial board4 (mkPos 2 0) = Ok true
  ∧ set board4 (mkPos 2 0) 1 = Ok (false, board4)
  ∧ fill_board board4 [[1; 2; 1; 4]; [3; 4; 1; 2]; [2; 1; 4; 3]; [4; 3; 2; 1]]
    = Ok (false, board4)
  ∧ fill_line board4 0 [1; 2; 1; 4] = Ok (Some false, board4).
Proof.
  pose proof (initial_cells_are_kept board4 init4 loaded_board4)
    as (H1 & H2 & H3 & H4 & _).
  split; [exact loaded_board4|].
  split; [exact (H1 (mkPos 2 0))|].
  split; [apply H2; vm_compute; intuition congruence|].
  split.
  - apply (H3 _ 0%nat 2%nat 3 1); [reflexivity|lia|reflexivity|lia].
  - apply (H4 0 _ 2%nat 3 1); [lia|reflexivity|lia|reflexivity|lia].
Defined.

(** C6, as stated, fails: a second load of a loaded board whose file has
    a non-integer token in its second line returns [False] after the first
    line has been written into the working board. *)
Lemma failed_load_overwrites_board :
  ¬ good_line 4 "3 x 1 2"
  ∧ ∃ b', set_init_state board4 (Some ["4 3 2 1"; "3 x 1 2"]%string) = Ok (false, b')
          ∧ _board b' = [[4; 3; 2; 1]; [3; 4; 0; 2]; [0; 1; 0; 0]; [4; 3; 2; 1]]
          ∧ _board b' ≠ _board board4.
Proof.
  split; [by_decision|].
  eexists. split; [reflexivity|]. split; [reflexivity|]. discriminate.
Qed.

(** A file with more well-formed lines than the board has rows does not
    make the load return: the write of the extra line raises. *)
Example load_too_many_rows :
  set_init_state board4 (Some (puzzle4 ++ ["1 2 3 4"]%string)) = Raise IndexError.
Proof. reflexivity. Qed.

(** C6, amended: when the first [j <= size] lines are well formed, of
    64-bit integers, and either line [j] is not well formed (wrong number
    of integers, or a token that is not an integer) or the file ends there
    with fewer than [size] lines, the load returns [False]; the frozen
    snapshot, the blank index and the size are as before, and the working
    board has its first [j] rows replaced by the parsed lines. *)
Theorem failed_load_keeps_snapshot (b : Board) (lines : list string) (j : nat) :
  length (_board b) = _size b →
  (j ≤ _size b)%nat → (j ≤ length lines)%nat →
  Forall (good_line (_size b)) (take j lines) →
  fits_int64 (parse_rows (take j lines)) →
  (∃ line, lines !! j = Some line ∧ ¬ good_line (_size b) line)
  ∨ (j = length lines ∧ (j < _size b)%nat) →
  ∃ b', set_init_state b (Some lines) = Ok (false, b')
        ∧ _board_init b' = _board_init b
        ∧ _unfilled b' = _unfilled b
        ∧ _size b' = _size b
        ∧ _board b' = parse_rows (take j lines) ++ drop j (_board b).
Proof.
  intros Hlen Hj Hjl Hgood _ Hstop.
  exists (with_board b (parse_rows (take j lines) ++ drop j (_board b))).
  split; [|done]. unfold set_init_state, _init_from_file.
  rewrite (init_from_file_loop_run _ _ _ _ j); [|simpl; lia|done|done|].
  - rewrite bool_decide_eq_false_2; [done|].
    intros [Hlast Hsize]. destruct Hstop as [(line & Hline & _)|[_ ?]]; [|simpl in *; lia].
    apply lookup_lt_Some in Hline. lia.
  - destruct Hstop as [?|[? _]]; [by right|by left].
Qed.

Lemma failed_load_keeps_snapshot_witness :
  ∃ b', set_init_state board4 (Some ["4 3 2 1"; "3 x 1 2"]%string) = Ok (false, b')
        ∧ _board_init b' = Some init4
        ∧ _unfilled b' = unfilled4
        ∧ _size b' = 4%nat
        ∧ _board b' = [[4; 3; 2; 1]; [3; 4; 0; 2]; [0; 1; 0; 0]; [4; 3; 2; 1]].
Proof.
  apply (failed_load_keeps_snapshot board4 ["4 3 2 1"; "3 x 1 2"]%string 1).
  - reflexivity.
  - simpl. lia.
  - simpl. lia.
  - simpl. constructor; [by_decision|constructor].
  - repeat constructor; by_decision.
  - left. eexists. split; [reflexivity|]. by_decision.
Defined.

(** ** Facts about [check] *)

Lemma check_unique_loop_true (area : list Z) :
  ∀ free : gset Z,
    _check_unique_loop free area = true ↔ NoDup area ∧ ∀ x, x ∈ area → x ≠ 0 ∧ x ∈ free.
Proof.
  induction area as [|x rest IH]; intros free; simpl.
  - split; [|done]. intros _. split; [constructor|]. by intros x ?%elem_of_nil.
  - destruct (decide (x = 0)) as [->|Hx0].
    { rewrite bool_decide_eq_true_2 by done. simpl. split; [done|].
      intros [_ Hall]. destruct (Hall 0); [by left|done]. }
    rewrite (bool_decide_eq_false_2 (x = 0)) by done. simpl.
    destruct (decide (x ∈ free)) as [Hin|Hnin].
    + rewrite bool_decide_eq_true_2 by done. simpl. rewrite IH, NoDup_cons. split.
      * intros [Hnd Hall]. split.
        -- split; [|done]. intros Hxr. apply Hall in Hxr as [_ Hxr].
           apply elem_of_difference in Hxr as [_ Hxr]. apply Hxr.
           by apply elem_of_singleton.
        -- intros y [->|Hy]%elem_of_cons; [done|].
           apply Hall in Hy as [? Hy]. split; [done|].
           by apply elem_of_difference in Hy as [? _].
      * intros [[Hxr Hnd] Hall]. split; [done|]. intros y Hy.
        destruct (Hall y) as [? ?]; [by right|]. split; [done|].
        apply elem_of_difference. split; [done|]. intros ->%elem_of_singleton. done.
    + rewrite bool_decide_eq_false_2 by done. simpl. split; [done|].
      intros [_ Hall]. destruct (Hall x); [by left|done].
Qed.

(** [_check_unique] accepts exactly the permutations of 1..len(area). *)
Lemma check_unique_permutation (area : list Z) :
  _check_unique area = true ↔ valid_area (length area) area.
Proof.
  unfold _check_unique, valid_area. rewrite check_unique_loop_true. split.
  - intros [Hnd Hall]. apply submseteq_length_Permutation.
    + apply NoDup_submseteq; [done|]. intros x Hx.
      apply Hall in Hx as [_ Hx]. by apply elem_of_list_to_set in Hx.
    + rewrite length_seqZ. lia.
  - intros Hperm. split.
    + rewrite Hperm. apply NoDup_seqZ.
    + intros x Hx. rewrite Hperm in Hx. split.
      * apply elem_of_seqZ in Hx. lia.
      * by apply elem_of_list_to_set.
Qed.

Lemma filter_ext_in {A} (P Q : A → Prop) `{∀ x, Decision (P x), ∀ x, Decision (Q x)}
    (l : list A) :
  (∀ x, x ∈ l → P x ↔ Q x) → filter P l = filter Q l.
Proof.
  induction l as [|a l IH]; intros Hext; [done|].
  rewrite !filter_cons. rewrite IH by (intros x Hx; apply Hext; by right).
  destruct (decide (P a)) as [Hp|Hp], (decide (Q a)) as [Hq|Hq]; try done.
  - apply Hext in Hp; [done|by left].
  - apply Hext in Hq; [done|by left].
Qed.

Lemma count_mistakes_in_spec (size : nat) (areas : list (list Z)) :
  Forall (λ a, length a = size) areas →
  count_mistakes_in areas = length (filter (λ a, ¬ valid_area size a) areas).
Proof.
  intros Hlen. unfold count_mistakes_in. f_equal. apply filter_ext_in.
  intros a Ha. rewrite Forall_forall in Hlen. specialize (Hlen a Ha).
  rewrite <- Hlen, <- check_unique_permutation. by destruct (_check_unique a).
Qed.

Lemma length_concat_uniform (k : nat) (ls : list (list Z)) :
  Forall (λ l, length l = k) ls → length (concat ls) = (length ls * k)%nat.
Proof.
  induction 1 as [|l ls Hl _ IH]; [done|]. simpl. rewrite length_app, IH, Hl. done.
Qed.

Lemma np_slice_flat_length (size sq : nat) (m : matrix) (vert hr : nat) :
  shaped size m → size = (sq * sq)%nat → (vert < sq)%nat → (hr < sq)%nat →
  length (np_slice_flat m (vert * sq) ((vert + 1) * sq) (hr * sq) ((hr + 1) * sq)) = size.
Proof.
  intros [Hlen Hrows] Hsq Hv Hh. unfold np_slice_flat.
  assert ((vert + 1) * sq - vert * sq = sq)%nat as -> by lia.
  assert ((hr + 1) * sq - hr * sq = sq)%nat as -> by lia.
  assert (vert * sq + sq ≤ sq * sq)%nat by nia.
  assert (hr * sq + sq ≤ sq * sq)%nat by nia.
  rewrite (length_concat_uniform sq).
  - rewrite length_fmap, length_take, length_drop.
    rewrite Nat.min_l by lia. lia.
  - rewrite Forall_fmap. apply Forall_take, Forall_drop.
    eapply Forall_impl; [exact Hrows|]. intros r Hr. simpl in *.
    rewrite length_take, length_drop. lia.
Qed.

Lemma length_flat_map_uniform {A B} (f : A → list B) (k : nat) (l : list A) :
  (∀ x, x ∈ l → length (f x) = k) → length (flat_map f l) = (length l * k)%nat.
Proof.
  induction l as [|a l IH]; intros Hf; [done|]. simpl.
  rewrite length_app, IH, Hf; [done|by left|]. intros x Hx. apply Hf. by right.
Qed.

Lemma squares_lengths (b : Board) :
  well_formed b →
  length (squares b) = _size b ∧ Forall (λ a, length a = _size b) (squares b).
Proof.
  intros [Hs Hsq]. unfold squares. split.
  - rewrite (length_flat_map_uniform _ (_size_sq b)).
    + rewrite length_seq. lia.
    + intros hr _. by rewrite length_fmap, length_seq.
  - apply Forall_forall. intros a Ha.
    apply list_elem_of_In, in_flat_map in Ha as (hr & Hhr & Ha).
    apply list_elem_of_In, list_elem_of_fmap in Ha as (vert & -> & Hvert).
    apply list_elem_of_In, elem_of_seq in Hhr. apply elem_of_seq in Hvert.
    apply (np_slice_flat_length _ (_size_sq b)); [done|done|lia|lia].
Qed.

Lemma columns_of_shaped (size : nat) (m : matrix) :
  shaped size m →
  ∃ cols, columns_of size m = Ok cols ∧ length cols = size
          ∧ Forall (λ a, length a = size) cols
          ∧ ∀ i y, cell cols i y = cell m y i.
Proof.
  intros [Hlen Hrows]. unfold columns_of.
  assert (∀ i, (i < size)%nat →
            ∃ c, np_col m i = Ok c ∧ length c = size ∧ ∀ y, c !! y = cell m y i) as Hcol.
  { intros i Hi. unfold np_col.
    destruct (mapM (λ r : list Z, r !! i) m) as [c|] eqn:Hc.
    - exists c. split; [done|]. apply mapM_Some in Hc.
      split; [by rewrite <- (Forall2_length _ _ _ Hc)|].
      intros y. unfold cell. destruct (m !! y) as [r|] eqn:Hr; simpl.
      + destruct (Forall2_lookup_l _ _ _ _ _ Hc Hr) as (v & Hv & Hrv). by rewrite Hv.
      + apply lookup_ge_None. apply lookup_ge_None in Hr.
        by rewrite <- (Forall2_length _ _ _ Hc).
    - exfalso. assert (is_Some (mapM (λ r : list Z, r !! i) m)) as [? ?]; [|congruence].
      apply mapM_is_Some. eapply Forall_impl; [exact Hrows|].
      intros r Hr. simpl in *. apply lookup_lt_is_Some_2. lia. }
  destruct (mapM _ (seq 0 size)) as [cols|] eqn:Hcols.
  - exists cols. split; [done|]. apply mapM_Some in Hcols.
    pose proof (Forall2_length _ _ _ Hcols) as Hl. rewrite length_seq in Hl.
    split; [done|]. split.
    + apply Forall_forall. intros c Hc. apply list_elem_of_lookup in Hc as [i Hi].
      destruct (Forall2_lookup_r _ _ _ _ _ Hcols Hi) as (i' & Hi' & Hci).
      apply lookup_seq in Hi' as [-> Hlt]. simpl in Hci.
      destruct (Hcol i Hlt) as (c' & Hc' & Hlc & _). rewrite Hc' in Hci.
      by injection Hci as <-.
    + intros i y. unfold cell at 1. destruct (cols !! i) as [c|] eqn:Hi; simpl.
      * destruct (Forall2_lookup_r _ _ _ _ _ Hcols Hi) as (i' & Hi' & Hci).
        apply lookup_seq in Hi' as [-> Hlt]. simpl in Hci.
        destruct (Hcol i Hlt) as (c' & Hc' & _ & Hcy). rewrite Hc' in Hci.
        injection Hci as <-. done.
      * apply lookup_ge_None in Hi. unfold cell.
        destruct (m !! y) as [r|] eqn:Hr; [|done]. simpl. symmetry.
        apply lookup_ge_None. rewrite Forall_lookup in Hrows.
        rewrite (Hrows _ _ Hr). lia.
  - exfalso. assert (is_Some (mapM (λ i, match np_col m i with
                                          | Ok c => Some c
                                          | Raise _ => None
                                          end) (seq 0 size))) as [? ?]; [|congruence].
    apply mapM_is_Some. apply Forall_forall. intros i Hi. apply elem_of_seq in Hi.
    destruct (Hcol i) as (c & Hc & _); [lia|]. simpl. by rewrite Hc.
Qed.

Lemma lookup_concat_uniform {A} (k : nat) (ls : list (list A)) (i j : nat) :
  Forall (λ l, length l = k) ls → (j < k)%nat →
  concat ls !! (i * k + j)%nat = ls !! i ≫= λ l, l !! j.
Proof.
  intros Hlen Hj. revert i. induction Hlen as [|l ls Hl _ IH]; intros i; [done|].
  simpl. destruct i as [|i]; simpl.
  - rewrite lookup_app_l by lia. done.
  - rewrite lookup_app_r by lia. rewrite <- IH. f_equal. lia.
Qed.

(** The square listed at place [hr * sq + vert] is the block of the rows
    from [vert * sq] and the columns from [hr * sq], row after row. *)
Lemma squares_cells (b : Board) (hr vert dy dx : nat) :
  well_formed b →
  (hr < _size_sq b)%nat → (vert < _size_sq b)%nat →
  (dy < _size_sq b)%nat → (dx < _size_sq b)%nat →
  cell (squares b) (hr * _size_sq b + vert) (dy * _size_sq b + dx)
  = cell (_board b) (vert * _size_sq b + dy) (hr * _size_sq b + dx).
Proof.
  intros [[Hlen Hrows] Hsq] Hhr Hvert Hdy Hdx. set (sq := _size_sq b) in *.
  unfold squares. fold sq. rewrite flat_map_concat_map.
  unfold cell at 1. change (map ?f ?l) with (f <$> l).
  rewrite (lookup_concat_uniform sq); [| |done].
  2:{ apply Forall_fmap, Forall_forall. intros x _. simpl.
      by rewrite length_fmap, length_seq. }
  rewrite list_lookup_fmap, lookup_seq_lt by done. simpl.
  rewrite list_lookup_fmap, lookup_seq_lt by done. simpl.
  unfold np_slice_flat.
  assert ((vert + 1) * sq - vert * sq = sq)%nat as -> by lia.
  assert ((hr + 1) * sq - hr * sq = sq)%nat as -> by lia.
  assert (vert * sq + sq ≤ sq * sq)%nat by nia.
  assert (hr * sq + sq ≤ sq * sq)%nat by nia.
  rewrite (lookup_concat_uniform sq); [| |done].
  - rewrite list_lookup_fmap, lookup_take_lt, lookup_drop by done.
    unfold cell. destruct (_board b !! (vert * sq + dy)%nat) as [r|]; [|done]. simpl.
    by rewrite lookup_take_lt, lookup_drop.
  - rewrite Forall_fmap. apply Forall_take, Forall_drop.
    eapply Forall_impl; [exact Hrows|]. intros r Hr. simpl in *.
    rewrite length_take, length_drop. lia.
Qed.

Lemma well_formed_board4 : well_formed board4.
Proof. split; [|done]. split; [done|]. by repeat constructor. Qed.

Lemma well_formed_solved_board4 : well_formed solved_board4.
Proof. split; [|done]. split; [done|]. by repeat constructor. Qed.

Lemma ratio_is_quotient (m n : nat) :
  (0 < n)%nat →
  (Qmake (Z.of_nat m) (Pos.of_nat n) == inject_Z (Z.of_nat m) / inject_Z (Z.of_nat n))%Q.
Proof.
  intros Hn. rewrite Qmake_Qdiv.
  replace (Z.pos (Pos.of_nat n)) with (Z.of_nat n); [reflexivity|].
  rewrite <- positive_nat_Z, Nat2Pos.id by lia. done.
Qed.

(** C3: on a well-formed board of positive size, [check] returns the
    number [m] of areas, among the 3*size rows, columns and squares (the
    columns and the blocks of the board), that are not a permutation of
    1..size, with the ratio m / (3*size); when every area is such a
    permutation the result is (0, 0). *)
Theorem check_counts_invalid_areas (b : Board) :
  well_formed b → (0 < _size b)%nat →
  ∃ cols ratio,
    columns_of (_size b) (_board b) = Ok cols
    ∧ (∀ i y, cell cols i y = cell (_board b) y i)
    ∧ (∀ hr vert dy dx,
         (hr < _size_sq b)%nat → (vert < _size_sq b)%nat →
         (dy < _size_sq b)%nat → (dx < _size_sq b)%nat →
         cell (squares b) (hr * _size_sq b + vert) (dy * _size_sq b + dx)
         = cell (_board b) (vert * _size_sq b + dy) (hr * _size_sq b + dx))
    ∧ length (_board b ++ cols ++ squares b) = (3 * _size b)%nat
    ∧ check b
      = Ok (length (filter (λ a, ¬ valid_area (_size b) a) (_board b ++ cols ++ squares b)),
            ratio)
    ∧ (ratio ==
       inject_Z (Z.of_nat (length (filter (λ a, ¬ valid_area (_size b) a)
                                          (_board b ++ cols ++ squares b))))
       / inject_Z (Z.of_nat (3 * _size b)))%Q
    ∧ (Forall (valid_area (_size b)) (_board b ++ cols ++ squares b) →
       check b = Ok (0%nat, ratio) ∧ (ratio == 0)%Q).
Proof.
  intros Hwf Hpos. pose proof Hwf as [Hs Hsq].
  destruct (columns_of_shaped _ _ Hs) as (cols & Hcols & Hclen & Hcrows & Hccell).
  destruct (squares_lengths _ Hwf) as [Hqlen Hqrows].
  set (areas := _board b ++ cols ++ squares b).
  set (m := length (filter (λ a, ¬ valid_area (_size b) a) areas)).
  assert (check b = Ok (m, Qmake (Z.of_nat m) (Pos.of_nat (3 * _size b)))) as Hcheck.
  { unfold check. rewrite Hcols. simpl.
    rewrite bool_decide_eq_false_2 by lia.
    destruct Hs as [Hlen Hrows].
    rewrite !(count_mistakes_in_spec (_size b)) by done.
    assert (length (filter (λ a, ¬ valid_area (_size b) a) (_board b))
            + length (filter (λ a, ¬ valid_area (_size b) a) cols)
            + length (filter (λ a, ¬ valid_area (_size b) a) (squares b)) = m)%nat as ->;
      [|done].
    unfold m, areas. rewrite !filter_app, !length_app. lia. }
  exists cols, (Qmake (Z.of_nat m) (Pos.of_nat (3 * _size b))).
  split; [done|]. split; [done|]. split; [by intros; apply squares_cells|]. split.
  { unfold areas. rewrite !length_app. destruct Hs as [-> _]. lia. }
  split; [done|]. split; [apply ratio_is_quotient; lia|].
  intros Hall. assert (m = 0%nat) as Hm.
  { unfold m. fold areas in Hall. clear -Hall.
    induction Hall as [|a l Ha _ IH]; [done|].
    rewrite filter_cons. destruct (decide (¬ valid_area (_size b) a)); [done|]. exact IH. }
  rewrite Hcheck, Hm. done.
Qed.

Lemma check_counts_invalid_areas_witness :
  well_formed solved_board4 ∧ (0 < _size solved_board4)%nat
  ∧ ∃ ratio, check solved_board4 = Ok (0%nat, ratio) ∧ (ratio == 0)%Q.
Proof.
  split; [exact well_formed_solved_board4|]. split; [simpl; lia|].
  destruct (check_counts_invalid_areas solved_board4 well_formed_solved_board4
              ltac:(simpl; lia))
    as (cols & ratio & Hcols & _ & _ & _ & _ & _ & Hall).
  exists ratio. apply Hall. injection Hcols as <-.
  repeat constructor; by_decision.
Defined.

(** ** The deviation objective *)

(** Every area of the completed 4 by 4 grid sums to 4 * 5 / 2. *)
Example solved4_areas_sum_to_target :
  ∃ cols, columns_of 4 solved4 = Ok cols
          ∧ Forall (λ a, foldr Z.add 0 a = 4 * (4 + 1) / 2)
                   (solved4 ++ cols ++ squares solved_board4).
Proof. eexists. split; [reflexivity|]. by repeat constructor. Qed.

(** C4: on the completed 4 by 4 grid, where every area sums to the
    target 10 and [check] finds no mistake, the objective is 12 * |45 - 10|
    and not 0: [_eval_tiles] measures the deviation from 45 whatever the
    size. *)
Theorem objective_of_solved4 :
  check solved_board4 = Ok (0%nat, Qmake 0 12) ∧ _objective 4 solved_board4 = Ok 420.
Proof. split; reflexivity. Qed.

(** On a 9 by 9 board the constant is the target sum. *)
Example eval_tiles_size9 : _eval_tiles (seqZ 1 9) = 0 ∧ 9 * (9 + 1) / 2 = 45.
Proof. split; reflexivity. Qed.

(** ** Bulk mutation *)

(** C7: [fill_line] with values that respect the given tiles writes the
    row and returns [None], where [fill_board] returns [True]. *)
Theorem fill_line_returns_none :
  fill_line board4 0 [1; 2; 3; 4]
  = Ok (None, with_board board4 [[1; 2; 3; 4]; [3; 4; 0; 2]; [0; 1; 0; 0]; [4; 3; 2; 1]])
  ∧ fill_board board4 solved4 = Ok (true, solved_board4).
Proof. split; reflexivity. Qed.

(** [fill_line] never returns [True]. *)
Lemma fill_line_never_true (b b' : Board) (line_num : Z) (vals : list Z) :
  fill_line b line_num vals ≠ Ok (Some true, b').
Proof.
  intros Hf. destruct (fill_line_result _ _ _ _ _ Hf) as (_ & _ & _ & _ & Ht).
  by destruct Ht as [? _].
Qed.

(** A refused bulk mutation writes nothing. *)
Lemma bulk_mutation_all_or_nothing (b b' : Board) :
  (∀ vals, fill_board b vals = Ok (false, b') → b' = b)
  ∧ (∀ line_num vals, fill_line b line_num vals = Ok (Some false, b') → b' = b).
Proof.
  split.
  - intros vals Hf. by destruct (fill_board_result _ _ _ _ Hf) as (_ & _ & _ & -> & _).
  - intros line_num vals Hf.
    by destruct (fill_line_result _ _ _ _ _ Hf) as (_ & _ & _ & -> & _).
Qed.

(** Wrong dimensions are refused as well. *)
Lemma bulk_mutation_wrong_dimensions (b : Board) :
  (∀ vals, ¬ shaped (_size b) vals → fill_board b vals = Ok (false, b))
  ∧ (∀ line_num vals,
       length vals ≠ _size b ∨ ¬ (0 ≤ line_num < Z.of_nat (_size b)) →
       fill_line b line_num vals = Ok (Some false, b)).
Proof.
  split.
  - intros vals Hshape. unfold fill_board.
    destruct (shape_is _ _ vals) eqn:Hs; [|done]. by apply shape_is_shaped in Hs.
  - intros line_num vals Hbad. unfold fill_line.
    destruct Hbad as [Hlen|Hrange].
    + by rewrite (bool_decide_eq_false_2 (length vals = _)).
    + rewrite (bool_decide_eq_false_2 (0 ≤ line_num < _)) by done.
      by rewrite orb_true_r.
Qed.

(** ** The trivial case of the driver *)

Example load_one_blank4 :
  (b ← Board_new 4; set_init_state b (Some one_blank4)) = Ok (true, one_blank_board4).
Proof. reflexivity. Qed.

(** With no row of two blanks, [try_solve] returns score 0 and 0
    iterations at once: no method of the solver is called, the generator
    is not used, and the board is the initial state. *)
Lemma try_solve_trivial {G : Type} (M : @Methods G) (s : Solver) (board board' : Board) (g : G) :
  solver_board s = Some board → reset board = Ok board' → _unfilled board = [] →
  try_solve M s g
  = Ok (mkSolution (Some board') (mkResult (Fin 0) (Fin 0)),
        mkSolver (Some board') (_max_iter s) (_max_restarts s) (_stop_if_found s)
                 (_board_size s) (replicate (_max_restarts s) (mkResult (Fin 0) (Fin 0))),
        g).
Proof.
  intros Hb Hreset Hunf. unfold try_solve. rewrite Hb, Hreset. simpl.
  unfold _solve. simpl. unfold unfilled_by_row.
  assert (_unfilled board' = []) as ->; [|done].
  unfold reset in Hreset. destruct (_board_init board); [|done].
  by injection Hreset as <-.
Qed.

(** C5: for the puzzle with one blank, [try_solve] returns score 0 and
    0 iterations, whatever the solver, and the board it returns is the
    initial state, its blank still there: [check] counts 3 mistakes on it. *)
Theorem trivial_solve_leaves_the_blank {G : Type} (M : @Methods G)
    (max_restarts max_iter : nat) (stop_if_found : bool) (g : G) :
  (∃ s', try_solve M (Solver_new one_blank_board4 max_restarts max_iter stop_if_found) g
         = Ok (mkSolution (Some one_blank_board4) (mkResult (Fin 0) (Fin 0)), s', g))
  ∧ cell (_board one_blank_board4) 0 0 = Some 0
  ∧ check one_blank_board4 = Ok (3%nat, Qmake 3 12).
Proof.
  split; [|split; reflexivity]. eexists.
  by rewrite (try_solve_trivial M _ one_blank_board4 one_blank_board4).
Qed.

(** ** Probabilities outside [0, 1] *)

Lemma with_probability_invalid {G : Type} `{RandomSource G} (prob : Q) (g : G) :
  ¬ (0 <= prob ∧ prob <= 1)%Q → _with_probability prob g = Raise AssertionError.
Proof.
  intros Hbad. unfold _with_probability.
  destruct (Qle_bool 0 prob && Qle_bool prob 1) eqn:Hb; [|done].
  apply andb_true_iff in Hb as [H0 H1]. apply Qle_bool_iff in H0, H1. tauto.
Qed.

Lemma with_probability_valid {G : Type} `{RandomSource G} (prob : Q) (g : G) :
  (0 <= prob ∧ prob <= 1)%Q →
  _with_probability prob g = Ok (Qle_bool (random g).1 prob, (random g).2).
Proof.
  intros [H0 H1]. unfold _with_probability.
  apply Qle_bool_iff in H0, H1. rewrite H0, H1. simpl. by destruct (random g).
Qed.

(** ** The modifiable tiles *)

Lemma two_elements_length (l : list nat) (a c : nat) :
  a ≠ c → a ∈ l → c ∈ l → (2 ≤ length l)%nat.
Proof.
  intros Hne Ha Hc. destruct l as [|u [|v l]]; simpl; [| |lia].
  - by apply elem_of_nil in Ha.
  - apply list_elem_of_singleton in Ha, Hc. congruence.
Qed.

Lemma NoDup_two_elements (l : list nat) :
  NoDup l → (2 ≤ length l)%nat → ∃ a c, a ≠ c ∧ a ∈ l ∧ c ∈ l.
Proof.
  intros Hnd Hlen. destruct l as [|u [|v l]]; simpl in Hlen; [lia|lia|].
  exists u, v. split.
  - apply NoDup_cons in Hnd as [Hu _]. intros ->. apply Hu. by left.
  - split; [by left|]. right. by left.
Qed.

Lemma count_unfilled_two_blanks (row : list Z) (blanks : list nat) :
  _count_unfilled row = (length blanks, blanks) →
  (∀ x, x ∈ blanks ↔ row !! x = Some 0) ∧ ((2 ≤ length blanks)%nat ↔ two_blanks row).
Proof.
  intros Hc. destruct (count_unfilled_spec row) as (bl & Hbl & Hnd & Hin).
  rewrite Hbl in Hc. injection Hc as _ <-. split; [done|]. split.
  - intros Hlen. destruct (NoDup_two_elements _ Hnd Hlen) as (a & c & Hne & Ha & Hc).
    exists a, c. by rewrite <- !Hin.
  - intros (a & c & Hne & Ha & Hc). apply (two_elements_length _ a c); [done|..];
      by apply Hin.
Qed.

(** The positions listed by [unfilled_positions], for any dictionary
    whose keys are distinct. *)
Lemma unfilled_positions_elem (b : Board) (pos : Pos) :
  NoDup (_unfilled b).*1 →
  pos ∈ unfilled_positions b ↔
  ∃ row index blanks, (row, blanks) ∈ _unfilled b ∧ index ∈ blanks
                      ∧ pos = mkPos (Z.of_nat index) (Z.of_nat row).
Proof.
  intros Hnd. unfold unfilled_positions.
  rewrite list_elem_of_In, in_flat_map. split.
  - intros ([row blanks] & Hin & Hpos). apply list_elem_of_In in Hin.
    rewrite (dict_get_elem _ _ _ Hnd Hin) in Hpos. simpl in Hpos.
    apply list_elem_of_In, list_elem_of_fmap in Hpos as (index & -> & Hidx).
    eauto 10.
  - intros (row & index & blanks & Hin & Hidx & ->). exists (row, blanks).
    split; [by apply list_elem_of_In|].
    rewrite (dict_get_elem _ _ _ Hnd Hin). simpl.
    apply list_elem_of_In, list_elem_of_fmap. eauto.
Qed.

(** After a load into a board with an empty dictionary, the listed
    positions are the blanks of the rows with two blanks. *)
Lemma unfilled_positions_loaded (b0 b : Board) (lines : list string) (pos : Pos) :
  _unfilled b0 = [] → length (_board b0) = _size b0 →
  set_init_state b0 (Some lines) = Ok (true, b) →
  pos ∈ unfilled_positions b ↔ modifiable (parse_rows lines) pos.
Proof.
  intros Hempty Hlen Hload.
  destruct (set_init_state_success _ _ _ Hlen Hload) as (_ & _ & _ & _ & Hunf).
  rewrite Hempty in Hunf.
  destruct (init_unfilled_spec (parse_rows lines) 0 []) as (d & Hd & Hnd & _ & Hin).
  { by intros k ?%elem_of_nil. }
  rewrite Hd in Hunf. simpl in Hunf.
  rewrite unfilled_positions_elem by (by rewrite Hunf). rewrite Hunf. split.
  - intros (row & index & blanks & Hrow & Hidx & ->).
    apply Hin in Hrow as (line & _ & Hline & Hc & Hlen2).
    rewrite Nat.sub_0_r in Hline.
    destruct (count_unfilled_two_blanks _ _ Hc) as [Hbl Htwo].
    split; [simpl; lia|]. split; [simpl; lia|]. simpl. rewrite !Nat2Z.id.
    exists line. split; [done|]. split; [by apply Hbl|by apply Htwo].
  - intros (Hx & Hy & line & Hline & Hblank & Htwo).
    destruct (count_unfilled_spec line) as (blanks & Hc & _ & Hbl).
    exists (Z.to_nat (pos_y pos)), (Z.to_nat (pos_x pos)), blanks. split.
    + apply Hin. exists line. rewrite Nat.sub_0_r. split; [lia|]. split; [done|].
      split; [done|]. by apply (count_unfilled_two_blanks _ _ Hc).
    + split; [by apply Hbl|]. destruct pos as [px py]. simpl in *.
      f_equal; lia.
Qed.

(** ** What the cell-level operators touch *)

Lemma np_set_result (m m' : matrix) (y x v : Z) :
  0 ≤ y → 0 ≤ x → np_set m y x v = Ok m' →
  cell m' (Z.to_nat y) (Z.to_nat x) = Some v
  ∧ (∀ y' x', (y', x') ≠ (Z.to_nat y, Z.to_nat x) → cell m' y' x' = cell m y' x')
  ∧ (∀ size, shaped size m → shaped size m').
Proof.
  intros Hy Hx Hset. unfold np_set in Hset.
  apply bind_Ok in Hset as (j & Hj & Hset).
  apply np_index_nonneg in Hj as [-> Hjlt]; [|done].
  destruct (m !! Z.to_nat y) as [r|] eqn:Hr; [|done].
  apply bind_Ok in Hset as (i & Hi & [= <-]).
  apply np_index_nonneg in Hi as [-> Hilt]; [|done].
  split; [by apply cell_insert_eq|]. split; [by intros; apply cell_insert_ne|].
  intros size [Hlen Hrows]. split; [by rewrite length_insert|].
  apply Forall_insert; [done|]. rewrite length_insert.
  rewrite Forall_lookup in Hrows. eauto.
Qed.

Lemma unfilled_positions_nonneg (b : Board) (pos : Pos) :
  pos ∈ unfilled_positions b → 0 ≤ pos_x pos ∧ 0 ≤ pos_y pos.
Proof.
  unfold unfilled_positions. rewrite list_elem_of_In, in_flat_map.
  intros ([row blanks] & _ & Hpos).
  apply list_elem_of_In, list_elem_of_fmap in Hpos as (index & -> & _). simpl. lia.
Qed.

Lemma np_set_touches (m m' : matrix) (pos : Pos) (v : Z) :
  0 ≤ pos_x pos → 0 ≤ pos_y pos →
  np_set m (pos_y pos) (pos_x pos) v = Ok m' → touches pos m m'.
Proof.
  intros Hx Hy Hset. destruct (np_set_result _ _ _ _ _ Hy Hx Hset) as (_ & Hother & Hshape).
  split; [done|]. intros y x Hne. apply Hother. intros [= -> ->]. apply Hne.
  destruct pos as [px py]. simpl in *. f_equal; lia.
Qed.

Lemma touches_refl (pos : Pos) (vals : matrix) : touches pos vals vals.
Proof. by split. Qed.

Lemma for_each_touches {G : Type} (body : matrix * G → Pos → result (matrix * G))
    (ps : list Pos) :
  (∀ vals g pos vals' g',
     pos ∈ ps → body (vals, g) pos = Ok (vals', g') → touches pos vals vals') →
  ∀ vals g vals' g',
    for_each body ps (vals, g) = Ok (vals', g') →
    (∀ size, shaped size vals → shaped size vals')
    ∧ ∀ y x, mkPos (Z.of_nat x) (Z.of_nat y) ∉ ps → cell vals' y x = cell vals y x.
Proof.
  induction ps as [|pos ps IH]; intros Hbody vals g vals' g' Hrun; simpl in Hrun.
  - by injection Hrun as <- <-.
  - apply bind_Ok in Hrun as ([vals1 g1] & Hstep & Hrun).
    apply Hbody in Hstep as [Hshape1 Hcell1]; [|by left].
    apply IH in Hrun as [Hshape2 Hcell2]; [|intros; eapply Hbody; [by right|done]].
    split; [by auto|]. intros y x Hnin. apply not_elem_of_cons in Hnin as [Hne Hnin].
    rewrite Hcell2 by done. by apply Hcell1.
Qed.

Lemma same_outside_refl (b : Board) : same_outside b b.
Proof. by repeat split. Qed.

Lemma same_outside_positions (b b' : Board) :
  same_outside b b' → unfilled_positions b' = unfilled_positions b.
Proof. intros (_ & _ & Hunf & _). unfold unfilled_positions. by rewrite Hunf. Qed.

Lemma same_outside_trans (b1 b2 b3 : Board) :
  same_outside b1 b2 → same_outside b2 b3 → same_outside b1 b3.
Proof.
  intros H12 H23. pose proof (same_outside_positions _ _ H12) as Hpos.
  destruct H12 as (Hi1 & Hs1 & Hu1 & Hc1), H23 as (Hi2 & Hs2 & Hu2 & Hc2).
  split; [congruence|]. split; [congruence|]. split; [congruence|].
  intros y x Hnin. rewrite Hc2 by (by rewrite Hpos). by apply Hc1.
Qed.

(** Writing back values that differ from the board only at listed
    positions gives a board that is the same outside them, whether
    [fill_board] accepts the values or refuses them. *)
Lemma fill_board_same_outside (b b' : Board) (vals : matrix) (r : bool) :
  (∀ y x, mkPos (Z.of_nat x) (Z.of_nat y) ∉ unfilled_positions b →
          cell vals y x = cell (_board b) y x) →
  fill_board b vals = Ok (r, b') → same_outside b b'.
Proof.
  intros Hcells Hfill.
  destruct (fill_board_result _ _ _ _ Hfill) as (Hi & Hs & Hu & Hf & Ht).
  destruct r; [|rewrite Hf by done; apply same_outside_refl].
  destruct Ht as (Hb & _); [done|]. repeat split; try done. by rewrite Hb.
Qed.

Section CellOperators.
Context {G : Type} `{RandomSource G}.

Lemma neighbouring_operator_same_outside (size : nat) (n : Q) (b b' : Board) (g g' : G) :
  _neighbouring_operator size n b g = Ok (b', g') → same_outside b b'.
Proof.
  unfold _neighbouring_operator. intros Hop.
  apply bind_Ok in Hop as ([vals g1] & Hloop & Hop).
  apply bind_Ok in Hop as ([r b1] & Hfill & [= <- <-]).
  apply for_each_touches in Hloop as [_ Hcells].
  - by eapply fill_board_same_outside.
  - clear. intros vals g pos vals' g' Hpos Hbody.
    apply unfilled_positions_nonneg in Hpos as [Hx Hy].
    apply bind_Ok in Hbody as ([hit g1] & _ & Hbody).
    destruct hit; [|injection Hbody as <- <-; apply touches_refl].
    apply bind_Ok in Hbody as (old & _ & Hbody).
    apply bind_Ok in Hbody as ([new g2] & _ & Hbody).
    apply bind_Ok in Hbody as (vals2 & Hset & [= <- <-]).
    by eapply np_set_touches.
Qed.

Lemma beta_operator_same_outside (size : nat) (beta : Q) (b b' : Board) (g g' : G) :
  _beta_operator size beta b g = Ok (b', g') → same_outside b b'.
Proof.
  unfold _beta_operator. intros Hop.
  apply bind_Ok in Hop as ([vals g1] & Hloop & Hop).
  apply bind_Ok in Hop as ([r b1] & Hfill & [= <- <-]).
  apply for_each_touches in Hloop as [_ Hcells].
  - by eapply fill_board_same_outside.
  - clear. intros vals g pos vals' g' Hpos Hbody.
    apply unfilled_positions_nonneg in Hpos as [Hx Hy].
    apply bind_Ok in Hbody as ([hit g1] & _ & Hbody).
    destruct hit; [|injection Hbody as <- <-; apply touches_refl].
    apply bind_Ok in Hbody as ([new g2] & _ & Hbody).
    apply bind_Ok in Hbody as (vals2 & Hset & [= <- <-]).
    by eapply np_set_touches.
Qed.

Lemma PaperBetaHC_step_same_outside (size : nat) (n beta : Q) (b b' : Board) (g g' : G) :
  PaperBetaHC_step size n beta b g = Ok (b', g') → same_outside b b'.
Proof.
  unfold PaperBetaHC_step. intros Hstep.
  apply bind_Ok in Hstep as ([b1 g1] & Hn & Hbeta).
  eapply same_outside_trans.
  - by eapply neighbouring_operator_same_outside.
  - by eapply beta_operator_same_outside.
Qed.

(** A climb whose step keeps the tiles outside the listed positions
    keeps them from its first board to its last. *)
Lemma climb_loop_same_outside (M : @Methods G) :
  (∀ b g b' g', _step M b g = Ok (b', g') → same_outside b b') →
  ∀ max_iter todo i score_min board g res board' g',
    _climb_loop M max_iter todo i score_min board g = Ok (res, board', g') →
    same_outside board board'.
Proof.
  intros Hstep max_iter todo.
  induction todo as [|todo IH]; intros i score_min board g res board' g' Hrun;
    simpl in Hrun.
  - injection Hrun as _ <- _. apply same_outside_refl.
  - apply bind_Ok in Hrun as ([copy1 g1] & Hs & Hrun).
    apply bind_Ok in Hrun as (score & _ & Hrun).
    apply Hstep in Hs. unfold copy in Hs.
    case_bool_decide.
    + case_bool_decide.
      * by injection Hrun as _ <- _.
      * apply IH in Hrun. by eapply same_outside_trans.
    + by apply IH in Hrun.
Qed.

Lemma climb_same_outside (M : @Methods G) (max_iter : nat) (board board' : Board)
    (g g' : G) (res : Z * Z) :
  (∀ b g b' g', _step M b g = Ok (b', g') → same_outside b b') →
  _climb M max_iter board g = Ok (res, board', g') → same_outside board board'.
Proof.
  intros Hstep Hclimb. unfold _climb in Hclimb.
  apply bind_Ok in Hclimb as (score_min & _ & Hloop).
  by eapply climb_loop_same_outside.
Qed.

End CellOperators.

Example empty_board4_new : Board_new 4 = Ok empty_board4.
Proof. reflexivity. Qed.




(** In [puzzle4] the second row has one blank, at column 2: it is not
    listed, and the operators at n = 1 and beta = 1 leave it blank. *)
Example single_blank_of_puzzle4 :
  only_blank [3; 4; 0; 2] 2
  ∧ (mkPos 2 1 ∉ unfilled_positions board4)
  ∧ ∃ b' g', PaperBetaHC_step 4 1 1 board4 [1; 2; 3; 4; 5; 6; 7; 8; 9; 10; 11; 12]%N
             = Ok (b', g')
             ∧ cell (_board b') 1 2 = Some 0.
Proof.
  split.
  - split; [done|]. intros [|[|[|[|[|x']]]]] Hx; simpl in Hx; congruence.
  - split; [by_decision|]. by eexists _, _.
Qed.

(** ** The restart driver *)

Section Driver.
Context {G : Type} `{RandomSource G}.

Lemma update_best_cases (score itr : Z) (board : Board) (acc : num * num * option Board) :
  update_best score itr board acc
  = match acc with
    | (Fin sc, Fin it, _) =>
        if bool_decide (run_lt (score, itr) (sc, it))
        then (Fin score, Fin itr, Some board) else acc
    | (INFINITY, INFINITY, _) => (Fin score, Fin itr, Some board)
    | _ => update_best score itr board acc
    end.
Proof.
  destruct acc as [[[sc|] [it|]] best]; try done; unfold update_best, run_lt, copy;
    simpl.
  - unfold num_eqb. repeat case_bool_decide; simpl in *; try done; try lia;
      try congruence.
    + exfalso. match goal with Heq : Fin _ = Fin _ |- _ => injection Heq as -> end.
      tauto.
    + exfalso. match goal with Hor : _ ∨ _ |- _ => destruct Hor as [?|[-> ?]] end;
        [lia|congruence].
  - unfold num_eqb. repeat case_bool_decide; simpl in *; try done; congruence.
Qed.

Lemma best_of_step (seen : list run) (acc : num * num * option Board)
    (score itr : Z) (board : Board) :
  best_of seen acc →
  best_of (seen ++ [(score, itr, board)]) (update_best score itr board acc).
Proof.
  intros [[-> ->]|(k & sc & it & bd & -> & Hk & Hle & Hlt)]; rewrite update_best_cases.
  - right. exists 0%nat, score, itr, board. split; [done|]. split; [done|]. split.
    + intros [|j] e He; simpl in He; [|done]. injection He as <-. right. simpl. lia.
    + intros j e Hj. lia.
  - pose proof (lookup_lt_Some _ _ _ Hk) as Hklt. case_bool_decide as Hnew.
    + right. exists (length seen), score, itr, board. split; [done|]. split.
      { by rewrite lookup_app_r, Nat.sub_diag. }
      assert (∀ j e, seen !! j = Some e → run_lt (score, itr) e.1) as Hall.
      { intros j e He. specialize (Hle j e He). unfold run_lt, run_le in *.
        simpl in *. lia. }
      split.
      * intros j e He. apply lookup_app_Some in He as [He|[Hj He]].
        -- apply Hall in He. unfold run_lt, run_le in *. lia.
        -- apply list_lookup_singleton_Some in He as [_ <-]. right. simpl. lia.
      * intros j e Hj He. rewrite lookup_app_l in He by done. by eapply Hall.
    + right. exists k, sc, it, bd. split; [done|]. split.
      { by rewrite lookup_app_l. }
      split.
      * intros j e He. apply lookup_app_Some in He as [He|[Hj He]]; [by eapply Hle|].
        apply list_lookup_singleton_Some in He as [_ <-].
        unfold run_lt, run_le in *. simpl in *. lia.
      * intros j e Hj He. rewrite lookup_app_l in He by lia. by eapply Hlt.
Qed.

Lemma best_of_fold (trace seen : list run) (acc : num * num * option Board) :
  best_of seen acc →
  best_of (seen ++ trace)
          (foldl (λ acc '(sc, it, bd), update_best sc it bd acc) acc trace).
Proof.
  revert seen acc. induction trace as [|[[sc it] bd] trace IH]; intros seen acc Hinv.
  - by rewrite app_nil_r.
  - simpl. replace (seen ++ (sc, it, bd) :: trace)
      with ((seen ++ [(sc, it, bd)]) ++ trace) by (by rewrite <- app_assoc).
    apply IH. by apply best_of_step.
Qed.

(** The restart loop against the restarts taken one by one. *)
Lemma solve_loop_trace (M : @Methods G) (max_iter : nat) (stop_if_found : bool) :
  ∀ (todo : nat) (board : Board) (results : list Result)
    (acc : num * num * option Board) (g : G)
    (res : Result) (best : option Board) (results' : list Result) (g' : G),
    _solve_loop M max_iter stop_if_found todo board results acc g
    = Ok (res, best, results', g') →
    stop_if_found = false ∨ (∀ r, r ∈ results' → score r ≠ Fin 0) →
    ∃ trace,
      restart_trace M max_iter todo board g = Ok trace
      ∧ length trace = todo
      ∧ results' = results ++ (result_of <$> trace)
      ∧ (score res, iterations res, best)
        = foldl (λ acc '(sc, it, bd), update_best sc it bd acc) acc trace.
Proof.
  induction todo as [|todo IH];
    intros board results acc g res best results' g' Hrun Hstop; simpl in Hrun.
  - destruct acc as [[score_min itr_min] best0]. injection Hrun as <- <- <- <-.
    exists []. by rewrite app_nil_r.
  - apply bind_Ok in Hrun as ([board1 g1] & Hfill & Hrun).
    apply bind_Ok in Hrun as ([[[sc it] board2] g2] & Hclimb & Hrun).
    destruct (stop_if_found && bool_decide (sc = 0)) eqn:Hfound.
    { injection Hrun as <- <- <- <-.
      apply andb_true_iff in Hfound as [-> Hz]. apply bool_decide_eq_true in Hz as ->.
      destruct Hstop as [?|Hnz]; [done|]. exfalso.
      apply (Hnz (mkResult (Fin 0) (Fin it))); [|done].
      apply elem_of_app. right. by left. }
    apply bind_Ok in Hrun as (board0 & Hreset & Hrun).
    apply IH in Hrun as (trace & Htrace & Hlen & -> & Hfold); [|done].
    exists ((sc, it, board2) :: trace). simpl.
    rewrite Hfill. simpl. rewrite Hclimb. simpl. rewrite Hreset. simpl.
    rewrite Htrace. simpl. split; [done|]. split; [by rewrite Hlen|].
    split; [by rewrite <- (assoc_L (++))|done].
Qed.

End Driver.

(** C2: when [_solve] returns after at least one restart, without the
    early exit of [stop_if_found], it has recorded one [Result] per
    restart; the [Result] it returns is one of them, its score is at most
    every recorded score, and among the recorded results of that score its
    iteration count is the least.  When the restart loop ran, the results
    are those of the restarts taken one by one, and the board the solver
    holds is the board on which the first restart with the returned
    result ended its climb. *)
Theorem restart_driver_returns_best {G : Type} `{RandomSource G} (M : @Methods G)
    (s s' : Solver) (board : Board) (g g' : G) (res : Result) :
  (1 ≤ _max_restarts s)%nat →
  solver_board s = Some board →
  _solve M s g = Ok (res, s', g') →
  (_stop_if_found s = true → unfilled_by_row board ≠ [] →
   ∀ r, r ∈ _results s' → score r ≠ Fin 0) →
  length (_results s') = _max_restarts s
  ∧ (∃ sc it,
       res = mkResult (Fin sc) (Fin it) ∧ res ∈ _results s'
       ∧ ∀ r, r ∈ _results s' →
              ∃ sc' it', r = mkResult (Fin sc') (Fin it')
                         ∧ sc ≤ sc' ∧ (sc' = sc → it ≤ it'))
  ∧ (unfilled_by_row board ≠ [] →
     ∃ trace k e,
       restart_trace M (_max_iter s) (_max_restarts s) board g = Ok trace
       ∧ _results s' = result_of <$> trace
       ∧ trace !! k = Some e ∧ result_of e = res ∧ solver_board s' = Some e.2
       ∧ ∀ j e', (j < k)%nat → trace !! j = Some e' → result_of e' ≠ res).
Proof.
  intros HR Hboard Hsolve Hstop. unfold _solve in Hsolve. rewrite Hboard in Hsolve.
  case_bool_decide as Htriv.
  - injection Hsolve as <- <- <-. simpl. split; [by rewrite length_replicate|]. split.
    + exists 0, 0. split; [done|]. split.
      * destruct (_max_restarts s); [lia|]. by left.
      * intros r Hr. apply elem_of_replicate in Hr as [-> _]. by exists 0, 0.
    + intros Hne. apply length_zero_iff_nil in Htriv. done.
  - apply bind_Ok in Hsolve as ([[[res0 best] results] g0] & Hloop & [= <- <- <-]).
    simpl in *.
    assert (unfilled_by_row board ≠ []) as Hne.
    { intros Hnil. apply Htriv. by rewrite Hnil. }
    apply solve_loop_trace in Hloop as (trace & Htrace & Hlen & -> & Hfold).
    2:{ destruct (_stop_if_found s); [right; by apply Hstop|by left]. }
    simpl in *.
    pose proof (best_of_fold trace [] (INFINITY, INFINITY, None) (or_introl (conj eq_refl eq_refl)))
      as Hbest.
    rewrite <- Hfold in Hbest. simpl in Hbest.
    destruct Hbest as [[-> _]|(k & sc & it & bd & Hacc & Hk & Hle & Hlt)];
      [simpl in Hlen; lia|].
    destruct res0 as [rs ri]. simpl in Hacc. injection Hacc as -> -> ->.
    split; [by rewrite length_fmap|]. split.
    + exists sc, it. split; [done|]. split.
      * apply list_elem_of_fmap. exists (sc, it, bd). split; [done|].
        by eapply list_elem_of_lookup_2.
      * intros r Hr. apply list_elem_of_fmap in Hr as ([[sc' it'] bd'] & -> & He).
        apply list_elem_of_lookup in He as [j He]. specialize (Hle j _ He).
        exists sc', it'. split; [done|]. unfold run_le in Hle. simpl in Hle. lia.
    + intros _. exists trace, k, (sc, it, bd). do 5 (split; [done|]).
      intros j [[sc' it'] bd'] Hj He Heq. specialize (Hlt j _ Hj He).
      unfold result_of in Heq. simpl in Heq. injection Heq as -> ->.
      unfold run_lt in Hlt. simpl in Hlt. lia.
Qed.

Lemma restart_driver_returns_best_witness :
  ∃ res s' g',
    _solve (PaperBetaHC (mkBetaHC (Solver_new board4 3 2 false) (1 # 4) (1 # 20)))
           (Solver_new board4 3 2 false)
           [1; 2; 3; 4; 5; 6; 7; 8; 9; 10; 11; 12; 13; 14; 15; 16]%N
    = Ok (res, s', g')
    ∧ length (_results s') = 3%nat
    ∧ res ∈ _results s'.
Proof.
  eexists _, _, _. split; [vm_compute; reflexivity|].
  pose proof (restart_driver_returns_best
                (PaperBetaHC (mkBetaHC (Solver_new board4 3 2 false) (1 # 4) (1 # 20)))
                (Solver_new board4 3 2 false) _ board4
                [1; 2; 3; 4; 5; 6; 7; 8; 9; 10; 11; 12; 13; 14; 15; 16]%N _ _
                ltac:(simpl; lia) eq_refl ltac:(vm_compute; reflexivity)
                ltac:(discriminate)) as (Hlen & (sc & it & _ & Hin & _) & _).
  split; [exact Hlen|exact Hin].
Defined.

(** ** The n-operator at n = 0 and n = 1 *)

Lemma fill_board_accepts (b : Board) (init vals : matrix) :
  loaded b init → shaped (_size b) vals → keeps_initial init vals →
  fill_board b vals = Ok (true, with_board b vals).
Proof.
  intros [Hi Hs] Hshape Hkeep. unfold fill_board.
  apply shape_is_shaped in Hshape. rewrite Hshape, Hi. simpl.
  destruct (existsb _ _) eqn:Hscan; [|done].
  apply board_changed_true in Hscan as (y & x & a & c & Ha & Hc & Ha0 & Hac).
  rewrite (Hkeep _ _ _ Ha Ha0) in Hc. congruence.
Qed.

Lemma fill_board_own_values (b : Board) :
  _board_init b ≠ None → ∃ r, fill_board b (_board b) = Ok (r, b).
Proof.
  intros Hi. unfold fill_board. destruct (shape_is _ _ _); simpl; [|by eexists].
  destruct (_board_init b); [|done]. destruct (existsb _ _); eexists; [done|].
  by destruct b.
Qed.

Section NOperator.
Context {G : Type} `{RandomSource G}.

Lemma with_probability_zero (g : G) :
  (0 < (random g).1)%Q → _with_probability 0 g = Ok (false, next_state g).
Proof.
  intros Hpos. rewrite with_probability_valid by (split; [apply Qle_refl|done]).
  do 2 f_equal. destruct (Qle_bool (random g).1 0) eqn:Hle; [|done].
  apply Qle_bool_iff in Hle. by apply Qlt_not_le in Hpos.
Qed.

Lemma with_probability_one (g : G) : _with_probability 1 g = Ok (true, next_state g).
Proof.
  rewrite with_probability_valid by (split; [done|apply Qle_refl]).
  do 2 f_equal. apply Qle_bool_iff, Qlt_le_weak. apply random_range.
Qed.

Lemma never_zero_next (count : nat) (g : G) :
  never_zero (S count) g → (0 < (random g).1)%Q ∧ never_zero count (next_state g).
Proof.
  intros Hnz. split; [apply (Hnz 0%nat); lia|].
  intros k Hk. rewrite <- Nat.iter_succ_r. apply Hnz. lia.
Qed.

(** A loop whose body first tests [_with_probability(0)] leaves its
    state alone when no draw is 0.0. *)
Lemma for_each_no_hit {A V : Type} (hit_branch : V → G → A → result (V * G))
    (body : V * G → A → result (V * G)) (l : list A) :
  (∀ v g a, body (v, g) a
            = '(hit, g1) ← _with_probability 0 g;
              if hit : bool then hit_branch v g1 a else Ok (v, g1)) →
  ∀ v g, never_zero (length l) g →
         for_each body l (v, g) = Ok (v, Nat.iter (length l) next_state g).
Proof.
  intros Hbody. induction l as [|a l IH]; intros v g Hnz; [done|].
  apply never_zero_next in Hnz as [Hpos Hnz]. simpl for_each.
  rewrite Hbody, (with_probability_zero _ Hpos). simpl.
  rewrite IH by done. by rewrite <- Nat.iter_succ_r.
Qed.

Lemma neighbouring_operator_zero (size : nat) (board : Board) (g : G) :
  _board_init board ≠ None →
  never_zero (length (unfilled_positions board)) g →
  _neighbouring_operator size 0 board g
  = Ok (board, Nat.iter (length (unfilled_positions board)) next_state g).
Proof.
  intros Hi Hnz. unfold _neighbouring_operator, values.
  erewrite for_each_no_hit; [|by intros|done]. simpl.
  destruct (fill_board_own_values _ Hi) as [r ->]. done.
Qed.

Lemma Custom_neighbouring_operator_zero (board : Board) (g : G) :
  _board_init board ≠ None →
  never_zero (length (unfilled_by_row board)) g →
  Custom_neighbouring_operator 0 board g
  = Ok (board, Nat.iter (length (unfilled_by_row board)) next_state g).
Proof.
  intros Hi Hnz. unfold Custom_neighbouring_operator, values.
  rewrite (for_each_no_hit
             (λ (vals : matrix) (g1 : G) (a : nat * list nat),
                line ← np_row vals (Z.of_nat a.1);
                '(line, g2) ← _swap_in_line line
                                 (default [] (dict_get a.1 (unfilled_by_row board))) g1;
                vals ← np_set_row vals (Z.of_nat a.1) line;
                Ok (vals, g2)));
    [|by intros v g0 [row blanks]|done].
  simpl. destruct (fill_board_own_values _ Hi) as [r ->]. done.
Qed.

End NOperator.

Lemma pos_of_nat_coordinates (pos : Pos) :
  0 ≤ pos_x pos → 0 ≤ pos_y pos →
  mkPos (Z.of_nat (Z.to_nat (pos_x pos))) (Z.of_nat (Z.to_nat (pos_y pos))) = pos.
Proof. intros Hx Hy. destruct pos as [px py]. simpl in *. f_equal; lia. Qed.

Lemma coordinates_differ (pos pos' : Pos) :
  0 ≤ pos_x pos → 0 ≤ pos_y pos → 0 ≤ pos_x pos' → 0 ≤ pos_y pos' → pos' ≠ pos →
  (Z.to_nat (pos_y pos'), Z.to_nat (pos_x pos'))
  ≠ (Z.to_nat (pos_y pos), Z.to_nat (pos_x pos)).
Proof.
  intros Hx Hy Hx' Hy' Hne [= Heqy Heqx]. apply Hne.
  destruct pos as [px py], pos' as [px' py']. simpl in *. f_equal; lia.
Qed.

Lemma np_set_in_range (size : nat) (m : matrix) (y x v : Z) :
  shaped size m → 0 ≤ y < Z.of_nat size → 0 ≤ x < Z.of_nat size →
  ∃ m', np_set m y x v = Ok m'.
Proof.
  intros [Hlen Hrows] Hy Hx. unfold np_set.
  rewrite np_index_valid by lia. simpl.
  destruct (lookup_lt_is_Some_2 m (Z.to_nat y) ltac:(lia)) as [r Hr]. rewrite Hr.
  rewrite Forall_lookup in Hrows. rewrite (Hrows _ _ Hr).
  rewrite np_index_valid by lia. simpl. by eexists.
Qed.

Lemma np_get_in_range (size : nat) (m : matrix) (y x : Z) :
  shaped size m → 0 ≤ y < Z.of_nat size → 0 ≤ x < Z.of_nat size →
  ∃ v, np_get m y x = Ok v ∧ cell m (Z.to_nat y) (Z.to_nat x) = Some v.
Proof.
  intros Hs Hy Hx. rewrite np_get_cell by lia.
  destruct (shaped_cell _ _ (Z.to_nat y) (Z.to_nat x) Hs) as [v Hv]; [lia..|].
  rewrite Hv. by exists v.
Qed.

Section NOperatorOne.
Context {G : Type} `{RandomSource G}.

Lemma neighbouring_val_moved (board_size : nat) (val : Z) (g : G) :
  ∃ new g', _neighbouring_val board_size val g = Ok (new, g') ∧ moved board_size val new.
Proof.
  unfold _neighbouring_val. rewrite with_probability_valid by done. simpl.
  destruct (Qle_bool _ _); eexists _, _; (split; [done|]); [by left|by right].
Qed.

(** The loop of the n-operator at n = 1: every listed tile is moved. *)
Lemma neighbouring_loop_one (board_size size : nat) (ps : list Pos) :
  NoDup ps →
  (∀ pos, pos ∈ ps → 0 ≤ pos_x pos < Z.of_nat size ∧ 0 ≤ pos_y pos < Z.of_nat size) →
  ∀ (vals : matrix) (g : G),
    shaped size vals →
    ∃ vals' g',
      for_each (λ '(vals, g) pos,
                  '(hit, g) ← _with_probability 1 g;
                  if hit : bool then
                    old ← np_get vals (pos_y pos) (pos_x pos);
                    '(new, g) ← _neighbouring_val board_size old g;
                    vals ← np_set vals (pos_y pos) (pos_x pos) new;
                    Ok (vals, g)
                  else Ok (vals, g))
               ps (vals, g) = Ok (vals', g')
      ∧ shaped size vals'
      ∧ (∀ y x, mkPos (Z.of_nat x) (Z.of_nat y) ∉ ps → cell vals' y x = cell vals y x)
      ∧ ∀ pos, pos ∈ ps →
          ∃ old new,
            cell vals (Z.to_nat (pos_y pos)) (Z.to_nat (pos_x pos)) = Some old
            ∧ cell vals' (Z.to_nat (pos_y pos)) (Z.to_nat (pos_x pos)) = Some new
            ∧ moved board_size old new.
Proof.
  induction ps as [|pos ps IH]; intros Hnd Hrange vals g Hshape.
  - exists vals, g. split; [done|]. split; [done|]. split; [done|].
    intros pos Hpos. by apply elem_of_nil in Hpos.
  - apply NoDup_cons in Hnd as [Hnin Hnd].
    destruct (Hrange pos) as [Hx Hy]; [by left|].
    destruct (np_get_in_range _ _ _ _ Hshape Hy Hx) as (old & Hget & Hold).
    destruct (neighbouring_val_moved board_size old (next_state g))
      as (new & g1 & Hval & Hmoved).
    destruct (np_set_in_range _ _ _ _ new Hshape Hy Hx) as (vals1 & Hset).
    destruct (np_set_result _ _ _ _ _ (proj1 Hy) (proj1 Hx) Hset)
      as (Hnew & Hother & Hshape1).
    destruct (IH Hnd (λ p Hp, Hrange p (list_elem_of_further _ _ _ Hp)) vals1 g1
                 (Hshape1 _ Hshape)) as (vals' & g' & Hloop & Hshape' & Hout & Hin).
    exists vals', g'. split.
    { simpl for_each. rewrite with_probability_one. simpl.
      rewrite Hget. simpl. rewrite Hval. simpl. rewrite Hset. simpl. exact Hloop. }
    split; [done|]. split.
    + intros y x Hne. apply not_elem_of_cons in Hne as [Hne Hnps].
      rewrite Hout by done. apply Hother. intros [= -> ->]. apply Hne.
      by rewrite pos_of_nat_coordinates by lia.
    + intros pos' [->|Hpos']%elem_of_cons.
      * exists old, new. split; [done|]. split; [|done].
        rewrite Hout; [done|]. by rewrite pos_of_nat_coordinates by lia.
      * destruct (Hin pos' Hpos') as (old' & new' & Hold' & Hnew' & Hmoved').
        exists old', new'. split; [|done]. rewrite <- Hold'. symmetry.
        apply Hother. destruct (Hrange pos') as [Hx' Hy']; [by right|].
        apply coordinates_differ; try lia. intros ->. done.
Qed.

End NOperatorOne.

(** ** Consistent boards *)

Lemma unfilled_positions_direct (b : Board) :
  NoDup (_unfilled b).*1 →
  unfilled_positions b
  = flat_map (λ '(row, blanks),
                (λ index, mkPos (Z.of_nat index) (Z.of_nat row)) <$> blanks)
             (_unfilled b).
Proof.
  intros Hnd. unfold unfilled_positions.
  assert (∀ l : dict, (∀ e, e ∈ l → e ∈ _unfilled b) →
            flat_map (λ '(row, _),
                        (λ index, mkPos (Z.of_nat index) (Z.of_nat row))
                          <$> default [] (dict_get row (_unfilled b))) l
            = flat_map (λ '(row, blanks),
                          (λ index, mkPos (Z.of_nat index) (Z.of_nat row)) <$> blanks) l)
    as Hsub; [|by apply Hsub].
  induction l as [|[row blanks] l IH]; intros Hl; [done|]. simpl.
  rewrite (dict_get_elem row blanks) by (done || apply Hl; by left).
  rewrite IH; [done|]. intros e He. apply Hl. by right.
Qed.

Lemma positions_NoDup (d : dict) :
  NoDup d.*1 → (∀ row blanks, (row, blanks) ∈ d → NoDup blanks) →
  NoDup (flat_map (λ '(row, blanks),
                     (λ index, mkPos (Z.of_nat index) (Z.of_nat row)) <$> blanks) d).
Proof.
  induction d as [|[row blanks] d IH]; intros Hkeys Hblanks; simpl; [constructor|].
  apply NoDup_cons in Hkeys as [Hrow Hkeys]. apply NoDup_app. split; [|split].
  - apply NoDup_fmap_2_strong; [|apply (Hblanks row); by left].
    intros i j _ _ [= Hij]. lia.
  - intros pos Hpos Hpos'. apply list_elem_of_fmap in Hpos as (index & -> & _).
    apply list_elem_of_In, in_flat_map in Hpos' as ([row' blanks'] & Hin & Hpos').
    apply list_elem_of_In, list_elem_of_fmap in Hpos' as (index' & [= _ Hrows] & _).
    apply Hrow. apply list_elem_of_fmap. exists (row', blanks'). split; [simpl; lia|].
    by apply list_elem_of_In.
  - apply IH; [done|]. intros row' blanks' Hin. apply (Hblanks row'). by right.
Qed.

Lemma consistent_positions (b : Board) (init : matrix) :
  consistent b init →
  NoDup (unfilled_positions b)
  ∧ ∀ pos, pos ∈ unfilled_positions b →
      (0 ≤ pos_x pos < Z.of_nat (_size b) ∧ 0 ≤ pos_y pos < Z.of_nat (_size b))
      ∧ cell init (Z.to_nat (pos_y pos)) (Z.to_nat (pos_x pos)) = Some 0.
Proof.
  intros ([_ Hs] & _ & _ & Hkeys & Hd). split.
  - rewrite unfilled_positions_direct by done. apply positions_NoDup; [done|].
    intros row blanks Hin. by apply Hd in Hin as [? _].
  - intros pos Hpos. apply unfilled_positions_elem in Hpos; [|done].
    destruct Hpos as (row & index & blanks & Hin & Hidx & ->). simpl.
    rewrite !Nat2Z.id. apply Hd in Hin as (_ & _ & Hzero). specialize (Hzero _ Hidx).
    split; [|done]. apply (cell_bounds _ _ _ _ _ Hs) in Hzero. lia.
Qed.

Lemma load_consistent (b0 b : Board) (lines : list string) :
  _unfilled b0 = [] → length (_board b0) = _size b0 →
  set_init_state b0 (Some lines) = Ok (true, b) →
  consistent b (parse_rows lines).
Proof.
  intros Hempty Hlen Hload.
  destruct (set_init_state_success _ _ _ Hlen Hload) as (_ & _ & Hb & Hl & Hunf).
  rewrite Hempty in Hunf.
  destruct (init_unfilled_spec (parse_rows lines) 0 []) as (d & Hd & Hnd & _ & Hin).
  { by intros k ?%elem_of_nil. }
  rewrite Hd in Hunf. simpl in Hunf. split; [done|]. split.
  { rewrite Hb. by destruct Hl. }
  split; [rewrite Hb; by intros y x v ? ?|]. rewrite Hunf. split; [done|].
  intros row blanks Hrow. apply Hin in Hrow as (line & _ & Hline & Hc & Hlen2).
  rewrite Nat.sub_0_r in Hline.
  destruct (count_unfilled_spec line) as (bl & Hbl & Hndbl & Hmem).
  rewrite Hbl in Hc. injection Hc as _ <-. split; [done|]. split; [done|].
  intros index Hidx. unfold cell. rewrite Hline. simpl. by apply Hmem.
Qed.

Lemma consistent_board4 : consistent board4 init4.
Proof. exact (load_consistent empty_board4 board4 puzzle4 eq_refl eq_refl eq_refl). Qed.

Lemma neighbouring_operator_one {G : Type} `{RandomSource G}
    (size : nat) (board : Board) (init : matrix) (g : G) :
  consistent board init →
  ∃ b' g',
    _neighbouring_operator size 1 board g = Ok (b', g')
    ∧ same_outside board b'
    ∧ ∀ pos, pos ∈ unfilled_positions board →
        ∃ old new,
          cell (_board board) (Z.to_nat (pos_y pos)) (Z.to_nat (pos_x pos)) = Some old
          ∧ cell (_board b') (Z.to_nat (pos_y pos)) (Z.to_nat (pos_x pos)) = Some new
          ∧ moved size old new.
Proof.
  intros Hc. destruct (consistent_positions _ _ Hc) as [Hnd Hpos].
  destruct Hc as (Hl & Hshape & Hkeep & _).
  destruct (neighbouring_loop_one size (_size board) (unfilled_positions board) Hnd
              (λ pos Hp, proj1 (Hpos pos Hp)) (_board board) g Hshape)
    as (vals' & g' & Hloop & Hshape' & Hout & Hin).
  exists (with_board board vals'), g'. split.
  - unfold _neighbouring_operator, values. rewrite Hloop. simpl.
    rewrite (fill_board_accepts _ init); [done..|].
    intros y x v Hv Hv0. rewrite Hout; [by apply Hkeep|].
    intros Hp. apply Hpos in Hp as [_ Hzero]. simpl in Hzero.
    rewrite !Nat2Z.id in Hzero. congruence.
  - split; [|done]. by repeat split.
Qed.

(** ** The row-level n-operator at n = 1 *)

Section RowOperatorOne.
Context {G : Type} `{RandomSource G}.

Lemma swap_in_line_exchanges (line : list Z) (viable : list nat) (g : G) :
  NoDup viable → (2 ≤ length viable)%nat →
  (∀ i, i ∈ viable → (i < length line)%nat) →
  ∃ i j line' g',
    _swap_in_line line viable g = Ok (line', g')
    ∧ i ≠ j ∧ i ∈ viable ∧ j ∈ viable ∧ exchanged i j line line'.
Proof.
  intros Hnd Hlen Hrange.
  destruct (sample_two viable g Hlen) as (i0 & j0 & a & c & g' & Hne & Ha & Hc & Hsample).
  assert (a ≠ c) as Hac.
  { intros ->. apply Hne. by eapply NoDup_lookup. }
  pose proof (list_elem_of_lookup_2 _ _ _ Ha) as Hain.
  pose proof (list_elem_of_lookup_2 _ _ _ Hc) as Hcin.
  destruct (lookup_lt_is_Some_2 line a (Hrange _ Hain)) as [val_1 Hv1].
  destruct (lookup_lt_is_Some_2 line c (Hrange _ Hcin)) as [val_2 Hv2].
  exists a, c, (<[c := val_1]> (<[a := val_2]> line)), g'.
  split; [|split; [done|]; split; [done|]; split; [done|]; by exists val_1, val_2].
  unfold _swap_in_line. rewrite Hsample. simpl.
  unfold np_get1, np_set1.
  rewrite !(np_index_nat (length line) a) by auto.
  rewrite (np_index_nat (length line) c) by auto. simpl.
  rewrite Hv1. simpl. rewrite Hv2. simpl.
  rewrite length_insert, np_index_nat by auto. done.
Qed.

(** The loop of the row-level n-operator at n = 1: every listed row has
    two of its listed tiles exchanged. *)
Lemma Custom_loop_one (size : nat) (unfilled d : dict) :
  NoDup d.*1 →
  (∀ row blanks, (row, blanks) ∈ d →
     dict_get row unfilled = Some blanks ∧ NoDup blanks ∧ (2 ≤ length blanks)%nat
     ∧ (row < size)%nat ∧ ∀ i, i ∈ blanks → (i < size)%nat) →
  ∀ (vals : matrix) (g : G),
    shaped size vals →
    ∃ vals' g',
      for_each (λ '(vals, g) '(row, _),
                  '(hit, g) ← _with_probability 1 g;
                  if hit : bool then
                    line ← np_row vals (Z.of_nat row);
                    '(line, g) ← _swap_in_line line (default [] (dict_get row unfilled)) g;
                    vals ← np_set_row vals (Z.of_nat row) line;
                    Ok (vals, g)
                  else Ok (vals, g))
               d (vals, g) = Ok (vals', g')
      ∧ shaped size vals'
      ∧ (∀ y, y ∉ d.*1 → vals' !! y = vals !! y)
      ∧ ∀ row blanks, (row, blanks) ∈ d →
          ∃ i j old new,
            i ≠ j ∧ i ∈ blanks ∧ j ∈ blanks
            ∧ vals !! row = Some old ∧ vals' !! row = Some new ∧ exchanged i j old new.
Proof.
  induction d as [|[row blanks] d IH]; intros Hkeys Hd vals g Hshape.
  - exists vals, g. split; [done|]. split; [done|]. split; [done|].
    intros row blanks Hin. by apply elem_of_nil in Hin.
  - simpl in Hkeys. apply NoDup_cons in Hkeys as [Hrow Hkeys].
    destruct (Hd row blanks) as (Hget & Hnd & Hlen & Hrlt & Hblt); [by left|].
    pose proof Hshape as [Hvlen Hvrows].
    destruct (lookup_lt_is_Some_2 vals row ltac:(lia)) as [old Hold].
    pose proof (shaped_row _ _ _ _ Hshape Hold) as Holdlen.
    destruct (swap_in_line_exchanges old blanks (next_state g) Hnd Hlen)
      as (i & j & line' & g1 & Hswap & Hij & Hi & Hj & Hex).
    { intros k Hk. rewrite Holdlen. auto. }
    assert (shaped size (<[row := line']> vals)) as Hshape1.
    { split; [by rewrite length_insert|]. apply Forall_insert; [done|].
      destruct Hex as (a & c & _ & _ & ->). by rewrite !length_insert. }
    destruct (IH Hkeys (λ r bl Hin, Hd r bl (list_elem_of_further _ _ _ Hin))
                 (<[row := line']> vals) g1 Hshape1)
      as (vals' & g' & Hloop & Hshape' & Hout & Hin).
    exists vals', g'. split.
    { simpl for_each. rewrite with_probability_one. simpl.
      unfold np_row. rewrite np_index_nat by lia. simpl. rewrite Hold. simpl.
      rewrite Hget. simpl. rewrite Hswap. simpl.
      unfold np_set_row. rewrite np_index_nat by lia. simpl. exact Hloop. }
    split; [done|]. split.
    + intros y Hy. simpl in Hy. apply not_elem_of_cons in Hy as [Hne Hy].
      rewrite Hout by done. by rewrite list_lookup_insert_ne.
    + intros row' blanks' [[= -> ->]|Hin']%elem_of_cons.
      * exists i, j, old, line'. do 4 (split; [done|]). split; [|done].
        rewrite Hout by done. rewrite list_lookup_insert_eq by lia. done.
      * destruct (Hin _ _ Hin') as (i' & j' & old' & new' & ? & ? & ? & Hold' & ? & ?).
        exists i', j', old', new'. do 3 (split; [done|]). split; [|done].
        rewrite list_lookup_insert_ne in Hold'; [done|].
        intros <-. apply Hrow. apply list_elem_of_fmap. by exists (row, blanks').
Qed.

Lemma exchanged_other (i j x : nat) (old new : list Z) :
  exchanged i j old new → x ≠ i → x ≠ j → new !! x = old !! x.
Proof.
  intros (a & c & _ & _ & ->) Hi Hj. by rewrite !list_lookup_insert_ne.
Qed.

Lemma Custom_neighbouring_operator_one (board : Board) (init : matrix) (g : G) :
  consistent board init →
  ∃ b' g',
    Custom_neighbouring_operator 1 board g = Ok (b', g')
    ∧ same_outside board b'
    ∧ ∀ row blanks, (row, blanks) ∈ unfilled_by_row board →
        ∃ i j old new,
          i ≠ j ∧ i ∈ blanks ∧ j ∈ blanks
          ∧ _board board !! row = Some old ∧ _board b' !! row = Some new
          ∧ exchanged i j old new.
Proof.
  intros (Hl & Hshape & Hkeep & Hkeys & Hd). pose proof Hl as [_ Hs].
  destruct (Custom_loop_one (_size board) (unfilled_by_row board)
              (unfilled_by_row board) Hkeys) with (vals := _board board) (g := g)
    as (vals' & g' & Hloop & Hshape' & Hout & Hin); [|done|].
  { intros row blanks Hin. destruct (Hd _ _ Hin) as (Hnd & Hlen & Hzero).
    split; [by apply dict_get_elem|]. split; [done|]. split; [done|].
    destruct blanks as [|i0 blanks]; [simpl in Hlen; lia|].
    destruct (cell_bounds _ _ _ _ _ Hs (Hzero i0 ltac:(by left))) as [Hrow _].
    split; [done|]. intros i Hi. by destruct (cell_bounds _ _ _ _ _ Hs (Hzero i Hi)). }
  assert (∀ y x, (∀ blanks, (y, blanks) ∈ unfilled_by_row board → x ∉ blanks) →
            cell vals' y x = cell (_board board) y x) as Hcells.
  { intros y x Hnot. unfold cell.
    destruct (decide (y ∈ (unfilled_by_row board).*1)) as [Hy|Hy].
    - apply list_elem_of_fmap in Hy as ([y' blanks] & -> & Hyin). simpl in *.
      destruct (Hin _ _ Hyin) as (i & j & old & new & _ & Hi & Hj & -> & -> & Hex).
      simpl. apply (exchanged_other _ _ _ _ _ Hex).
      + intros ->. by apply (Hnot blanks).
      + intros ->. by apply (Hnot blanks).
    - by rewrite Hout. }
  exists (with_board board vals'), g'. split; [|split; [|done]].
  - unfold Custom_neighbouring_operator, values. rewrite Hloop. simpl.
    rewrite (fill_board_accepts _ init); [done..|].
    intros y x v Hv Hv0. rewrite Hcells; [by apply Hkeep|].
    intros blanks Hyin Hx. destruct (Hd _ _ Hyin) as (_ & _ & Hzero).
    rewrite (Hzero _ Hx) in Hv. congruence.
  - split; [done|]. split; [done|]. split; [done|]. intros y x Hpos. simpl.
    apply Hcells. intros blanks Hyin Hx. apply Hpos.
    apply unfilled_positions_elem; [done|]. eauto 10.
Qed.

End RowOperatorOne.

(** C8, as stated, fails on both counts.  At n = 0 a draw of 0.0 passes
    the test [random() <= 0] and the tile is changed; at n = 1 a tile at
    the ceiling that draws the upward move keeps its value. *)
Lemma n_operator_claim_fails :
  (∃ b' g', _neighbouring_operator 4 0 solved_board4 [0; 0; 0; 0; 0; 0; 0; 0; 0; 0]%N
            = Ok (b', g')
            ∧ _board b' ≠ _board solved_board4)
  ∧ mkPos 2 2 ∈ unfilled_positions solved_board4
  ∧ ∃ b' g', _neighbouring_operator 4 1 solved_board4 [0; 0; 0; 0; 0; 0; 0; 0; 0; 0]%N
             = Ok (b', g')
             ∧ cell (_board solved_board4) 2 2 = Some 4
             ∧ cell (_board b') 2 2 = Some 4.
Proof.
  split; [eexists _, _; split; [reflexivity|discriminate]|].
  split; [by_decision|]. by eexists _, _.
Qed.

(** C8, amended: on a consistent board, with n = 0 both n-operators
    return the board as it was whenever none of their probability draws
    is 0.0; with n = 1 the cell-level operator moves every modifiable
    tile by one up or down, a tile held at 1 or at the size keeping its
    value, and the row-level operator exchanges two modifiable tiles in
    every eligible row. *)
Theorem n_operator_at_zero_and_one {G : Type} `{RandomSource G}
    (board : Board) (init : matrix) (size : nat) (g : G) :
  consistent board init →
  (never_zero (length (unfilled_positions board)) g →
   _neighbouring_operator size 0 board g
   = Ok (board, Nat.iter (length (unfilled_positions board)) next_state g))
  ∧ (never_zero (length (unfilled_by_row board)) g →
     Custom_neighbouring_operator 0 board g
     = Ok (board, Nat.iter (length (unfilled_by_row board)) next_state g))
  ∧ (∃ b' g',
       _neighbouring_operator size 1 board g = Ok (b', g')
       ∧ same_outside board b'
       ∧ ∀ pos, pos ∈ unfilled_positions board →
           ∃ old new,
             cell (_board board) (Z.to_nat (pos_y pos)) (Z.to_nat (pos_x pos)) = Some old
             ∧ cell (_board b') (Z.to_nat (pos_y pos)) (Z.to_nat (pos_x pos)) = Some new
             ∧ moved size old new)
  ∧ (∃ b' g',
       Custom_neighbouring_operator 1 board g = Ok (b', g')
       ∧ same_outside board b'
       ∧ ∀ row blanks, (row, blanks) ∈ unfilled_by_row board →
           ∃ i j old new,
             i ≠ j ∧ i ∈ blanks ∧ j ∈ blanks
             ∧ _board board !! row = Some old ∧ _board b' !! row = Some new
             ∧ exchanged i j old new).
Proof.
  intros Hc. assert (_board_init board ≠ None) as Hi.
  { destruct Hc as ([Hi _] & _). by rewrite Hi. }
  split; [by apply neighbouring_operator_zero|].
  split; [by apply Custom_neighbouring_operator_zero|].
  split; [by eapply neighbouring_operator_one|by eapply Custom_neighbouring_operator_one].
Qed.

Lemma n_operator_at_zero_and_one_witness :
  consistent board4 init4
  ∧ never_zero (length (unfilled_positions board4)) [1; 1; 1; 1; 1; 1]%N
  ∧ _neighbouring_operator 4 0 board4 [1; 1; 1; 1; 1; 1]%N = Ok (board4, [1%N])
  ∧ ∃ b' g', _neighbouring_operator 4 1 board4 [1; 1; 1; 1; 1; 1]%N = Ok (b', g').
Proof.
  assert (never_zero (length (unfilled_positions board4)) [1; 1; 1; 1; 1; 1]%N) as Hnz.
  { intros k Hk. simpl in Hk.
    destruct k as [|[|[|[|[|k]]]]]; [by vm_compute..|lia]. }
  pose proof (n_operator_at_zero_and_one board4 init4 4 [1; 1; 1; 1; 1; 1]%N
                consistent_board4) as (Hzero & _ & (b' & g' & Hone & _) & _).
  split; [exact consistent_board4|]. split; [exact Hnz|].
  split; [exact (Hzero Hnz)|]. by exists b', g'.
Defined.

(** ** Probabilities outside [0, 1], at construction and after *)

(** C9, as stated, fails: a solver with n = 5/4 is constructed without
    any report; the assertion fails later, inside the first climb step of
    [try_solve], and on a puzzle of the trivial case it never fails. *)
Lemma invalid_probability_passes_construction :
  ∃ s, BetaHC_new board4 1 1 (5 # 4) (1 # 20) false = Ok s
       ∧ _n_prob s = (5 # 4)%Q
       ∧ (∃ filled g, _fill (PaperBetaHC s) board4 [1; 2; 3; 4; 5]%N = Ok (filled, g))
       ∧ try_solve (PaperBetaHC s) (beta_base s) [1; 2; 3; 4; 5]%N = Raise AssertionError
       ∧ ∃ t, BetaHC_new one_blank_board4 1 1 (5 # 4) (1 # 20) false = Ok t
              ∧ ∃ sol s' g', try_solve (PaperBetaHC t) (beta_base t) [1; 2; 3]%N
                             = Ok (sol, s', g').
Proof.
  eexists. split; [reflexivity|]. split; [reflexivity|].
  split; [by eexists _, _|]. split; [reflexivity|].
  eexists. split; [reflexivity|]. by eexists _, _, _.
Qed.

(** With [max_iter = 0] no step runs: [try_solve] with n = 5/4 returns,
    the probability never tested. *)
Example invalid_probability_unnoticed_without_a_step :
  ∃ sol s' g',
    try_solve (PaperBetaHC (mkBetaHC (Solver_new board4 1 0 false) (5 # 4) (1 # 20)))
              (Solver_new board4 1 0 false) [1; 2; 3; 4; 5]%N
    = Ok (sol, s', g').
Proof. by eexists _, _, _. Qed.

(** ** The shape of the board is an invariant *)

Lemma Board_new_well_formed (size : Z) (b : Board) :
  Board_new size = Ok b →
  well_formed b ∧ _size b = Z.to_nat size ∧ _board_init b = None ∧ _unfilled b = [].
Proof.
  unfold Board_new. case_bool_decide as Hneg; [done|].
  case_bool_decide as Hsq; [|done]. intros [= <-]. simpl.
  split; [|done]. split; [|simpl; rewrite <- Hsq at 1; simpl; lia]. split; simpl.
  - by rewrite length_replicate.
  - apply Forall_replicate. by rewrite length_replicate.
Qed.

Lemma set_init_state_well_formed (b b' : Board) (file : option (list string)) (r : bool) :
  well_formed b → set_init_state b file = Ok (r, b') → well_formed b'.
Proof.
  intros [[Hlen Hrows] Hsq] Hload. destruct file as [lines|]; [|by injection Hload as _ <-].
  unfold set_init_state, _init_from_file in Hload.
  apply bind_Ok in Hload as ([ok b1] & Hfile & Hload).
  apply bind_Ok in Hfile as ([ok' m] & Hloop & [= <- <-]).
  destruct (init_from_file_loop_inv _ _ _ _ _ _ (Nat.le_0_l _) Hloop)
    as (j & Hkj & Hj & Hgood & Hstop).
  rewrite (init_from_file_loop_run _ _ _ _ j Hkj Hj Hgood Hstop) in Hloop.
  injection Hloop as _ <-. simpl in *.
  assert (shaped (_size b) (parse_rows (take j lines) ++ drop j (_board b))) as Hshape.
  { split.
    - rewrite length_app, parse_rows_length, length_take, length_drop. lia.
    - apply Forall_app. split; [|by apply Forall_drop].
      unfold parse_rows. rewrite Forall_fmap. eapply Forall_impl; [exact Hgood|].
      intros line [_ Hl]. simpl. by rewrite length_fmap. }
  destruct ok'; injection Hload as _ <-; by split.
Qed.

Lemma mutations_well_formed (b : Board) :
  well_formed b →
  (∀ pos val r b', set b pos val = Ok (r, b') → well_formed b')
  ∧ (∀ vals r b', fill_board b vals = Ok (r, b') → well_formed b')
  ∧ (∀ line_num vals r b', fill_line b line_num vals = Ok (r, b') → well_formed b').
Proof.
  intros [Hshape Hsq]. split; [|split].
  - intros pos val r b' Hset. unfold set in Hset.
    destruct (is_valid b pos) eqn:Hv; simpl in Hset; [|by injection Hset as _ <-].
    apply bind_Ok in Hset as ([|] & _ & Hset); [by injection Hset as _ <-|].
    apply bind_Ok in Hset as (m & Hm & [= _ <-]).
    apply is_valid_true in Hv as [Hx Hy].
    destruct (np_set_result _ _ _ _ _ (proj1 Hy) (proj1 Hx) Hm) as (_ & _ & Hs).
    split; [by apply Hs|done].
  - intros vals r b' Hfill. unfold fill_board in Hfill.
    destruct (shape_is _ _ vals) eqn:Hs; simpl in Hfill; [|by injection Hfill as _ <-].
    destruct (_board_init b); [|done].
    destruct (existsb _ _); injection Hfill as _ <-; [done|].
    apply shape_is_shaped in Hs. by split.
  - intros line_num vals r b' Hfill. unfold fill_line in Hfill.
    destruct (negb _ || negb _) eqn:Hchk; [by injection Hfill as _ <-|].
    apply orb_false_iff in Hchk as [Hlen _].
    apply negb_false_iff, bool_decide_eq_true in Hlen.
    destruct (_board_init b); [|done].
    apply bind_Ok in Hfill as (li & _ & Hfill).
    destruct (line_changed li vals); [by injection Hfill as _ <-|].
    apply bind_Ok in Hfill as (m & Hm & [= _ <-]).
    unfold np_set_row in Hm. apply bind_Ok in Hm as (j & _ & [= <-]).
    destruct Hshape as [Hl Hrows]. split; [|done]. split; simpl.
    + by rewrite length_insert.
    + by apply Forall_insert.
Qed.

(** A board of size 0 can be built; [check] divides by zero on it. *)
Example check_on_the_empty_board :
  ∃ b, Board_new 0 = Ok b ∧ check b = Raise ZeroDivisionError.
Proof. by eexists. Qed.

(** A second load keeps the rows that the first one listed: the
    dictionary is only ever added to. *)
Example reload_keeps_listed_rows :
  ∃ b, set_init_state board4 (Some one_blank4) = Ok (true, b)
       ∧ _unfilled b = unfilled4.
Proof. by eexists. Qed.

(** ** The unique fill *)

Lemma list_remove_elem (tile : Z) (pool : list Z) :
  tile ∈ pool → ∃ pool', list_remove tile pool = Ok pool' ∧ pool ≡ₚ tile :: pool'.
Proof.
  induction pool as [|v pool IH]; intros Hin; [by apply elem_of_nil in Hin|].
  simpl. case_bool_decide as Hv.
  - subst v. by exists pool.
  - apply elem_of_cons in Hin as [->|Hin]; [done|].
    destruct (IH Hin) as (pool' & -> & Hperm). exists (v :: pool'). split; [done|].
    rewrite Hperm. apply Permutation_swap.
Qed.

Lemma list_remove_missing (tile : Z) (pool : list Z) :
  tile ∉ pool → list_remove tile pool = Raise ValueError.
Proof.
  induction pool as [|v pool IH]; intros Hnin; [done|].
  apply not_elem_of_cons in Hnin as [Hne Hnin]. simpl.
  rewrite bool_decide_eq_false_2 by done. by rewrite IH.
Qed.

(** The loop that takes the given tiles out of the pool. *)
Lemma remove_given_run (line : list Z) :
  ∀ pool, given_tiles line ⊆+ pool →
    ∃ pool', for_each (λ pool tile,
                         if bool_decide (tile ≠ 0) then list_remove tile pool else Ok pool)
                      line pool = Ok pool'
             ∧ pool ≡ₚ given_tiles line ++ pool'.
Proof.
  induction line as [|tile line IH]; intros pool Hsub; [by exists pool|].
  unfold given_tiles in *. rewrite filter_cons in Hsub. simpl for_each.
  case_bool_decide as Ht.
  - rewrite decide_True in Hsub by done.
    destruct (list_remove_elem tile pool) as (pool1 & Hrem & Hperm).
    { eapply elem_of_submseteq; [|exact Hsub]. by left. }
    rewrite Hrem. simpl. rewrite Hperm in Hsub.
    apply (submseteq_app_inv_l _ _ [tile]) in Hsub.
    destruct (IH _ Hsub) as (pool' & -> & Hperm'). exists pool'. split; [done|].
    rewrite filter_cons, decide_True by done. simpl. by rewrite Hperm, Hperm'.
  - subst tile. rewrite decide_False in Hsub by (by intros ?). simpl.
    destruct (IH _ Hsub) as (pool' & -> & Hperm'). exists pool'. split; [done|].
    by rewrite filter_cons, decide_False by (by intros ?).
Qed.

Lemma remove_given_inv (line : list Z) :
  ∀ pool pool',
    for_each (λ pool tile,
                if bool_decide (tile ≠ 0) then list_remove tile pool else Ok pool)
             line pool = Ok pool' →
    pool ≡ₚ given_tiles line ++ pool'.
Proof.
  induction line as [|tile line IH]; intros pool pool' Hrun; simpl in Hrun.
  - by injection Hrun as <-.
  - apply bind_Ok in Hrun as (pool1 & Hstep & Hrun). apply IH in Hrun.
    unfold given_tiles in *. rewrite filter_cons. case_bool_decide as Ht.
    + rewrite decide_True by done. simpl.
      destruct (decide (tile ∈ pool)) as [Hin|Hnin].
      * destruct (list_remove_elem _ _ Hin) as (pool2 & Hrem & Hperm).
        rewrite Hrem in Hstep. injection Hstep as <-. by rewrite Hperm, Hrun.
      * by rewrite list_remove_missing in Hstep.
    + subst tile. rewrite decide_False by (by intros ?). by injection Hstep as <-.
Qed.

Lemma list_pop_snoc (pool : list Z) (v : Z) : list_pop (pool ++ [v]) = Ok (v, pool).
Proof.
  unfold list_pop. rewrite last_snoc, length_app. simpl.
  replace (length pool + 1 - 1)%nat with (length pool) by lia.
  by rewrite take_app_length.
Qed.

Lemma blanks_and_given (line : list Z) :
  (length (filter (λ v : Z, v = 0%Z) line) + length (given_tiles line))%nat = length line.
Proof.
  unfold given_tiles. induction line as [|v line IH]; [done|].
  rewrite !filter_cons. destruct (decide (v = 0)) as [->|Hv].
  - rewrite decide_False by (by intros ?). simpl. lia.
  - rewrite decide_True by done. simpl. lia.
Qed.

(** The comprehension of [_fill_line_unique] with a pool of as many
    values as the line has blanks. *)
Lemma fill_from_pool_run (line : list Z) :
  ∀ pool, length (filter (λ v, v = 0) line) = length pool →
    ∃ filled, fill_from_pool line pool = Ok filled
              ∧ filled ≡ₚ given_tiles line ++ pool
              ∧ keeps_given line filled
              ∧ ∀ i, line !! i = Some 0 → ∃ v, filled !! i = Some v ∧ v ∈ pool.
Proof.
  unfold given_tiles.
  induction line as [|x line IH]; intros pool Hlen.
  - destruct pool; [|done]. exists []. split; [done|]. split; [done|].
    split; [by split|]. by intros i ?.
  - rewrite filter_cons in Hlen. simpl. case_bool_decide as Hx.
    + rewrite decide_False in Hlen by done.
      destruct (IH _ Hlen) as (filled & -> & Hperm & [Hl Hkeep] & Hblank).
      exists (x :: filled). split; [done|].
      rewrite filter_cons, decide_True by done. simpl. split; [by rewrite Hperm|].
      split.
      * split; [simpl; by rewrite Hl|]. intros [|i] v Hi Hv; simpl in *; [done|eauto].
      * intros [|i] Hi; simpl in *; [congruence|eauto].
    + subst x. rewrite decide_True in Hlen by done. simpl in Hlen.
      destruct pool as [|v0 pool0] using rev_ind; [done|]. clear IHpool0.
      rewrite length_app in Hlen. simpl in Hlen.
      rewrite list_pop_snoc. simpl.
      destruct (IH pool0 ltac:(lia)) as (filled & -> & Hperm & [Hl Hkeep] & Hblank).
      exists (v0 :: filled). split; [done|].
      rewrite filter_cons, decide_False by (by intros ?). split.
      { rewrite Hperm. by rewrite (Permutation_app_comm pool0 [v0]), Permutation_middle. }
      split.
      * split; [simpl; by rewrite Hl|]. intros [|i] v Hi Hv; simpl in *; [congruence|eauto].
      * intros [|i] Hi; simpl in *.
        -- exists v0. split; [done|]. apply elem_of_app. right. by left.
        -- destruct (Hblank i Hi) as (v & ? & ?). exists v. split; [done|].
           apply elem_of_app. by left.
Qed.

Lemma fill_from_pool_short (line : list Z) :
  ∀ pool, (length pool < length (filter (λ v : Z, v = 0%Z) line))%nat →
          fill_from_pool line pool = Raise IndexError.
Proof.
  induction line as [|x line IH]; intros pool Hlen; [simpl in Hlen; lia|].
  rewrite filter_cons in Hlen. simpl. case_bool_decide as Hx.
  - rewrite decide_False in Hlen by done. by rewrite IH.
  - subst x. rewrite decide_True in Hlen by done. simpl in Hlen.
    destruct pool as [|v0 pool0] using rev_ind; [done|]. clear IHpool0.
    rewrite length_app in Hlen. simpl in Hlen. rewrite list_pop_snoc. simpl.
    rewrite IH by lia. done.
Qed.

Lemma given_tiles_fillable (size : nat) (line : list Z) :
  fillable size line → given_tiles line ⊆+ seqZ 1 (Z.of_nat size).
Proof.
  intros (_ & Hnd & Hrange). apply NoDup_submseteq; [done|].
  intros v Hv. apply elem_of_seqZ. specialize (Hrange v Hv). lia.
Qed.

Section UniqueFill.
Context {G : Type} `{RandomSource G} `{ShuffleSource G}.

(** [_fill_line_unique] completes a fillable line: the result is a
    permutation of 1..size that has the given tiles of the line in their
    places. *)
Lemma fill_line_unique_run (size : nat) (line : list Z) (g : G) :
  fillable size line →
  ∃ filled g',
    _fill_line_unique size line g = Ok (filled, g')
    ∧ valid_area size filled ∧ keeps_given line filled.
Proof.
  intros Hfill. pose proof (given_tiles_fillable _ _ Hfill) as Hsub.
  destruct Hfill as (Hlen & _ & _).
  destruct (remove_given_run line _ Hsub) as (pool & Hloop & Hperm).
  unfold _fill_line_unique. rewrite Hloop. simpl.
  pose proof (shuffle_permutation pool g) as Hshuffle.
  destruct (shuffle pool g) as [pool' g']. simpl in Hshuffle.
  destruct (fill_from_pool_run line pool') as (filled & Hfilled & Hperm' & Hkeep & _).
  { pose proof (blanks_and_given line) as Hcount.
    apply Permutation_length in Hperm, Hshuffle.
    rewrite length_seqZ, length_app in Hperm. lia. }
  rewrite Hfilled. simpl. exists filled, g'. split; [done|]. split; [|done].
  unfold valid_area. by rewrite Hperm', Hshuffle, <- Hperm.
Qed.

Lemma remove_given_raises (line : list Z) :
  ∀ pool e,
    for_each (λ pool tile,
                if bool_decide (tile ≠ 0) then list_remove tile pool else Ok pool)
             line pool = Raise e →
    e = ValueError.
Proof.
  induction line as [|tile line IH]; intros pool e Hrun; [done|]. simpl in Hrun.
  case_bool_decide as Ht.
  - destruct (decide (tile ∈ pool)) as [Hin|Hnin].
    + destruct (list_remove_elem _ _ Hin) as (pool1 & Hrem & _).
      rewrite Hrem in Hrun. by eapply IH.
    + rewrite list_remove_missing in Hrun by done. by injection Hrun as <-.
  - by eapply IH.
Qed.

(** A line whose given tiles are not distinct values of 1..size makes
    [pool.remove] fail: ValueError.  A line with in-range distinct given
    tiles that is longer than the board is wide runs out of pool:
    IndexError. *)
Lemma fill_line_unique_raises (size : nat) (line : list Z) (g : G) :
  (¬ (NoDup (given_tiles line) ∧ ∀ v, v ∈ given_tiles line → 1 ≤ v ≤ Z.of_nat size) →
   _fill_line_unique size line g = Raise ValueError)
  ∧ (NoDup (given_tiles line) → (∀ v, v ∈ given_tiles line → 1 ≤ v ≤ Z.of_nat size) →
     (size < length line)%nat →
     _fill_line_unique size line g = Raise IndexError).
Proof.
  split.
  - intros Hbad. unfold _fill_line_unique.
    destruct (for_each _ line (seqZ 1 (Z.of_nat size))) as [pool|e] eqn:Hloop; simpl.
    + exfalso. apply Hbad. apply remove_given_inv in Hloop. split.
      * pose proof (NoDup_seqZ 1 (Z.of_nat size)) as Hnd. rewrite Hloop in Hnd.
        by apply NoDup_app in Hnd as [? _].
      * intros v Hv. assert (v ∈ seqZ 1 (Z.of_nat size)) as Hin.
        { rewrite Hloop. apply elem_of_app. by left. }
        apply elem_of_seqZ in Hin. lia.
    + by rewrite (remove_given_raises _ _ _ Hloop).
  - intros Hnd Hrange Hlong.
    destruct (remove_given_run line (seqZ 1 (Z.of_nat size))) as (pool & Hloop & Hperm).
    { apply NoDup_submseteq; [done|]. intros v Hv. apply elem_of_seqZ.
      specialize (Hrange v Hv). lia. }
    unfold _fill_line_unique. rewrite Hloop. simpl.
    pose proof (shuffle_permutation pool g) as Hshuffle.
    destruct (shuffle pool g) as [pool' g']. simpl in Hshuffle.
    rewrite fill_from_pool_short; [done|].
    pose proof (blanks_and_given line) as Hcount.
    apply Permutation_length in Hperm, Hshuffle.
    rewrite length_seqZ, length_app in Hperm. lia.
Qed.

End UniqueFill.

Lemma fillable_row_of_board4 : fillable 4 [0; 1; 0; 0].
Proof.
  split; [done|]. split; [by_decision|].
  intros v Hv. apply list_elem_of_singleton in Hv as ->. lia.
Qed.

(** ** The row swap and the step of [HillClimbing] *)

Lemma exchanged_Permutation (i j : nat) (old new : list Z) :
  exchanged i j old new → new ≡ₚ old.
Proof.
  intros (a & c & Hi & Hj & ->).
  destruct (decide (i = j)) as [->|Hne].
  { rewrite list_insert_insert_eq. rewrite Hi in Hj. injection Hj as ->.
    by rewrite list_insert_id. }
  apply Permutation_inj. split; [by rewrite !length_insert|].
  exists (λ k, if decide (k = i) then j else if decide (k = j) then i else k).
  pose proof (lookup_lt_Some _ _ _ Hi). pose proof (lookup_lt_Some _ _ _ Hj). split.
  - intros x y Hxy. repeat case_decide; congruence.
  - intros k. repeat case_decide; subst.
    + rewrite list_lookup_insert_ne by done. by rewrite list_lookup_insert_eq.
    + by rewrite list_lookup_insert_eq by (by rewrite length_insert).
    + by rewrite !list_lookup_insert_ne.
Qed.

Lemma exchanged_length (i j : nat) (old new : list Z) :
  exchanged i j old new → length new = length old.
Proof. intros (a & c & _ & _ & ->). by rewrite !length_insert. Qed.

Lemma fill_line_accepts (b : Board) (init : matrix) (row : nat) (vals : list Z) :
  loaded b init → (row < _size b)%nat → (row < length (_board b))%nat →
  length vals = _size b →
  (∀ x v, cell init row x = Some v → v ≠ 0 → vals !! x = Some v) →
  fill_line b (Z.of_nat row) vals
  = Ok (None, with_board b (<[row := vals]> (_board b))).
Proof.
  intros [Hi Hs] Hrow Hrowb Hlen Hkeep. unfold fill_line.
  rewrite (bool_decide_eq_true_2 (length vals = _)) by done.
  rewrite (bool_decide_eq_true_2 (0 ≤ _ < _)) by lia. simpl. rewrite Hi.
  unfold np_row. destruct Hs as [Hl Hrows]. rewrite np_index_nat by lia. simpl.
  destruct (lookup_lt_is_Some_2 init row ltac:(lia)) as [line_init Hline].
  rewrite Hline. simpl.
  destruct (line_changed line_init vals) eqn:Hscan.
  { apply line_changed_true in Hscan as (x & a & c & Ha & Hc & Ha0 & Hac).
    rewrite (Hkeep x a) in Hc; [congruence| |done]. unfold cell. by rewrite Hline. }
  unfold np_set_row. rewrite np_index_nat by done. done.
Qed.

(** Replacing a row by a permutation of it that agrees with the snapshot
    on the given tiles keeps the board consistent and its rows valid. *)
Lemma replace_row_consistent (b : Board) (init : matrix) (row : nat) (old new : list Z) :
  consistent b init → _board b !! row = Some old → new ≡ₚ old →
  (∀ x v, cell init row x = Some v → v ≠ 0 → new !! x = Some v) →
  consistent (with_board b (<[row := new]> (_board b))) init
  ∧ (rows_valid b → rows_valid (with_board b (<[row := new]> (_board b)))).
Proof.
  intros (Hl & [Hlen Hrows] & Hkeep & Hkeys & Hd) Hold Hperm Hgiven. split.
  - split; [done|]. split.
    { split; simpl; [by rewrite length_insert|]. apply Forall_insert; [done|].
      rewrite (Permutation_length Hperm). rewrite Forall_lookup in Hrows. eauto. }
    split; [|done]. intros y x v Hv Hv0. simpl. unfold cell.
    destruct (decide (y = row)) as [->|Hne].
    + rewrite list_lookup_insert_eq by (by eapply lookup_lt_Some). simpl. eauto.
    + rewrite list_lookup_insert_ne by done. by apply Hkeep.
  - unfold rows_valid. simpl. intros Hvalid. apply Forall_insert; [done|].
    rewrite Forall_lookup in Hvalid. unfold valid_area. rewrite Hperm.
    by apply (Hvalid row).
Qed.

Section HillClimbingStep.
Context {G : Type} `{RandomSource G}.

(** One step of [HillClimbing] on a consistent board with an eligible
    row: it returns, two modifiable tiles of one eligible row have changed
    places, the board stays consistent, and rows that were permutations of
    1..size still are. *)
Lemma HillClimbing_step_swaps_run (board : Board) (init : matrix) (g : G) :
  consistent board init → unfilled_by_row board ≠ [] →
  ∃ b' g' row blanks i j old new,
    HillClimbing_step board g = Ok (b', g')
    ∧ (row, blanks) ∈ unfilled_by_row board ∧ i ≠ j ∧ i ∈ blanks ∧ j ∈ blanks
    ∧ _board board !! row = Some old ∧ exchanged i j old new
    ∧ b' = with_board board (<[row := new]> (_board board))
    ∧ consistent b' init
    ∧ (rows_valid board → rows_valid b').
Proof.
  intros Hc Hne. pose proof Hc as (Hl & Hshape & Hkeep & Hkeys & Hd).
  pose proof Hl as [_ Hs]. unfold unfilled_by_row in *.
  destruct (randint_range 0 (Z.of_nat (length (_unfilled board)) - 1) g)
    as (k & g1 & Hk & Hkrange).
  { destruct (_unfilled board); [done|]. simpl. lia. }
  destruct (lookup_lt_is_Some_2 (_unfilled board) (Z.to_nat k) ltac:(lia))
    as [[row blanks] Hentry].
  pose proof (list_elem_of_lookup_2 _ _ _ Hentry) as Hin.
  destruct (Hd _ _ Hin) as (Hnd & Hlen & Hzero).
  assert ((row < _size board)%nat ∧ ∀ i, i ∈ blanks → (i < _size board)%nat) as [Hrow Hcols].
  { destruct blanks as [|i0 blanks]; [simpl in Hlen; lia|].
    destruct (cell_bounds _ _ _ _ _ Hs (Hzero i0 ltac:(by left))) as [Hrow _].
    split; [done|]. intros i Hi. by destruct (cell_bounds _ _ _ _ _ Hs (Hzero i Hi)). }
  destruct Hshape as [Hblen Hbrows].
  destruct (lookup_lt_is_Some_2 (_board board) row ltac:(lia)) as [old Hold].
  assert (length old = _size board) as Holdlen.
  { rewrite Forall_lookup in Hbrows. eauto. }
  destruct (swap_in_line_exchanges old blanks g1 Hnd Hlen)
    as (i & j & new & g' & Hswap & Hij & Hi & Hj & Hex).
  { intros x Hx. rewrite Holdlen. auto. }
  assert (∀ x v, cell init row x = Some v → v ≠ 0 → new !! x = Some v) as Hgiven.
  { intros x v Hv Hv0. rewrite (exchanged_other _ _ _ _ _ Hex).
    - specialize (Hkeep _ _ _ Hv Hv0). unfold cell in Hkeep. by rewrite Hold in Hkeep.
    - intros ->. rewrite (Hzero _ Hi) in Hv. congruence.
    - intros ->. rewrite (Hzero _ Hj) in Hv. congruence. }
  exists (with_board board (<[row := new]> (_board board))), g', row, blanks, i, j, old, new.
  split.
  { unfold HillClimbing_step, unfilled_by_row, values. rewrite Hk. simpl.
    rewrite np_index_valid by lia. simpl.
    rewrite list_lookup_fmap, Hentry. simpl.
    unfold np_row. rewrite np_index_nat by lia. simpl. rewrite Hold. simpl.
    rewrite (dict_get_elem _ _ _ Hkeys Hin). simpl. rewrite Hswap. simpl.
    rewrite (fill_line_accepts _ init); [done|done|done|lia| |done].
    by rewrite (exchanged_length _ _ _ _ Hex). }
  do 7 (split; [done|]).
  apply (replace_row_consistent _ _ _ old); [done..| |done].
  by eapply exchanged_Permutation.
Qed.

(** With no eligible row the step cannot draw a row: ValueError. *)
Lemma HillClimbing_step_no_row (board : Board) (g : G) :
  unfilled_by_row board = [] → HillClimbing_step board g = Raise ValueError.
Proof.
  intros Hnil. unfold HillClimbing_step. rewrite Hnil. simpl.
  by rewrite randint_empty.
Qed.

End HillClimbingStep.

(** ** The unique fill of the board *)

Lemma valid_area_length (size : nat) (area : list Z) :
  valid_area size area → length area = size.
Proof.
  intros Hperm. apply Permutation_length in Hperm. rewrite length_seqZ in Hperm. lia.
Qed.

Lemma consistent_solved_board4 : consistent solved_board4 init4.
Proof.
  destruct consistent_board4 as (Hl & _ & _ & Hkeys & Hd).
  split; [done|]. split; [split; [done|by repeat constructor]|].
  split; [|by split].
  destruct (fill_board_result board4 solved_board4 solved4 true eq_refl)
    as (_ & _ & _ & _ & Ht).
  destruct (Ht eq_refl) as (_ & _ & Hk). apply (Hk init4 eq_refl). by destruct Hl.
Qed.

Lemma rows_valid_solved_board4 : rows_valid solved_board4.
Proof. repeat constructor; by_decision. Qed.

Lemma fillable_board4 : Forall (fillable 4) (_board board4).
Proof.
  unfold board4, init4. simpl.
  repeat (apply Forall_cons; split);
    first [ by apply Forall_nil
          | split; [done|split; [by_decision|apply Forall_forall; by_decision]] ].
Qed.

Section UniqueBoardFill.
Context {G : Type} `{RandomSource G} `{ShuffleSource G}.

Lemma fill_rows_run (size : nat) (rows : matrix) :
  Forall (fillable size) rows →
  ∀ (acc : matrix) (g : G),
    ∃ filled_rows g',
      for_each (λ '(new_board, g) line,
                  '(filled, g) ← _fill_line_unique size line g;
                  Ok (new_board ++ [filled], g))
               rows (acc, g) = Ok (acc ++ filled_rows, g')
      ∧ Forall2 (λ line filled, valid_area size filled ∧ keeps_given line filled)
                rows filled_rows.
Proof.
  induction 1 as [|line rows Hline _ IH]; intros acc g.
  - exists [], g. by rewrite app_nil_r.
  - destruct (fill_line_unique_run size line g Hline)
      as (filled & g1 & Hrun & Hvalid & Hkeep).
    destruct (IH (acc ++ [filled]) g1) as (filled_rows & g' & Hloop & Hall).
    exists (filled :: filled_rows), g'. split; [|by constructor].
    simpl for_each. rewrite Hrun. simpl. rewrite Hloop.
    by rewrite <- app_assoc.
Qed.

(** [_fill_board_unique] on a consistent board whose rows are fillable:
    it returns, the board it leaves is consistent, every row of it is a
    permutation of 1..size, and every tile that was filled before still
    has its value. *)
Lemma fill_board_unique_run (board : Board) (init : matrix) (g : G) :
  consistent board init → Forall (fillable (_size board)) (_board board) →
  ∃ b' g',
    _fill_board_unique (_size board) board g = Ok (b', g')
    ∧ b' = with_board board (_board b')
    ∧ consistent b' init ∧ rows_valid b'
    ∧ ∀ y x v, cell (_board board) y x = Some v → v ≠ 0 → cell (_board b') y x = Some v.
Proof.
  intros (Hl & [Hlen Hrows] & Hkeep & Hkeys & Hd) Hfill.
  destruct (fill_rows_run _ _ Hfill [] g) as (new_board & g' & Hloop & Hall).
  simpl in Hloop.
  assert (∀ y x v, cell (_board board) y x = Some v → v ≠ 0 →
                   cell new_board y x = Some v) as Hsame.
  { intros y x v Hv Hv0. unfold cell in *.
    destruct (_board board !! y) as [line|] eqn:Hline; [|done]. simpl in Hv.
    destruct (Forall2_lookup_l _ _ _ _ _ Hall Hline) as (filled & -> & _ & _ & Hk).
    simpl. eauto. }
  assert (shaped (_size board) new_board) as Hshape.
  { split; [by rewrite <- (Forall2_length _ _ _ Hall)|].
    apply Forall_forall. intros filled Hin. apply list_elem_of_lookup in Hin as [y Hy].
    destruct (Forall2_lookup_r _ _ _ _ _ Hall Hy) as (line & _ & Hvalid & _).
    by apply valid_area_length. }
  assert (keeps_initial init new_board) as Hkeep'.
  { intros y x v Hv Hv0. apply Hsame; [|done]. by apply Hkeep. }
  exists (with_board board new_board), g'. split.
  { unfold _fill_board_unique, values. rewrite Hloop. simpl.
    by rewrite (fill_board_accepts _ init). }
  split; [done|].
  split; [by split; [|split; [|split; [|split]]]|]. split; [|done].
  unfold rows_valid. simpl. apply Forall_forall. intros filled Hin.
  apply list_elem_of_lookup in Hin as [y Hy].
  by destruct (Forall2_lookup_r _ _ _ _ _ Hall Hy) as (line & _ & Hvalid & _).
Qed.

End UniqueBoardFill.

(** ** What a climb returns *)

Section Climb.
Context {G : Type} `{RandomSource G}.

Lemma climb_loop_result (M : @Methods G) (max_iter : nat) :
  ∀ (todo i : nat) (score_min : Z) (board : Board) (g : G)
    (score itr : Z) (board' : Board) (g' : G),
    (i + todo = max_iter)%nat →
    _eval M board = Ok score_min →
    _climb_loop M max_iter todo i score_min board g = Ok ((score, itr), board', g') →
    _eval M board' = Ok score ∧ score ≤ score_min
    ∧ Z.of_nat i ≤ itr ≤ Z.of_nat max_iter
    ∧ (itr < Z.of_nat max_iter → score = 0).
Proof.
  induction todo as [|todo IH]; intros i score_min board g score itr board' g' Hi Hev Hrun;
    simpl in Hrun.
  - injection Hrun as <- <- <- <-. split; [done|]. lia.
  - apply bind_Ok in Hrun as ([board1 g1] & Hstep & Hrun).
    apply bind_Ok in Hrun as (score1 & Hev1 & Hrun).
    case_bool_decide as Hle.
    + case_bool_decide as Hzero.
      * injection Hrun as <- <- <- <-. subst score1. split; [done|]. lia.
      * apply IH in Hrun as (Hev' & Hle' & Hitr & Hz); [|lia|done].
        split; [done|]. split; [lia|]. split; [lia|done].
    + apply IH in Hrun as (Hev' & Hle' & Hitr & Hz); [|lia|done].
      split; [done|]. split; [lia|]. split; [lia|done].
Qed.

(** A climb whose step keeps the snapshot keeps it. *)
Lemma climb_loop_snapshot (M : @Methods G) :
  (∀ b g b' g', _step M b g = Ok (b', g') → _board_init b' = _board_init b) →
  ∀ max_iter todo i score_min board g res board' g',
    _climb_loop M max_iter todo i score_min board g = Ok (res, board', g') →
    _board_init board' = _board_init board.
Proof.
  intros Hstep max_iter todo.
  induction todo as [|todo IH]; intros i score_min board g res board' g' Hrun;
    simpl in Hrun.
  - by injection Hrun as _ <- _.
  - apply bind_Ok in Hrun as ([copy1 g1] & Hs & Hrun).
    apply bind_Ok in Hrun as (score & _ & Hrun).
    apply Hstep in Hs. unfold copy in Hs.
    case_bool_decide.
    + case_bool_decide.
      * by injection Hrun as _ <- _.
      * apply IH in Hrun. congruence.
    + by apply IH in Hrun.
Qed.

(** A climb whose step and evaluation return on every board of an
    invariant returns, on a board of the invariant. *)
Lemma climb_loop_total (M : @Methods G) (Inv : Board → Prop) :
  (∀ b g, Inv b → ∃ b' g', _step M b g = Ok (b', g') ∧ Inv b') →
  (∀ b, Inv b → ∃ z, _eval M b = Ok z) →
  ∀ (max_iter todo i : nat) (score_min : Z) (board : Board) (g : G),
    Inv board →
    ∃ res board' g',
      _climb_loop M max_iter todo i score_min board g = Ok (res, board', g') ∧ Inv board'.
Proof.
  intros Hstep Heval max_iter todo.
  induction todo as [|todo IH]; intros i score_min board g Hinv; simpl.
  - by eexists _, _, _.
  - unfold copy. destruct (Hstep board g Hinv) as (b1 & g1 & -> & Hinv1). simpl.
    destruct (Heval b1 Hinv1) as (z & ->). simpl.
    case_bool_decide; [case_bool_decide|]; [by eexists _, _, _|by apply IH..].
Qed.

Lemma climb_total (M : @Methods G) (Inv : Board → Prop) :
  (∀ b g, Inv b → ∃ b' g', _step M b g = Ok (b', g') ∧ Inv b') →
  (∀ b, Inv b → ∃ z, _eval M b = Ok z) →
  ∀ (max_iter : nat) (board : Board) (g : G),
    Inv board →
    ∃ score itr board' g',
      _climb M max_iter board g = Ok ((score, itr), board', g')
      ∧ Inv board' ∧ _eval M board' = Ok score.
Proof.
  intros Hstep Heval max_iter board g Hinv. unfold _climb.
  destruct (Heval board Hinv) as (z & Hz). rewrite Hz. simpl.
  destruct (climb_loop_total M Inv Hstep Heval max_iter max_iter 0 z board g Hinv)
    as ([score itr] & board' & g' & Hrun & Hinv').
  exists score, itr, board', g'. split; [done|]. split; [done|].
  by apply climb_loop_result in Hrun as [? _].
Qed.

End Climb.

(** ** What the driver returns *)

Section DriverResult.
Context {G : Type} `{RandomSource G}.

(** The best run so far is a run that was evaluated: its score is the
    evaluation of its board. *)
Lemma update_best_evaluated (M : @Methods G) (max_iter : nat)
    (score itr : Z) (board : Board) (acc : num * num * option Board) :
  _eval M board = Ok score → 0 ≤ itr ≤ Z.of_nat max_iter →
  (acc = (INFINITY, INFINITY, None)
   ∨ ∃ sc it bd, acc = (Fin sc, Fin it, Some bd) ∧ _eval M bd = Ok sc
                 ∧ 0 ≤ it ≤ Z.of_nat max_iter) →
  ∃ sc it bd, update_best score itr board acc = (Fin sc, Fin it, Some bd)
              ∧ _eval M bd = Ok sc ∧ 0 ≤ it ≤ Z.of_nat max_iter
              ∧ (bd = board ∨ acc = (Fin sc, Fin it, Some bd)).
Proof.
  intros Hev Hitr [->|(sc & it & bd & -> & Hbd & Hit)]; rewrite update_best_cases.
  - exists score, itr, board. eauto.
  - case_bool_decide.
    + exists score, itr, board. eauto.
    + exists sc, it, bd. eauto.
Qed.

Lemma solve_loop_evaluated (M : @Methods G) (max_iter : nat) (stop_if_found : bool) :
  ∀ (todo : nat) (board : Board) (results : list Result)
    (acc : num * num * option Board) (g : G)
    (res : Result) (best : option Board) (results' : list Result) (g' : G),
    _solve_loop M max_iter stop_if_found todo board results acc g
    = Ok (res, best, results', g') →
    (acc = (INFINITY, INFINITY, None)
     ∨ ∃ sc it bd, acc = (Fin sc, Fin it, Some bd) ∧ _eval M bd = Ok sc
                   ∧ 0 ≤ it ≤ Z.of_nat max_iter) →
    (todo = 0%nat ∧ acc = (INFINITY, INFINITY, None)
     ∧ res = mkResult INFINITY INFINITY ∧ best = None)
    ∨ ∃ sc it bd, res = mkResult (Fin sc) (Fin it) ∧ best = Some bd
                  ∧ _eval M bd = Ok sc ∧ 0 ≤ it ≤ Z.of_nat max_iter.
Proof.
  induction todo as [|todo IH];
    intros board results acc g res best results' g' Hrun Hacc; simpl in Hrun.
  - destruct Hacc as [->|(sc & it & bd & -> & Hbd & Hit)]; injection Hrun as <- <- <- <-.
    + by left.
    + right. by exists sc, it, bd.
  - right.
    apply bind_Ok in Hrun as ([board1 g1] & Hfill & Hrun).
    apply bind_Ok in Hrun as ([[[sc it] board2] g2] & Hclimb & Hrun).
    unfold _climb in Hclimb. apply bind_Ok in Hclimb as (start & Hstart & Hloop).
    apply climb_loop_result in Hloop as (Hev & _ & Hit & _); [|done..].
    destruct (stop_if_found && bool_decide (sc = 0)).
    { injection Hrun as <- <- <- <-. exists sc, it, board2. split; [done|].
      split; [done|]. split; [done|lia]. }
    apply bind_Ok in Hrun as (board0 & Hreset & Hrun).
    destruct (update_best_evaluated M max_iter sc it board2 acc Hev ltac:(lia) Hacc)
      as (sc' & it' & bd' & Hupd & Hbd' & Hit' & _).
    apply IH in Hrun as [(_ & Habs & _)|Hres]; [congruence|done|].
    right. by exists sc', it', bd'.
Qed.

(** When [try_solve] ran at least one restart on a puzzle with an
    eligible row, the score it reports is the evaluation of the board it
    returns, and the iteration count is at most [max_iter]. *)
Lemma try_solve_evaluated (M : @Methods G) (s s' : Solver) (board : Board) (g g' : G)
    (sol : Solution) :
  solver_board s = Some board → unfilled_by_row board ≠ [] →
  (1 ≤ _max_restarts s)%nat →
  try_solve M s g = Ok (sol, s', g') →
  ∃ sc it bd,
    sol_result sol = mkResult (Fin sc) (Fin it) ∧ sol_board sol = Some bd
    ∧ solver_board s' = Some bd
    ∧ _eval M bd = Ok sc ∧ 0 ≤ it ≤ Z.of_nat (_max_iter s).
Proof.
  intros Hboard Hne HR Hrun. unfold try_solve in Hrun. rewrite Hboard in Hrun.
  apply bind_Ok in Hrun as (board0 & Hreset & Hrun).
  apply bind_Ok in Hrun as ([[res s1] g1] & Hsolve & [= <- <- <-]).
  unfold _solve in Hsolve. simpl in Hsolve.
  assert (unfilled_by_row board0 = unfilled_by_row board) as Hunf.
  { unfold reset in Hreset. destruct (_board_init board); [|done].
    by injection Hreset as <-. }
  rewrite bool_decide_eq_false_2 in Hsolve.
  2:{ rewrite Hunf. by destruct (unfilled_by_row board). }
  apply bind_Ok in Hsolve as ([[[res0 best] results] g0] & Hloop & [= <- <- <-]).
  apply solve_loop_evaluated in Hloop as [(Hz & _)|(sc & it & bd & -> & -> & Hev & Hit)];
    [lia| |by left].
  by exists sc, it, bd.
Qed.

(** A restart loop whose fill, step, evaluation and reset return on the
    boards of [Pre] and [Inv] returns, and the board it keeps is one of
    [Inv]. *)
Lemma solve_loop_total (M : @Methods G) (Pre Inv : Board → Prop) :
  (∀ b g, Pre b → ∃ b' g', _fill M b g = Ok (b', g') ∧ Inv b') →
  (∀ b g, Inv b → ∃ b' g', _step M b g = Ok (b', g') ∧ Inv b') →
  (∀ b, Inv b → ∃ z, _eval M b = Ok z) →
  (∀ b, Inv b → ∃ b0, reset b = Ok b0 ∧ Pre b0) →
  ∀ (max_iter : nat) (stop_if_found : bool) (todo : nat) (board : Board)
    (results : list Result) (acc : num * num * option Board) (g : G),
    Pre board → (∀ bd, acc.2 = Some bd → Inv bd) →
    ∃ res best results' g',
      _solve_loop M max_iter stop_if_found todo board results acc g
      = Ok (res, best, results', g')
      ∧ ∀ bd, best = Some bd → Inv bd.
Proof.
  intros Hfill Hstep Heval Hreset max_iter stop_if_found todo.
  induction todo as [|todo IH]; intros board results acc g Hpre Hacc; simpl.
  - destruct acc as [[score_min itr_min] best]. by eexists _, _, _, _.
  - destruct (Hfill board g Hpre) as (b1 & g1 & -> & Hinv1). simpl.
    destruct (climb_total M Inv Hstep Heval max_iter b1 g1 Hinv1)
      as (sc & it & b2 & g2 & -> & Hinv2 & _). simpl.
    destruct (stop_if_found && bool_decide (sc = 0)).
    { eexists _, _, _, _. split; [done|]. by intros bd [= <-]. }
    destruct (Hreset b2 Hinv2) as (b0 & -> & Hpre0). simpl.
    apply IH; [done|]. intros bd Hbd. rewrite update_best_cases in Hbd.
    destruct acc as [[[s0|] [i0|]] best0]; simpl in *;
      repeat case_bool_decide; simpl in *; try (injection Hbd as <-); auto.
    all: unfold update_best in Hbd; simpl in Hbd; unfold num_eqb in Hbd;
      repeat case_bool_decide; simpl in *; try (injection Hbd as <-); auto; congruence.
Qed.

Lemma try_solve_total (M : @Methods G) (Pre Inv : Board → Prop)
    (s : Solver) (board : Board) (g : G) :
  (∀ b g, Pre b → ∃ b' g', _fill M b g = Ok (b', g') ∧ Inv b') →
  (∀ b g, Inv b → ∃ b' g', _step M b g = Ok (b', g') ∧ Inv b') →
  (∀ b, Inv b → ∃ z, _eval M b = Ok z) →
  (∀ b, Inv b → ∃ b0, reset b = Ok b0 ∧ Pre b0) →
  solver_board s = Some board →
  (∃ b0, reset board = Ok b0 ∧ (unfilled_by_row board ≠ [] → Pre b0)) →
  ∃ sol s' g',
    try_solve M s g = Ok (sol, s', g')
    ∧ (unfilled_by_row board ≠ [] → ∀ bd, sol_board sol = Some bd → Inv bd).
Proof.
  intros Hfill Hstep Heval Hreset Hboard (b0 & Hb0 & Hpre).
  unfold try_solve. rewrite Hboard, Hb0. simpl. unfold _solve. simpl.
  assert (unfilled_by_row b0 = unfilled_by_row board) as Hunf.
  { unfold reset in Hb0. destruct (_board_init board); [|done].
    by injection Hb0 as <-. }
  rewrite Hunf. case_bool_decide as Htriv.
  - simpl. eexists _, _, _. split; [done|]. intros Hne.
    by destruct (unfilled_by_row board).
  - assert (unfilled_by_row board ≠ []) as Hne.
    { intros Hnil. apply Htriv. by rewrite Hnil. }
    destruct (solve_loop_total M Pre Inv Hfill Hstep Heval Hreset (_max_iter s)
                (_stop_if_found s) (_max_restarts s) b0 [] (INFINITY, INFINITY, None) g
                (Hpre Hne) ltac:(done))
      as (res & best & results & g' & -> & Hbest).
    simpl. eexists _, _, _. split; [done|]. simpl. auto.
Qed.

End DriverResult.

(** ** The early exit of the restart loop *)

Section EarlyExit.
Context {G : Type} `{RandomSource G}.

(** With [stop_if_found] the loop either returns at the first restart
    that reaches score 0, with that restart as the last recorded result,
    or runs every restart without any reaching 0. *)
Lemma solve_loop_stop (M : @Methods G) (max_iter : nat) :
  ∀ (todo : nat) (board : Board) (results : list Result)
    (acc : num * num * option Board) (g : G)
    (res : Result) (best : option Board) (results' : list Result) (g' : G),
    _solve_loop M max_iter true todo board results acc g
    = Ok (res, best, results', g') →
    (∃ seen it bd,
       results' = results ++ seen ++ [res] ∧ res = mkResult (Fin 0) (Fin it)
       ∧ best = Some bd ∧ _eval M bd = Ok 0
       ∧ (length seen < todo)%nat ∧ ∀ r, r ∈ seen → score r ≠ Fin 0)
    ∨ (∃ seen, results' = results ++ seen ∧ length seen = todo
               ∧ ∀ r, r ∈ seen → score r ≠ Fin 0).
Proof.
  induction todo as [|todo IH];
    intros board results acc g res best results' g' Hrun; simpl in Hrun.
  - right. destruct acc as [[score_min itr_min] best0]. injection Hrun as <- <- <- <-.
    exists []. rewrite app_nil_r. split; [done|]. split; [done|]. by intros r Hr%elem_of_nil.
  - apply bind_Ok in Hrun as ([board1 g1] & Hfill & Hrun).
    apply bind_Ok in Hrun as ([[[sc it] board2] g2] & Hclimb & Hrun).
    unfold _climb in Hclimb. apply bind_Ok in Hclimb as (start & Hstart & Hloop).
    apply climb_loop_result in Hloop as (Hev & _); [|done..].
    simpl in Hrun. case_bool_decide as Hz.
    + injection Hrun as <- <- <- <-. subst sc. left. exists [], it, board2.
      split; [done|]. split; [done|]. split; [done|]. split; [done|].
      split; [simpl; lia|]. by intros r Hr%elem_of_nil.
    + apply bind_Ok in Hrun as (board0 & Hreset & Hrun).
      assert (∀ seen r, r ∈ mkResult (Fin sc) (Fin it) :: seen →
                (∀ r, r ∈ seen → score r ≠ Fin 0) → score r ≠ Fin 0) as Hcons.
      { intros seen r Hr Hseen. apply elem_of_cons in Hr as [->|Hr]; [|by apply Hseen].
        simpl. congruence. }
      apply IH in Hrun as [(seen & it' & bd & -> & -> & -> & Hbd & Hlen & Hseen)
                          |(seen & -> & Hlen & Hseen)].
      * left. exists (mkResult (Fin sc) (Fin it) :: seen), it', bd.
        split; [by rewrite <- !(assoc_L (++))|]. split; [done|]. split; [done|].
        split; [done|]. split; [simpl; lia|]. intros r Hr. by eapply Hcons.
      * right. exists (mkResult (Fin sc) (Fin it) :: seen).
        split; [by rewrite <- !(assoc_L (++))|]. split; [simpl; lia|].
        intros r Hr. by eapply Hcons.
Qed.

End EarlyExit.

(** ** [HillClimbing] from the puzzle to the solution it returns *)

Lemma check_unique_valid (size : nat) (area : list Z) :
  valid_area size area → _check_unique area = true.
Proof.
  intros Hv. apply check_unique_permutation.
  by rewrite (valid_area_length _ _ Hv).
Qed.

Lemma count_mistakes_in_bound (areas : list (list Z)) :
  (count_mistakes_in areas ≤ length areas)%nat.
Proof. unfold count_mistakes_in. apply length_filter. Qed.

Lemma count_mistakes_in_valid (size : nat) (areas : list (list Z)) :
  Forall (valid_area size) areas → count_mistakes_in areas = 0%nat.
Proof.
  intros Hall. unfold count_mistakes_in.
  induction Hall as [|a areas Ha _ IH]; [done|].
  rewrite filter_cons_False; [done|]. by rewrite (check_unique_valid _ _ Ha).
Qed.

(** [check] on a well-formed board of positive size returns; the count is
    at most the 3*size areas, and at most the 2*size columns and squares
    when every row is a permutation of 1..size. *)
Lemma check_bounds (b : Board) :
  well_formed b → (0 < _size b)%nat →
  ∃ mistakes ratio,
    check b = Ok (mistakes, ratio)
    ∧ (mistakes ≤ 3 * _size b)%nat
    ∧ (rows_valid b → (mistakes ≤ 2 * _size b)%nat)
    ∧ (0 <= ratio)%Q ∧ (ratio <= 1)%Q.
Proof.
  intros Hwf Hpos. pose proof Hwf as [[Hlen Hrows] Hsq].
  destruct (columns_of_shaped _ _ (conj Hlen Hrows)) as (cols & Hcols & Hclen & _).
  destruct (squares_lengths _ Hwf) as [Hqlen _].
  pose proof (count_mistakes_in_bound (_board b)) as Hr.
  pose proof (count_mistakes_in_bound cols) as Hc.
  pose proof (count_mistakes_in_bound (squares b)) as Hq.
  unfold check. rewrite Hcols. simpl. rewrite bool_decide_eq_false_2 by lia.
  eexists _, _. split; [done|]. split; [lia|]. split.
  { intros Hvalid. rewrite (count_mistakes_in_valid (_size b) (_board b)) by done. lia. }
  split.
  - unfold Qle. simpl. lia.
  - unfold Qle. cbn [Qnum Qden]. rewrite Z.mul_1_r, Z.mul_1_l.
    rewrite <- positive_nat_Z, Nat2Pos.id by lia. lia.
Qed.

Lemma count_mistakes_in_zero (size : nat) (areas : list (list Z)) :
  Forall (λ a, length a = size) areas → count_mistakes_in areas = 0%nat →
  Forall (valid_area size) areas.
Proof.
  intros Hlen Hzero. rewrite (count_mistakes_in_spec size) in Hzero by done.
  apply length_zero_iff_nil in Hzero. apply Forall_forall. intros a Ha.
  destruct (decide (valid_area size a)) as [|Hbad]; [done|].
  exfalso. eapply filter_nil_not_elem_of; [exact Hzero| |exact Ha]. done.
Qed.

(** No mistake counted: the board is a solution. *)
Lemma count_mistakes_zero (b : Board) :
  well_formed b → _count_mistakes b = Ok 0 → all_areas_valid b.
Proof.
  intros Hwf Hzero. pose proof Hwf as [[Hlen Hrows] Hsq].
  destruct (columns_of_shaped _ _ (conj Hlen Hrows)) as (cols & Hcols & _ & Hcrows & _).
  destruct (squares_lengths _ Hwf) as [_ Hqrows].
  exists cols. split; [done|].
  unfold _count_mistakes, check in Hzero. rewrite Hcols in Hzero. simpl in Hzero.
  case_bool_decide; [done|]. simpl in Hzero. injection Hzero as Hzero.
  rewrite !Forall_app. split; [|split]; apply count_mistakes_in_zero; try done; lia.
Qed.

Lemma consistent_reset (b : Board) (init : matrix) :
  consistent b init → consistent (with_board b init) init.
Proof.
  intros (Hl & Hs & Hk & Hkeys & Hd). pose proof Hl as [Hi Hsi].
  split; [done|]. split; [done|]. split; [|by split]. by intros y x v Hv _.
Qed.


(** ** The row operators of [CustomBetaHC] *)

Lemma given_tiles_clear (i : nat) (line : list Z) :
  given_tiles (<[i := 0]> line) `sublist_of` given_tiles line.
Proof.
  revert i. induction line as [|a line IH]; intros i; [done|].
  unfold given_tiles in *. destruct i as [|i]; simpl.
  - rewrite filter_cons_False by (by intros ?).
    rewrite filter_cons. case_decide; [by apply sublist_cons|done].
  - rewrite !filter_cons. case_decide; [by apply sublist_skip|apply IH].
Qed.

(** Clearing listed places of a line. *)
Lemma clear_run (blanks : list nat) :
  ∀ line : list Z,
    (∀ i, i ∈ blanks → (i < length line)%nat) →
    ∃ cleared,
      for_each (λ line index, np_set1 line (Z.of_nat index) 0) blanks line = Ok cleared
      ∧ length cleared = length line
      ∧ (∀ x, x ∉ blanks → cleared !! x = line !! x)
      ∧ given_tiles cleared `sublist_of` given_tiles line.
Proof.
  induction blanks as [|i blanks IH]; intros line Hrange.
  - by exists line.
  - destruct (IH (<[i := 0]> line)) as (cleared & Hloop & Hlen & Hout & Hsub).
    { intros j Hj. rewrite length_insert. apply Hrange. by right. }
    exists cleared. split.
    { simpl for_each. unfold np_set1.
      rewrite np_index_nat by (apply Hrange; by left). simpl. exact Hloop. }
    split; [by rewrite Hlen, length_insert|]. split.
    + intros x Hx. apply not_elem_of_cons in Hx as [Hne Hx].
      rewrite Hout by done. by rewrite list_lookup_insert_ne.
    + etrans; [exact Hsub|]. apply given_tiles_clear.
Qed.

Lemma valid_area_elem (size : nat) (area : list Z) (v : Z) :
  valid_area size area → v ∈ area → 1 ≤ v ≤ Z.of_nat size.
Proof.
  intros Hperm Hv. rewrite Hperm in Hv. apply elem_of_seqZ in Hv. lia.
Qed.

(** A valid row with some places cleared can be filled again. *)
Lemma cleared_fillable (size : nat) (line cleared : list Z) :
  valid_area size line → length cleared = length line →
  given_tiles cleared `sublist_of` given_tiles line →
  fillable size cleared.
Proof.
  intros Hvalid Hlen Hsub. split; [by rewrite Hlen; eapply valid_area_length|].
  assert (NoDup line) as Hnd.
  { unfold valid_area in Hvalid. rewrite Hvalid. apply NoDup_seqZ. }
  split.
  - eapply sublist_NoDup; [|exact Hsub]. by apply NoDup_filter.
  - intros v Hv. eapply elem_of_sublist in Hv; [|exact Hsub].
    apply list_elem_of_filter in Hv as [_ Hv]. by eapply valid_area_elem.
Qed.

Lemma rearranged_refl (d : dict) (m : matrix) :
  (∀ y blanks, (y, blanks) ∈ d → (y < length m)%nat) → rearranged d m m.
Proof.
  intros Hrows. split; [done|]. split; [done|]. intros y blanks Hin.
  destruct (lookup_lt_is_Some_2 m y (Hrows _ _ Hin)) as [o Ho]. by exists o, o.
Qed.

Lemma rearranged_trans (d : dict) (m1 m2 m3 : matrix) :
  rearranged d m1 m2 → rearranged d m2 m3 → rearranged d m1 m3.
Proof.
  intros (Hl1 & Ho1 & Hi1) (Hl2 & Ho2 & Hi2). split; [congruence|]. split.
  - intros y Hy. by rewrite Ho2, Ho1.
  - intros y blanks Hin.
    destruct (Hi1 _ _ Hin) as (o & n & Ho & Hn & Hperm & Hsame).
    destruct (Hi2 _ _ Hin) as (o' & n' & Ho' & Hn' & Hperm' & Hsame').
    rewrite Hn in Ho'. injection Ho' as <-.
    exists o, n'. split; [done|]. split; [done|]. split; [by etrans|].
    intros x Hx. by rewrite Hsame', Hsame.
Qed.

(** A rearrangement of a consistent board is consistent, and keeps its
    rows valid. *)
Lemma rearranged_consistent (b : Board) (init m : matrix) :
  consistent b init → rearranged (_unfilled b) (_board b) m →
  consistent (with_board b m) init ∧ (rows_valid b → rows_valid (with_board b m)).
Proof.
  intros (Hl & [Hlen Hrows] & Hkeep & Hkeys & Hd) (Hmlen & Hout & Hin).
  assert (∀ y n, m !! y = Some n →
            ∃ o, _board b !! y = Some o ∧ n ≡ₚ o
                 ∧ ∀ x v, cell init y x = Some v → v ≠ 0 → n !! x = o !! x) as Hrow.
  { intros y n Hn. destruct (decide (y ∈ (_unfilled b).*1)) as [Hy|Hy].
    - apply list_elem_of_fmap in Hy as ([y' blanks] & -> & Hy). simpl in *.
      destruct (Hin _ _ Hy) as (o & n' & Ho & Hn' & Hperm & Hsame).
      rewrite Hn in Hn'. injection Hn' as <-. exists o. split; [done|]. split; [done|].
      intros x v Hv Hv0. apply Hsame. intros Hx.
      destruct (Hd _ _ Hy) as (_ & _ & Hzero). rewrite (Hzero _ Hx) in Hv. congruence.
    - exists n. rewrite <- Hout by done. done. }
  split.
  - split; [done|]. split.
    { split; simpl; [congruence|]. apply Forall_forall. intros n Hn.
      apply list_elem_of_lookup in Hn as [y Hy].
      destruct (Hrow _ _ Hy) as (o & Ho & Hperm & _).
      rewrite (Permutation_length Hperm). rewrite Forall_lookup in Hrows. eauto. }
    split; [|done]. intros y x v Hv Hv0. simpl.
    pose proof (Hkeep _ _ _ Hv Hv0) as Hb. unfold cell in Hb |- *.
    destruct (_board b !! y) as [o|] eqn:Ho; [|done]. simpl in Hb.
    destruct (lookup_lt_is_Some_2 m y) as [n Hn].
    { rewrite Hmlen. by eapply lookup_lt_Some. }
    rewrite Hn. simpl. destruct (Hrow _ _ Hn) as (o' & Ho' & _ & Hsame).
    rewrite Ho in Ho'. injection Ho' as <-. rewrite (Hsame x v); done.
  - unfold rows_valid. simpl. intros Hvalid. apply Forall_forall. intros n Hn.
    apply list_elem_of_lookup in Hn as [y Hy].
    destruct (Hrow _ _ Hy) as (o & Ho & Hperm & _).
    unfold valid_area. rewrite Hperm. rewrite Forall_lookup in Hvalid. by eapply Hvalid.
Qed.

Lemma consistent_rows (b : Board) (init : matrix) (row : nat) (blanks : list nat) :
  consistent b init → (row, blanks) ∈ _unfilled b →
  (row < _size b)%nat ∧ NoDup blanks ∧ (2 ≤ length blanks)%nat
  ∧ (∀ i, i ∈ blanks → (i < _size b)%nat)
  ∧ dict_get row (_unfilled b) = Some blanks.
Proof.
  intros ([_ Hs] & _ & _ & Hkeys & Hd) Hin.
  destruct (Hd _ _ Hin) as (Hnd & Hlen & Hzero).
  assert ((row < _size b)%nat ∧ ∀ i, i ∈ blanks → (i < _size b)%nat) as [Hrow Hcols].
  { destruct blanks as [|i0 blanks]; [simpl in Hlen; lia|].
    destruct (cell_bounds _ _ _ _ _ Hs (Hzero i0 ltac:(by left))) as [Hrow _].
    split; [done|]. intros i Hi. by destruct (cell_bounds _ _ _ _ _ Hs (Hzero i Hi)). }
  do 4 (split; [done|]). by apply dict_get_elem.
Qed.

(** One listed row replaced by a permutation of it that differs at its
    listed blanks only: a rearrangement, also after a rearrangement of
    the rows that follow in the dictionary. *)
Lemma rearranged_cons (row : nat) (blanks : list nat) (d : dict)
    (m m' : matrix) (old new : list Z) :
  row ∉ d.*1 → m !! row = Some old → new ≡ₚ old →
  (∀ x, x ∉ blanks → new !! x = old !! x) →
  rearranged d (<[row := new]> m) m' →
  rearranged ((row, blanks) :: d) m m'.
Proof.
  intros Hrow Hold Hperm Hsame (Hlen & Hout & Hin).
  pose proof (lookup_lt_Some _ _ _ Hold) as Hlt.
  split; [by rewrite Hlen, length_insert|]. split.
  - intros y Hy. simpl in Hy. apply not_elem_of_cons in Hy as [Hne Hy].
    rewrite Hout by done. by rewrite list_lookup_insert_ne.
  - intros y bl [[= -> ->]|Hy]%elem_of_cons.
    + exists old, new. split; [done|]. split; [|done].
      rewrite Hout by done. by rewrite list_lookup_insert_eq.
    + destruct (Hin _ _ Hy) as (o & n & Ho & Hn & Hp & Hs).
      exists o, n. split; [|done].
      rewrite list_lookup_insert_ne in Ho; [done|].
      intros <-. apply Hrow. apply list_elem_of_fmap. by exists (row, bl).
Qed.

Lemma rearranged_skip (row : nat) (blanks : list nat) (d : dict) (m m' : matrix) :
  row ∉ d.*1 → (row < length m)%nat →
  rearranged d m m' → rearranged ((row, blanks) :: d) m m'.
Proof.
  intros Hrow Hlt Hre. destruct (lookup_lt_is_Some_2 m row Hlt) as [old Hold].
  apply (rearranged_cons _ _ _ _ _ old old); [done..|].
  by rewrite list_insert_id.
Qed.

Section CustomOperators.
Context {G : Type} `{RandomSource G} `{ShuffleSource G}.

(** The loop of the row-level n-operator for a valid probability. *)
Lemma Custom_loop_run (size : nat) (n_prob : Q) (unfilled d : dict) :
  (0 <= n_prob ∧ n_prob <= 1)%Q →
  NoDup d.*1 →
  (∀ row blanks, (row, blanks) ∈ d →
     dict_get row unfilled = Some blanks ∧ NoDup blanks ∧ (2 ≤ length blanks)%nat
     ∧ (row < size)%nat ∧ ∀ i, i ∈ blanks → (i < size)%nat) →
  ∀ (vals : matrix) (g : G),
    shaped size vals →
    ∃ vals' g',
      for_each (λ '(vals, g) '(row, _),
                  '(hit, g) ← _with_probability n_prob g;
                  if hit : bool then
                    line ← np_row vals (Z.of_nat row);
                    '(line, g) ← _swap_in_line line (default [] (dict_get row unfilled)) g;
                    vals ← np_set_row vals (Z.of_nat row) line;
                    Ok (vals, g)
                  else Ok (vals, g))
               d (vals, g) = Ok (vals', g')
      ∧ rearranged d vals vals'.
Proof.
  intros Hprob. induction d as [|[row blanks] d IH]; intros Hkeys Hd vals g Hshape.
  - exists vals, g. split; [done|]. apply rearranged_refl.
    intros y blanks Hin. by apply elem_of_nil in Hin.
  - simpl in Hkeys. apply NoDup_cons in Hkeys as [Hrow Hkeys].
    destruct (Hd row blanks) as (Hget & Hnd & Hlen & Hrlt & Hblt); [by left|].
    pose proof Hshape as [Hvlen Hvrows].
    destruct (lookup_lt_is_Some_2 vals row ltac:(lia)) as [old Hold].
    pose proof (shaped_row _ _ _ _ Hshape Hold) as Holdlen.
    simpl for_each. rewrite (with_probability_valid _ _ Hprob). simpl.
    destruct (Qle_bool (random g).1 n_prob).
    + destruct (swap_in_line_exchanges old blanks (random g).2 Hnd Hlen)
        as (i & j & line' & g1 & Hswap & Hij & Hi & Hj & Hex).
      { intros k Hk. rewrite Holdlen. auto. }
      assert (shaped size (<[row := line']> vals)) as Hshape1.
      { split; [by rewrite length_insert|]. apply Forall_insert; [done|].
        by rewrite (exchanged_length _ _ _ _ Hex). }
      destruct (IH Hkeys (λ r bl Hin, Hd r bl (list_elem_of_further _ _ _ Hin))
                   (<[row := line']> vals) g1 Hshape1)
        as (vals' & g' & Hloop & Hre).
      exists vals', g'. split.
      { unfold np_row. rewrite np_index_nat by lia. simpl. rewrite Hold. simpl.
        rewrite Hget. simpl. rewrite Hswap. simpl.
        unfold np_set_row. rewrite np_index_nat by lia. simpl. exact Hloop. }
      apply (rearranged_cons _ _ _ _ _ old line'); [done|done| | |done].
      * by eapply exchanged_Permutation.
      * intros x Hx. apply (exchanged_other _ _ _ _ _ Hex); by intros ->.
    + destruct (IH Hkeys (λ r bl Hin, Hd r bl (list_elem_of_further _ _ _ Hin))
                   vals (random g).2 Hshape)
        as (vals' & g' & Hloop & Hre).
      exists vals', g'. split; [done|]. apply rearranged_skip; [done|lia|done].
Qed.

(** [CustomBetaHC._neighbouring_operator] with a valid probability on a
    consistent board returns a rearrangement of the board. *)
Lemma Custom_neighbouring_operator_run (n_prob : Q) (board : Board) (init : matrix) (g : G) :
  (0 <= n_prob ∧ n_prob <= 1)%Q → consistent board init →
  ∃ b' g',
    Custom_neighbouring_operator n_prob board g = Ok (b', g')
    ∧ b' = with_board board (_board b')
    ∧ rearranged (_unfilled board) (_board board) (_board b')
    ∧ consistent b' init ∧ (rows_valid board → rows_valid b').
Proof.
  intros Hprob Hc. pose proof Hc as (Hl & Hshape & Hkeep & Hkeys & Hd).
  destruct (Custom_loop_run (_size board) n_prob (_unfilled board) (_unfilled board)
              Hprob Hkeys) with (vals := _board board) (g := g)
    as (vals' & g' & Hloop & Hre); [|done|].
  { intros row blanks Hin.
    destruct (consistent_rows _ _ _ _ Hc Hin) as (? & ? & ? & ? & ?). done. }
  destruct (rearranged_consistent _ _ _ Hc Hre) as [Hc' Hvalid].
  exists (with_board board vals'), g'. split.
  { unfold Custom_neighbouring_operator, unfilled_by_row, values. rewrite Hloop. simpl.
    destruct Hc' as (_ & Hs' & Hk' & _).
    by rewrite (fill_board_accepts _ init). }
  done.
Qed.

(** The loop of the row-level β-operator on a board with valid rows. *)
Lemma Custom_beta_loop_run (beta_prob : Q) (board0 : Board) (init : matrix) (d : dict) :
  (0 <= beta_prob ∧ beta_prob <= 1)%Q →
  NoDup d.*1 →
  (∀ row blanks, (row, blanks) ∈ d → (row, blanks) ∈ _unfilled board0) →
  ∀ (board : Board) (g : G),
    board = with_board board0 (_board board) →
    consistent board init → rows_valid board →
    ∃ b' g',
      for_each (λ '(board, g) '(row, _),
                  '(hit, g) ← _with_probability beta_prob g;
                  if hit : bool then
                    line ← np_row (values board) (Z.of_nat row);
                    line ← for_each (λ line index, np_set1 line (Z.of_nat index) 0)
                                    (default [] (dict_get row (_unfilled board0))) line;
                    '(filled, g) ← _fill_line_unique (_size board0) line g;
                    '(_, board) ← fill_line board (Z.of_nat row) filled;
                    Ok (board, g)
                  else Ok (board, g))
               d (board, g) = Ok (b', g')
      ∧ b' = with_board board0 (_board b')
      ∧ consistent b' init ∧ rows_valid b'
      ∧ rearranged d (_board board) (_board b').
Proof.
  intros Hprob. induction d as [|[row blanks] d IH]; intros Hkeys Hd board g Hb Hc Hvalid.
  - exists board, g. do 4 (split; [done|]). apply rearranged_refl.
    intros y blanks Hin. by apply elem_of_nil in Hin.
  - simpl in Hkeys. apply NoDup_cons in Hkeys as [Hrow Hkeys].
    assert ((row, blanks) ∈ _unfilled board) as Hin.
    { rewrite Hb. simpl. apply Hd. by left. }
    destruct (consistent_rows _ _ _ _ Hc Hin) as (Hrlt & Hnd & Hlen & Hblt & Hget).
    pose proof Hc as (Hl & [Hvlen Hvrows] & Hkeep & _ & Hzero).
    assert (_size board = _size board0) as Hsize by (by rewrite Hb).
    assert (_unfilled board = _unfilled board0) as Hunf by (by rewrite Hb).
    destruct (lookup_lt_is_Some_2 (_board board) row ltac:(lia)) as [old Hold].
    assert (valid_area (_size board) old) as Hvold.
    { unfold rows_valid in Hvalid. rewrite Forall_lookup in Hvalid. by eapply Hvalid. }
    pose proof (valid_area_length _ _ Hvold) as Holdlen.
    simpl for_each. rewrite (with_probability_valid _ _ Hprob). simpl.
    destruct (Qle_bool (random g).1 beta_prob).
    + destruct (clear_run blanks old) as (cleared & Hclear & Hclen & Hcout & Hcsub).
      { intros i Hi. rewrite Holdlen. auto. }
      destruct (fill_line_unique_run (_size board) cleared (random g).2)
        as (filled & g1 & Hfill & Hvfilled & Hflen & Hfkeep).
      { by apply (cleared_fillable _ old). }
      assert (∀ x, x ∉ blanks → filled !! x = old !! x) as Hsame.
      { intros x Hx. destruct (old !! x) as [v|] eqn:Hv.
        - apply Hfkeep; [by rewrite Hcout|].
          pose proof (valid_area_elem _ _ v Hvold (list_elem_of_lookup_2 _ _ _ Hv)). lia.
        - apply lookup_ge_None. apply lookup_ge_None in Hv. lia. }
      assert (filled ≡ₚ old) as Hperm.
      { unfold valid_area in *. by rewrite Hvfilled, Hvold. }
      destruct (replace_row_consistent board init row old filled Hc Hold Hperm)
        as [Hc1 Hvalid1].
      { intros x v Hv Hv0. rewrite Hsame.
        - specialize (Hkeep _ _ _ Hv Hv0). unfold cell in Hkeep. by rewrite Hold in Hkeep.
        - intros Hx. destruct (Hzero _ _ Hin) as (_ & _ & Hz).
          rewrite (Hz _ Hx) in Hv. congruence. }
      destruct (IH Hkeys (λ r bl Hin, Hd r bl (list_elem_of_further _ _ _ Hin))
                   (with_board board (<[row := filled]> (_board board))) g1)
        as (b' & g' & Hloop & Hb' & Hc' & Hvalid' & Hre); [|done|by auto|].
      { rewrite Hb at 1. done. }
      exists b', g'. split.
      { unfold values, np_row. rewrite np_index_nat by lia. simpl. rewrite Hold. simpl.
        rewrite Hunf in Hget. rewrite Hget. simpl. rewrite Hclear. simpl.
        rewrite Hsize in Hfill. rewrite Hfill. simpl.
        rewrite (fill_line_accepts _ init); [exact Hloop|done|done|lia|lia|].
        intros x v Hv Hv0. rewrite Hsame.
        - specialize (Hkeep _ _ _ Hv Hv0). unfold cell in Hkeep. by rewrite Hold in Hkeep.
        - intros Hx. destruct (Hzero _ _ Hin) as (_ & _ & Hz).
          rewrite (Hz _ Hx) in Hv. congruence. }
      do 3 (split; [done|]).
      by apply (rearranged_cons _ _ _ _ _ old filled).
    + destruct (IH Hkeys (λ r bl Hin, Hd r bl (list_elem_of_further _ _ _ Hin))
                   board (random g).2 Hb Hc Hvalid)
        as (b' & g' & Hloop & Hb' & Hc' & Hvalid' & Hre).
      exists b', g'. do 4 (split; [done|]). apply rearranged_skip; [done|lia|done].
Qed.

End CustomOperators.

(** ** The row solvers from the puzzle to the solution they return *)

Section RowSolverRun.
Context {G : Type} `{RandomSource G} `{ShuffleSource G}.

(** A solver that fills with [_fill_board_unique], scores with
    [_count_mistakes], and whose step keeps a consistent board with valid
    rows in that state: [try_solve] returns, and when a row is eligible
    and a restart runs, the board it returns is such a board and the
    score is its number of mistakes. *)
Lemma row_solver_run (M : @Methods G) (s : Solver) (board : Board) (init : matrix) (g : G) :
  (∀ b g, _fill M b g = _fill_board_unique (_size board) b g) →
  (∀ b, _eval M b = _count_mistakes b) →
  (∀ b g, b = with_board board (_board b) → consistent b init → rows_valid b →
          unfilled_by_row board ≠ [] →
          ∃ b' g', _step M b g = Ok (b', g') ∧ b' = with_board board (_board b')
                   ∧ consistent b' init ∧ rows_valid b') →
  solver_board s = Some board →
  consistent board init → Forall (fillable (_size board)) init →
  _size board = (_size_sq board * _size_sq board)%nat → (0 < _size board)%nat →
  ∃ sol s' g',
    try_solve M s g = Ok (sol, s', g')
    ∧ (unfilled_by_row board ≠ [] → (1 ≤ _max_restarts s)%nat →
       ∃ sc it bd,
         sol_result sol = mkResult (Fin sc) (Fin it) ∧ sol_board sol = Some bd
         ∧ consistent bd init ∧ rows_valid bd
         ∧ _count_mistakes bd = Ok sc
         ∧ 0 ≤ sc ≤ 2 * Z.of_nat (_size board)
         ∧ 0 ≤ it ≤ Z.of_nat (_max_iter s)
         ∧ (sc = 0 → all_areas_valid bd)).
Proof.
  intros HMfill HMeval HMstep Hboard Hc Hfillable Hsq Hpos.
  pose proof Hc as ([Hi Hsi] & _).
  set (Pre := λ b : Board, b = with_board board init ∧ unfilled_by_row board ≠ []).
  set (Inv := λ b : Board,
         b = with_board board (_board b) ∧ consistent b init ∧ rows_valid b
         ∧ unfilled_by_row board ≠ []).
  assert (∀ b, Inv b → ∃ mistakes,
            _count_mistakes b = Ok (Z.of_nat mistakes)
            ∧ (mistakes ≤ 2 * _size board)%nat) as Heval.
  { intros b (Hb & Hcb & Hvalid & _).
    destruct (check_bounds b) as (m & q & Hcheck & _ & Hm & _).
    - destruct Hcb as (_ & Hs & _). split; [done|]. by rewrite Hb.
    - by rewrite Hb.
    - exists m. unfold _count_mistakes. rewrite Hcheck. simpl. split; [done|].
      specialize (Hm Hvalid). rewrite Hb in Hm. done. }
  destruct (try_solve_total M Pre Inv s board g)
    as (sol & s' & g' & Hrun & Hinv).
  - intros b g0 [-> Hne]. rewrite HMfill.
    destruct (fill_board_unique_run (with_board board init) init g0)
      as (b' & g1 & Hrun & Hb' & Hcb' & Hvalid & _);
      [by apply consistent_reset|done|].
    exists b', g1. split; [done|]. split; [|done].
    rewrite Hb' at 1. done.
  - intros b g0 (Hb & Hcb & Hvalid & Hne).
    destruct (HMstep b g0 Hb Hcb Hvalid Hne) as (b' & g1 & Hstep & Hb' & Hcb' & Hvalid').
    by exists b', g1.
  - intros b Hb. destruct (Heval b Hb) as (m & Hm & _). exists (Z.of_nat m).
    by rewrite HMeval.
  - intros b (Hb & Hcb & _ & Hne). exists (with_board b init). split.
    + unfold reset. destruct Hcb as ([-> _] & _). done.
    + split; [|done]. rewrite Hb. done.
  - done.
  - exists (with_board board init). split; [by unfold reset; rewrite Hi|done].
  - exists sol, s', g'. split; [done|]. intros Hne HR.
    destruct (try_solve_evaluated M s s' board g g' sol Hboard Hne HR Hrun)
      as (sc & it & bd & Hres & Hbd & _ & Hev & Hit).
    destruct (Hinv Hne bd Hbd) as (Hb & Hcb & Hvalid & _).
    rewrite HMeval in Hev.
    exists sc, it, bd. do 4 (split; [done|]). split; [done|]. split; [|split; [done|]].
    + destruct (Heval bd (conj Hb (conj Hcb (conj Hvalid Hne)))) as (m & Hm & Hle).
      rewrite Hm in Hev. injection Hev as <-. lia.
    + intros ->. apply count_mistakes_zero; [|done].
      destruct Hcb as (_ & Hs & _). split; [done|]. by rewrite Hb.
Qed.

End RowSolverRun.

Section CustomStep.
Context {G : Type} `{RandomSource G} `{ShuffleSource G}.

(** [CustomBetaHC._beta_operator] with a valid probability on a
    consistent board with valid rows returns a rearrangement of it. *)
Lemma Custom_beta_operator_run (beta_prob : Q) (board : Board) (init : matrix) (g : G) :
  (0 <= beta_prob ∧ beta_prob <= 1)%Q → consistent board init → rows_valid board →
  ∃ b' g',
    Custom_beta_operator (_size board) beta_prob board g = Ok (b', g')
    ∧ b' = with_board board (_board b')
    ∧ rearranged (_unfilled board) (_board board) (_board b')
    ∧ consistent b' init ∧ rows_valid b'.
Proof.
  intros Hprob Hc Hvalid. pose proof Hc as (_ & _ & _ & Hkeys & _).
  destruct (Custom_beta_loop_run beta_prob board init (_unfilled board) Hprob Hkeys
              ltac:(done) board g) as (b' & g' & Hloop & Hb' & Hc' & Hvalid' & Hre);
    [by destruct board|done|done|].
  exists b', g'. split; [exact Hloop|done].
Qed.

(** One step of [CustomBetaHC]: the n-operator, then the β-operator. *)
Lemma CustomBetaHC_step_run (n_prob beta_prob : Q) (board : Board) (init : matrix) (g : G) :
  (0 <= n_prob ∧ n_prob <= 1)%Q → (0 <= beta_prob ∧ beta_prob <= 1)%Q →
  consistent board init → rows_valid board →
  ∃ b' g',
    CustomBetaHC_step (_size board) n_prob beta_prob board g = Ok (b', g')
    ∧ b' = with_board board (_board b')
    ∧ rearranged (_unfilled board) (_board board) (_board b')
    ∧ consistent b' init ∧ rows_valid b'.
Proof.
  intros Hn Hbeta Hc Hvalid.
  destruct (Custom_neighbouring_operator_run n_prob board init g Hn Hc)
    as (b1 & g1 & Hop1 & Hb1 & Hre1 & Hc1 & Hvalid1).
  destruct (Custom_beta_operator_run beta_prob b1 init g1 Hbeta Hc1 (Hvalid1 Hvalid))
    as (b2 & g2 & Hop2 & Hb2 & Hre2 & Hc2 & Hvalid2).
  assert (_size b1 = _size board ∧ _unfilled b1 = _unfilled board) as [Hs Hu].
  { by rewrite Hb1. }
  rewrite Hs in Hop2. rewrite Hu in Hre2.
  exists b2, g2. split.
  { unfold CustomBetaHC_step. rewrite Hop1. simpl. exact Hop2. }
  split; [by rewrite Hb2, Hb1 at 1|].
  split; [by eapply rearranged_trans|done].
Qed.

End CustomStep.

(** ** The random fill and the tile operators of [PaperBetaHC] *)

(** [set] on a blank of the puzzle writes the tile. *)
Lemma set_blank (b : Board) (init : matrix) (pos : Pos) (val : Z) :
  loaded b init → shaped (_size b) (_board b) →
  0 ≤ pos_x pos < Z.of_nat (_size b) → 0 ≤ pos_y pos < Z.of_nat (_size b) →
  cell init (Z.to_nat (pos_y pos)) (Z.to_nat (pos_x pos)) = Some 0 →
  ∃ m,
    set b pos val = Ok (true, with_board b m)
    ∧ shaped (_size b) m
    ∧ cell m (Z.to_nat (pos_y pos)) (Z.to_nat (pos_x pos)) = Some val
    ∧ ∀ y x, (y, x) ≠ (Z.to_nat (pos_y pos), Z.to_nat (pos_x pos)) →
             cell m y x = cell (_board b) y x.
Proof.
  intros Hl Hs Hx Hy Hzero.
  destruct (np_set_in_range _ _ _ _ val Hs Hy Hx) as (m & Hset).
  destruct (np_set_result _ _ _ _ _ (proj1 Hy) (proj1 Hx) Hset) as (Hnew & Hother & Hshape).
  exists m. split; [|by auto].
  unfold set. rewrite (proj2 (is_valid_true b pos)) by done. simpl.
  rewrite (is_initial_loaded _ _ _ Hl).
  rewrite bool_decide_eq_false_2; [by simpl; rewrite Hset|].
  intros (_ & _ & _ & Hne). done.
Qed.

Lemma sum_eval_tiles_nonneg (areas : list (list Z)) :
  0 ≤ foldr Z.add 0 (_eval_tiles <$> areas).
Proof.
  induction areas as [|a areas IH]; [done|].
  rewrite fmap_cons. simpl foldr. unfold _eval_tiles at 1. lia.
Qed.

(** [_objective] returns on a square board, and never a negative score. *)
Lemma objective_run (b : Board) :
  shaped (_size b) (_board b) → ∃ sc, _objective (_size b) b = Ok sc ∧ 0 ≤ sc.
Proof.
  intros Hs. destruct (columns_of_shaped _ _ Hs) as (cols & Hcols & _).
  unfold _objective, values. rewrite Hcols. simpl. eexists. split; [done|].
  pose proof (sum_eval_tiles_nonneg (_board b)).
  pose proof (sum_eval_tiles_nonneg cols).
  pose proof (sum_eval_tiles_nonneg (squares b)). lia.
Qed.

Section PaperOperators.
Context {G : Type} `{RandomSource G}.

(** The loop of [_fill_board_random] over a list of positions. *)
Lemma fill_board_random_loop (init : matrix) (size : nat) (ps : list Pos) :
  (∀ pos, pos ∈ ps → 0 ≤ pos_x pos < Z.of_nat size ∧ 0 ≤ pos_y pos < Z.of_nat size) →
  ∀ (board : Board) (g : G),
    loaded board init → _size board = size → shaped size (_board board) →
    ∃ b' g',
      for_each (λ '(board, g) p,
                  initial ← is_initial board p;
                  if initial : bool then Ok (board, g)
                  else
                    '(new_val, g) ← _generate_fill_number size g;
                    '(_, board) ← set board p new_val;
                    Ok (board, g))
               ps (board, g) = Ok (b', g')
      ∧ b' = with_board board (_board b')
      ∧ shaped size (_board b')
      ∧ (∀ y x, cell init y x ≠ Some 0 → cell (_board b') y x = cell (_board board) y x)
      ∧ (∀ y x, mkPos (Z.of_nat x) (Z.of_nat y) ∉ ps →
                cell (_board b') y x = cell (_board board) y x)
      ∧ (∀ y x, mkPos (Z.of_nat x) (Z.of_nat y) ∈ ps → cell init y x = Some 0 →
                ∃ v, cell (_board b') y x = Some v ∧ 1 ≤ v ≤ Z.of_nat size).
Proof.
  induction ps as [|pos ps IH]; intros Hrange board g Hl Hsize Hshape.
  - exists board, g. split; [done|]. split; [by destruct board|]. split; [done|].
    split; [done|]. split; [done|]. intros y x Hin. by apply elem_of_nil in Hin.
  - destruct (Hrange pos) as [Hx Hy]; [by left|].
    assert (∀ p, p ∈ ps →
              0 ≤ pos_x p < Z.of_nat size ∧ 0 ≤ pos_y p < Z.of_nat size) as Hrange'.
    { intros p Hp. apply Hrange. by right. }
    simpl for_each. rewrite (is_initial_loaded _ _ _ Hl).
    case_bool_decide as Hinit; simpl.
    + destruct (IH Hrange' board g Hl Hsize Hshape)
        as (b' & g' & Hloop & Hb' & Hshape' & Hkeep & Hout & Hfilled).
      exists b', g'. do 4 (split; [done|]). split.
      { intros y x Hnin. apply not_elem_of_cons in Hnin as [_ Hnin]. by apply Hout. }
      intros y x [Heq|Hin]%elem_of_cons Hzero; [|by apply Hfilled].
      exfalso. destruct Hinit as (_ & _ & _ & Hne). apply Hne.
      rewrite <- Heq. simpl. by rewrite !Nat2Z.id.
    + assert (cell init (Z.to_nat (pos_y pos)) (Z.to_nat (pos_x pos)) = Some 0) as Hzero.
      { destruct Hl as [_ Hs]. rewrite Hsize in Hs.
        destruct (shaped_cell _ _ (Z.to_nat (pos_y pos)) (Z.to_nat (pos_x pos)) Hs)
          as [v Hv]; [lia..|].
        destruct (decide (v = 0)) as [->|Hne]; [done|]. exfalso. apply Hinit.
        split; [lia|]. split; [lia|]. rewrite Hv. split; congruence. }
      destruct (randint_range 1 (Z.of_nat size) g ltac:(lia)) as (v & g1 & Hv & Hvrange).
      destruct (set_blank board init pos v Hl) as (m & Hset & Hm & Hnew & Hother);
        [by rewrite Hsize|lia|lia|done|].
      rewrite Hsize in Hm.
      destruct (IH Hrange' (with_board board m) g1)
        as (b' & g' & Hloop & Hb' & Hshape' & Hkeep & Hout & Hfilled);
        [by destruct Hl|done|done|].
      simpl in *. exists b', g'. split.
      { unfold _generate_fill_number. rewrite Hv. simpl. rewrite Hset. simpl. exact Hloop. }
      split; [done|]. split; [done|]. split.
      { intros y x Hne. rewrite Hkeep by done. apply Hother. intros [= -> ->].
        by apply Hne. }
      split.
      { intros y x Hnin. apply not_elem_of_cons in Hnin as [Hne Hnin].
        rewrite Hout by done. apply Hother. intros [= -> ->]. apply Hne.
        by rewrite pos_of_nat_coordinates by lia. }
      intros y x Hin Hz.
      destruct (decide (mkPos (Z.of_nat x) (Z.of_nat y) ∈ ps)) as [Hps|Hps];
        [by apply Hfilled|].
      apply elem_of_cons in Hin as [Heq|Hin]; [|done].
      exists v. split; [|done]. rewrite Hout by done.
      rewrite <- Hnew. rewrite <- Heq. simpl. by rewrite !Nat2Z.id.
Qed.

(** [_fill_board_random] on a loaded board: it returns, every blank of
    the puzzle holds a value of 1..size, and every other tile is as it
    was. *)
Lemma fill_board_random_run (board : Board) (init : matrix) (g : G) :
  consistent board init →
  ∃ b' g',
    _fill_board_random (_size board) board g = Ok (b', g')
    ∧ b' = with_board board (_board b')
    ∧ consistent b' init
    ∧ (∀ y x, cell init y x = Some 0 →
              ∃ v, cell (_board b') y x = Some v ∧ 1 ≤ v ≤ Z.of_nat (_size board))
    ∧ (∀ y x, cell init y x ≠ Some 0 → cell (_board b') y x = cell (_board board) y x).
Proof.
  intros (Hl & Hshape & Hkeep & Hkeys & Hd).
  set (ps := y ← seq 0 (_size board); x ← seq 0 (_size board);
             [mkPos (Z.of_nat x) (Z.of_nat y)]).
  assert (∀ y x, mkPos (Z.of_nat x) (Z.of_nat y) ∈ ps
                 ↔ (y < _size board)%nat ∧ (x < _size board)%nat) as Hps.
  { intros y x. unfold ps. rewrite list_elem_of_bind. split.
    - intros (y' & Hin & Hy'). apply list_elem_of_bind in Hin as (x' & Hin & Hx').
      apply list_elem_of_singleton in Hin as [= Hx Hy].
      apply elem_of_seq in Hx', Hy'. lia.
    - intros [Hy Hx]. exists y. split; [|apply elem_of_seq; lia].
      apply list_elem_of_bind. exists x. split; [by left|apply elem_of_seq; lia]. }
  destruct (fill_board_random_loop init (_size board) ps) with (board := board) (g := g)
    as (b' & g' & Hloop & Hb' & Hshape' & Hsame & _ & Hfilled); [|done..|].
  { intros pos Hpos. unfold ps in Hpos.
    apply list_elem_of_bind in Hpos as (y & Hin & Hy).
    apply list_elem_of_bind in Hin as (x & Hin & Hx).
    apply list_elem_of_singleton in Hin as ->. simpl.
    apply elem_of_seq in Hx, Hy. lia. }
  exists b', g'. split; [exact Hloop|]. split; [done|]. split.
  { rewrite Hb'. split; [done|]. split; [done|]. split; [|done].
    intros y x v Hv Hv0. simpl. rewrite Hsame by congruence. by apply Hkeep. }
  split; [|done]. intros y x Hzero. apply Hfilled; [|done].
  apply Hps. destruct Hl as [_ Hs]. exact (cell_bounds _ _ _ _ _ Hs Hzero).
Qed.

(** A loop over positions whose body, with some probability, rewrites the
    tile at the position: it returns when the rewriting does, and keeps
    what the rewriting keeps. *)
Lemma cell_loop_run (prob : Q) (Inv : matrix → Prop)
    (hit_branch : matrix → G → Pos → result (matrix * G))
    (body : matrix * G → Pos → result (matrix * G)) (ps : list Pos) :
  (0 <= prob ∧ prob <= 1)%Q →
  (∀ vals g pos, body (vals, g) pos
                 = '(hit, g1) ← _with_probability prob g;
                   if hit : bool then hit_branch vals g1 pos else Ok (vals, g1)) →
  (∀ vals g pos, pos ∈ ps → Inv vals →
     ∃ vals' g', hit_branch vals g pos = Ok (vals', g') ∧ Inv vals'
                 ∧ ∀ y x, mkPos (Z.of_nat x) (Z.of_nat y) ≠ pos →
                          cell vals' y x = cell vals y x) →
  ∀ vals g, Inv vals →
    ∃ vals' g',
      for_each body ps (vals, g) = Ok (vals', g') ∧ Inv vals'
      ∧ ∀ y x, mkPos (Z.of_nat x) (Z.of_nat y) ∉ ps → cell vals' y x = cell vals y x.
Proof.
  intros Hprob Hbody. induction ps as [|pos ps IH]; intros Hhit vals g Hinv.
  - by exists vals, g.
  - assert (∀ vals g p, p ∈ ps → Inv vals →
              ∃ vals' g', hit_branch vals g p = Ok (vals', g') ∧ Inv vals'
                          ∧ ∀ y x, mkPos (Z.of_nat x) (Z.of_nat y) ≠ p →
                                   cell vals' y x = cell vals y x) as Hhit'.
    { intros vals0 g0 p Hp. apply Hhit. by right. }
    simpl for_each. rewrite Hbody, (with_probability_valid _ _ Hprob). simpl.
    destruct (Qle_bool (random g).1 prob).
    + destruct (Hhit vals (random g).2 pos ltac:(by left) Hinv)
        as (vals1 & g1 & -> & Hinv1 & Hother). simpl.
      destruct (IH Hhit' vals1 g1 Hinv1) as (vals' & g' & Hloop & Hinv' & Hout).
      exists vals', g'. split; [done|]. split; [done|].
      intros y x Hnin. apply not_elem_of_cons in Hnin as [Hne Hnin].
      rewrite Hout by done. by apply Hother.
    + destruct (IH Hhit' vals (random g).2 Hinv) as (vals' & g' & Hloop & Hinv' & Hout).
      exists vals', g'. split; [done|]. split; [done|].
      intros y x Hnin. apply not_elem_of_cons in Hnin as [_ Hnin]. by apply Hout.
Qed.

(** Writing a value of 1..size into a square matrix of such values. *)
Lemma np_set_tiles_in_range (size : nat) (vals : matrix) (pos : Pos) (v : Z) :
  shaped size vals → tiles_in_range size vals →
  0 ≤ pos_x pos < Z.of_nat size → 0 ≤ pos_y pos < Z.of_nat size →
  1 ≤ v ≤ Z.of_nat size →
  ∃ vals',
    np_set vals (pos_y pos) (pos_x pos) v = Ok vals'
    ∧ (shaped size vals' ∧ tiles_in_range size vals')
    ∧ ∀ y x, mkPos (Z.of_nat x) (Z.of_nat y) ≠ pos → cell vals' y x = cell vals y x.
Proof.
  intros Hshape Htiles Hx Hy Hv.
  destruct (np_set_in_range _ _ _ _ v Hshape Hy Hx) as (vals' & Hset).
  destruct (np_set_result _ _ _ _ _ (proj1 Hy) (proj1 Hx) Hset) as (Hnew & Hother & Hs).
  exists vals'. split; [done|]. split; [split; [by auto|]|].
  - intros y x w Hw.
    destruct (decide ((y, x) = (Z.to_nat (pos_y pos), Z.to_nat (pos_x pos))))
      as [[= -> ->]|Hne].
    + rewrite Hnew in Hw. by injection Hw as <-.
    + rewrite Hother in Hw by done. by eapply Htiles.
  - intros y x Hne. apply Hother. intros [= -> ->]. apply Hne.
    by rewrite pos_of_nat_coordinates by lia.
Qed.

(** The two operators of [PaperBetaHC] after their loop: [fill_board]
    takes the values, since no given tile was listed. *)
Lemma fill_board_after_loop (board : Board) (init vals : matrix) :
  consistent board init → shaped (_size board) vals →
  (∀ y x, mkPos (Z.of_nat x) (Z.of_nat y) ∉ unfilled_positions board →
          cell vals y x = cell (_board board) y x) →
  fill_board board vals = Ok (true, with_board board vals)
  ∧ consistent (with_board board vals) init.
Proof.
  intros Hc Hshape Hout. pose proof Hc as (Hl & _ & Hkeep & Hkeys & Hd).
  assert (keeps_initial init vals) as Hkeep'.
  { intros y x v Hv Hv0. rewrite Hout; [by apply Hkeep|]. intros Hin.
    apply (consistent_positions _ _ Hc) in Hin as [_ Hzero]. simpl in Hzero.
    rewrite !Nat2Z.id in Hzero. congruence. }
  split; [by apply (fill_board_accepts _ init)|]. by split; [|split; [|split; [|split]]].
Qed.

(** [PaperBetaHC._neighbouring_operator] with a valid probability on a
    consistent board whose tiles are values of 1..size. *)
Lemma neighbouring_operator_run (n_prob : Q) (board : Board) (init : matrix) (g : G) :
  (0 <= n_prob ∧ n_prob <= 1)%Q → consistent board init →
  tiles_in_range (_size board) (_board board) →
  ∃ b' g',
    _neighbouring_operator (_size board) n_prob board g = Ok (b', g')
    ∧ b' = with_board board (_board b')
    ∧ consistent b' init ∧ tiles_in_range (_size board) (_board b').
Proof.
  intros Hprob Hc Htiles. pose proof Hc as (_ & Hshape & _).
  destruct (cell_loop_run n_prob
              (λ vals, shaped (_size board) vals ∧ tiles_in_range (_size board) vals)
              (λ vals g pos,
                 old ← np_get vals (pos_y pos) (pos_x pos);
                 '(new, g) ← _neighbouring_val (_size board) old g;
                 vals ← np_set vals (pos_y pos) (pos_x pos) new;
                 Ok (vals, g))
              (λ '(vals, g) pos,
                 '(hit, g) ← _with_probability n_prob g;
                 if hit : bool then
                   old ← np_get vals (pos_y pos) (pos_x pos);
                   '(new, g) ← _neighbouring_val (_size board) old g;
                   vals ← np_set vals (pos_y pos) (pos_x pos) new;
                   Ok (vals, g)
                 else Ok (vals, g))
              (unfilled_positions board) Hprob)
    with (vals := _board board) (g := g)
    as (vals' & g' & Hloop & [Hshape' Htiles'] & Hout); [done| |done|].
  { intros vals g0 pos Hpos [Hs Ht].
    apply (consistent_positions _ _ Hc) in Hpos as [[Hx Hy] _].
    destruct (np_get_in_range _ _ _ _ Hs Hy Hx) as (old & Hget & Hold).
    destruct (neighbouring_val_moved (_size board) old g0) as (new & g1 & Hval & Hmoved).
    apply Ht in Hold.
    destruct (np_set_tiles_in_range _ vals pos new Hs Ht Hx Hy) as (vals1 & Hset & Hinv & Hsame).
    { destruct Hmoved as [->| ->]; case_bool_decide; lia. }
    exists vals1, g1. rewrite Hget. simpl. rewrite Hval. simpl. rewrite Hset. done. }
  destruct (fill_board_after_loop board init vals' Hc Hshape' Hout) as [Hfill Hc'].
  exists (with_board board vals'), g'. split; [|done].
  unfold _neighbouring_operator, values. rewrite Hloop. simpl. by rewrite Hfill.
Qed.

(** [PaperBetaHC._beta_operator] with a valid probability on a consistent
    board whose tiles are values of 1..size. *)
Lemma beta_operator_run (beta_prob : Q) (board : Board) (init : matrix) (g : G) :
  (0 <= beta_prob ∧ beta_prob <= 1)%Q → consistent board init →
  tiles_in_range (_size board) (_board board) →
  ∃ b' g',
    _beta_operator (_size board) beta_prob board g = Ok (b', g')
    ∧ b' = with_board board (_board b')
    ∧ consistent b' init ∧ tiles_in_range (_size board) (_board b').
Proof.
  intros Hprob Hc Htiles. pose proof Hc as (_ & Hshape & _).
  destruct (cell_loop_run beta_prob
              (λ vals, shaped (_size board) vals ∧ tiles_in_range (_size board) vals)
              (λ vals g pos,
                 '(new, g) ← _generate_fill_number (_size board) g;
                 vals ← np_set vals (pos_y pos) (pos_x pos) new;
                 Ok (vals, g))
              (λ '(vals, g) pos,
                 '(hit, g) ← _with_probability beta_prob g;
                 if hit : bool then
                   '(new, g) ← _generate_fill_number (_size board) g;
                   vals ← np_set vals (pos_y pos) (pos_x pos) new;
                   Ok (vals, g)
                 else Ok (vals, g))
              (unfilled_positions board) Hprob)
    with (vals := _board board) (g := g)
    as (vals' & g' & Hloop & [Hshape' Htiles'] & Hout); [done| |done|].
  { intros vals g0 pos Hpos [Hs Ht].
    apply (consistent_positions _ _ Hc) in Hpos as [[Hx Hy] _].
    destruct (randint_range 1 (Z.of_nat (_size board)) g0 ltac:(lia))
      as (new & g1 & Hval & Hnew).
    destruct (np_set_tiles_in_range _ vals pos new Hs Ht Hx Hy Hnew)
      as (vals1 & Hset & Hinv & Hsame).
    exists vals1, g1. unfold _generate_fill_number. rewrite Hval. simpl.
    rewrite Hset. done. }
  destruct (fill_board_after_loop board init vals' Hc Hshape' Hout) as [Hfill Hc'].
  exists (with_board board vals'), g'. split; [|done].
  unfold _beta_operator, values. rewrite Hloop. simpl. by rewrite Hfill.
Qed.

(** One step of [PaperBetaHC]. *)
Lemma PaperBetaHC_step_run (n_prob beta_prob : Q) (board : Board) (init : matrix) (g : G) :
  (0 <= n_prob ∧ n_prob <= 1)%Q → (0 <= beta_prob ∧ beta_prob <= 1)%Q →
  consistent board init → tiles_in_range (_size board) (_board board) →
  ∃ b' g',
    PaperBetaHC_step (_size board) n_prob beta_prob board g = Ok (b', g')
    ∧ b' = with_board board (_board b')
    ∧ consistent b' init ∧ tiles_in_range (_size board) (_board b').
Proof.
  intros Hn Hbeta Hc Htiles.
  destruct (neighbouring_operator_run n_prob board init g Hn Hc Htiles)
    as (b1 & g1 & Hop1 & Hb1 & Hc1 & Htiles1).
  assert (_size b1 = _size board) as Hs by (by rewrite Hb1).
  destruct (beta_operator_run beta_prob b1 init g1 Hbeta Hc1)
    as (b2 & g2 & Hop2 & Hb2 & Hc2 & Htiles2); [by rewrite Hs|].
  rewrite Hs in Hop2, Htiles2.
  exists b2, g2. split.
  { unfold PaperBetaHC_step. rewrite Hop1. simpl. exact Hop2. }
  split; [by rewrite Hb2, Hb1 at 1|done].
Qed.

(** [try_solve] of [PaperBetaHC] with valid probabilities on a loaded
    puzzle whose given tiles are values of 1..size returns; when a row is
    eligible and a restart runs, the board it returns has every given
    tile of the puzzle and no tile outside 1..size, and the score is the
    objective of that board. *)
Lemma PaperBetaHC_run (self : BetaHC) (board : Board) (init : matrix) (g : G) :
  solver_board (beta_base self) = Some board →
  _board_size (beta_base self) = _size board →
  (0 <= _n_prob self ∧ _n_prob self <= 1)%Q →
  (0 <= _beta_prob self ∧ _beta_prob self <= 1)%Q →
  consistent board init →
  (∀ y x v, cell init y x = Some v → 0 ≤ v ≤ Z.of_nat (_size board)) →
  ∃ sol s' g',
    try_solve (PaperBetaHC self) (beta_base self) g = Ok (sol, s', g')
    ∧ (unfilled_by_row board ≠ [] → (1 ≤ _max_restarts (beta_base self))%nat →
       ∃ sc it bd,
         sol_result sol = mkResult (Fin sc) (Fin it) ∧ sol_board sol = Some bd
         ∧ consistent bd init ∧ tiles_in_range (_size board) (_board bd)
         ∧ _objective (_size board) bd = Ok sc ∧ 0 ≤ sc
         ∧ 0 ≤ it ≤ Z.of_nat (_max_iter (beta_base self))).
Proof.
  intros Hboard Hbs Hn Hbeta Hc Hgiven. pose proof Hc as ([Hi Hsi] & _).
  set (Pre := λ b : Board, b = with_board board init).
  set (Inv := λ b : Board,
         b = with_board board (_board b) ∧ consistent b init
         ∧ tiles_in_range (_size board) (_board b)).
  assert (∀ b, Inv b → ∃ sc, _objective (_size board) b = Ok sc ∧ 0 ≤ sc) as Heval.
  { intros b (Hb & Hcb & _). destruct Hcb as (_ & Hs & _).
    destruct (objective_run b Hs) as (sc & Hsc & Hpos). exists sc.
    split; [|done]. rewrite <- Hsc. by rewrite Hb. }
  destruct (try_solve_total (PaperBetaHC self) Pre Inv (beta_base self) board g)
    as (sol & s' & g' & Hrun & Hinv).
  - intros b g0 ->. simpl. rewrite Hbs.
    destruct (fill_board_random_run (with_board board init) init g0)
      as (b' & g1 & Hfill & Hb' & Hc' & Hfilled & Hsame); [by apply consistent_reset|].
    simpl in *. exists b', g1. split; [done|]. split; [by rewrite Hb' at 1|].
    split; [done|]. intros y x v Hv.
    destruct Hc' as (_ & Hs' & Hk' & _). rewrite Hb' in Hs'. simpl in Hs'.
    destruct (cell_bounds _ _ _ _ _ Hs' Hv) as [Hy Hx].
    destruct (shaped_cell _ _ y x Hsi Hy Hx) as [w Hw].
    destruct (decide (w = 0)) as [->|Hne].
    + destruct (Hfilled y x Hw) as (v' & Hv' & Hrange). congruence.
    + rewrite (Hk' _ _ _ Hw Hne) in Hv. injection Hv as <-.
      specialize (Hgiven _ _ _ Hw). lia.
  - intros b g0 (Hb & Hcb & Htiles). simpl. rewrite Hbs.
    assert (_size b = _size board) as Hs by (by rewrite Hb).
    destruct (PaperBetaHC_step_run (_n_prob self) (_beta_prob self) b init g0 Hn Hbeta Hcb)
      as (b' & g1 & Hstep & Hb' & Hcb' & Htiles'); [by rewrite Hs|].
    rewrite Hs in Hstep, Htiles'. exists b', g1. split; [done|].
    split; [|done]. rewrite Hb'. rewrite Hb at 1. done.
  - intros b Hb. simpl. rewrite Hbs. destruct (Heval b Hb) as (sc & Hsc & _). by exists sc.
  - intros b (Hb & Hcb & _). exists (with_board b init). split.
    + unfold reset. destruct Hcb as ([-> _] & _). done.
    + unfold Pre. rewrite Hb. done.
  - done.
  - exists (with_board board init). split; [by unfold reset; rewrite Hi|done].
  - exists sol, s', g'. split; [done|]. intros Hne HR.
    destruct (try_solve_evaluated (PaperBetaHC self) (beta_base self) s' board g g' sol
                Hboard Hne HR Hrun)
      as (sc & it & bd & Hres & Hbd & _ & Hev & Hit).
    destruct (Hinv Hne bd Hbd) as (Hb & Hcb & Htiles).
    simpl in Hev. rewrite Hbs in Hev.
    exists sc, it, bd. do 4 (split; [done|]). split; [done|]. split; [|done].
    destruct (Heval bd (conj Hb (conj Hcb Htiles))) as (sc' & Hsc' & Hpos).
    rewrite Hsc' in Hev. by injection Hev as <-.
Qed.

End PaperOperators.

(** ** The outcomes of a load *)

(** The well-formed lines at the head of a file. *)
Lemma good_prefix (size : nat) (lines : list string) :
  ∃ j, (j ≤ length lines)%nat ∧ Forall (good_line size) (take j lines)
       ∧ (j = length lines ∨ ∃ line, lines !! j = Some line ∧ ¬ good_line size line).
Proof.
  induction lines as [|line rest (j & Hj & Hgood & Hstop)].
  - exists 0%nat. split; [done|]. split; [constructor|by left].
  - destruct (decide (good_line size line)) as [Hg|Hb].
    + exists (S j). simpl. split; [lia|]. split; [by constructor|].
      destruct Hstop as [->|?]; [by left|by right].
    + exists 0%nat. simpl. split; [lia|]. split; [constructor|]. right. eauto.
Qed.

(** A well-formed line beyond the last row of the board: IndexError. *)
Lemma init_from_file_loop_overflow (size : nat) (lines : list string) :
  ∀ (k : nat) (board : matrix),
    (k ≤ length board)%nat → (length board - k < length lines)%nat →
    Forall (good_line size) (take (S (length board - k)) lines) →
    _init_from_file_loop size k board lines = Raise IndexError.
Proof.
  induction lines as [|line rest IH]; intros k board Hk Hlen Hgood; [simpl in Hlen; lia|].
  simpl in Hgood. apply Forall_cons in Hgood as [Hline Hgood].
  simpl. rewrite good_line_check.
  rewrite (bool_decide_eq_true_2 (good_line size line)) by done. simpl.
  unfold np_set_row, np_index.
  destruct (decide (k = length board)) as [->|Hne].
  - rewrite bool_decide_eq_false_2 by lia. by rewrite bool_decide_eq_false_2 by lia.
  - rewrite bool_decide_eq_true_2 by lia. simpl. rewrite Nat2Z.id.
    apply IH; rewrite length_insert; [lia|simpl in Hlen; lia|].
    replace (S (length board - S k)) with (length board - k)%nat by lia. done.
Qed.

Lemma load_cases (b : Board) (lines : list string) :
  length (_board b) = _size b →
  (length lines = _size b ∧ Forall (good_line (_size b)) lines →
   set_init_state b (Some lines)
   = Ok (true, mkBoard (_size b) (_size_sq b) (parse_rows lines) (Some (parse_rows lines))
                 (init_unfilled 0 (parse_rows lines) (_unfilled b))))
  ∧ ((_size b < length lines)%nat
     ∧ Forall (good_line (_size b)) (take (S (_size b)) lines) →
     set_init_state b (Some lines) = Raise IndexError)
  ∧ (¬ (length lines = _size b ∧ Forall (good_line (_size b)) lines) →
     ¬ ((_size b < length lines)%nat
        ∧ Forall (good_line (_size b)) (take (S (_size b)) lines)) →
     ∃ b', set_init_state b (Some lines) = Ok (false, b')
           ∧ _board_init b' = _board_init b ∧ _unfilled b' = _unfilled b).
Proof.
  intros Hlen. split; [|split].
  - intros [Hl Hgood]. unfold set_init_state, _init_from_file.
    rewrite (init_from_file_loop_run _ _ _ _ (length lines));
      [|simpl; lia|done|by rewrite firstn_all|by left].
    rewrite bool_decide_eq_true_2 by (split; [done|simpl; lia]). simpl.
    rewrite firstn_all, drop_ge, app_nil_r by lia. done.
  - intros [Hl Hgood]. unfold set_init_state, _init_from_file.
    rewrite init_from_file_loop_overflow; [done|lia|lia|].
    by rewrite Nat.sub_0_r, Hlen.
  - intros Hnot Hnover.
    destruct (good_prefix (_size b) lines) as (j & Hj & Hgood & Hstop).
    assert (j ≤ _size b)%nat as Hjs.
    { destruct (decide (j ≤ _size b)%nat) as [|Hgt]; [done|]. exfalso. apply Hnover.
      split; [lia|]. replace (S (_size b)) with (S (_size b) `min` j)%nat by lia.
      rewrite <- take_take. by apply Forall_take. }
    unfold set_init_state, _init_from_file.
    rewrite (init_from_file_loop_run _ _ _ _ j); [|simpl; lia|done|done|done].
    rewrite bool_decide_eq_false_2.
    + simpl. by eexists.
    + intros [-> Hsize]. apply Hnot. split; [simpl in Hsize; lia|].
      by rewrite firstn_all in Hgood.
Qed.

(** ** Boards that the operations build *)

(** The snapshot of a well-formed board after a load has its shape. *)
Lemma set_init_state_snapshot (b b' : Board) (file : option (list string)) (r : bool) :
  well_formed b →
  (∀ init, _board_init b = Some init → shaped (_size b) init) →
  set_init_state b file = Ok (r, b') →
  ∀ init, _board_init b' = Some init → shaped (_size b') init.
Proof.
  intros Hwf Hsnap Hload.
  pose proof (set_init_state_well_formed _ _ _ _ Hwf Hload) as [Hs' _].
  destruct file as [lines|]; [|by injection Hload as _ <-].
  unfold set_init_state, _init_from_file in Hload.
  apply bind_Ok in Hload as ([ok b1] & Hfile & Hload).
  apply bind_Ok in Hfile as ([ok' m] & Hloop & [= <- <-]).
  destruct ok'; injection Hload as _ <-; simpl in *.
  - by intros init [= <-].
  - done.
Qed.

Lemma reachable_shapes (b : Board) :
  reachable b →
  well_formed b ∧ ∀ init, _board_init b = Some init → shaped (_size b) init.
Proof.
  induction 1 as [size b Hnew|b file r b' _ [Hwf Hsnap] Hload
                 |b pos val r b' _ [Hwf Hsnap] Hset
                 |b vals r b' _ [Hwf Hsnap] Hfill
                 |b line_num vals r b' _ [Hwf Hsnap] Hfill
                 |b b' _ [Hwf Hsnap] Hreset].
  - destruct (Board_new_well_formed _ _ Hnew) as (Hwf & _ & Hi & _).
    split; [done|]. intros init. by rewrite Hi.
  - split; [by eapply set_init_state_well_formed|by eapply set_init_state_snapshot].
  - destruct (mutations_well_formed b Hwf) as (Hm & _ & _).
    split; [by eapply Hm|].
    destruct (set_result _ _ _ _ _ Hset) as (-> & -> & _). done.
  - destruct (mutations_well_formed b Hwf) as (_ & Hm & _).
    split; [by eapply Hm|].
    destruct (fill_board_result _ _ _ _ Hfill) as (-> & -> & _). done.
  - destruct (mutations_well_formed b Hwf) as (_ & _ & Hm).
    split; [by eapply Hm|].
    destruct (fill_line_result _ _ _ _ _ Hfill) as (-> & -> & _). done.
  - unfold reset in Hreset. destruct (_board_init b) as [init|] eqn:Hi; [|done].
    injection Hreset as <-. destruct Hwf as [_ Hsq]. split; [|by simpl; rewrite Hi].
    split; [|done]. simpl. by apply Hsnap.
Qed.

(** ** Reading and writing one tile *)

Lemma at_cell (b : Board) (pos : Pos) :
  shaped (_size b) (_board b) → is_valid b pos = true →
  ∃ v, at_ b pos = Ok (Some v)
       ∧ cell (_board b) (Z.to_nat (pos_y pos)) (Z.to_nat (pos_x pos)) = Some v.
Proof.
  intros Hs Hv. unfold at_. rewrite Hv. simpl. apply is_valid_true in Hv as [Hx Hy].
  destruct (np_get_in_range _ _ _ _ Hs Hy Hx) as (v & -> & Hc). by exists v.
Qed.

(** ** Reset and the mutations *)

Lemma with_board_reset (b b' : Board) :
  _size b' = _size b → _size_sq b' = _size_sq b → _board_init b' = _board_init b →
  _unfilled b' = _unfilled b → reset b' = reset b.
Proof.
  intros Hs Hq Hi Hu. unfold reset, with_board. by rewrite Hs, Hq, Hi, Hu.
Qed.

Lemma set_size_sq (b b' : Board) (pos : Pos) (val : Z) (r : bool) :
  set b pos val = Ok (r, b') → _size_sq b' = _size_sq b.
Proof.
  unfold set. destruct (is_valid b pos); simpl; [|by intros [= _ <-]].
  intros Hset. apply bind_Ok in Hset as ([|] & _ & Hset); [by injection Hset as _ <-|].
  by apply bind_Ok in Hset as (m & _ & [= _ <-]).
Qed.

Lemma fill_board_size_sq (b b' : Board) (vals : matrix) (r : bool) :
  fill_board b vals = Ok (r, b') → _size_sq b' = _size_sq b.
Proof.
  unfold fill_board. destruct (shape_is _ _ vals); simpl; [|by intros [= _ <-]].
  destruct (_board_init b); [|done]. by destruct (existsb _ _); intros [= _ <-].
Qed.

Lemma fill_line_size_sq (b b' : Board) (line_num : Z) (vals : list Z) (r : option bool) :
  fill_line b line_num vals = Ok (r, b') → _size_sq b' = _size_sq b.
Proof.
  unfold fill_line. destruct (negb _ || negb _); [by intros [= _ <-]|].
  destruct (_board_init b); [|done].
  intros Hf. apply bind_Ok in Hf as (line_init & _ & Hf).
  destruct (line_changed line_init vals); [by injection Hf as _ <-|].
  by apply bind_Ok in Hf as (m & _ & [= _ <-]).
Qed.

(** ** The blanks of an area in closed form *)

Lemma count_unfilled_loop_closed (area : list Z) :
  ∀ (i num : nat) (unfilled : list nat),
    _count_unfilled_loop i num unfilled area
    = let zs := filter (λ k, area !! (k - i)%nat = Some 0) (seq i (length area)) in
      ((num + length zs)%nat, unfilled ++ zs).
Proof.
  induction area as [|tile rest IH]; intros i num unfilled.
  - simpl. by rewrite Nat.add_0_r, app_nil_r.
  - simpl _count_unfilled_loop. simpl length. simpl seq. rewrite filter_cons.
    assert (filter (λ k, (tile :: rest) !! (k - i)%nat = Some 0) (seq (S i) (length rest))
            = filter (λ k, rest !! (k - S i)%nat = Some 0) (seq (S i) (length rest)))
      as Hrest.
    { apply filter_ext_in. intros k Hk. apply elem_of_seq in Hk.
      replace (k - i)%nat with (S (k - S i)) by lia. done. }
    rewrite Hrest, Nat.sub_diag. simpl. case_bool_decide as Ht.
    + subst tile. rewrite decide_True by done. rewrite IH. simpl.
      f_equal; [lia|by rewrite <- app_assoc].
    + rewrite decide_False by congruence. by rewrite IH.
Qed.

(** ** The objective on a solution *)

Lemma sum_seqZ (n : nat) : 2 * foldr Z.add 0 (seqZ 1 (Z.of_nat n)) = Z.of_nat n * (Z.of_nat n + 1).
Proof.
  induction n as [|n IH]; [done|].
  rewrite seqZ_S, foldr_app. simpl foldr at 2.
  assert (∀ (l : list Z) (a : Z), foldr Z.add a l = foldr Z.add 0 l + a) as Hacc.
  { induction l as [|x l IHl]; intros a; simpl; [lia|]. rewrite IHl. lia. }
  rewrite Hacc. lia.
Qed.

Lemma sum_Permutation (l k : list Z) :
  l ≡ₚ k → foldr Z.add 0 l = foldr Z.add 0 k.
Proof. induction 1; simpl; lia. Qed.

Lemma eval_tiles_valid (size : nat) (area : list Z) :
  valid_area size area →
  _eval_tiles area = Z.abs (45 - Z.of_nat size * (Z.of_nat size + 1) / 2).
Proof.
  intros Hv. unfold _eval_tiles. rewrite (sum_Permutation _ _ Hv).
  f_equal. f_equal. pose proof (sum_seqZ size) as Hsum.
  rewrite <- Hsum. by rewrite Z.mul_comm, Z.div_mul.
Qed.

Lemma sum_eval_tiles_valid (size : nat) (areas : list (list Z)) :
  Forall (valid_area size) areas →
  foldr Z.add 0 (_eval_tiles <$> areas)
  = Z.of_nat (length areas) * Z.abs (45 - Z.of_nat size * (Z.of_nat size + 1) / 2).
Proof.
  induction 1 as [|a areas Ha _ IH]; [done|].
  rewrite fmap_cons. simpl foldr. rewrite IH, (eval_tiles_valid _ _ Ha). simpl length. lia.
Qed.

(** * The climb and the restart driver *)

Section ClimbAndDriver.
Context {G : Type} `{RandomSource G}.

(** X1: [_climb] of a solver whose step keeps the snapshot, on a loaded
    board: the score it returns is the evaluation of the board it ends on
    and is at most the evaluation of the board it started from; the
    iteration count is at most [max_iter], and below it only when the
    score is 0; the snapshot is the one it started with. *)
Theorem climb_returns_evaluation (M : @Methods G) (max_iter : nat) (board board' : Board)
    (g g' : G) (score itr : Z) :
  (∀ b g b' g', _step M b g = Ok (b', g') → _board_init b' = _board_init b) →
  _board_init board ≠ None →
  _climb M max_iter board g = Ok ((score, itr), board', g') →
  _eval M board' = Ok score
  ∧ (∃ start, _eval M board = Ok start ∧ score ≤ start)
  ∧ 0 ≤ itr ≤ Z.of_nat max_iter
  ∧ (itr < Z.of_nat max_iter → score = 0)
  ∧ _board_init board' = _board_init board.
Proof.
  unfold _climb. intros Hstep _ Hrun. apply bind_Ok in Hrun as (start & Hstart & Hloop).
  pose proof (climb_loop_snapshot M Hstep _ _ _ _ _ _ _ _ _ Hloop) as Hsnap.
  apply climb_loop_result in Hloop as (Hev & Hle & Hitr & Hzero); [|done|done].
  split; [done|]. split; [by exists start|]. split; [lia|done].
Qed.

(** X2: [_solve] with [stop_if_found], on a loaded board with an eligible
    row, for a solver whose fill and step keep the snapshot: either it
    returned at the first restart that reached score 0, that restart is
    the last recorded result and the returned one, fewer than
    [max_restarts] results precede it, none of them with score 0, and the
    board the solver holds evaluates to 0; or every restart ran and none
    reached score 0. *)
Theorem solve_stops_at_first_solution (M : @Methods G) (s s' : Solver) (board : Board)
    (g g' : G) (res : Result) :
  (∀ b g b' g', _fill M b g = Ok (b', g') → _board_init b' = _board_init b) →
  (∀ b g b' g', _step M b g = Ok (b', g') → _board_init b' = _board_init b) →
  _stop_if_found s = true → solver_board s = Some board → _board_init board ≠ None →
  unfilled_by_row board ≠ [] →
  _solve M s g = Ok (res, s', g') →
  (∃ seen it bd,
     _results s' = seen ++ [res] ∧ res = mkResult (Fin 0) (Fin it)
     ∧ solver_board s' = Some bd ∧ _eval M bd = Ok 0
     ∧ (length seen < _max_restarts s)%nat ∧ ∀ r, r ∈ seen → score r ≠ Fin 0)
  ∨ (length (_results s') = _max_restarts s ∧ ∀ r, r ∈ _results s' → score r ≠ Fin 0).
Proof.
  intros _ _ Hstop Hboard _ Hne Hsolve. unfold _solve in Hsolve. rewrite Hboard in Hsolve.
  rewrite bool_decide_eq_false_2 in Hsolve by (by destruct (unfilled_by_row board)).
  apply bind_Ok in Hsolve as ([[[res0 best] results] g0] & Hloop & [= <- <- <-]).
  rewrite Hstop in Hloop. simpl.
  apply solve_loop_stop in Hloop as [(seen & it & bd & -> & -> & -> & Hbd & Hlen & Hseen)
                                    |(seen & -> & Hlen & Hseen)].
  - left. by exists seen, it, bd.
  - right. done.
Qed.

End ClimbAndDriver.

Lemma climb_returns_evaluation_witness :
  ∃ score itr board' g',
    _climb (PaperBetaHC (mkBetaHC (Solver_new board4 1 2 false) (1 # 4) (1 # 20))) 2
           solved_board4 [1; 2; 3; 4; 5; 6; 7; 8; 9; 10; 11; 12]%N
    = Ok ((score, itr), board', g')
    ∧ _objective 4 board' = Ok score ∧ 0 ≤ itr ≤ 2
    ∧ _board_init board' = Some init4.
Proof.
  destruct (_climb (PaperBetaHC (mkBetaHC (Solver_new board4 1 2 false) (1 # 4) (1 # 20)))
                   2 solved_board4 [1; 2; 3; 4; 5; 6; 7; 8; 9; 10; 11; 12]%N)
    as [[[[score itr] board'] g']|e] eqn:Hrun; [|by vm_compute in Hrun].
  exists score, itr, board', g'. split; [done|].
  apply climb_returns_evaluation in Hrun as (Hev & _ & Hitr & _ & Hsnap).
  - split; [exact Hev|]. split; [exact Hitr|exact Hsnap].
  - intros b g0 b1 g1 Hstep. apply PaperBetaHC_step_same_outside in Hstep. by destruct Hstep.
  - discriminate.
Defined.

(** The fill and the step of [HillClimbing] keep the snapshot. *)
Lemma fill_board_unique_snapshot {G : Type} `{RandomSource G} `{ShuffleSource G}
    (size : nat) (b b' : Board) (g g' : G) :
  _fill_board_unique size b g = Ok (b', g') → _board_init b' = _board_init b.
Proof.
  unfold _fill_board_unique. intros Hrun.
  apply bind_Ok in Hrun as ([new_board g1] & _ & Hrun).
  apply bind_Ok in Hrun as ([r b1] & Hfill & [= <- <-]).
  by destruct (fill_board_result _ _ _ _ Hfill) as (-> & _).
Qed.

Lemma HillClimbing_step_snapshot {G : Type} `{RandomSource G}
    (b b' : Board) (g g' : G) :
  HillClimbing_step b g = Ok (b', g') → _board_init b' = _board_init b.
Proof.
  unfold HillClimbing_step. intros Hrun.
  apply bind_Ok in Hrun as ([k g1] & _ & Hrun).
  apply bind_Ok in Hrun as (i & _ & Hrun).
  destruct ((unfilled_by_row b).*1 !! i) as [row|]; [|done].
  apply bind_Ok in Hrun as (line & _ & Hrun).
  apply bind_Ok in Hrun as ([line' g2] & _ & Hrun).
  apply bind_Ok in Hrun as ([r b1] & Hfill & [= <- <-]).
  by destruct (fill_line_result _ _ _ _ _ Hfill) as (-> & _).
Qed.

Lemma solve_stops_at_first_solution_witness :
  ∃ res s' g',
    _solve (HillClimbing (Solver_new board4 3 2 true)) (Solver_new board4 3 2 true)
           (replicate 12 0%N)
    = Ok (res, s', g')
    ∧ score res = Fin 0 ∧ _results s' = [res].
Proof.
  destruct (_solve (HillClimbing (Solver_new board4 3 2 true)) (Solver_new board4 3 2 true)
                   (replicate 12 0%N))
    as [[[res s'] g']|e] eqn:Hrun; [|by vm_compute in Hrun].
  exists res, s', g'. split; [done|].
  pose proof Hrun as Hvalue. vm_compute in Hvalue.
  injection Hvalue as Hres Hs' _.
  destruct (solve_stops_at_first_solution
              (HillClimbing (Solver_new board4 3 2 true)) (Solver_new board4 3 2 true)
              s' board4 (replicate 12 0%N) g' res
              (λ b g b' g', fill_board_unique_snapshot 4 b b' g g')
              (λ b g b' g', HillClimbing_step_snapshot b b' g g')
              eq_refl eq_refl ltac:(discriminate) ltac:(discriminate) Hrun)
    as [(seen & it & bd & Hresults & -> & _)|[_ Hnone]].
  - split; [done|]. rewrite <- Hs'. rewrite <- Hres. done.
  - exfalso. apply (Hnone res); [|by rewrite <- Hres].
    rewrite <- Hs'. rewrite <- Hres. by left.
Defined.

(** * The unique fill and [HillClimbing] *)

Section RowSolverTheorems.
Context {G : Type} `{RandomSource G} `{ShuffleSource G}.

(** X3: [_fill_line_unique] on a line of the width of the board whose
    given tiles are distinct values of 1..size returns a permutation of
    1..size that has every given tile of the line in its place. *)
Theorem fill_line_unique_completes (size : nat) (line : list Z) (g : G) :
  fillable size line →
  ∃ filled g',
    _fill_line_unique size line g = Ok (filled, g')
    ∧ valid_area size filled ∧ keeps_given line filled.
Proof. apply fill_line_unique_run. Qed.

(** X4: [_fill_line_unique] on a line whose given tiles are not distinct
    values of 1..size raises ValueError, from [pool.remove]; on a line
    with such tiles that is longer than the board is wide it raises
    IndexError, from [pool.pop]. *)
Theorem fill_line_unique_errors (size : nat) (line : list Z) (g : G) :
  (¬ (NoDup (given_tiles line) ∧ ∀ v, v ∈ given_tiles line → 1 ≤ v ≤ Z.of_nat size) →
   _fill_line_unique size line g = Raise ValueError)
  ∧ (NoDup (given_tiles line) → (∀ v, v ∈ given_tiles line → 1 ≤ v ≤ Z.of_nat size) →
     (size < length line)%nat →
     _fill_line_unique size line g = Raise IndexError).
Proof. apply fill_line_unique_raises. Qed.

(** X5: [_fill_board_unique] on a consistent board whose rows can be
    completed returns; the board it leaves is consistent, every row of it
    is a permutation of 1..size, and every tile that was filled before
    has its value. *)
Theorem fill_board_unique_completes (board : Board) (init : matrix) (g : G) :
  consistent board init → Forall (fillable (_size board)) (_board board) →
  ∃ b' g',
    _fill_board_unique (_size board) board g = Ok (b', g')
    ∧ b' = with_board board (_board b')
    ∧ consistent b' init ∧ rows_valid b'
    ∧ ∀ y x v, cell (_board board) y x = Some v → v ≠ 0 → cell (_board b') y x = Some v.
Proof. apply fill_board_unique_run. Qed.

(** X6: one step of [HillClimbing] on a consistent board.  With an
    eligible row it returns: two different listed blanks of one eligible
    row have changed places and nothing else has changed, so the board is
    still consistent and rows that were permutations of 1..size still
    are.  Without an eligible row [randint(0, -1)] raises ValueError. *)
Theorem HillClimbing_step_swaps (board : Board) (init : matrix) (g : G) :
  consistent board init →
  (unfilled_by_row board ≠ [] →
   ∃ b' g' row blanks i j old new,
     HillClimbing_step board g = Ok (b', g')
     ∧ (row, blanks) ∈ unfilled_by_row board ∧ i ≠ j ∧ i ∈ blanks ∧ j ∈ blanks
     ∧ _board board !! row = Some old ∧ exchanged i j old new
     ∧ b' = with_board board (<[row := new]> (_board board))
     ∧ consistent b' init
     ∧ (rows_valid board → rows_valid b'))
  ∧ (unfilled_by_row board = [] → HillClimbing_step board g = Raise ValueError).
Proof.
  intros Hc. split.
  - by apply HillClimbing_step_swaps_run.
  - apply HillClimbing_step_no_row.
Qed.

(** X7: [try_solve] of [HillClimbing] on a loaded puzzle whose rows can
    be completed returns.  When a row is eligible and a restart runs, the
    board it returns has every given tile of the puzzle, every row of it
    is a permutation of 1..size, the score is the number of mistakes of
    that board, at most 2*size, and a score of 0 means that every row,
    column and square is a permutation of 1..size. *)
Theorem HillClimbing_returns_valid_rows (s : Solver) (board : Board) (init : matrix) (g : G) :
  solver_board s = Some board → _board_size s = _size board →
  consistent board init → Forall (fillable (_size board)) init →
  _size board = (_size_sq board * _size_sq board)%nat → (0 < _size board)%nat →
  ∃ sol s' g',
    try_solve (HillClimbing s) s g = Ok (sol, s', g')
    ∧ (unfilled_by_row board ≠ [] → (1 ≤ _max_restarts s)%nat →
       ∃ sc it bd,
         sol_result sol = mkResult (Fin sc) (Fin it) ∧ sol_board sol = Some bd
         ∧ consistent bd init ∧ rows_valid bd
         ∧ _count_mistakes bd = Ok sc
         ∧ 0 ≤ sc ≤ 2 * Z.of_nat (_size board)
         ∧ 0 ≤ it ≤ Z.of_nat (_max_iter s)
         ∧ (sc = 0 → all_areas_valid bd)).
Proof.
  intros Hboard Hbs Hc Hfillable Hsq Hpos.
  apply (row_solver_run (HillClimbing s)); try done.
  - intros b g0. simpl. by rewrite Hbs.
  - intros b g0 Hb Hcb Hvalid Hne.
    destruct (HillClimbing_step_swaps_run b init g0 Hcb)
      as (b' & g1 & row & blanks & i & j & old & new & Hstep & _ & _ & _ & _ & _ & _
          & Hb' & Hcb' & Hvalid').
    { by rewrite Hb. }
    exists b', g1. split; [done|]. split; [|by auto].
    rewrite Hb'. rewrite Hb at 1. done.
Qed.

End RowSolverTheorems.

Lemma fill_line_unique_completes_witness :
  fillable 4 [0; 1; 0; 0]
  ∧ ∃ filled g', _fill_line_unique 4 [0; 1; 0; 0] [1; 2; 3]%N = Ok (filled, g')
                 ∧ valid_area 4 filled.
Proof.
  split; [exact fillable_row_of_board4|].
  destruct (fill_line_unique_completes 4 [0; 1; 0; 0] [1; 2; 3]%N fillable_row_of_board4)
    as (filled & g' & Hrun & Hvalid & _).
  by exists filled, g'.
Defined.

Lemma fill_line_unique_errors_witness :
  _fill_line_unique 4 [0; 1; 1; 0] [1; 2; 3]%N = Raise ValueError
  ∧ _fill_line_unique 4 [0; 1; 0; 0; 0] [1; 2; 3]%N = Raise IndexError.
Proof.
  destruct (fill_line_unique_errors 4 [0; 1; 1; 0] [1; 2; 3]%N) as [Hdup _].
  destruct (fill_line_unique_errors 4 [0; 1; 0; 0; 0] [1; 2; 3]%N) as [_ Hlong].
  split.
  - apply Hdup. intros [Hnd _]. revert Hnd. by_decision.
  - apply Hlong; [by_decision| |simpl; lia].
    intros v Hv. apply list_elem_of_singleton in Hv as ->. lia.
Defined.

Lemma fill_board_unique_completes_witness :
  consistent board4 init4 ∧ Forall (fillable (_size board4)) (_board board4)
  ∧ ∃ b' g', _fill_board_unique 4 board4 [1; 2; 3; 4; 5; 6]%N = Ok (b', g')
             ∧ rows_valid b'.
Proof.
  split; [exact consistent_board4|]. split; [exact fillable_board4|].
  destruct (fill_board_unique_completes board4 init4 [1; 2; 3; 4; 5; 6]%N
              consistent_board4 fillable_board4) as (b' & g' & Hrun & _ & _ & Hrows & _).
  by exists b', g'.
Defined.

Lemma HillClimbing_step_swaps_witness :
  consistent solved_board4 init4 ∧ unfilled_by_row solved_board4 ≠ []
  ∧ ∃ b' g', HillClimbing_step solved_board4 [1; 2; 3]%N = Ok (b', g') ∧ rows_valid b'.
Proof.
  split; [exact consistent_solved_board4|]. split; [discriminate|].
  destruct (HillClimbing_step_swaps solved_board4 init4 [1; 2; 3]%N consistent_solved_board4)
    as [Hswap _].
  destruct (Hswap ltac:(discriminate))
    as (b' & g' & row & blanks & i & j & old & new & Hstep & _ & _ & _ & _ & _ & _ & _ & _ & Hv).
  exists b', g'. split; [exact Hstep|exact (Hv rows_valid_solved_board4)].
Defined.

Lemma HillClimbing_returns_valid_rows_witness :
  ∃ sol s' g' sc it bd,
    try_solve (HillClimbing (Solver_new board4 2 3 false)) (Solver_new board4 2 3 false)
              [1; 2; 3; 4; 5; 6; 7; 8; 9; 10; 11; 12]%N
    = Ok (sol, s', g')
    ∧ sol_result sol = mkResult (Fin sc) (Fin it) ∧ sol_board sol = Some bd
    ∧ keeps_initial init4 (_board bd) ∧ rows_valid bd ∧ 0 ≤ sc ≤ 8.
Proof.
  destruct (HillClimbing_returns_valid_rows (Solver_new board4 2 3 false) board4 init4
              [1; 2; 3; 4; 5; 6; 7; 8; 9; 10; 11; 12]%N eq_refl eq_refl
              consistent_board4 fillable_board4 eq_refl ltac:(simpl; lia))
    as (sol & s' & g' & Hrun & Hsol).
  destruct (Hsol ltac:(discriminate) ltac:(simpl; lia))
    as (sc & it & bd & Hres & Hbd & Hc & Hvalid & _ & Hsc & _).
  exists sol, s', g', sc, it, bd. split; [exact Hrun|].
  split; [exact Hres|]. split; [exact Hbd|].
  split; [by destruct Hc as (_ & _ & Hk & _)|]. split; [exact Hvalid|exact Hsc].
Defined.

(** * [CustomBetaHC] *)

Section CustomTheorems.
Context {G : Type} `{RandomSource G} `{ShuffleSource G}.

(** X8: the n-operator of [CustomBetaHC] with a probability of [0, 1] on
    a consistent board returns a rearrangement of the board: every
    eligible row is a permutation of what it was and differs from it at
    its listed blanks only, every other row is as it was; the board is
    still consistent, and rows that were permutations of 1..size still
    are. *)
Theorem Custom_neighbouring_operator_rearranges (n_prob : Q) (board : Board)
    (init : matrix) (g : G) :
  (0 <= n_prob ∧ n_prob <= 1)%Q → consistent board init →
  ∃ b' g',
    Custom_neighbouring_operator n_prob board g = Ok (b', g')
    ∧ b' = with_board board (_board b')
    ∧ rearranged (_unfilled board) (_board board) (_board b')
    ∧ consistent b' init ∧ (rows_valid board → rows_valid b').
Proof. apply Custom_neighbouring_operator_run. Qed.

(** X9: the β-operator of [CustomBetaHC] with a probability of [0, 1] on
    a consistent board whose rows are permutations of 1..size returns a
    rearrangement of the board: a row it clears and fills again is a
    permutation of 1..size with the tiles outside its listed blanks in
    place; the board is still consistent and its rows still valid. *)
Theorem Custom_beta_operator_rearranges (beta_prob : Q) (board : Board)
    (init : matrix) (g : G) :
  (0 <= beta_prob ∧ beta_prob <= 1)%Q → consistent board init → rows_valid board →
  ∃ b' g',
    Custom_beta_operator (_size board) beta_prob board g = Ok (b', g')
    ∧ b' = with_board board (_board b')
    ∧ rearranged (_unfilled board) (_board board) (_board b')
    ∧ consistent b' init ∧ rows_valid b'.
Proof. apply Custom_beta_operator_run. Qed.

(** X10: [try_solve] of [CustomBetaHC] with probabilities of [0, 1] on a
    loaded puzzle whose rows can be completed returns.  When a row is
    eligible and a restart runs, the board it returns has every given
    tile of the puzzle, every row of it is a permutation of 1..size, the
    score is the number of mistakes of that board, at most 2*size, and a
    score of 0 means that every row, column and square is a permutation
    of 1..size. *)
Theorem CustomBetaHC_returns_valid_rows (self : BetaHC) (board : Board) (init : matrix)
    (g : G) :
  solver_board (beta_base self) = Some board →
  _board_size (beta_base self) = _size board →
  (0 <= _n_prob self ∧ _n_prob self <= 1)%Q →
  (0 <= _beta_prob self ∧ _beta_prob self <= 1)%Q →
  consistent board init → Forall (fillable (_size board)) init →
  _size board = (_size_sq board * _size_sq board)%nat → (0 < _size board)%nat →
  ∃ sol s' g',
    try_solve (CustomBetaHC self) (beta_base self) g = Ok (sol, s', g')
    ∧ (unfilled_by_row board ≠ [] → (1 ≤ _max_restarts (beta_base self))%nat →
       ∃ sc it bd,
         sol_result sol = mkResult (Fin sc) (Fin it) ∧ sol_board sol = Some bd
         ∧ consistent bd init ∧ rows_valid bd
         ∧ _count_mistakes bd = Ok sc
         ∧ 0 ≤ sc ≤ 2 * Z.of_nat (_size board)
         ∧ 0 ≤ it ≤ Z.of_nat (_max_iter (beta_base self))
         ∧ (sc = 0 → all_areas_valid bd)).
Proof.
  intros Hboard Hbs Hn Hbeta Hc Hfillable Hsq Hpos.
  apply (row_solver_run (CustomBetaHC self)); try done.
  - intros b g0. simpl. by rewrite Hbs.
  - intros b g0 Hb Hcb Hvalid _. simpl. rewrite Hbs.
    assert (_size b = _size board) as Hs by (by rewrite Hb).
    destruct (CustomBetaHC_step_run (_n_prob self) (_beta_prob self) b init g0
                Hn Hbeta Hcb Hvalid) as (b' & g1 & Hstep & Hb' & _ & Hcb' & Hvalid').
    rewrite Hs in Hstep. exists b', g1. split; [done|]. split; [|done].
    rewrite Hb'. rewrite Hb at 1. done.
Qed.

End CustomTheorems.

Lemma quarter_is_a_probability : (0 <= 1 # 4 ∧ 1 # 4 <= 1)%Q.
Proof. split; by vm_compute. Qed.

Lemma twentieth_is_a_probability : (0 <= 1 # 20 ∧ 1 # 20 <= 1)%Q.
Proof. split; by vm_compute. Qed.

Lemma Custom_neighbouring_operator_rearranges_witness :
  ∃ b' g',
    Custom_neighbouring_operator (1 # 4) solved_board4 [1; 2; 3; 4; 5; 6]%N = Ok (b', g')
    ∧ rearranged unfilled4 solved4 (_board b') ∧ rows_valid b'.
Proof.
  destruct (Custom_neighbouring_operator_rearranges (1 # 4) solved_board4 init4
              [1; 2; 3; 4; 5; 6]%N quarter_is_a_probability consistent_solved_board4)
    as (b' & g' & Hrun & _ & Hre & _ & Hvalid).
  exists b', g'. split; [exact Hrun|]. split; [exact Hre|].
  exact (Hvalid rows_valid_solved_board4).
Defined.

Lemma Custom_beta_operator_rearranges_witness :
  ∃ b' g',
    Custom_beta_operator 4 (1 # 4) solved_board4 [1; 2; 3; 4; 5; 6]%N = Ok (b', g')
    ∧ rearranged unfilled4 solved4 (_board b') ∧ rows_valid b'.
Proof.
  destruct (Custom_beta_operator_rearranges (1 # 4) solved_board4 init4
              [1; 2; 3; 4; 5; 6]%N quarter_is_a_probability consistent_solved_board4
              rows_valid_solved_board4)
    as (b' & g' & Hrun & _ & Hre & _ & Hvalid).
  by exists b', g'.
Defined.

Lemma CustomBetaHC_returns_valid_rows_witness :
  ∃ sol s' g' sc it bd,
    try_solve (CustomBetaHC (mkBetaHC (Solver_new board4 2 3 false) (1 # 4) (1 # 20)))
              (Solver_new board4 2 3 false)
              [1; 2; 3; 4; 5; 6; 7; 8; 9; 10; 11; 12]%N
    = Ok (sol, s', g')
    ∧ sol_result sol = mkResult (Fin sc) (Fin it) ∧ sol_board sol = Some bd
    ∧ keeps_initial init4 (_board bd) ∧ rows_valid bd ∧ 0 ≤ sc ≤ 8.
Proof.
  destruct (CustomBetaHC_returns_valid_rows
              (mkBetaHC (Solver_new board4 2 3 false) (1 # 4) (1 # 20)) board4 init4
              [1; 2; 3; 4; 5; 6; 7; 8; 9; 10; 11; 12]%N eq_refl eq_refl
              quarter_is_a_probability twentieth_is_a_probability
              consistent_board4 fillable_board4 eq_refl ltac:(simpl; lia))
    as (sol & s' & g' & Hrun & Hsol).
  destruct (Hsol ltac:(discriminate) ltac:(simpl; lia))
    as (sc & it & bd & Hres & Hbd & Hc & Hvalid & _ & Hsc & _).
  exists sol, s', g', sc, it, bd. split; [exact Hrun|].
  split; [exact Hres|]. split; [exact Hbd|].
  split; [by destruct Hc as (_ & _ & Hk & _)|]. split; [exact Hvalid|exact Hsc].
Defined.

(** * [PaperBetaHC] *)

Section PaperTheorems.
Context {G : Type} `{RandomSource G}.

(** X11: [_fill_board_random] on a consistent board returns; every blank
    of the puzzle, eligible or not, holds a value of 1..size, every
    other tile is as it was, and the board is still consistent. *)
Theorem fill_board_random_fills_blanks (board : Board) (init : matrix) (g : G) :
  consistent board init →
  ∃ b' g',
    _fill_board_random (_size board) board g = Ok (b', g')
    ∧ b' = with_board board (_board b')
    ∧ consistent b' init
    ∧ (∀ y x, cell init y x = Some 0 →
              ∃ v, cell (_board b') y x = Some v ∧ 1 ≤ v ≤ Z.of_nat (_size board))
    ∧ (∀ y x, cell init y x ≠ Some 0 → cell (_board b') y x = cell (_board board) y x).
Proof. apply fill_board_random_run. Qed.

(** X12: one step of [PaperBetaHC] with probabilities of [0, 1] on a
    consistent board whose tiles are values of 1..size returns a
    consistent board whose tiles are values of 1..size: the n-operator
    holds a tile at 1 and at size, the β-operator draws from 1..size. *)
Theorem PaperBetaHC_step_keeps_range (n_prob beta_prob : Q) (board : Board)
    (init : matrix) (g : G) :
  (0 <= n_prob ∧ n_prob <= 1)%Q → (0 <= beta_prob ∧ beta_prob <= 1)%Q →
  consistent board init → tiles_in_range (_size board) (_board board) →
  ∃ b' g',
    PaperBetaHC_step (_size board) n_prob beta_prob board g = Ok (b', g')
    ∧ b' = with_board board (_board b')
    ∧ consistent b' init ∧ tiles_in_range (_size board) (_board b').
Proof. apply PaperBetaHC_step_run. Qed.

(** X13: [try_solve] of [PaperBetaHC] with probabilities of [0, 1] on a
    loaded puzzle whose tiles are values of 0..size returns.  When a row
    is eligible and a restart runs, the board it returns has every given
    tile of the puzzle and no tile outside 1..size, and the score is the
    objective of that board, which is not negative. *)
Theorem PaperBetaHC_returns_filled_board (self : BetaHC) (board : Board) (init : matrix)
    (g : G) :
  solver_board (beta_base self) = Some board →
  _board_size (beta_base self) = _size board →
  (0 <= _n_prob self ∧ _n_prob self <= 1)%Q →
  (0 <= _beta_prob self ∧ _beta_prob self <= 1)%Q →
  consistent board init →
  (∀ y x v, cell init y x = Some v → 0 ≤ v ≤ Z.of_nat (_size board)) →
  ∃ sol s' g',
    try_solve (PaperBetaHC self) (beta_base self) g = Ok (sol, s', g')
    ∧ (unfilled_by_row board ≠ [] → (1 ≤ _max_restarts (beta_base self))%nat →
       ∃ sc it bd,
         sol_result sol = mkResult (Fin sc) (Fin it) ∧ sol_board sol = Some bd
         ∧ consistent bd init ∧ tiles_in_range (_size board) (_board bd)
         ∧ _objective (_size board) bd = Ok sc ∧ 0 ≤ sc
         ∧ 0 ≤ it ≤ Z.of_nat (_max_iter (beta_base self))).
Proof. apply PaperBetaHC_run. Qed.

End PaperTheorems.

Lemma tiles_of_init4 (y x : nat) (v : Z) : cell init4 y x = Some v → 0 ≤ v ≤ 4.
Proof.
  intros Hv. destruct (cell_bounds 4 init4 y x v) as [Hy Hx];
    [split; [done|by repeat constructor]|done|].
  destruct y as [|[|[|[|y]]]]; [| | | |lia];
    (destruct x as [|[|[|[|x]]]]; [| | | |lia]); injection Hv as <-; lia.
Qed.

Lemma tiles_of_solved4 : tiles_in_range 4 solved4.
Proof.
  intros y x v Hv. destruct (cell_bounds 4 solved4 y x v) as [Hy Hx];
    [split; [done|by repeat constructor]|done|].
  destruct y as [|[|[|[|y]]]]; [| | | |lia];
    (destruct x as [|[|[|[|x]]]]; [| | | |lia]); injection Hv as <-; lia.
Qed.

(** ** A probability outside [0, 1] in a run of the solver *)

Section InvalidProbability.
Context {G : Type} `{RandomSource G} `{ShuffleSource G}.

Lemma probability_dec (p : Q) : (0 <= p ∧ p <= 1)%Q ∨ ¬ (0 <= p ∧ p <= 1)%Q.
Proof.
  destruct (Qle_bool 0 p && Qle_bool p 1) eqn:Hb.
  - left. apply andb_true_iff in Hb as [Hlo Hhi]. by apply Qle_bool_iff in Hlo, Hhi.
  - right. intros [Hlo Hhi]. apply Qle_bool_iff in Hlo, Hhi. by rewrite Hlo, Hhi in Hb.
Qed.

Lemma neighbouring_operator_invalid (size : nat) (prob : Q) (board : Board) (g : G) :
  ¬ (0 <= prob ∧ prob <= 1)%Q → unfilled_positions board ≠ [] →
  _neighbouring_operator size prob board g = Raise AssertionError.
Proof.
  intros Hbad Hne. unfold _neighbouring_operator.
  destruct (unfilled_positions board); [done|].
  simpl. by rewrite with_probability_invalid.
Qed.

Lemma beta_operator_invalid (size : nat) (prob : Q) (board : Board) (g : G) :
  ¬ (0 <= prob ∧ prob <= 1)%Q → unfilled_positions board ≠ [] →
  _beta_operator size prob board g = Raise AssertionError.
Proof.
  intros Hbad Hne. unfold _beta_operator.
  destruct (unfilled_positions board); [done|].
  simpl. by rewrite with_probability_invalid.
Qed.

Lemma Custom_neighbouring_operator_invalid (prob : Q) (board : Board) (g : G) :
  ¬ (0 <= prob ∧ prob <= 1)%Q → unfilled_by_row board ≠ [] →
  Custom_neighbouring_operator prob board g = Raise AssertionError.
Proof.
  intros Hbad Hne. unfold Custom_neighbouring_operator.
  destruct (unfilled_by_row board) as [|[row idx] rest]; [done|].
  simpl. by rewrite with_probability_invalid.
Qed.

Lemma Custom_beta_operator_invalid (size : nat) (prob : Q) (board : Board) (g : G) :
  ¬ (0 <= prob ∧ prob <= 1)%Q → unfilled_by_row board ≠ [] →
  Custom_beta_operator size prob board g = Raise AssertionError.
Proof.
  intros Hbad Hne. unfold Custom_beta_operator.
  destruct (unfilled_by_row board) as [|[row idx] rest]; [done|].
  simpl. by rewrite with_probability_invalid.
Qed.

(** The row-level n-operator returns the board it was given with other
    tiles: the dictionary is the same. *)
Lemma Custom_neighbouring_operator_unfilled (n : Q) (board b' : Board) (g g' : G) :
  Custom_neighbouring_operator n board g = Ok (b', g') →
  unfilled_by_row b' = unfilled_by_row board.
Proof.
  unfold Custom_neighbouring_operator. intros Hop.
  apply bind_Ok in Hop as ([vals g1] & _ & Hop).
  apply bind_Ok in Hop as ([r b1] & Hfill & [= <- <-]).
  by apply fill_board_result in Hfill as (_ & _ & Hunf & _).
Qed.

(** An eligible row of a consistent board holds a modifiable tile. *)
Lemma unfilled_positions_nonempty (board : Board) (init : matrix) :
  consistent board init → unfilled_by_row board ≠ [] → unfilled_positions board ≠ [].
Proof.
  intros (_ & _ & _ & Hnd & Hd) Hne Hnil. unfold unfilled_by_row in Hne.
  destruct (_unfilled board) as [|[row blanks] rest] eqn:Hunf; [done|].
  destruct (Hd row blanks ltac:(left)) as (_ & Hlen & _).
  destruct blanks as [|index blanks]; [simpl in Hlen; lia|].
  assert (mkPos (Z.of_nat index) (Z.of_nat row) ∈ unfilled_positions board) as Hin.
  { apply unfilled_positions_elem; [by rewrite Hunf|].
    exists row, index, (index :: blanks). rewrite Hunf.
    split; [left|]. split; [left|done]. }
  rewrite Hnil in Hin. by apply elem_of_nil in Hin.
Qed.

(** The first step of the first climb is where [try_solve] ends when that
    step raises. *)
Lemma try_solve_first_step (M : @Methods G) (s : Solver) (board : Board) (init : matrix)
    (g : G) (e : exn) :
  solver_board s = Some board → _board_init board = Some init →
  unfilled_by_row board ≠ [] → (1 ≤ _max_restarts s)%nat → (1 ≤ _max_iter s)%nat →
  (∃ b1 g1 z, _fill M (with_board board init) g = Ok (b1, g1) ∧ _eval M b1 = Ok z
              ∧ _step M b1 g1 = Raise e) →
  try_solve M s g = Raise e.
Proof.
  intros Hboard Hi Hne HR HI (b1 & g1 & z & Hfill & Heval & Hstep).
  unfold try_solve, reset, _solve. rewrite Hboard, Hi. simpl.
  unfold unfilled_by_row in *. simpl.
  rewrite bool_decide_eq_false_2 by (by destruct (_unfilled board)).
  destruct (_max_restarts s) as [|R]; [lia|].
  destruct (_max_iter s) as [|I]; [lia|].
  simpl. rewrite Hfill. simpl. unfold _climb. rewrite Heval. simpl.
  unfold copy. by rewrite Hstep.
Qed.

(** The random fill of the initial state of a consistent board. *)
Lemma fill_board_random_reset (board : Board) (init : matrix) (g : G) :
  consistent board init →
  (∀ y x v, cell init y x = Some v → 0 ≤ v ≤ Z.of_nat (_size board)) →
  ∃ b' g',
    _fill_board_random (_size board) (with_board board init) g = Ok (b', g')
    ∧ b' = with_board board (_board b')
    ∧ consistent b' init ∧ tiles_in_range (_size board) (_board b').
Proof.
  intros Hc Hgiven. pose proof Hc as ([Hi Hsi] & _).
  destruct (fill_board_random_run (with_board board init) init g)
    as (b' & g1 & Hfill & Hb' & Hc' & Hfilled & Hsame); [by apply consistent_reset|].
  simpl in *. exists b', g1. split; [done|]. split; [by rewrite Hb' at 1|].
  split; [done|]. intros y x v Hv.
  destruct Hc' as (_ & Hs' & Hk' & _). rewrite Hb' in Hs'. simpl in Hs'.
  destruct (cell_bounds _ _ _ _ _ Hs' Hv) as [Hy Hx].
  destruct (shaped_cell _ _ y x Hsi Hy Hx) as [w Hw].
  destruct (decide (w = 0)) as [->|Hne].
  - destruct (Hfilled y x Hw) as (v' & Hv' & Hrange). congruence.
  - rewrite (Hk' _ _ _ Hw Hne) in Hv. injection Hv as <-.
    specialize (Hgiven _ _ _ Hw). lia.
Qed.

(** A step of [PaperBetaHC] with n or beta outside [0, 1] raises. *)
Lemma PaperBetaHC_step_invalid (n beta : Q) (board : Board) (init : matrix) (g : G) :
  ¬ (0 <= n ∧ n <= 1)%Q ∨ ¬ (0 <= beta ∧ beta <= 1)%Q →
  consistent board init → tiles_in_range (_size board) (_board board) →
  unfilled_by_row board ≠ [] →
  PaperBetaHC_step (_size board) n beta board g = Raise AssertionError.
Proof.
  intros Hbad Hc Htiles Hne.
  pose proof (unfilled_positions_nonempty _ _ Hc Hne) as Hpos.
  unfold PaperBetaHC_step.
  destruct (probability_dec n) as [Hn|Hn].
  - destruct Hbad as [?|Hbeta]; [done|].
    destruct (neighbouring_operator_run n board init g Hn Hc Htiles)
      as (b' & g' & -> & Hb' & _). simpl.
    apply beta_operator_invalid; [done|].
    rewrite Hb'. by unfold unfilled_positions.
  - by rewrite neighbouring_operator_invalid.
Qed.

(** A step of [CustomBetaHC] with n or beta outside [0, 1] raises. *)
Lemma CustomBetaHC_step_invalid (size : nat) (n beta : Q) (board : Board) (init : matrix)
    (g : G) :
  ¬ (0 <= n ∧ n <= 1)%Q ∨ ¬ (0 <= beta ∧ beta <= 1)%Q →
  consistent board init → unfilled_by_row board ≠ [] →
  CustomBetaHC_step size n beta board g = Raise AssertionError.
Proof.
  intros Hbad Hc Hne. unfold CustomBetaHC_step.
  destruct (probability_dec n) as [Hn|Hn].
  - destruct Hbad as [?|Hbeta]; [done|].
    destruct (Custom_neighbouring_operator_run n board init g Hn Hc)
      as (b' & g' & Hop & _). rewrite Hop. simpl.
    apply Custom_beta_operator_invalid; [done|].
    by rewrite (Custom_neighbouring_operator_unfilled _ _ _ _ _ Hop).
  - by rewrite Custom_neighbouring_operator_invalid.
Qed.

Lemma PaperBetaHC_invalid (self : BetaHC) (board : Board) (init : matrix) (g : G) :
  ¬ (0 <= _n_prob self ∧ _n_prob self <= 1)%Q
  ∨ ¬ (0 <= _beta_prob self ∧ _beta_prob self <= 1)%Q →
  solver_board (beta_base self) = Some board →
  _board_size (beta_base self) = _size board →
  consistent board init →
  (∀ y x v, cell init y x = Some v → 0 ≤ v ≤ Z.of_nat (_size board)) →
  unfilled_by_row board ≠ [] →
  (1 ≤ _max_restarts (beta_base self))%nat → (1 ≤ _max_iter (beta_base self))%nat →
  try_solve (PaperBetaHC self) (beta_base self) g = Raise AssertionError.
Proof.
  intros Hbad Hboard Hbs Hc Hgiven Hne HR HI. pose proof Hc as ([Hi _] & _).
  apply (try_solve_first_step _ _ board init); [done..|].
  destruct (fill_board_random_reset board init g Hc Hgiven)
    as (b1 & g1 & Hfill & Hb1 & Hc1 & Htiles).
  assert (_size b1 = _size board) as Hs by (by rewrite Hb1).
  destruct (objective_run b1) as (sc & Hsc & _); [by destruct Hc1 as (_ & ? & _)|].
  exists b1, g1, sc. simpl. rewrite Hbs.
  split; [done|]. split; [by rewrite <- Hs|].
  rewrite <- Hs. apply (PaperBetaHC_step_invalid _ _ _ init); [done|done| |].
  - by rewrite Hs.
  - rewrite Hb1. done.
Qed.

Lemma CustomBetaHC_invalid (self : BetaHC) (board : Board) (init : matrix) (g : G) :
  ¬ (0 <= _n_prob self ∧ _n_prob self <= 1)%Q
  ∨ ¬ (0 <= _beta_prob self ∧ _beta_prob self <= 1)%Q →
  solver_board (beta_base self) = Some board →
  _board_size (beta_base self) = _size board →
  consistent board init → Forall (fillable (_size board)) init →
  _size board = (_size_sq board * _size_sq board)%nat → (0 < _size board)%nat →
  unfilled_by_row board ≠ [] →
  (1 ≤ _max_restarts (beta_base self))%nat → (1 ≤ _max_iter (beta_base self))%nat →
  try_solve (CustomBetaHC self) (beta_base self) g = Raise AssertionError.
Proof.
  intros Hbad Hboard Hbs Hc Hfillable Hsq Hpos Hne HR HI. pose proof Hc as ([Hi _] & _).
  apply (try_solve_first_step _ _ board init); [done..|].
  destruct (fill_board_unique_run (with_board board init) init g)
    as (b1 & g1 & Hfill & Hb1 & Hc1 & _); [by apply consistent_reset|done|].
  simpl in Hfill, Hb1.
  destruct (check_bounds b1) as (m & q & Hcheck & _).
  { destruct Hc1 as (_ & Hs & _). split; [done|]. by rewrite Hb1. }
  { by rewrite Hb1. }
  exists b1, g1, (Z.of_nat m). simpl. rewrite Hbs.
  split; [done|]. split; [by unfold _count_mistakes; rewrite Hcheck|].
  apply (CustomBetaHC_step_invalid _ _ _ _ init); [done|done|].
  rewrite Hb1. done.
Qed.

End InvalidProbability.

(** C9, amended: the constructor stores any two probabilities and
    returns the solver.  A probability outside [0, 1] makes
    [_with_probability] raise AssertionError, so the n-operator and the
    beta-operator of [PaperBetaHC] raise on a board with a modifiable
    tile, those of [CustomBetaHC] on a board with an eligible row, and a
    step with such an n or beta does not return.  Hence [try_solve] with
    such an n or beta, at least one restart and at least one iteration,
    on a consistent board with an eligible row, raises AssertionError in
    the first step of its first climb: for [PaperBetaHC] when the given
    tiles are values of 0..size, for [CustomBetaHC] when every row of the
    puzzle can be filled and the size is a positive square.  With no
    eligible row, [try_solve] returns the result (0, 0) with the generator
    unused, whatever the methods of the solver and their probabilities. *)
Theorem invalid_probability_raises_at_first_draw {G : Type} `{RandomSource G}
    `{ShuffleSource G} (prob : Q) :
  ¬ (0 <= prob ∧ prob <= 1)%Q →
  (∀ board max_restarts max_iter other stop_if_found,
     BetaHC_new board max_restarts max_iter prob other stop_if_found
     = Ok (mkBetaHC (Solver_new board max_restarts max_iter stop_if_found) prob other)
     ∧ BetaHC_new board max_restarts max_iter other prob stop_if_found
       = Ok (mkBetaHC (Solver_new board max_restarts max_iter stop_if_found) other prob))
  ∧ (∀ g : G, _with_probability prob g = Raise AssertionError)
  ∧ (∀ size board (g : G), unfilled_positions board ≠ [] →
       _neighbouring_operator size prob board g = Raise AssertionError
       ∧ _beta_operator size prob board g = Raise AssertionError
       ∧ (∀ beta, PaperBetaHC_step size prob beta board g = Raise AssertionError)
       ∧ ∀ n b' g', PaperBetaHC_step size n prob board g ≠ Ok (b', g'))
  ∧ (∀ size board (g : G), unfilled_by_row board ≠ [] →
       Custom_neighbouring_operator prob board g = Raise AssertionError
       ∧ Custom_beta_operator size prob board g = Raise AssertionError
       ∧ (∀ beta, CustomBetaHC_step size prob beta board g = Raise AssertionError)
       ∧ ∀ n b' g', CustomBetaHC_step size n prob board g ≠ Ok (b', g'))
  ∧ (∀ self board init (g : G),
       _n_prob self = prob ∨ _beta_prob self = prob →
       solver_board (beta_base self) = Some board →
       _board_size (beta_base self) = _size board →
       consistent board init → unfilled_by_row board ≠ [] →
       (1 ≤ _max_restarts (beta_base self))%nat → (1 ≤ _max_iter (beta_base self))%nat →
       ((∀ y x v, cell init y x = Some v → 0 ≤ v ≤ Z.of_nat (_size board)) →
        try_solve (PaperBetaHC self) (beta_base self) g = Raise AssertionError)
       ∧ (Forall (fillable (_size board)) init →
          _size board = (_size_sq board * _size_sq board)%nat → (0 < _size board)%nat →
          try_solve (CustomBetaHC self) (beta_base self) g = Raise AssertionError))
  ∧ (∀ (M : @Methods G) s board init (g : G),
       solver_board s = Some board → _board_init board = Some init →
       unfilled_by_row board = [] →
       try_solve M s g
       = Ok (mkSolution (Some (with_board board init)) (mkResult (Fin 0) (Fin 0)),
             mkSolver (Some (with_board board init)) (_max_iter s) (_max_restarts s)
                      (_stop_if_found s) (_board_size s)
                      (replicate (_max_restarts s) (mkResult (Fin 0) (Fin 0))),
             g)).
Proof.
  intros Hbad. split; [done|].
  split; [by intros; apply with_probability_invalid|].
  split; [|split; [|split]].
  - intros size board g Hne.
    split; [by apply neighbouring_operator_invalid|].
    split; [by apply beta_operator_invalid|]. split.
    + intros beta. unfold PaperBetaHC_step. by rewrite neighbouring_operator_invalid.
    + intros n b' g' Hstep. unfold PaperBetaHC_step in Hstep.
      apply bind_Ok in Hstep as ([b1 g1] & Hop & Hbeta).
      apply neighbouring_operator_same_outside, same_outside_positions in Hop.
      rewrite beta_operator_invalid in Hbeta; [done|done|]. by rewrite Hop.
  - intros size board g Hne.
    split; [by apply Custom_neighbouring_operator_invalid|].
    split; [by apply Custom_beta_operator_invalid|]. split.
    + intros beta. unfold CustomBetaHC_step.
      by rewrite Custom_neighbouring_operator_invalid.
    + intros n b' g' Hstep. unfold CustomBetaHC_step in Hstep.
      apply bind_Ok in Hstep as ([b1 g1] & Hop & Hbeta).
      apply Custom_neighbouring_operator_unfilled in Hop.
      rewrite Custom_beta_operator_invalid in Hbeta; [done|done|]. by rewrite Hop.
  - intros self board init g Hprob Hboard Hbs Hc Hne HR HI.
    assert (¬ (0 <= _n_prob self ∧ _n_prob self <= 1)%Q
            ∨ ¬ (0 <= _beta_prob self ∧ _beta_prob self <= 1)%Q) as Hself.
    { destruct Hprob as [-> | ->]; [by left|by right]. }
    split.
    + intros Hgiven. by apply (PaperBetaHC_invalid self board init).
    + intros Hfillable Hsq Hpos. by apply (CustomBetaHC_invalid self board init).
  - intros M s board init g Hboard Hi Hunf.
    apply (try_solve_trivial M s board); [done| |done].
    unfold reset. by rewrite Hi.
Qed.

Lemma invalid_probability_raises_at_first_draw_witness :
  ¬ (0 <= 5 # 4 ∧ 5 # 4 <= 1)%Q
  ∧ _neighbouring_operator 4 (5 # 4) board4 [1; 2; 3]%N = Raise AssertionError
  ∧ try_solve (PaperBetaHC (mkBetaHC (Solver_new board4 1 1 false) (5 # 4) (1 # 20)))
              (Solver_new board4 1 1 false) [1; 2; 3; 4; 5]%N
    = Raise AssertionError
  ∧ try_solve (CustomBetaHC (mkBetaHC (Solver_new board4 1 1 false) (1 # 4) (5 # 4)))
              (Solver_new board4 1 1 false) [1; 2; 3; 4; 5]%N
    = Raise AssertionError.
Proof.
  assert (¬ (0 <= 5 # 4 ∧ 5 # 4 <= 1)%Q) as Hbad.
  { intros [_ Hle]. by vm_compute in Hle. }
  split; [exact Hbad|].
  pose proof (invalid_probability_raises_at_first_draw (G := list N) (5 # 4) Hbad)
    as (_ & _ & Hop & _ & Hsolve & _).
  split; [apply (Hop 4%nat board4); discriminate|].
  assert (unfilled_by_row board4 ≠ []) as Hne by discriminate.
  destruct (Hsolve (mkBetaHC (Solver_new board4 1 1 false) (5 # 4) (1 # 20)) board4 init4
                   [1; 2; 3; 4; 5]%N (or_introl eq_refl) eq_refl eq_refl consistent_board4
                   Hne (le_n 1) (le_n 1)) as [Hpaper _].
  destruct (Hsolve (mkBetaHC (Solver_new board4 1 1 false) (1 # 4) (5 # 4)) board4 init4
                   [1; 2; 3; 4; 5]%N (or_intror eq_refl) eq_refl eq_refl consistent_board4
                   Hne (le_n 1) (le_n 1)) as [_ Hcustom].
  split.
  - exact (Hpaper tiles_of_init4).
  - exact (Hcustom fillable_board4 eq_refl (Nat.lt_0_succ 3)).
Defined.

Lemma fill_board_random_fills_blanks_witness :
  ∃ b' g',
    _fill_board_random 4 board4 [1; 2; 3; 4; 5; 6]%N = Ok (b', g')
    ∧ keeps_initial init4 (_board b')
    ∧ ∃ v, cell (_board b') 1 2 = Some v ∧ 1 ≤ v ≤ 4.
Proof.
  destruct (fill_board_random_fills_blanks board4 init4 [1; 2; 3; 4; 5; 6]%N
              consistent_board4) as (b' & g' & Hrun & _ & Hc & Hfilled & _).
  exists b', g'. split; [exact Hrun|]. split; [by destruct Hc as (_ & _ & Hk & _)|].
  exact (Hfilled 1%nat 2%nat eq_refl).
Defined.

Lemma PaperBetaHC_step_keeps_range_witness :
  ∃ b' g',
    PaperBetaHC_step 4 (1 # 4) (1 # 20) solved_board4 [1; 2; 3; 4; 5; 6]%N = Ok (b', g')
    ∧ tiles_in_range 4 (_board b').
Proof.
  destruct (PaperBetaHC_step_keeps_range (1 # 4) (1 # 20) solved_board4 init4
              [1; 2; 3; 4; 5; 6]%N quarter_is_a_probability twentieth_is_a_probability
              consistent_solved_board4 tiles_of_solved4)
    as (b' & g' & Hrun & _ & _ & Htiles).
  by exists b', g'.
Defined.

Lemma PaperBetaHC_returns_filled_board_witness :
  ∃ sol s' g' sc it bd,
    try_solve (PaperBetaHC (mkBetaHC (Solver_new board4 2 3 false) (1 # 4) (1 # 20)))
              (Solver_new board4 2 3 false)
              [1; 2; 3; 4; 5; 6; 7; 8; 9; 10; 11; 12]%N
    = Ok (sol, s', g')
    ∧ sol_result sol = mkResult (Fin sc) (Fin it) ∧ sol_board sol = Some bd
    ∧ keeps_initial init4 (_board bd) ∧ tiles_in_range 4 (_board bd)
    ∧ _objective 4 bd = Ok sc.
Proof.
  destruct (PaperBetaHC_returns_filled_board
              (mkBetaHC (Solver_new board4 2 3 false) (1 # 4) (1 # 20)) board4 init4
              [1; 2; 3; 4; 5; 6; 7; 8; 9; 10; 11; 12]%N eq_refl eq_refl
              quarter_is_a_probability twentieth_is_a_probability
              consistent_board4 tiles_of_init4)
    as (sol & s' & g' & Hrun & Hsol).
  destruct (Hsol ltac:(discriminate) ltac:(simpl; lia))
    as (sc & it & bd & Hres & Hbd & Hc & Htiles & Hsc & _).
  exists sol, s', g', sc, it, bd. split; [exact Hrun|].
  split; [exact Hres|]. split; [exact Hbd|].
  split; [by destruct Hc as (_ & _ & Hk & _)|]. split; [exact Htiles|exact Hsc].
Defined.

(** * The objective and the mistake count *)

(** X14: on a well-formed board that is a solution, the objective of
    [PaperBetaHC] is 3 * size * |45 - size * (size + 1) / 2|: it is 0 on a
    9 by 9 solution and positive on a solution of any other positive
    size. *)
Theorem objective_on_solutions (b : Board) :
  well_formed b → all_areas_valid b →
  _objective (_size b) b
  = Ok (3 * Z.of_nat (_size b)
        * Z.abs (45 - Z.of_nat (_size b) * (Z.of_nat (_size b) + 1) / 2))
  ∧ (_size b = 9%nat → _objective (_size b) b = Ok 0)
  ∧ ((0 < _size b)%nat → _size b ≠ 9%nat →
     ∃ sc, _objective (_size b) b = Ok sc ∧ 0 < sc).
Proof.
  intros Hwf (cols & Hcols & Hall). pose proof Hwf as [[Hlen _] _].
  destruct (columns_of_shaped _ _ (proj1 Hwf)) as (cols' & Hcols' & Hclen & _).
  rewrite Hcols in Hcols'. injection Hcols' as <-.
  destruct (squares_lengths _ Hwf) as [Hqlen _].
  apply Forall_app in Hall as [Hrows Hall]. apply Forall_app in Hall as [Hcs Hsq].
  assert (_objective (_size b) b
          = Ok (3 * Z.of_nat (_size b)
                * Z.abs (45 - Z.of_nat (_size b) * (Z.of_nat (_size b) + 1) / 2))) as Hobj.
  { unfold _objective, values. rewrite Hcols. simpl.
    rewrite (sum_eval_tiles_valid _ _ Hrows), (sum_eval_tiles_valid _ _ Hcs),
      (sum_eval_tiles_valid _ _ Hsq), Hlen, Hclen, Hqlen. f_equal. lia. }
  split; [done|]. split.
  - intros H9. rewrite Hobj, H9. done.
  - intros Hpos Hne. eexists. split; [exact Hobj|].
    assert (Z.of_nat (_size b) * (Z.of_nat (_size b) + 1) / 2 ≠ 45) as Hsum.
    { intros Heq.
      assert (Z.of_nat (_size b) * (Z.of_nat (_size b) + 1) / 2
              = foldr Z.add 0 (seqZ 1 (Z.of_nat (_size b)))) as Hhalf.
      { rewrite <- sum_seqZ. by rewrite Z.mul_comm, Z.div_mul. }
      pose proof (sum_seqZ (_size b)) as Hsum. rewrite <- Hhalf, Heq in Hsum.
      destruct (decide (_size b ≤ 8)%nat); [nia|].
      destruct (decide (10 ≤ _size b)%nat); [nia|lia]. }
    nia.
Qed.

Lemma objective_on_solutions_witness :
  well_formed solved_board4 ∧ all_areas_valid solved_board4
  ∧ _objective 4 solved_board4 = Ok (3 * 4 * Z.abs (45 - 4 * (4 + 1) / 2)).
Proof.
  assert (all_areas_valid solved_board4) as Hall.
  { eexists. split; [reflexivity|]. repeat constructor; by_decision. }
  split; [exact well_formed_solved_board4|]. split; [exact Hall|].
  exact (proj1 (objective_on_solutions solved_board4 well_formed_solved_board4 Hall)).
Defined.

(** X15: [check] on a well-formed board of positive size returns; the
    number of mistakes is at most 3*size, at most 2*size when every row
    is a permutation of 1..size, and the ratio lies in [0, 1]. *)
Theorem check_is_bounded (b : Board) :
  well_formed b → (0 < _size b)%nat →
  ∃ mistakes ratio,
    check b = Ok (mistakes, ratio)
    ∧ (mistakes ≤ 3 * _size b)%nat
    ∧ (rows_valid b → (mistakes ≤ 2 * _size b)%nat)
    ∧ (0 <= ratio)%Q ∧ (ratio <= 1)%Q.
Proof. apply check_bounds. Qed.

Lemma check_is_bounded_witness :
  ∃ mistakes ratio,
    check board4 = Ok (mistakes, ratio) ∧ (mistakes ≤ 12)%nat ∧ (ratio <= 1)%Q.
Proof.
  destruct (check_is_bounded board4 well_formed_board4 ltac:(simpl; lia))
    as (mistakes & ratio & Hrun & Hm & _ & _ & Hr).
  by exists mistakes, ratio.
Defined.

(** * The board *)

(** X16: the three outcomes of a load, into a board with [size] rows, of
    a file whose integers are 64-bit ones.  With exactly [size] lines,
    each of [size] integers, it returns [True]: the parsed lines are the
    board and the snapshot, and the rows with two blanks are entered in
    the dictionary.  With more than [size] lines, the first [size + 1] of
    them of [size] integers each, the write of row [size] raises
    IndexError.  In every other case it returns [False], with the snapshot
    and the dictionary as before. *)
Theorem load_outcomes (b : Board) (lines : list string) :
  length (_board b) = _size b → fits_int64 (parse_rows lines) →
  (length lines = _size b ∧ Forall (good_line (_size b)) lines →
   set_init_state b (Some lines)
   = Ok (true, mkBoard (_size b) (_size_sq b) (parse_rows lines) (Some (parse_rows lines))
                 (init_unfilled 0 (parse_rows lines) (_unfilled b))))
  ∧ ((_size b < length lines)%nat
     ∧ Forall (good_line (_size b)) (take (S (_size b)) lines) →
     set_init_state b (Some lines) = Raise IndexError)
  ∧ (¬ (length lines = _size b ∧ Forall (good_line (_size b)) lines) →
     ¬ ((_size b < length lines)%nat
        ∧ Forall (good_line (_size b)) (take (S (_size b)) lines)) →
     ∃ b', set_init_state b (Some lines) = Ok (false, b')
           ∧ _board_init b' = _board_init b ∧ _unfilled b' = _unfilled b).
Proof. intros Hlen _. by apply load_cases. Qed.

Lemma load_outcomes_witness :
  set_init_state empty_board4 (Some puzzle4) = Ok (true, board4)
  ∧ set_init_state empty_board4 (Some (puzzle4 ++ ["1 2 3 4"]%string)) = Raise IndexError.
Proof.
  destruct (load_outcomes empty_board4 puzzle4 eq_refl) as (Hload & _ & _).
  { repeat constructor; by_decision. }
  destruct (load_outcomes empty_board4 (puzzle4 ++ ["1 2 3 4"]%string) eq_refl)
    as (_ & Hover & _).
  { repeat constructor; by_decision. }
  split.
  - rewrite Hload; [done|]. split; [done|]. repeat constructor; by_decision.
  - apply Hover. split; [simpl; lia|]. repeat constructor; by_decision.
Defined.

(** X17: every board that a construction followed by loads, mutations and
    resets builds is a square array whose side is a square number, and
    its snapshot, when it has one, has that shape; so on such a board of
    positive size [check] returns, and [at] returns a tile at every valid
    position. *)
Theorem reachable_boards_are_well_formed (b : Board) :
  reachable b →
  well_formed b
  ∧ (∀ init, _board_init b = Some init → shaped (_size b) init)
  ∧ ((0 < _size b)%nat → ∃ mistakes ratio, check b = Ok (mistakes, ratio))
  ∧ (∀ pos, is_valid b pos = true → ∃ v, at_ b pos = Ok (Some v)).
Proof.
  intros Hreach. destruct (reachable_shapes b Hreach) as [Hwf Hsnap].
  split; [done|]. split; [done|]. split.
  - intros Hpos. destruct (check_bounds b Hwf Hpos) as (m & q & Hrun & _). by exists m, q.
  - intros pos Hv. destruct (at_cell b pos (proj1 Hwf) Hv) as (v & Hat & _). by exists v.
Qed.

Lemma reachable_boards_are_well_formed_witness :
  reachable board4 ∧ well_formed board4 ∧ shaped 4 init4.
Proof.
  assert (reachable board4) as Hreach.
  { apply (reach_load empty_board4 (Some puzzle4) true); [|reflexivity].
    by apply (reach_new 4). }
  destruct (reachable_boards_are_well_formed board4 Hreach) as (Hwf & Hsnap & _).
  split; [exact Hreach|]. split; [exact Hwf|]. exact (Hsnap init4 eq_refl).
Defined.

(** X18: on a board that was never loaded, the operations that consult
    the snapshot raise: [is_initial] and [set] at a valid position,
    [fill_board] with an array of the right shape and [fill_line] with a
    line of the right length at a valid row raise TypeError, [reset]
    raises AttributeError, and so does [try_solve] of any solver on the
    board; at a position out of bounds [is_initial] and [set] return
    [False] and [at] returns [None]. *)
Theorem unloaded_board_raises (b : Board) :
  _board_init b = None →
  (∀ pos, is_valid b pos = true →
          is_initial b pos = Raise TypeError ∧ ∀ val, set b pos val = Raise TypeError)
  ∧ (∀ pos, is_valid b pos = false →
            is_initial b pos = Ok false ∧ at_ b pos = Ok None
            ∧ ∀ val, set b pos val = Ok (false, b))
  ∧ (∀ vals, shaped (_size b) vals → fill_board b vals = Raise TypeError)
  ∧ (∀ line_num vals, length vals = _size b → 0 ≤ line_num < Z.of_nat (_size b) →
                      fill_line b line_num vals = Raise TypeError)
  ∧ reset b = Raise AttributeError
  ∧ (∀ G (M : @Methods G) s g, solver_board s = Some b →
                               try_solve M s g = Raise AttributeError).
Proof.
  intros Hi. split; [|split; [|split; [|split; [|split]]]].
  - intros pos Hv. unfold set, is_initial. by rewrite Hv, Hi.
  - intros pos Hv. unfold set, is_initial, at_. by rewrite Hv.
  - intros vals Hs. unfold fill_board. apply shape_is_shaped in Hs. by rewrite Hs, Hi.
  - intros line_num vals Hlen Hrange. unfold fill_line.
    rewrite (bool_decide_eq_true_2 (length vals = _)) by done.
    rewrite (bool_decide_eq_true_2 (0 ≤ line_num < _)) by done. by rewrite Hi.
  - unfold reset. by rewrite Hi.
  - intros G M s g Hboard. unfold try_solve, reset. by rewrite Hboard, Hi.
Qed.

Lemma unloaded_board_raises_witness :
  set empty_board4 (mkPos 1 2) 3 = Raise TypeError
  ∧ set empty_board4 (mkPos 4 0) 3 = Ok (false, empty_board4)
  ∧ reset empty_board4 = Raise AttributeError.
Proof.
  destruct (unloaded_board_raises empty_board4 eq_refl) as (Hin & Hout & _ & _ & Hreset & _).
  split; [exact (proj2 (Hin (mkPos 1 2) eq_refl) 3)|].
  split; [exact (proj2 (proj2 (Hout (mkPos 4 0) eq_refl)) 3)|exact Hreset].
Defined.

(** X19: after a [set] that returned [True], [at] returns the value at
    the position written and what it returned before at every other
    position; a [set] that returned [False] left the board as it was. *)
Theorem set_then_at (b b' : Board) (pos : Pos) (val : Z) (r : bool) :
  set b pos val = Ok (r, b') →
  (r = true →
   at_ b' pos = Ok (Some val) ∧ ∀ pos', pos' ≠ pos → at_ b' pos' = at_ b pos')
  ∧ (r = false → b' = b).
Proof.
  intros Hset. destruct (set_result _ _ _ _ _ Hset) as (_ & Hsize & _ & Hf & Ht).
  split; [|done]. intros ->. destruct (Ht eq_refl) as (_ & Hv & Hother).
  pose proof Hv as Hvalid. apply is_valid_true in Hv as [Hx Hy].
  assert (∀ p, is_valid b' p = is_valid b p) as Hsame.
  { intros p. unfold is_valid. by rewrite Hsize. }
  unfold set in Hset. rewrite Hvalid in Hset. simpl in Hset.
  apply bind_Ok in Hset as ([|] & _ & Hset); [done|].
  apply bind_Ok in Hset as (m & Hm & [= <-]).
  destruct (np_set_result _ _ _ _ _ (proj1 Hy) (proj1 Hx) Hm) as (Hnew & _ & _).
  split.
  - unfold at_. rewrite Hsame, Hvalid. simpl.
    rewrite np_get_cell by lia. by rewrite Hnew.
  - intros pos' Hne. unfold at_. rewrite Hsame.
    destruct (is_valid b pos') eqn:Hv'; simpl; [|done].
    apply is_valid_true in Hv' as [Hx' Hy'].
    rewrite !np_get_cell by lia. simpl in Hother. rewrite Hother; [done|].
    apply coordinates_differ; try lia. done.
Qed.

Lemma set_then_at_witness :
  ∃ b', set board4 (mkPos 0 0) 2 = Ok (true, b') ∧ at_ b' (mkPos 0 0) = Ok (Some 2)
        ∧ at_ b' (mkPos 1 0) = at_ board4 (mkPos 1 0).
Proof.
  destruct (set board4 (mkPos 0 0) 2) as [[r b']|e] eqn:Hrun; [|by vm_compute in Hrun].
  assert (r = true) as -> by (vm_compute in Hrun; congruence).
  exists b'. split; [done|].
  destruct (set_then_at _ _ _ _ _ Hrun) as [Ht _]. destruct (Ht eq_refl) as [Hat Hother].
  split; [exact Hat|]. apply Hother. discriminate.
Defined.

(** X20: [reset] undoes every mutation: after a [set], a [fill_board] or
    a [fill_line], whatever it returned, [reset] gives what it gives on
    the board before; and a board that [reset] returned is left alone by
    a second [reset]. *)
Theorem reset_undoes_mutations (b : Board) :
  (∀ pos val r b', set b pos val = Ok (r, b') → reset b' = reset b)
  ∧ (∀ vals r b', fill_board b vals = Ok (r, b') → reset b' = reset b)
  ∧ (∀ line_num vals r b', fill_line b line_num vals = Ok (r, b') → reset b' = reset b)
  ∧ (∀ b0, reset b = Ok b0 → reset b0 = Ok b0 ∧ _board_init b0 = Some (_board b0)).
Proof.
  split; [|split; [|split]].
  - intros pos val r b' Hset.
    destruct (set_result _ _ _ _ _ Hset) as (Hi & Hs & Hu & _).
    apply with_board_reset; try done. by eapply set_size_sq.
  - intros vals r b' Hfill.
    destruct (fill_board_result _ _ _ _ Hfill) as (Hi & Hs & Hu & _).
    apply with_board_reset; try done. by eapply fill_board_size_sq.
  - intros line_num vals r b' Hfill.
    destruct (fill_line_result _ _ _ _ _ Hfill) as (Hi & Hs & Hu & _).
    apply with_board_reset; try done. by eapply fill_line_size_sq.
  - intros b0. unfold reset. destruct (_board_init b) as [init|] eqn:Hi; [|done].
    intros [= <-]. simpl. by rewrite Hi.
Qed.

(** X21: [_count_unfilled] returns the indexes of the zeros of the area
    in increasing order, with their number. *)
Theorem count_unfilled_closed_form (area : list Z) :
  _count_unfilled area
  = let blanks := filter (λ k, area !! k = Some 0) (seq 0 (length area)) in
    (length blanks, blanks).
Proof.
  unfold _count_unfilled. rewrite count_unfilled_loop_closed. simpl.
  f_equal; [f_equal|]; apply filter_ext_in; intros k _; by rewrite Nat.sub_0_r.
Qed.

(** X22: [Board(size)] raises ValueError on a negative size (from
    [math.sqrt], before the assertion); on a square number k * k, small
    enough for the array of its tiles to be addressable, it builds the
    empty board of that size, with k as the side of a square area; and on
    a size that is not negative, not a square number and below 2^52 (where
    the floating-point root is exact) it raises AssertionError. *)
Theorem Board_new_iff_square (size : Z) :
  (size < 0 → Board_new size = Raise ValueError)
  ∧ (∀ k : nat, size = Z.of_nat (k * k) → size < 2 ^ 30 →
        Board_new size
        = Ok (mkBoard (k * k) k (replicate (k * k) (replicate (k * k) 0)) None []))
  ∧ (0 ≤ size < 2 ^ 52 → (¬ ∃ k : nat, size = Z.of_nat (k * k)) →
     Board_new size = Raise AssertionError).
Proof.
  unfold Board_new. split; [|split].
  - intros Hneg. by rewrite bool_decide_eq_true_2.
  - intros k -> _. rewrite bool_decide_eq_false_2 by lia. simpl.
    rewrite Nat2Z.id, Nat.sqrt_square. rewrite bool_decide_eq_true_2; [done|].
    simpl. lia.
  - intros [Hpos _] Hno. rewrite bool_decide_eq_false_2 by lia. simpl.
    rewrite bool_decide_eq_false_2; [done|]. intros Hsq. apply Hno.
    exists (Nat.sqrt (Z.to_nat size)). rewrite <- (Z2Nat.id size) at 1 by lia.
    f_equal. rewrite <- Hsq at 1. simpl. lia.
Qed.

(** * The digits of a number *)

Lemma count_digits_loop_step (num rv : Z) :
  _count_digits_loop num rv
  = if decide (0 < num) then _count_digits_loop (num / 10) (rv + 1) else rv.
Proof. rewrite _count_digits_loop_equation_1. by destruct (decide (0 < num)). Qed.

Lemma count_digits_loop_spec (num : Z) :
  0 ≤ num → ∀ rv, ∃ d, _count_digits_loop num rv = rv + d ∧ 0 ≤ d
                        ∧ (0 < num → 0 < d ∧ 10 ^ (d - 1) ≤ num < 10 ^ d)
                        ∧ (num = 0 → d = 0).
Proof.
  revert num. apply (Zlt_0_ind (λ num, ∀ rv, ∃ d, _ ∧ _ ∧ _ ∧ _)).
  intros num IH Hnum rv. rewrite count_digits_loop_step.
  destruct (decide (0 < num)) as [Hpos|Hzero].
  - assert (num / 10 < num) by (apply Z.div_lt; lia).
    assert (0 ≤ num / 10) by (apply Z.div_pos; lia).
    destruct (IH (num / 10) ltac:(lia) (rv + 1)) as (d & -> & Hd & Hbig & Hsmall).
    exists (d + 1). split; [lia|]. split; [lia|]. split; [|lia]. intros _. split; [lia|].
    replace (d + 1 - 1) with d by lia.
    destruct (decide (num / 10 = 0)) as [Hz|Hnz].
    + rewrite (Hsmall Hz). simpl. apply Z.div_small_iff in Hz; lia.
    + destruct (Hbig ltac:(lia)) as (Hdpos & Hlo & Hhi).
      replace d with (Z.succ (d - 1)) at 1 by lia. rewrite Z.pow_succ_r by lia.
      rewrite Z.pow_add_r by lia. change (10 ^ 1) with 10.
      pose proof (Z.div_mod num 10 ltac:(lia)).
      pose proof (Z.mod_pos_bound num 10 ltac:(lia)).
      nia.
  - exists 0. split; [lia|]. split; [lia|]. split; [lia|done].
Qed.

Lemma count_digits_spec (num : Z) :
  (num = 0 → _count_digits num = 1)
  ∧ (num < 0 → _count_digits num = 0)
  ∧ (0 < num → 0 < _count_digits num
               ∧ 10 ^ (_count_digits num - 1) ≤ num < 10 ^ _count_digits num).
Proof.
  unfold _count_digits. split; [by intros ->|]. split.
  - intros Hneg. rewrite bool_decide_eq_false_2 by lia.
    rewrite count_digits_loop_step. by rewrite decide_False by lia.
  - intros Hpos. rewrite bool_decide_eq_false_2 by lia.
    destruct (count_digits_loop_spec num ltac:(lia) 0) as (d & -> & _ & Hbig & _).
    by apply Hbig.
Qed.

(** X23: [_count_digits] returns 1 on 0, 0 on a negative number, and on a
    positive number the number [d] of its decimal digits:
    10^(d-1) <= num < 10^d. *)
Theorem count_digits_bounds (num : Z) :
  (num = 0 → _count_digits num = 1)
  ∧ (num < 0 → _count_digits num = 0)
  ∧ (0 < num → 0 < _count_digits num
               ∧ 10 ^ (_count_digits num - 1) ≤ num < 10 ^ _count_digits num).
Proof. apply count_digits_spec. Qed.

(** * A solver without restarts *)

(** X24: with [max_restarts = 0] on a loaded board with an eligible row,
    [try_solve] runs no restart: it returns the result (inf, inf) with no
    board and no recorded result, the solver it leaves holds no board,
    and a second [try_solve] raises AttributeError. *)
Theorem no_restart_loses_the_board {G : Type} `{RandomSource G} (M : @Methods G)
    (s : Solver) (board : Board) (init : matrix) (g : G) :
  solver_board s = Some board → _board_init board = Some init →
  unfilled_by_row board ≠ [] → _max_restarts s = 0%nat →
  ∃ s',
    try_solve M s g = Ok (mkSolution None (mkResult INFINITY INFINITY), s', g)
    ∧ solver_board s' = None ∧ all_results s' = []
    ∧ ∀ g', try_solve M s' g' = Raise AttributeError.
Proof.
  intros Hboard Hi Hne HR.
  exists (mkSolver None (_max_iter s) (_max_restarts s) (_stop_if_found s)
                   (_board_size s) []).
  split; [|done]. unfold try_solve, reset, _solve. rewrite Hboard, Hi. simpl.
  unfold unfilled_by_row in *. simpl.
  rewrite bool_decide_eq_false_2 by (by destruct (_unfilled board)).
  by rewrite HR.
Qed.

Lemma no_restart_loses_the_board_witness :
  ∃ s',
    try_solve (PaperBetaHC (mkBetaHC (Solver_new board4 0 5 false) (1 # 4) (1 # 20)))
              (Solver_new board4 0 5 false) [1; 2; 3]%N
    = Ok (mkSolution None (mkResult INFINITY INFINITY), s', [1; 2; 3]%N)
    ∧ solver_board s' = None.
Proof.
  destruct (no_restart_loses_the_board
              (PaperBetaHC (mkBetaHC (Solver_new board4 0 5 false) (1 # 4) (1 # 20)))
              (Solver_new board4 0 5 false) board4 init4 [1; 2; 3]%N
              eq_refl eq_refl ltac:(discriminate) eq_refl)
    as (s' & Hrun & Hnone & _).
  by exists s'.
Defined.

(** * Columns and squares hold every tile once *)

Lemma div_mod_pair (k a r : nat) :
  (r < k)%nat → ((a * k + r) / k = a ∧ (a * k + r) mod k = r)%nat.
Proof.
  intros Hr. split; symmetry.
  - apply (Nat.div_unique _ _ _ r); [done|lia].
  - apply (Nat.mod_unique _ _ a); [done|lia].
Qed.

Lemma split_index (k i : nat) :
  (0 < k)%nat → (i = i / k * k + i mod k ∧ i mod k < k)%nat.
Proof.
  intros Hk. pose proof (Nat.div_mod_eq i k). pose proof (Nat.mod_upper_bound i k). lia.
Qed.

(** Two square arrays whose cells correspond under a one-to-one map of
    the positions hold the same tiles, each as often. *)
Lemma concat_Permutation_cells (size : nat) (m1 m2 : matrix) (f : nat * nat → nat * nat) :
  shaped size m1 → shaped size m2 →
  (∀ y x, (y < size)%nat → (x < size)%nat →
          ((f (y, x)).1 < size)%nat ∧ ((f (y, x)).2 < size)%nat
          ∧ cell m1 y x = cell m2 (f (y, x)).1 (f (y, x)).2) →
  (∀ y x y' x', (y < size)%nat → (x < size)%nat → (y' < size)%nat → (x' < size)%nat →
                f (y, x) = f (y', x') → (y, x) = (y', x')) →
  concat m1 ≡ₚ concat m2.
Proof.
  intros [Hl1 Hr1] [Hl2 Hr2] Hcell Hinj.
  destruct (decide (size = 0)%nat) as [->|Hpos].
  { destruct m1, m2; simpl in *; try lia. done. }
  apply Permutation_inj. split.
  { rewrite !(length_concat_uniform size) by done. lia. }
  set (F := λ i, if decide (i < size * size)%nat
                 then ((f (i / size, i mod size)%nat).1 * size
                       + (f (i / size, i mod size)%nat).2)%nat
                 else i).
  assert (∀ i, (i < size * size)%nat →
            (i / size < size)%nat ∧ (i mod size < size)%nat) as Hsplit.
  { intros i Hi. split; [apply Nat.Div0.div_lt_upper_bound; lia|].
    apply Nat.mod_upper_bound. lia. }
  assert (∀ i, (i < size * size)%nat → (F i < size * size)%nat) as Hrange.
  { intros i Hi. unfold F. rewrite decide_True by done.
    destruct (Hsplit i Hi) as [Hy Hx]. destruct (Hcell _ _ Hy Hx) as (Hy' & Hx' & _). nia. }
  exists F. split.
  - intros i j Hij.
    destruct (decide (i < size * size)%nat) as [Hi|Hi],
             (decide (j < size * size)%nat) as [Hj|Hj].
    + unfold F in Hij. rewrite !decide_True in Hij by done.
      destruct (Hsplit i Hi) as [Hyi Hxi], (Hsplit j Hj) as [Hyj Hxj].
      destruct (Hcell _ _ Hyi Hxi) as (_ & Hxi' & _).
      destruct (Hcell _ _ Hyj Hxj) as (_ & Hxj' & _).
      assert (f (i / size, i mod size)%nat = f (j / size, j mod size)%nat) as Hf.
      { destruct (f (i / size, i mod size)%nat) as [a c],
                 (f (j / size, j mod size)%nat) as [a' c']. simpl in *.
        destruct (div_mod_pair size a c Hxi') as [Ha Hc].
        destruct (div_mod_pair size a' c' Hxj') as [Ha' Hc'].
        rewrite Hij in Ha, Hc. congruence. }
      apply Hinj in Hf; [|done..]. injection Hf as Hy Hx.
      destruct (split_index size i ltac:(lia)) as [-> _].
      destruct (split_index size j ltac:(lia)) as [-> _]. by rewrite Hy, Hx.
    + specialize (Hrange i Hi). unfold F in Hij at 2. rewrite decide_False in Hij by done. lia.
    + specialize (Hrange j Hj). unfold F in Hij at 1. rewrite decide_False in Hij by done. lia.
    + unfold F in Hij. by rewrite !decide_False in Hij by done.
  - intros i. unfold F. case_decide as Hi.
    + destruct (Hsplit i Hi) as [Hy Hx]. destruct (Hcell _ _ Hy Hx) as (Hy' & Hx' & Hc).
      rewrite (lookup_concat_uniform size m2) by done.
      destruct (split_index size i ltac:(lia)) as [Heq _]. rewrite Heq at 1.
      rewrite (lookup_concat_uniform size m1) by done. exact Hc.
    + rewrite !lookup_ge_None_2; [done|..];
        rewrite (length_concat_uniform size) by done; nia.
Qed.

(** X25: on a well-formed board the columns that [check] reads, put
    together, and the squares that [squares] yields, put together, are
    each a rearrangement of the tiles of the board: every tile lies in
    exactly one column and in exactly one square. *)
Theorem areas_hold_every_tile_once (b : Board) :
  well_formed b →
  ∃ cols, columns_of (_size b) (_board b) = Ok cols
          ∧ concat cols ≡ₚ concat (_board b)
          ∧ concat (squares b) ≡ₚ concat (_board b).
Proof.
  intros Hwf. pose proof Hwf as [Hshape Hsq].
  destruct (columns_of_shaped _ _ Hshape) as (cols & Hcols & Hclen & Hcrows & Hccell).
  destruct (squares_lengths _ Hwf) as [Hqlen Hqrows].
  exists cols. split; [done|]. split.
  - apply (concat_Permutation_cells (_size b) _ _ (λ p, (p.2, p.1))); [done|done| |].
    + intros y x Hy Hx. simpl. by rewrite Hccell.
    + intros y x y' x' _ _ _ _ [= -> ->]. done.
  - set (sq := _size_sq b) in *.
    apply (concat_Permutation_cells (_size b) _ _
             (λ p, ((p.1 mod sq) * sq + p.2 / sq, (p.1 / sq) * sq + p.2 mod sq)%nat));
      [done|done| |].
    + intros s t Hs Ht. simpl.
      assert (0 < sq)%nat as Hpos by nia.
      destruct (split_index sq s Hpos) as [Hseq Hsm].
      destruct (split_index sq t Hpos) as [Hteq Htm].
      assert (s / sq < sq)%nat as Hsd by (apply Nat.Div0.div_lt_upper_bound; lia).
      assert (t / sq < sq)%nat as Htd by (apply Nat.Div0.div_lt_upper_bound; lia).
      split; [nia|]. split; [nia|].
      rewrite Hseq at 1. rewrite Hteq at 1. by apply squares_cells.
    + intros s t s' t' Hs Ht Hs' Ht' [= Hy Hx].
      assert (0 < sq)%nat as Hpos by nia.
      destruct (split_index sq s Hpos) as [Hseq Hsm].
      destruct (split_index sq t Hpos) as [Hteq Htm].
      destruct (split_index sq s' Hpos) as [Hseq' Hsm'].
      destruct (split_index sq t' Hpos) as [Hteq' Htm'].
      assert (t / sq < sq)%nat as Htd by (apply Nat.Div0.div_lt_upper_bound; lia).
      assert (t' / sq < sq)%nat as Htd' by (apply Nat.Div0.div_lt_upper_bound; lia).
      destruct (div_mod_pair sq (s mod sq) (t / sq) Htd) as [H1 H2].
      destruct (div_mod_pair sq (s' mod sq) (t' / sq) Htd') as [H1' H2'].
      destruct (div_mod_pair sq (s / sq) (t mod sq) Htm) as [H3 H4].
      destruct (div_mod_pair sq (s' / sq) (t' mod sq) Htm') as [H3' H4'].
      rewrite Hy in H1, H2. rewrite Hx in H3, H4.
      rewrite Hseq, Hteq, Hseq', Hteq'. f_equal; congruence.
Qed.

Lemma areas_hold_every_tile_once_witness :
  ∃ cols, columns_of 4 init4 = Ok cols
          ∧ concat cols ≡ₚ concat init4 ∧ concat (squares board4) ≡ₚ concat init4.
Proof. exact (areas_hold_every_tile_once board4 well_formed_board4). Defined.

(** * Parsing what was written *)

Lemma digit_of_pretty_N_char (d : N) :
  (d < 10)%N →
  digit_of (pretty_N_char d) = Some (Z.of_N d) ∧ is_space (pretty_N_char d) = false
  ∧ pretty_N_char d ≠ "+"%char ∧ pretty_N_char d ≠ "-"%char.
Proof.
  intros Hd.
  assert (d = 0 ∨ d = 1 ∨ d = 2 ∨ d = 3 ∨ d = 4 ∨ d = 5 ∨ d = 6 ∨ d = 7 ∨ d = 8 ∨ d = 9)%N
    as Hcases by lia.
  repeat (destruct Hcases as [->|Hcases]); try subst d; by vm_compute.
Qed.

(** The numeral of a positive number: [int] reads the number back from
    it, it starts with a digit and consists of digits. *)
Lemma pretty_N_go_spec (x : N) :
  (0 < x)%N →
  ∃ p, 0 < p
       ∧ (∀ s acc b, int_digits acc b (pretty_N_go x s)
                     = int_digits (acc * p + Z.of_N x) true s)
       ∧ (∀ s, ∃ c rest, pretty_N_go x s = String c rest ∧ digit_of c ≠ None
                         ∧ c ≠ "+"%char ∧ c ≠ "-"%char)
       ∧ (∀ s, all_digits s → all_digits (pretty_N_go x s)).
Proof.
  induction (N.lt_wf_0 x) as [x _ IH]. intros Hpos.
  assert (x `mod` 10 < 10)%N as Hmod by (apply N.mod_lt; lia).
  destruct (digit_of_pretty_N_char _ Hmod) as (Hdigit & Hspace & Hplus & Hminus).
  pose proof (N.div_mod x 10 ltac:(lia)) as Hx.
  destruct (decide (x `div` 10 = 0)%N) as [Hz|Hnz].
  - exists 10. split; [lia|]. split; [|split].
    + intros s acc b. rewrite pretty_N_go_step, Hz, pretty_N_go_0 by done. simpl.
      rewrite Hdigit. f_equal. lia.
    + intros s. rewrite pretty_N_go_step, Hz, pretty_N_go_0 by done.
      eexists _, _. split; [done|]. split; [by rewrite Hdigit|done].
    + intros s Hs. rewrite pretty_N_go_step, Hz, pretty_N_go_0 by done. simpl.
      split; [by rewrite Hdigit|done].
  - destruct (IH (x `div` 10)%N) as (p & Hp & Hval & Hhead & Hall).
    { apply N.div_lt; lia. }
    { lia. }
    exists (10 * p). split; [lia|]. split; [|split].
    + intros s acc b. rewrite pretty_N_go_step, Hval by done. simpl.
      rewrite Hdigit. f_equal. lia.
    + intros s. rewrite pretty_N_go_step by done. apply Hhead.
    + intros s Hs. rewrite pretty_N_go_step by done. apply Hall. simpl.
      split; [by rewrite Hdigit|done].
Qed.

Lemma all_digits_no_space (s : string) : all_digits s → no_space s.
Proof. induction s as [|c s IH]; [done|]. intros (_ & Hc & Hs). split; auto. Qed.

Lemma append_cons (c : ascii) (s t : string) : String c s +:+ t = String c (s +:+ t).
Proof. done. Qed.

Lemma append_assoc (s t u : string) : (s +:+ t) +:+ u = s +:+ (t +:+ u).
Proof. induction s as [|c s IH]; [done|]. by rewrite !append_cons, IH. Qed.

Lemma append_empty (s : string) : s +:+ EmptyString = s.
Proof. induction s as [|c s IH]; [done|]. by rewrite append_cons, IH. Qed.

(** [split] runs over a token without white space. *)
Lemma split_ws_token (t : string) :
  no_space t → ∀ cur text, split_ws cur (t +:+ text) = split_ws (cur +:+ t) text.
Proof.
  induction t as [|c t IH]; intros Ht cur text.
  - by rewrite append_empty.
  - destruct Ht as [Hc Ht]. rewrite append_cons. simpl split_ws. rewrite Hc.
    rewrite IH by done. by rewrite append_assoc, append_cons.
Qed.

Lemma split_ws_space (cur rest : string) :
  split_ws cur (String " "%char rest)
  = (if bool_decide (cur = EmptyString) then [] else [cur]) ++ split_ws EmptyString rest.
Proof. done. Qed.

(** [split] gives back the tokens that were joined with blanks, also
    before a line feed. *)
Lemma split_ws_join (tokens : list string) (ending : string) :
  ending = EmptyString ∨ ending = line_feed →
  Forall (λ t, no_space t ∧ t ≠ EmptyString) tokens →
  split_ws EmptyString (String.concat " " tokens +:+ ending) = tokens.
Proof.
  intros Hend. induction 1 as [|t tokens [Ht Hne] Hrest IH].
  { by destruct Hend as [-> | ->]. }
  destruct tokens as [|t2 tokens].
  - change (String.concat " " [t]) with t.
    rewrite split_ws_token by done. change (EmptyString +:+ t) with t.
    destruct Hend as [-> | ->]; simpl; by rewrite bool_decide_eq_false_2.
  - change (String.concat " " (t :: t2 :: tokens))
      with (t +:+ String " "%char (String.concat " " (t2 :: tokens))).
    rewrite append_assoc, append_cons.
    rewrite split_ws_token by done. change (EmptyString +:+ t) with t.
    rewrite split_ws_space, IH. by rewrite bool_decide_eq_false_2.
Qed.

Lemma digit_count_length (s : string) :
  0 ≤ digit_count s ≤ Z.of_nat (String.length s).
Proof.
  induction s as [|c s IH]; [done|]. simpl digit_count. simpl String.length.
  destruct (digit_of c); lia.
Qed.

Lemma length_append (s t : string) :
  String.length (s +:+ t) = (String.length s + String.length t)%nat.
Proof. induction s as [|c s IH]; [done|]. rewrite append_cons. simpl. by rewrite IH. Qed.

Lemma count_digits_loop_shift (num : Z) :
  0 ≤ num → ∀ rv, _count_digits_loop num rv = rv + _count_digits_loop num 0.
Proof.
  revert num. apply (Zlt_0_ind (λ num, ∀ rv, _)).
  intros num IH Hnum rv. rewrite (count_digits_loop_step num rv), (count_digits_loop_step num 0).
  destruct (decide (0 < num)) as [Hpos|Hzero]; [|lia].
  assert (num / 10 < num) by (apply Z.div_lt; lia).
  assert (0 ≤ num / 10) by (apply Z.div_pos; lia).
  rewrite (IH (num / 10) ltac:(lia) (rv + 1)), (IH (num / 10) ltac:(lia) (0 + 1)). lia.
Qed.

Lemma length_pretty_N_go (x : N) :
  (0 < x)%N → ∀ s,
  Z.of_nat (String.length (pretty_N_go x s))
  = _count_digits_loop (Z.of_N x) 0 + Z.of_nat (String.length s).
Proof.
  induction (N.lt_wf_0 x) as [x _ IH]. intros Hpos s.
  rewrite pretty_N_go_step by done. rewrite count_digits_loop_step.
  rewrite decide_True by lia.
  rewrite count_digits_loop_shift by (apply Z.div_pos; lia).
  replace (Z.of_N x / 10) with (Z.of_N (x `div` 10)) by (by rewrite N2Z.inj_div).
  destruct (decide (x `div` 10 = 0)%N) as [Hz|Hnz].
  - rewrite Hz, pretty_N_go_0. simpl String.length.
    rewrite (count_digits_loop_step (Z.of_N 0)), decide_False by (simpl; lia). lia.
  - assert (x `div` 10 < x)%N as Hlt by (apply N.div_lt; [lia|done]).
    assert (0 < x `div` 10)%N as Hpos' by (by apply N.neq_0_lt_0).
    rewrite (IH _ Hlt Hpos'). simpl String.length. lia.
Qed.

Lemma length_pretty (num : Z) :
  0 ≤ num → Z.of_nat (String.length (pretty num)) = _count_digits num.
Proof.
  intros Hnum. destruct num as [|p|p]; [done| |lia].
  change (pretty (Z.pos p)) with (pretty (N.pos p)). unfold pretty, pretty_N, _count_digits.
  rewrite decide_False by done. rewrite bool_decide_eq_false_2 by done.
  rewrite length_pretty_N_go by lia. simpl. lia.
Qed.

(** The numeral of a readable number is within the limit of [int]. *)
Lemma digit_count_pretty (p : positive) :
  readable (Z.pos p) → digit_count (pretty (N.pos p)) ≤ int_max_str_digits.
Proof.
  unfold readable. intros Hp.
  pose proof (digit_count_length (pretty (N.pos p))) as [_ Hlen].
  change (pretty (N.pos p)) with (pretty (Z.pos p)) in *.
  rewrite length_pretty in Hlen by lia.
  destruct (count_digits_spec (Z.pos p)) as (_ & _ & Hd).
  destruct (Hd ltac:(lia)) as (Hpos & Hlo & _).
  assert (_count_digits (Z.pos p) - 1 < int_max_str_digits); [|lia].
  apply (Z.pow_lt_mono_r_iff 10); [lia|done|]. simpl Z.abs in Hp. lia.
Qed.

Lemma int64_readable (v : Z) : int64 v → readable v.
Proof.
  unfold int64, readable. intros Hv.
  assert (2 ^ 63 < 10 ^ 19) by done.
  assert (10 ^ 19 ≤ 10 ^ int_max_str_digits) by (by apply Z.pow_le_mono_r).
  lia.
Qed.

(** [int] reads every readable integer back from its numeral. *)
Lemma pretty_Z_token (z : Z) :
  (readable z → convert_safe (pretty z) = Some z)
  ∧ no_space (pretty z) ∧ pretty z ≠ EmptyString.
Proof.
  destruct z as [|p|p].
  - split; [by intros _; vm_compute|by vm_compute].
  - change (pretty (Z.pos p)) with (pretty (N.pos p)).
    pose proof (digit_count_pretty p) as Hcount.
    unfold pretty, pretty_N in *.
    rewrite decide_False in * by done.
    destruct (pretty_N_go_spec (N.pos p) ltac:(lia)) as (q & Hq & Hval & Hhead & Hall).
    destruct (Hhead EmptyString) as (c & rest & Heq & Hc & Hplus & Hminus).
    split; [|split].
    + intros Hr. unfold convert_safe. rewrite bool_decide_eq_true_2 by auto.
      rewrite Heq.
      assert (int_digits 0 false (String c rest) = Some (Z.pos p)) as Hint.
      { rewrite <- Heq, Hval. by simpl. }
      destruct c as [[] [] [] [] [] [] [] []]; try done.
    + apply all_digits_no_space, Hall. done.
    + by rewrite Heq.
  - change (pretty (Z.neg p)) with ("-" +:+ pretty (N.pos p)).
    pose proof (digit_count_pretty p) as Hcount.
    unfold pretty, pretty_N in *.
    rewrite decide_False in * by done.
    destruct (pretty_N_go_spec (N.pos p) ltac:(lia)) as (q & Hq & Hval & Hhead & Hall).
    split; [|split].
    + intros Hr. rewrite append_cons. change (EmptyString +:+ ?s) with s.
      unfold convert_safe. rewrite bool_decide_eq_true_2.
      * rewrite Hval. by simpl.
      * simpl digit_count. apply Hcount. by unfold readable in *.
    + rewrite append_cons. split; [done|]. apply all_digits_no_space, Hall. done.
    + done.
Qed.

Lemma filter_all {A} (P : A → Prop) `{∀ x, Decision (P x)} (l : list A) :
  Forall P l → filter P l = l.
Proof.
  induction 1 as [|x l Hx _ IH]; [done|]. by rewrite filter_cons_True, IH.
Qed.

Lemma parse_rendered (row : list Z) (ending : string) :
  ending = EmptyString ∨ ending = line_feed → Forall readable row →
  _try_convert_seq (render_line row +:+ ending) = Some <$> row.
Proof.
  intros Hend Hrow. unfold _try_convert_seq, render_line. rewrite split_ws_join; [|done|].
  - rewrite filter_all.
    + rewrite <- list_fmap_compose. apply Forall_fmap_ext_1.
      eapply Forall_impl; [exact Hrow|]. intros z Hz. simpl. by apply pretty_Z_token.
    + apply Forall_fmap, Forall_true. intros z. apply pretty_Z_token.
  - apply Forall_fmap, Forall_true. intros z. simpl. split; apply pretty_Z_token.
Qed.

(** X26: [_try_convert_seq] on a line that holds integers as decimal
    numerals separated by single blanks, with or without the line feed,
    returns these integers, none of them [None], when each numeral has at
    most [int_max_str_digits] digits; so a file of [size] such lines of
    [size] 64-bit integers each loads: [set_init_state] returns [True] and
    the integers written are the board and the snapshot. *)
Theorem load_of_a_written_grid (b : Board) (m : matrix) :
  length (_board b) = _size b → shaped (_size b) m → fits_int64 m →
  (∀ row ending, ending = EmptyString ∨ ending = line_feed → Forall readable row →
                 _try_convert_seq (render_line row +:+ ending) = Some <$> row)
  ∧ set_init_state b (Some ((λ row, render_line row +:+ line_feed) <$> m))
    = Ok (true, mkBoard (_size b) (_size_sq b) m (Some m)
                  (init_unfilled 0 m (_unfilled b))).
Proof.
  intros Hlen [Hml Hmrows] Hfit. split; [apply parse_rendered|].
  assert (Forall (Forall readable) m) as Hread.
  { eapply Forall_impl; [exact Hfit|]. intros row Hrow.
    eapply Forall_impl; [exact Hrow|]. apply int64_readable. }
  set (lines := (λ row, render_line row +:+ line_feed) <$> m).
  assert (parse_rows lines = m) as Hparse.
  { unfold parse_rows, lines. rewrite <- list_fmap_compose.
    rewrite <- (list_fmap_id m) at 2. apply Forall_fmap_ext_1.
    eapply Forall_impl; [exact Hread|]. intros row Hrow. simpl.
    rewrite parse_rendered by (done || by right). rewrite <- list_fmap_compose.
    rewrite <- (list_fmap_id row) at 2. by apply list_fmap_ext. }
  destruct (load_cases b lines Hlen) as (Hload & _).
  rewrite Hload, Hparse; [done|]. split; [by unfold lines; rewrite length_fmap|].
  unfold lines. apply Forall_fmap, Forall_forall. intros row Hrow. simpl.
  unfold good_line. rewrite Forall_forall in Hread.
  rewrite parse_rendered by (by right || by apply Hread).
  split.
  - intros Hnone. apply list_elem_of_fmap in Hnone as (z & Hz & _). done.
  - rewrite length_fmap. rewrite Forall_forall in Hmrows. by apply Hmrows.
Qed.

Lemma load_of_a_written_grid_witness :
  set_init_state empty_board4 (Some ((λ row, render_line row +:+ line_feed) <$> init4))
  = Ok (true, board4).
Proof.
  destruct (load_of_a_written_grid empty_board4 init4 eq_refl) as [_ Hload].
  - split; [done|]. by repeat constructor.
  - repeat constructor; by_decision.
  - rewrite Hload. reflexivity.
Defined.

(** * Printing the board *)

Lemma length_str_mul (c : ascii) (k : Z) :
  String.length (str_mul (String c EmptyString) k) = Z.to_nat k.
Proof.
  unfold str_mul. induction (Z.to_nat k) as [|n IH]; [done|].
  simpl replicate. destruct n as [|n]; [done|].
  change (String.concat EmptyString (String c EmptyString :: replicate (S n) (String c EmptyString)))
    with (String c EmptyString +:+ EmptyString
          +:+ String.concat EmptyString (replicate (S n) (String c EmptyString))).
  rewrite !length_append, IH. simpl. done.
Qed.

Lemma offset_number_length (max_digits num : Z) :
  0 ≤ num → _count_digits num ≤ max_digits →
  Z.of_nat (String.length (_offset_number max_digits num)) = max_digits
  ∧ ∃ left right,
      _offset_number max_digits num = str_mul " " left +:+ pretty num +:+ str_mul " " right
      ∧ 0 ≤ right ≤ left ≤ right + 1
      ∧ left + right = max_digits - _count_digits num.
Proof.
  intros Hnum Hfit. unfold _offset_number.
  set (rest := max_digits - _count_digits num).
  assert (0 ≤ rest) as Hrest by (unfold rest; lia).
  pose proof (Z.div_mod rest 2 ltac:(lia)) as Hdm.
  pose proof (Z.mod_pos_bound rest 2 ltac:(lia)) as Hm.
  pose proof (Z.div_mod (rest + 1) 2 ltac:(lia)) as Hdm1.
  pose proof (Z.mod_pos_bound (rest + 1) 2 ltac:(lia)) as Hm1.
  split.
  - rewrite !length_append, !length_str_mul.
    rewrite !Nat2Z.inj_add, length_pretty by done. fold rest. lia.
  - exists ((rest + 1) / 2), (rest / 2). split; [done|]. lia.
Qed.

(** X27: [_offset_number] on a number that is not negative and has at
    most [max_digits] digits returns a text of [max_digits] characters:
    the numeral between blanks, as many on the left as on the right, or
    one more on the left. *)
Theorem offset_number_width (max_digits num : Z) :
  0 ≤ num → _count_digits num ≤ max_digits →
  Z.of_nat (String.length (_offset_number max_digits num)) = max_digits
  ∧ ∃ left right,
      _offset_number max_digits num = str_mul " " left +:+ pretty num +:+ str_mul " " right
      ∧ 0 ≤ right ≤ left ≤ right + 1
      ∧ left + right = max_digits - _count_digits num.
Proof. apply offset_number_length. Qed.

Lemma offset_number_width_witness :
  String.length (_offset_number 3 7) = 3%nat.
Proof.
  destruct (offset_number_width 3 7 ltac:(lia) ltac:(by vm_compute)) as [Hwidth _].
  lia.
Defined.

Lemma succ_div (k sq : nat) :
  (0 < sq)%nat →
  (S k / sq = k / sq + (if bool_decide (k mod sq = sq - 1) then 1 else 0))%nat.
Proof.
  intros Hsq. destruct (split_index sq k Hsq) as [Hk Hr].
  case_bool_decide as Hend.
  - symmetry. apply (Nat.div_unique _ _ _ 0); lia.
  - symmetry. apply (Nat.div_unique _ _ _ (S (k mod sq))); lia.
Qed.

Lemma count_digits_mono (x y : Z) :
  0 ≤ x ≤ y → 0 < y → _count_digits x ≤ _count_digits y.
Proof.
  intros Hxy Hy.
  destruct (count_digits_spec y) as (_ & _ & Hby). destruct (Hby Hy) as [Hdy [_ Hyhi]].
  destruct (decide (x = 0)) as [->|Hx].
  { change (_count_digits 0) with 1. lia. }
  destruct (count_digits_spec x) as (_ & _ & Hbx).
  destruct (Hbx ltac:(lia)) as [Hdx [Hxlo _]].
  assert (10 ^ (_count_digits x - 1) < 10 ^ _count_digits y) as Hpow by lia.
  apply Z.pow_lt_mono_r_iff in Hpow; lia.
Qed.

Lemma hidden_blanks_cons (display_blank : bool) (x : Z) (line : list Z) :
  hidden_blanks display_blank (x :: line)
  = (hidden_blanks display_blank line
     + (if bool_decide (x ≠ 0%Z) || display_blank then 0 else 1))%nat.
Proof.
  unfold hidden_blanks. destruct display_blank; [by rewrite orb_true_r|].
  rewrite orb_false_r, filter_cons. destruct (decide (x = 0)) as [->|Hx].
  - rewrite bool_decide_eq_false_2 by (by intros ?). simpl. lia.
  - rewrite bool_decide_eq_true_2 by done. lia.
Qed.

Section PrintLine.
Variables (sq : nat) (display_blank : bool) (md : Z).
Hypothesis Hsq : (0 < sq)%nat.

Lemma print_line_loop (line : list Z) :
  (∀ x, x ∈ line → 0 ≤ x ∧ _count_digits x ≤ md) →
  ∀ (i0 : nat) (acc : string),
    ∃ text,
      for_each (λ to_print '(i, x),
                  if bool_decide (sq = 0%nat) then Raise ZeroDivisionError
                  else
                    let dlm := if bool_decide (i mod sq = sq - 1)%nat
                               then "| " else EmptyString in
                    let val := if bool_decide (x ≠ 0) || display_blank
                               then _offset_number md x else " " in
                    Ok (to_print +:+ val +:+ " " +:+ dlm))
               (zip (seq i0 (length line)) line) acc = Ok text
      ∧ Z.of_nat (String.length text)
        = Z.of_nat (String.length acc) + (md + 1) * Z.of_nat (length line)
          - (md - 1) * Z.of_nat (hidden_blanks display_blank line)
          + 2 * (Z.of_nat ((i0 + length line) / sq) - Z.of_nat (i0 / sq)).
Proof.
  induction line as [|x line IH]; intros Hline i0 acc.
  - exists acc. split; [done|]. unfold hidden_blanks. simpl.
    rewrite Nat.add_0_r. destruct display_blank; simpl; lia.
  - destruct (Hline x ltac:(by left)) as [Hx Hfit].
    set (dlm := if bool_decide (i0 mod sq = sq - 1)%nat then "| " else EmptyString).
    set (val := if bool_decide (x ≠ 0) || display_blank
                then _offset_number md x else " ").
    destruct (IH (λ y Hy, Hline y (list_elem_of_further _ _ _ Hy)) (S i0)
                 (acc +:+ val +:+ " " +:+ dlm)) as (text & Hrun & Hlen).
    exists text. split.
    { cbn [for_each zip zip_with seq length].
      rewrite (bool_decide_eq_false_2 (sq = 0%nat)) at 1 by lia. exact Hrun. }
    rewrite Hlen. rewrite !length_append.
    replace (i0 + length (x :: line))%nat with (S i0 + length line)%nat by (simpl; lia).
    rewrite (succ_div i0 sq Hsq), hidden_blanks_cons.
    assert (Z.of_nat (String.length val)
            = if bool_decide (x ≠ 0) || display_blank then md else 1) as Hval.
    { unfold val. destruct (bool_decide (x ≠ 0) || display_blank); [|done].
      by destruct (offset_number_length md x Hx Hfit) as [-> _]. }
    assert (Z.of_nat (String.length dlm)
            = 2 * Z.of_nat (if bool_decide (i0 mod sq = sq - 1)%nat then 1 else 0)) as Hdlm.
    { unfold dlm. destruct (bool_decide (i0 mod sq = sq - 1)%nat); reflexivity. }
    simpl length. simpl String.length. rewrite !Nat2Z.inj_add, Hval, Hdlm.
    destruct (bool_decide (x ≠ 0) || display_blank),
             (bool_decide (i0 mod sq = sq - 1)%nat); simpl Z.of_nat; lia.
Qed.

End PrintLine.

Lemma count_digits_size (size : nat) (x : Z) :
  (0 < size)%nat → 0 ≤ x ≤ Z.of_nat size →
  1 ≤ _count_digits (Z.of_nat size)
  ∧ _count_digits x ≤ _count_digits (Z.of_nat size).
Proof.
  intros Hsize Hx. split.
  - destruct (count_digits_spec (Z.of_nat size)) as (_ & _ & Hb).
    destruct (Hb ltac:(lia)) as [? _]. lia.
  - apply count_digits_mono; lia.
Qed.

Lemma length_dlm (size sq : nat) (md : Z) :
  0 ≤ md →
  Z.of_nat (String.length (_print_dlm_horizontal size sq md))
  = Z.of_nat size * (1 + md) + Z.of_nat sq * 2 + 1.
Proof. intros Hmd. unfold _print_dlm_horizontal. rewrite length_str_mul. nia. Qed.

Lemma print_line_run (b : Board) (display_blank : bool) (line : list Z) :
  (0 < _size b)%nat → _size b = (_size_sq b * _size_sq b)%nat →
  length line = _size b → (∀ x, x ∈ line → 0 ≤ x ≤ Z.of_nat (_size b)) →
  ∃ text,
    _print_line (_size_sq b) display_blank (_count_digits (Z.of_nat (_size b))) line
    = Ok text
    ∧ Z.of_nat (String.length text)
      = Z.of_nat (String.length
                    (_print_dlm_horizontal (_size b) (_size_sq b)
                                           (_count_digits (Z.of_nat (_size b))))) + 1
        - (_count_digits (Z.of_nat (_size b)) - 1)
          * Z.of_nat (hidden_blanks display_blank line).
Proof.
  intros Hpos Hsq Hlen Htiles.
  set (md := _count_digits (Z.of_nat (_size b))).
  assert (1 ≤ md) as Hmd by (by apply (count_digits_size (_size b) 0); [|lia]).
  assert (0 < _size_sq b)%nat as Hsqpos by nia.
  destruct (print_line_loop (_size_sq b) display_blank md Hsqpos line) with
    (i0 := 0%nat) (acc := "| ") as (text & Hrun & Hwidth).
  { intros x Hx. specialize (Htiles x Hx). split; [lia|].
    by apply count_digits_size. }
  exists text. split; [exact Hrun|].
  rewrite Hwidth, length_dlm by lia. rewrite Hlen. simpl (0 + _)%nat.
  assert (_size b / _size_sq b = _size_sq b)%nat as ->.
  { rewrite Hsq at 1. apply Nat.div_mul. lia. }
  rewrite Nat.Div0.div_0_l. simpl String.length. lia.
Qed.

(** X28: [_print_line] on a row of a well-formed board of positive size
    whose tiles are values of 0..size returns a text that is one
    character longer than the line of [_print_dlm_horizontal], less
    [max_digits - 1] characters for each zero that is printed as one
    blank: the rows are aligned with the delimiter when the blanks are
    displayed, when the size is below 10, and in a row without a zero. *)
Theorem print_line_width (b : Board) (display_blank : bool) (line : list Z) :
  (0 < _size b)%nat → _size b = (_size_sq b * _size_sq b)%nat →
  length line = _size b → (∀ x, x ∈ line → 0 ≤ x ≤ Z.of_nat (_size b)) →
  ∃ text,
    _print_line (_size_sq b) display_blank (_count_digits (Z.of_nat (_size b))) line
    = Ok text
    ∧ Z.of_nat (String.length text)
      = Z.of_nat (String.length
                    (_print_dlm_horizontal (_size b) (_size_sq b)
                                           (_count_digits (Z.of_nat (_size b))))) + 1
        - (_count_digits (Z.of_nat (_size b)) - 1)
          * Z.of_nat (hidden_blanks display_blank line).
Proof. apply print_line_run. Qed.

Lemma print_line_width_witness :
  ∃ text,
    _print_line 2 false 1 [0; 0; 3; 4] = Ok text
    ∧ Z.of_nat (String.length text)
      = Z.of_nat (String.length (_print_dlm_horizontal 4 2 1)) + 1.
Proof.
  destruct (print_line_width board4 false [0; 0; 3; 4] ltac:(simpl; lia) eq_refl eq_refl)
    as (text & Hrun & Hwidth).
  - intros x Hx. simpl.
    repeat (apply elem_of_cons in Hx as [->|Hx]; [lia|]). by apply elem_of_nil in Hx.
  - exists text. split; [exact Hrun|]. rewrite Hwidth. by vm_compute.
Defined.

Section PrintBoard.
Variables (b : Board) (display_blank : bool).
Hypothesis Hsq : (0 < _size_sq b)%nat.

Lemma print_loop (rows : matrix) :
  Forall (λ line, ∃ text, _print_line (_size_sq b) display_blank
                            (_count_digits (Z.of_nat (_size b))) line = Ok text) rows →
  ∀ (i0 : nat) (out : list string),
    (1 ≤ i0)%nat →
    ∃ added,
      for_each (λ out '(i, line),
                  text ← _print_line (_size_sq b) display_blank
                                     (_count_digits (Z.of_nat (_size b))) line;
                  let out := out ++ [text] in
                  if bool_decide (i = 0%nat) then Ok out
                  else if bool_decide (_size_sq b = 0%nat) then Raise ZeroDivisionError
                  else if bool_decide (i mod _size_sq b = _size_sq b - 1)%nat
                       then Ok (out ++ [_print_dlm_horizontal
                                          (_size b) (_size_sq b)
                                          (_count_digits (Z.of_nat (_size b)))])
                       else Ok out)
               (zip (seq i0 (length rows)) rows) out = Ok (out ++ added)
      ∧ length added
        = (length rows + ((i0 + length rows) / _size_sq b - i0 / _size_sq b))%nat
      ∧ Forall (λ text,
                  text = _print_dlm_horizontal (_size b) (_size_sq b)
                                               (_count_digits (Z.of_nat (_size b)))
                  ∨ ∃ line, line ∈ rows
                            ∧ _print_line (_size_sq b) display_blank
                                (_count_digits (Z.of_nat (_size b))) line = Ok text)
               added.
Proof.
  induction 1 as [|line rows [text Htext] _ IH]; intros i0 out Hi0.
  - exists []. rewrite app_nil_r. split; [done|]. split; [|done].
    simpl. rewrite Nat.add_0_r. lia.
  - set (dlm := _print_dlm_horizontal (_size b) (_size_sq b)
                  (_count_digits (Z.of_nat (_size b)))).
    set (step := if bool_decide (i0 mod _size_sq b = _size_sq b - 1)%nat
                 then [text; dlm] else [text]).
    destruct (IH (S i0) (out ++ step) ltac:(lia)) as (added & Hrun & Hlen & Hall).
    exists (step ++ added). split; [|split].
    + cbn [for_each zip zip_with seq length]. rewrite Htext.
      cbn [mbind result_bind].
      rewrite (bool_decide_eq_false_2 (i0 = 0%nat)) at 1 by lia.
      rewrite (bool_decide_eq_false_2 (_size_sq b = 0%nat)) at 1 by lia.
      rewrite (assoc_L (++)). rewrite <- Hrun. unfold step.
      destruct (bool_decide (i0 mod _size_sq b = _size_sq b - 1)%nat) eqn:Hend.
      * by rewrite <- (assoc_L (++) out [text] [dlm]).
      * done.
    + rewrite length_app, Hlen.
      replace (i0 + length (line :: rows))%nat with (S i0 + length rows)%nat
        by (simpl; lia).
      rewrite (succ_div i0 _ Hsq). unfold step.
      assert (i0 / _size_sq b ≤ (S i0 + length rows) / _size_sq b)%nat.
      { apply Nat.Div0.div_le_mono. lia. }
      pose proof (succ_div i0 _ Hsq) as Hs.
      assert (S i0 / _size_sq b ≤ (S i0 + length rows) / _size_sq b)%nat.
      { apply Nat.Div0.div_le_mono. lia. }
      destruct (bool_decide (i0 mod _size_sq b = _size_sq b - 1)%nat); simpl length; lia.
    + apply Forall_app. split.
      * assert (text = dlm ∨ ∃ l, l ∈ line :: rows
                  ∧ _print_line (_size_sq b) display_blank
                      (_count_digits (Z.of_nat (_size b))) l = Ok text) as Htext'.
        { right. exists line. split; [by left|done]. }
        unfold step. destruct (bool_decide (i0 mod _size_sq b = _size_sq b - 1)%nat).
        -- apply Forall_cons. split; [done|]. apply Forall_cons. split; [by left|done].
        -- apply Forall_cons. split; [done|done].
      * eapply Forall_impl; [exact Hall|]. intros t [->|(l & Hl & Ht)]; [by left|].
        right. exists l. split; [by right|done].
Qed.

End PrintBoard.


